(** * change-tracking: path engine, change engine and dataset reconciliation

    A shallow embedding of the TypeScript sources
    - [src/utils/object-manipulator.ts]   (class [ObjectManipulator]),
    - [src/core/document-change-parser.ts] (class [DocumentChangeParser]),
    - [src/core/diff-identifier.ts]       (class [DiffIdentifier]),
    together with the JavaScript primitives they call.

    Modelling conventions.
    - The sources are modules, hence strict-mode code: an assignment to a
      property of a primitive value, and the deletion of a property that
      cannot be deleted, throw a TypeError.
    - A JavaScript string is a [string]: a sequence of 8-bit code units.
      Code units above 255 are outside the model, and so is a JSON text
      with an escape [\u] above [00ff].
    - A JavaScript value is a tree ([JS.value]): objects carry their own
      properties in insertion order, arrays carry their elements (a hole
      is [None]) and their extra non-index properties.  JavaScript
      enumerates the properties whose names are array indices before
      the others; the theorems on the JSON text of an object are about
      objects without such names ([is_json]).
    - The members that a value inherits from the built-in prototypes
      ([JS.prototype_members]) are no values of the model.  A read or a
      write under a key that is no own property and names such a member
      ends the description of the call with the mark [Inherited key];
      nothing is said on what the call does from there on.  The methods
      of arrays are the built-in ones.
    - Numbers are exact decimals with [NaN] and the two infinities.  The
      numbers of the code are binary64: both agree on decimals of at
      most 15 significant digits in the range of the exponents
      ([double_exact]).  Rounding, overflow, underflow and the sign of
      zero are not modelled.
    - Code that mutates its argument in place is written in state-passing
      style: it takes the object and returns the object after the call,
      paired with the exception raised, if any.
    - Where a property is about which object a reference denotes, the
      copy and the original, objects live in a heap ([Heap]): there the
      functions are written once more, on references, with every
      assignment an update of one cell. *)

From stdpp Require Import gmap strings list.
From Stdlib Require Import Ascii ZArith Lia.
From Stdlib Require DecimalString DecimalN DecimalFacts.
From Equations Require Import Equations.

Open Scope string_scope.
Open Scope list_scope.

(* ===================================================================== *)
(** * Characters and strings *)
(* ===================================================================== *)

Module Chars.

Definition code (c : ascii) : N := N_of_ascii c.

Definition in_range (lo hi c : ascii) : bool :=
  ((code lo <=? code c) && (code c <=? code hi))%N.

Definition is_digit (c : ascii) : bool := in_range "0" "9" c.
Definition is_lower (c : ascii) : bool := in_range "a" "z" c.
Definition is_upper (c : ascii) : bool := in_range "A" "Z" c.

(** The double quote. *)
Definition dquote : ascii := ascii_of_N 34.

Definition chars (s : string) : list ascii := String.list_ascii_of_string s.
Definition str (l : list ascii) : string := String.string_of_list_ascii l.

(** [s] between double quotes. *)
Definition quoted (s : string) : string :=
  String dquote (s +:+ String dquote EmptyString).

End Chars.

(* ===================================================================== *)
(** * Regular expressions, as far as [PROPERTY_PATH_REGEX] uses them *)
(* ===================================================================== *)

Module Regex.
Import Chars.

(** One item of a character class: a literal, a range [lo-hi], or [\d]. *)
Inductive item :=
| Lit (c : ascii)
| Range (lo hi : ascii)
| Digit.

Definition item_matches (i : item) (c : ascii) : bool :=
  match i with
  | Lit d => Ascii.eqb d c
  | Range lo hi => in_range lo hi c
  | Digit => is_digit c
  end.

(** The pattern language: one character out of a class, concatenation,
    [r*], [r+] and [r?].  Groups only bracket and are not represented. *)
Inductive regex :=
| Eps
| Class (items : list item)
| Cat (r1 r2 : regex)
| Star (r : regex)
| Plus (r : regex)
| Opt (r : regex).

Definition class_matches (items : list item) (c : ascii) : bool :=
  existsb (fun i => item_matches i c) items.

(** The words of a pattern. *)
Inductive Lang : regex → list ascii → Prop :=
| LEps : Lang Eps []
| LClass items c : class_matches items c = true → Lang (Class items) [c]
| LCat r1 r2 s1 s2 : Lang r1 s1 → Lang r2 s2 → Lang (Cat r1 r2) (s1 ++ s2)
| LStarNil r : Lang (Star r) []
| LStarApp r s1 s2 : Lang r s1 → Lang (Star r) s2 → Lang (Star r) (s1 ++ s2)
| LPlus r s1 s2 : Lang r s1 → Lang (Star r) s2 → Lang (Plus r) (s1 ++ s2)
| LOptNil r : Lang (Opt r) []
| LOptOne r s : Lang r s → Lang (Opt r) s.

(** Matching by partial derivatives: [deriv c r] lists patterns for what
    may follow a leading [c].  [test] is an anchored match of the whole
    input, which is what [^...$] without flags asks of [RegExp.test]. *)
Fixpoint nullable (r : regex) : bool :=
  match r with
  | Eps => true
  | Class _ => false
  | Cat r1 r2 => nullable r1 && nullable r2
  | Star _ => true
  | Plus r1 => nullable r1
  | Opt _ => true
  end.

Fixpoint deriv (c : ascii) (r : regex) : list regex :=
  match r with
  | Eps => []
  | Class items => if class_matches items c then [Eps] else []
  | Cat r1 r2 =>
      map (fun d => Cat d r2) (deriv c r1)
        ++ (if nullable r1 then deriv c r2 else [])
  | Star r1 => map (fun d => Cat d (Star r1)) (deriv c r1)
  | Plus r1 => map (fun d => Cat d (Star r1)) (deriv c r1)
  | Opt r1 => deriv c r1
  end.

Fixpoint run (rs : list regex) (s : list ascii) : bool :=
  match s with
  | [] => existsb nullable rs
  | c :: s' => run (flat_map (deriv c) rs) s'
  end.

Definition test (r : regex) (s : string) : bool := run [r] (chars s).

End Regex.

(* ===================================================================== *)
(** * JavaScript values and the primitives the sources rely on *)
(* ===================================================================== *)

Module JS.
Import Chars.

(** ** Numbers *)

(** [Finite m e] stands for [m * 10^e]; [mk_finite] keeps [m] free of
    trailing zeros so that equal numbers are equal terms. *)
Inductive number :=
| NaN
| Infinity (negative : bool)
| Finite (m e : Z).

Fixpoint strip_zeros (fuel : nat) (m e : Z) : Z * Z :=
  match fuel with
  | O => (m, e)
  | S f => if (m mod 10 =? 0)%Z then strip_zeros f (m / 10)%Z (e + 1)%Z else (m, e)
  end.

Definition mk_finite (m e : Z) : number :=
  if (m =? 0)%Z then Finite 0 0
  else let '(m', e') := strip_zeros (Z.to_nat (Z.log2 (Z.abs m)) + 1) m e in
       Finite m' e'.

Definition of_Z (z : Z) : number := mk_finite z 0.
Definition of_nat (n : nat) : number := of_Z (Z.of_nat n).

(** The result of [ToIntegerOrInfinity]. *)
Inductive integer :=
| MinusInf
| Int (z : Z)
| PlusInf.

Definition ToIntegerOrInfinity (n : number) : integer :=
  match n with
  | NaN => Int 0
  | Infinity true => MinusInf
  | Infinity false => PlusInf
  | Finite m e => Int (if (0 <=? e)%Z then m * 10 ^ e else Z.quot m (10 ^ (- e)))%Z
  end.

Definition is_integral (n : number) : option Z :=
  match n with
  | Finite m e => if (0 <=? e)%Z then Some (m * 10 ^ e)%Z else None
  | _ => None
  end.

(** The order of [m1 * 10^e1] and [m2 * 10^e2]. *)
Definition num_cmp_finite (m1 e1 m2 e2 : Z) : comparison :=
  let e := Z.min e1 e2 in
  (m1 * 10 ^ (e1 - e) ?= m2 * 10 ^ (e2 - e))%Z.

(** [a < b] and [a <= b] on numbers, false as soon as one side is
    [NaN]. *)
Definition num_lt (a b : number) : bool :=
  match a, b with
  | NaN, _ | _, NaN => false
  | Infinity true, Infinity true => false
  | Infinity true, _ => true
  | _, Infinity true => false
  | Infinity false, _ => false
  | _, Infinity false => true
  | Finite m1 e1, Finite m2 e2 =>
      match num_cmp_finite m1 e1 m2 e2 with Lt => true | _ => false end
  end.

Definition num_le (a b : number) : bool :=
  match a, b with
  | NaN, _ | _, NaN => false
  | _, _ => negb (num_lt b a)
  end.

(** [a === b] on numbers. *)
Definition num_eq (a b : number) : bool :=
  match a, b with
  | Infinity s1, Infinity s2 => Bool.eqb s1 s2
  | Finite m1 e1, Finite m2 e2 =>
      match num_cmp_finite m1 e1 m2 e2 with Eq => true | _ => false end
  | _, _ => false
  end.

(** *** Digits *)

Definition digit_value (c : ascii) : Z := Z.of_N (code c) - 48.

Definition digits_value (ds : list ascii) : Z :=
  fold_left (fun acc c => acc * 10 + digit_value c)%Z ds 0%Z.

Definition hex_digit_value (c : ascii) : option Z :=
  if is_digit c then Some (Z.of_N (code c) - 48)%Z
  else if in_range "a" "f" c then Some (Z.of_N (code c) - 87)%Z
  else if in_range "A" "F" c then Some (Z.of_N (code c) - 55)%Z
  else None.

Fixpoint radix_value (radix : Z) (ds : list ascii) (acc : Z) : option Z :=
  match ds with
  | [] => Some acc
  | c :: ds' =>
      match hex_digit_value c with
      | Some d => if (d <? radix)%Z then radix_value radix ds' (acc * radix + d)%Z
                  else None
      | None => None
      end
  end.

Definition decimal_digits (n : Z) : list ascii :=
  chars (DecimalString.NilZero.string_of_uint (N.to_uint (Z.to_N n))).

Fixpoint span {A} (p : A → bool) (l : list A) : list A * list A :=
  match l with
  | [] => ([], [])
  | x :: l' => if p x then let '(a, b) := span p l' in (x :: a, b) else ([], l)
  end.

(** *** Number::toString, for radix 10 *)

Definition number_to_chars (x : number) : list ascii :=
  match x with
  | NaN => chars "NaN"
  | Infinity false => chars "Infinity"
  | Infinity true => chars "-Infinity"
  | Finite m e =>
      if (m =? 0)%Z then chars "0"
      else
        let sign := if (m <? 0)%Z then chars "-" else [] in
        let ds := decimal_digits (Z.abs m) in
        let k := Z.of_nat (length ds) in
        let n := (k + e)%Z in
        sign ++
        (if ((k <=? n) && (n <=? 21))%Z then
           ds ++ replicate (Z.to_nat (n - k)) "0"%char
         else if ((0 <? n) && (n <=? 21))%Z then
           take (Z.to_nat n) ds ++ "."%char :: drop (Z.to_nat n) ds
         else if ((-6 <? n) && (n <=? 0))%Z then
           "0"%char :: "."%char :: replicate (Z.to_nat (- n)) "0"%char ++ ds
         else
           let x := (n - 1)%Z in
           let esign := if (x <? 0)%Z then "-"%char else "+"%char in
           let mant := match ds with
                       | [d] => [d]
                       | d :: rest => d :: "."%char :: rest
                       | [] => []
                       end in
           mant ++ "e"%char :: esign :: decimal_digits (Z.abs x))
  end.

Definition number_to_string (x : number) : string := str (number_to_chars x).

(** *** StringToNumber: what [Number(s)] computes *)

(** The white space and line terminators that fit in eight bits. *)
Definition is_whitespace (c : ascii) : bool :=
  match code c with
  | 9 | 10 | 11 | 12 | 13 | 32 | 160 => true
  | _ => false
  end%N.

Fixpoint trim_start (l : list ascii) : list ascii :=
  match l with
  | c :: l' => if is_whitespace c then trim_start l' else l
  | [] => []
  end.

Definition trim_chars (l : list ascii) : list ascii :=
  rev (trim_start (rev (trim_start l))).

(** [String.prototype.trim]. *)
Definition trim (s : string) : string := str (trim_chars (chars s)).

(** An optional sign: whether it is a minus, and what follows it. *)
Definition sign (l : list ascii) : bool * list ascii :=
  match l with
  | "-"%char :: r => (true, r)
  | "+"%char :: r => (false, r)
  | _ => (false, l)
  end.

(** An optional exponent part, then the end of the input. *)
Definition exponent_part (l : list ascii) : option Z :=
  match l with
  | [] => Some 0%Z
  | c :: r =>
      if Ascii.eqb c "e" || Ascii.eqb c "E" then
        let '(neg, r') := sign r in
        match span is_digit r' with
        | (d :: ds, []) =>
            Some (if neg then - digits_value (d :: ds) else digits_value (d :: ds))%Z
        | _ => None
        end
      else None
  end.

(** An unsigned decimal literal: [digits], [digits.], [digits.digits] or
    [.digits], each with an optional exponent. *)
Definition unsigned_decimal (l : list ascii) : option (Z * Z) :=
  let '(ip, r1) := span is_digit l in
  let '(fp, r2) := match r1 with
                   | "."%char :: r => span is_digit r
                   | _ => ([], r1)
                   end in
  match ip, fp with
  | [], [] => None
  | _, _ =>
      match exponent_part r2 with
      | Some x => Some (digits_value (ip ++ fp), x - Z.of_nat (length fp))%Z
      | None => None
      end
  end.

Definition signed_decimal (l : list ascii) : number :=
  let '(neg, r) := sign l in
  if decide (r = chars "Infinity") then Infinity neg
  else match unsigned_decimal r with
       | Some (m, e) => mk_finite (if neg then - m else m) e
       | None => NaN
       end.

Definition non_decimal (l : list ascii) : option number :=
  match l with
  | "0"%char :: p :: d :: ds =>
      let radix := if Ascii.eqb p "x" || Ascii.eqb p "X" then Some 16%Z
                   else if Ascii.eqb p "o" || Ascii.eqb p "O" then Some 8%Z
                   else if Ascii.eqb p "b" || Ascii.eqb p "B" then Some 2%Z
                   else None in
      match radix with
      | Some rx => Some (match radix_value rx (d :: ds) 0%Z with
                         | Some z => of_Z z
                         | None => NaN
                         end)
      | None => None
      end
  | _ => None
  end.

(** [Number(s)] for a string [s], as the exact decimal that [s]
    writes.  The code has the nearest binary64 number: the same number
    for a decimal of at most 15 significant digits in the range of the
    exponents, a rounded one or an infinity beyond. *)
Definition Number (s : string) : number :=
  match trim_chars (chars s) with
  | [] => of_Z 0
  | l => match non_decimal l with
         | Some n => n
         | None => signed_decimal l
         end
  end.

(** [parseInt(s, 10)]: leading white space, a sign, then the longest run
    of decimal digits; whatever follows is ignored.  The result is the
    exact integer of the digits.  The code has the nearest binary64
    number: the same for at most 15 digits, a rounded one beyond, and
    [Infinity] from 310 digits on. *)
Definition parseInt (s : string) : number :=
  let '(neg, r) := sign (trim_start (chars s)) in
  match span is_digit r with
  | ([], _) => NaN
  | (ds, _) => of_Z (if neg then - digits_value ds else digits_value ds)
  end.

(** ** Values *)

#[warnings="-register-all"]
Inductive value :=
| VUndefined
| VNull
| VBool (b : bool)
| VNum (n : number)
| VStr (s : string)
| VObj (props : list (string * value))
| VArr (elems : list (option value)) (props : list (string * value)).

Abbreviation properties := (list (string * value)).

(** The exceptions of the platform and of the library.

    [Inherited key] is no exception.  It marks a call that, under [key],
    reads or writes a member which the container does not own but
    inherits from a built-in prototype object ([constructor],
    [toString], [__proto__], the methods of arrays and strings, ...).
    These objects belong to the platform and are shared by all objects;
    what the call finds there, and what it changes there, is not
    described here.  The description of the call ends at that point, the
    way it ends at an exception, and says nothing about how the call
    itself goes on. *)
Inductive inactive_kind := ALREADY_DELETED | MISSING.

Inductive error :=
| TypeError
| RangeError
| Error (message : string)
| InvalidPathError (path : string)
| InactiveItemError (message itemName : string) (errorType : inactive_kind)
| Inherited (key : string).

(** An operation that mutates its target returns the target as it is
    after the call, and the exception that ended the call, if any. *)
Abbreviation outcome := (value * option error)%type.

(** A call that mutates nothing either returns or throws. *)
Inductive result (A : Type) :=
| Returned (a : A)
| Thrown (e : error).
Arguments Returned {A} a.
Arguments Thrown {A} e.

Definition nullish (v : value) : bool :=
  match v with
  | VUndefined | VNull => true
  | _ => false
  end.

Definition typeof (v : value) : string :=
  match v with
  | VUndefined => "undefined"
  | VNull => "object"
  | VBool _ => "boolean"
  | VNum _ => "number"
  | VStr _ => "string"
  | VObj _ | VArr _ _ => "object"
  end.

Definition isArray (v : value) : bool :=
  match v with
  | VArr _ _ => true
  | _ => false
  end.

Definition ToBoolean (v : value) : bool :=
  match v with
  | VUndefined | VNull => false
  | VBool b => b
  | VNum NaN => false
  | VNum (Finite m _) => negb (m =? 0)%Z
  | VNum (Infinity _) => true
  | VStr s => negb (String.eqb s EmptyString)
  | VObj _ | VArr _ _ => true
  end.

(** *** Own properties *)

Fixpoint prop_lookup (k : string) (ps : properties) : option value :=
  match ps with
  | [] => None
  | (k', v) :: ps' => if String.eqb k' k then Some v else prop_lookup k ps'
  end.

(** Assigning keeps the position of a key that exists and appends a new
    one.  (In JavaScript a new key that is an array index goes before
    the keys that are none; the order of the properties shows in
    [Object.keys] and in the JSON text only.) *)
Fixpoint prop_assign (k : string) (v : value) (ps : properties) : properties :=
  match ps with
  | [] => [(k, v)]
  | (k', v') :: ps' =>
      if String.eqb k' k then (k, v) :: ps' else (k', v') :: prop_assign k v ps'
  end.

Definition prop_remove (k : string) (ps : properties) : properties :=
  filter (fun p => negb (String.eqb (fst p) k) = true) ps.

(** An array index is a canonical numeric string below [2^32 - 1]. *)
Definition array_index (k : string) : option nat :=
  match chars k with
  | [] => None
  | c :: cs =>
      if forallb is_digit (c :: cs) && implb (Ascii.eqb c "0") (bool_decide (cs = []))
      then let n := digits_value (c :: cs) in
           if (n <? 2 ^ 32 - 1)%Z then Some (Z.to_nat n) else None
      else None
  end.

(** *** Conversions *)

Definition join (sep : list ascii) (parts : list (list ascii)) : list ascii :=
  match parts with
  | [] => []
  | p :: ps => p ++ flat_map (fun q => sep ++ q) ps
  end.

(** [String(v)].  An array joins its elements with a comma, [null],
    [undefined] and holes giving the empty string. *)
Fixpoint ToString (v : value) : string :=
  match v with
  | VUndefined => "undefined"
  | VNull => "null"
  | VBool true => "true"
  | VBool false => "false"
  | VNum n => number_to_string n
  | VStr s => s
  | VObj _ => "[object Object]"
  | VArr es _ =>
      str (join [","%char]
             (map (fun e => match e with
                            | Some x => if nullish x then [] else chars (ToString x)
                            | None => []
                            end) es))
  end.

Definition ToNumber (v : value) : number :=
  match v with
  | VUndefined => NaN
  | VNull => of_Z 0
  | VBool true => of_Z 1
  | VBool false => of_Z 0
  | VNum n => n
  | VStr s => Number s
  | VObj _ => NaN
  | VArr _ _ => Number (ToString v)
  end.

Definition elem_value (e : option (option value)) : value :=
  match e with
  | Some (Some v) => v
  | _ => VUndefined
  end.

(** *** What a value owns and what it inherits *)

(** The names of the members of the built-in prototype objects
    (ECMAScript 2025 with its Annex B): [Object.prototype],
    [Array.prototype], [String.prototype], [Number.prototype] and
    [Boolean.prototype].  A name too many in these lists only makes the
    description end earlier. *)
Definition object_members : list string :=
  ["constructor"; "__defineGetter__"; "__defineSetter__"; "hasOwnProperty";
   "__lookupGetter__"; "__lookupSetter__"; "isPrototypeOf"; "propertyIsEnumerable";
   "toString"; "valueOf"; "__proto__"; "toLocaleString"].

Definition array_members : list string :=
  ["at"; "concat"; "copyWithin"; "entries"; "every"; "fill"; "filter"; "find";
   "findIndex"; "findLast"; "findLastIndex"; "flat"; "flatMap"; "forEach";
   "includes"; "indexOf"; "join"; "keys"; "lastIndexOf"; "map"; "pop"; "push";
   "reduce"; "reduceRight"; "reverse"; "shift"; "slice"; "some"; "sort"; "splice";
   "toReversed"; "toSorted"; "toSpliced"; "unshift"; "values"; "with"].

Definition string_members : list string :=
  ["at"; "charAt"; "charCodeAt"; "codePointAt"; "concat"; "endsWith"; "includes";
   "indexOf"; "isWellFormed"; "lastIndexOf"; "localeCompare"; "match"; "matchAll";
   "normalize"; "padEnd"; "padStart"; "repeat"; "replace"; "replaceAll"; "search";
   "slice"; "split"; "startsWith"; "substring"; "toLocaleLowerCase";
   "toLocaleUpperCase"; "toLowerCase"; "toUpperCase"; "toWellFormed"; "trim";
   "trimEnd"; "trimStart"; "substr"; "anchor"; "big"; "blink"; "bold"; "fixed";
   "fontcolor"; "fontsize"; "italics"; "link"; "small"; "strike"; "sub"; "sup";
   "trimLeft"; "trimRight"].

Definition number_members : list string :=
  ["toExponential"; "toFixed"; "toPrecision"].

Definition prototype_members (o : value) : list string :=
  match o with
  | VObj _ => object_members
  | VArr _ _ => array_members ++ object_members
  | VStr _ => string_members ++ object_members
  | VNum _ => number_members ++ object_members
  | VBool _ => object_members
  | VUndefined | VNull => []
  end.

(** [Object.hasOwn(o, k)]: a property of an object, an element (not a
    hole) or a further property of an array, the length of an array or
    of a string, a character of a string. *)
Definition owns (o : value) (k : string) : bool :=
  match o with
  | VObj ps => bool_decide (is_Some (prop_lookup k ps))
  | VArr es ps =>
      match array_index k with
      | Some i => match es !! i with
                  | Some (Some _) => true
                  | _ => false
                  end
      | None => String.eqb k "length" || bool_decide (is_Some (prop_lookup k ps))
      end
  | VStr s =>
      match array_index k with
      | Some i => bool_decide (i < length (chars s))
      | None => String.eqb k "length"
      end
  | _ => false
  end.

(** The key names a member that [o] does not own and finds in its
    prototype chain. *)
Definition inherited (o : value) (k : string) : bool :=
  negb (owns o k) && existsb (String.eqb k) (prototype_members o).
Arguments inherited : simpl never.

(** *** Reading, writing and deleting a property (strict mode) *)

(** [o[k]] where nothing is inherited under [k]: the own property, or
    [undefined] when there is none; [None] is the TypeError of reading
    through [undefined] or [null]. *)
Definition GetOwn (o : value) (k : string) : option value :=
  match o with
  | VUndefined | VNull => None
  | VBool _ | VNum _ => Some VUndefined
  | VStr s =>
      Some match array_index k with
           | Some i => match chars s !! i with
                       | Some c => VStr (str [c])
                       | None => VUndefined
                       end
           | None => if String.eqb k "length" then VNum (of_nat (length (chars s)))
                     else VUndefined
           end
  | VObj ps => Some (default VUndefined (prop_lookup k ps))
  | VArr es ps =>
      Some match array_index k with
           | Some i => elem_value (es !! i)
           | None => if String.eqb k "length" then VNum (of_nat (length es))
                     else default VUndefined (prop_lookup k ps)
           end
  end.

(** [o[k]]: an own property shadows what is inherited; a key under which
    the value inherits a member ends the description. *)
Definition Get (o : value) (k : string) : result value :=
  if inherited o k then Thrown (Inherited k)
  else match GetOwn o k with
       | Some v => Returned v
       | None => Thrown TypeError
       end.

Definition array_store (i : nat) (x : value) (es : list (option value)) :
    list (option value) :=
  if decide (i < length es) then <[i := Some x]> es
  else es ++ replicate (i - length es) None ++ [Some x].

Definition array_resize (n : nat) (es : list (option value)) : list (option value) :=
  take n es ++ replicate (n - length es) None.

Definition valid_length (n : number) : option nat :=
  match is_integral n with
  | Some z => if ((0 <=? z) && (z <? 2 ^ 32))%Z then Some (Z.to_nat z) else None
  | None => None
  end.

(** [o[k] = x] where nothing is inherited under [k]. *)
Definition PutOwn (o : value) (k : string) (x : value) : outcome :=
  match o with
  | VObj ps => (VObj (prop_assign k x ps), None)
  | VArr es ps =>
      match array_index k with
      | Some i => (VArr (array_store i x es) ps, None)
      | None =>
          if String.eqb k "length" then
            match valid_length (ToNumber x) with
            | Some n => (VArr (array_resize n es) ps, None)
            | None => (o, Some RangeError)
            end
          else (VArr es (prop_assign k x ps), None)
      end
  | _ => (o, Some TypeError)
  end.

(** [o[k] = x].  The assignment looks the key up in the prototype chain
    before it writes (an inherited setter or a read-only member decides
    what happens), so a key that is inherited ends the description. *)
Definition Put (o : value) (k : string) (x : value) : outcome :=
  if inherited o k then (o, Some (Inherited k)) else PutOwn o k x.

(** [delete o[k]]: only an own property is deleted, so what is inherited
    plays no part. *)
Definition Delete (o : value) (k : string) : outcome :=
  match o with
  | VUndefined | VNull => (o, Some TypeError)
  | VBool _ | VNum _ => (o, None)
  | VStr s =>
      match array_index k with
      | Some i => if decide (i < length (chars s)) then (o, Some TypeError) else (o, None)
      | None => if String.eqb k "length" then (o, Some TypeError) else (o, None)
      end
  | VObj ps => (VObj (prop_remove k ps), None)
  | VArr es ps =>
      match array_index k with
      | Some i => (VArr (if decide (i < length es) then <[i := None]> es else es) ps, None)
      | None => if String.eqb k "length" then (o, Some TypeError)
                else (VArr es (prop_remove k ps), None)
      end
  end.

(** *** Array methods *)

Definition splice_start (rel : integer) (len : nat) : nat :=
  match rel with
  | MinusInf => 0
  | PlusInf => len
  | Int z => if (z <? 0)%Z then Z.to_nat (Z.max (Z.of_nat len + z) 0)
             else Z.to_nat (Z.min z (Z.of_nat len))
  end.

(** The elements after [splice(start, deleteCount, ...items)]. *)
Definition spliced (start : number) (deleteCount : nat) (items : list value)
    (es : list (option value)) : list (option value) :=
  let a := splice_start (ToIntegerOrInfinity start) (length es) in
  let d := Nat.min deleteCount (length es - a) in
  take a es ++ map Some items ++ drop (a + d) es.

(** [arr.splice(start, deleteCount, ...items)].  Only an array has the
    method; on any other receiver the call is a TypeError.  The method
    is the built-in one: an array with an own property [splice] is
    outside the model. *)
Definition splice (arr : value) (start : number) (deleteCount : nat)
    (items : list value) : outcome :=
  match arr with
  | VArr es ps => (VArr (spliced start deleteCount items es) ps, None)
  | _ => (arr, Some TypeError)
  end.

(** [arr.push(x)], the built-in method: an array with an own property
    [push] is outside the model. *)
Definition push (arr : value) (x : value) : outcome :=
  match arr with
  | VArr es ps => (VArr (es ++ [Some x]) ps, None)
  | _ => (arr, Some TypeError)
  end.


(** ** JSON *)

Definition hex_digit (n : N) : ascii :=
  ascii_of_N (if (n <? 10)%N then 48 + n else 87 + n).

(** [QuoteJSONString], without the surrounding quotes. *)
Definition escape_char (c : ascii) : list ascii :=
  if Ascii.eqb c dquote then ["\"%char; dquote]
  else if Ascii.eqb c "\" then ["\"; "\"]%char
  else match code c with
       | 8 => ["\"; "b"]%char
       | 9 => ["\"; "t"]%char
       | 10 => ["\"; "n"]%char
       | 12 => ["\"; "f"]%char
       | 13 => ["\"; "r"]%char
       | n => if (n <? 32)%N
              then ["\"; "u"; "0"; "0"; hex_digit (n / 16); hex_digit (n mod 16)]%char
              else [c]
       end%N.

Definition quote (s : list ascii) : list ascii :=
  dquote :: flat_map escape_char s ++ [dquote].

(** [JSON.stringify(v)] without replacer or indentation; [None] is the
    [undefined] it returns for [undefined].  Inside an array [undefined]
    and holes print as [null]; inside an object a property holding
    [undefined] is left out; [NaN] and the infinities print as [null].
    The properties of an object are written in the order of the list.
    JavaScript writes those whose names are array indices first: the
    text of an object with such names is another one in the code. *)
Fixpoint stringify_chars (v : value) : option (list ascii) :=
  match v with
  | VUndefined => None
  | VNull => Some (chars "null")
  | VBool true => Some (chars "true")
  | VBool false => Some (chars "false")
  | VNum (Finite m e) => Some (number_to_chars (Finite m e))
  | VNum _ => Some (chars "null")
  | VStr s => Some (quote (chars s))
  | VArr es _ =>
      Some ("["%char ::
            join [","%char]
              (map (fun e => match e with
                             | Some x => default (chars "null") (stringify_chars x)
                             | None => chars "null"
                             end) es)
            ++ ["]"%char])
  | VObj ps =>
      Some ("{"%char ::
            join [","%char]
              (flat_map (fun p => match stringify_chars (snd p) with
                                  | Some t => [quote (chars (fst p)) ++ ":"%char :: t]
                                  | None => []
                                  end) ps)
            ++ ["}"%char])
  end.

Definition JSON_stringify (v : value) : option string :=
  str <$> stringify_chars v.

(** *** Parsing *)

Definition is_json_space (c : ascii) : bool :=
  match code c with
  | 9 | 10 | 13 | 32 => true
  | _ => false
  end%N.

Fixpoint skip_ws (l : list ascii) : list ascii :=
  match l with
  | c :: l' => if is_json_space c then skip_ws l' else l
  | [] => []
  end.

Definition hex4 (a b c d : ascii) : option Z :=
  radix_value 16 [a; b; c; d] 0%Z.

(** The characters of a string literal after its opening quote, up to
    the closing one.  An escape [\u] above [00ff] has no character
    here: such a text, which [JSON.parse] reads in the code, is not
    read. *)
Fixpoint parse_string (l : list ascii) (acc : list ascii) :
    option (list ascii * list ascii) :=
  match l with
  | [] => None
  | c :: r =>
      if Ascii.eqb c dquote then Some (rev acc, r)
      else if Ascii.eqb c "\" then
        match r with
        | e :: r' =>
            let simple (x : ascii) := parse_string r' (x :: acc) in
            if Ascii.eqb e dquote then simple dquote
            else if Ascii.eqb e "\" then simple "\"%char
            else if Ascii.eqb e "/" then simple "/"%char
            else if Ascii.eqb e "b" then simple (ascii_of_N 8)
            else if Ascii.eqb e "f" then simple (ascii_of_N 12)
            else if Ascii.eqb e "n" then simple (ascii_of_N 10)
            else if Ascii.eqb e "r" then simple (ascii_of_N 13)
            else if Ascii.eqb e "t" then simple (ascii_of_N 9)
            else if Ascii.eqb e "u" then
              match r' with
              | h1 :: h2 :: h3 :: h4 :: r'' =>
                  match hex4 h1 h2 h3 h4 with
                  | Some z => if (z <? 256)%Z
                              then parse_string r'' (ascii_of_N (Z.to_N z) :: acc)
                              else None
                  | None => None
                  end
              | _ => None
              end
            else None
        | [] => None
        end
      else if (code c <? 32)%N then None
      else parse_string r (c :: acc)
  end.

(** The parts of a number literal,
    [-? (0 | [1-9] digit* ) (. digit+)? ([eE] [+-]? digit+)?]. *)
Definition minus (l : list ascii) : bool * list ascii :=
  match l with
  | "-"%char :: r => (true, r)
  | _ => (false, l)
  end.

Definition integer_part_ok (ip : list ascii) : bool :=
  match ip with
  | [] => false
  | "0"%char :: _ :: _ => false
  | _ => true
  end.

Definition fraction (l : list ascii) : option (list ascii * list ascii) :=
  match l with
  | "."%char :: r => match span is_digit r with
                     | ([], _) => None
                     | (fp, r') => Some (fp, r')
                     end
  | _ => Some ([], l)
  end.

Definition exponent (l : list ascii) : option (Z * list ascii) :=
  match l with
  | c :: r =>
      if Ascii.eqb c "e" || Ascii.eqb c "E" then
        let '(neg, r') := sign r in
        match span is_digit r' with
        | ([], _) => None
        | (ds, r'') => Some (if neg then - digits_value ds else digits_value ds, r'')%Z
        end
      else Some (0%Z, l)
  | [] => Some (0%Z, l)
  end.

Definition parse_number (l : list ascii) : option (number * list ascii) :=
  let '(neg, r0) := minus l in
  let '(ip, r1) := span is_digit r0 in
  if negb (integer_part_ok ip) then None
  else
    match fraction r1 with
    | None => None
    | Some (fp, r2) =>
        match exponent r2 with
        | None => None
        | Some (x, r3) =>
            let m := digits_value (ip ++ fp) in
            Some (mk_finite (if neg then - m else m)%Z (x - Z.of_nat (length fp))%Z, r3)
        end
    end.

Definition strip_prefix (p l : list ascii) : option (list ascii) :=
  if decide (take (length p) l = p) then Some (drop (length p) l) else None.

(** One value, then the rest of the input.  [fuel] bounds the depth of
    the calls. *)
Fixpoint parse_value (fuel : nat) (l : list ascii) : option (value * list ascii) :=
  match fuel with
  | O => None
  | S f =>
      match skip_ws l with
      | [] => None
      | c :: r =>
          if Ascii.eqb c "{" then
            match skip_ws r with
            | [] => None
            | c' :: r' =>
                if Ascii.eqb c' "}" then Some (VObj [], r')
                else match parse_members f (c' :: r') [] with
                     | Some (ps, r'') => Some (VObj ps, r'')
                     | None => None
                     end
            end
          else if Ascii.eqb c "[" then
            match skip_ws r with
            | [] => None
            | c' :: r' =>
                if Ascii.eqb c' "]" then Some (VArr [] [], r')
                else match parse_elements f (c' :: r') [] with
                     | Some (es, r'') => Some (VArr es [], r'')
                     | None => None
                     end
            end
          else if Ascii.eqb c dquote then
            match parse_string r [] with
            | Some (s, r') => Some (VStr (str s), r')
            | None => None
            end
          else if Ascii.eqb c "t" then
            (fun r' => (VBool true, r')) <$> strip_prefix (chars "rue") r
          else if Ascii.eqb c "f" then
            (fun r' => (VBool false, r')) <$> strip_prefix (chars "alse") r
          else if Ascii.eqb c "n" then
            (fun r' => (VNull, r')) <$> strip_prefix (chars "ull") r
          else match parse_number (c :: r) with
               | Some (n, r') => Some (VNum n, r')
               | None => None
               end
      end
  end

(** [value (, value)* ]] *)
with parse_elements (fuel : nat) (l : list ascii) (acc : list (option value)) :
    option (list (option value) * list ascii) :=
  match fuel with
  | O => None
  | S f =>
      match parse_value f l with
      | Some (v, r) =>
          match skip_ws r with
          | c :: r' =>
              if Ascii.eqb c "," then parse_elements f r' (acc ++ [Some v])
              else if Ascii.eqb c "]" then Some (acc ++ [Some v], r')
              else None
          | [] => None
          end
      | None => None
      end
  end

(** [string : value (, string : value)* }]; a repeated key keeps its
    first position and takes the last value. *)
with parse_members (fuel : nat) (l : list ascii) (acc : properties) :
    option (properties * list ascii) :=
  match fuel with
  | O => None
  | S f =>
      match skip_ws l with
      | c :: r =>
          if Ascii.eqb c dquote then
            match parse_string r [] with
            | Some (k, r1) =>
                match skip_ws r1 with
                | c1 :: r2 =>
                    if Ascii.eqb c1 ":" then
                      match parse_value f r2 with
                      | Some (v, r3) =>
                          match skip_ws r3 with
                          | c3 :: r4 =>
                              if Ascii.eqb c3 "," then
                                parse_members f r4 (prop_assign (str k) v acc)
                              else if Ascii.eqb c3 "}" then
                                Some (prop_assign (str k) v acc, r4)
                              else None
                          | [] => None
                          end
                      | None => None
                      end
                    else None
                | [] => None
                end
            | None => None
            end
          else None
      | [] => None
      end
  end.

(** [JSON.parse(text)]; [None] is its SyntaxError.  A value never needs
    more fuel than it has characters (see [parse_value_fuel]), so the
    length of the text is fuel enough. *)
Definition JSON_parse (text : string) : option value :=
  let l := chars text in
  match parse_value (S (length l)) l with
  | Some (v, r) => match skip_ws r with
                   | [] => Some v
                   | _ => None
                   end
  | None => None
  end.

End JS.

(* ===================================================================== *)
(** * ObjectManipulator *)
(* ===================================================================== *)

Module ObjectManipulator.
Import Chars JS.

(** [l.indexOf(c)] *)
Fixpoint index_of (c : ascii) (l : list ascii) : option nat :=
  match l with
  | [] => None
  | x :: l' => if Ascii.eqb x c then Some 0 else S <$> index_of c l'
  end.

(** [result.push(current); current = ''], guarded by [if (current)]. *)
Definition flush (current : list ascii) (result : list string) : list string :=
  match current with
  | [] => result
  | _ => result ++ [str current]
  end.

(** The loop of [parsePath] over the characters that are left.  After an
    opening bracket that has a closing one the loop resumes behind the
    closing bracket. *)
Equations? parsePath_loop (rest : list ascii) (current : list ascii)
    (result : list string) : list string by wf (length rest) lt :=
  parsePath_loop [] current result := flush current result;
  parsePath_loop (c :: rest) current result :=
    if Ascii.eqb c "." then parsePath_loop rest [] (flush current result)
    else if Ascii.eqb c "[" then
      match index_of "]" rest with
      | Some closing =>
          parsePath_loop (drop (S closing) rest) []
            (flush current result ++ [str (take closing rest)])
      | None => parsePath_loop rest [] (flush current result)
      end
    else if Ascii.eqb c "]" then parsePath_loop rest current result
    else parsePath_loop rest (current ++ [c]) result.
Proof. all: try (simpl; lia). simpl. rewrite length_drop. lia. Qed.

Definition parsePath (path : string) : list string :=
  parsePath_loop (chars path) [] [].

(** [/^\d+$/.test(k)] *)
Definition is_numeric (k : string) : bool :=
  match chars k with
  | [] => false
  | l => forallb is_digit l
  end.

(** [keys[keys.length - 1]] used as a property key: [undefined] names the
    property ["undefined"] when there is no key at all. *)
Definition key_undefined : string := "undefined".

(** A container that was reached as [parent[key]] and then mutated in
    place is, seen from the parent, the new content of that slot.  Only
    own slots of objects and arrays hold containers; nothing else is
    touched. *)
Definition rebind (parent : value) (key : string) (child : value) : value :=
  match parent with
  | VObj ps =>
      match prop_lookup key ps with
      | Some _ => VObj (prop_assign key child ps)
      | None => parent
      end
  | VArr es ps =>
      match array_index key with
      | Some i => match es !! i with
                  | Some (Some _) => VArr (<[i := Some child]> es) ps
                  | _ => parent
                  end
      | None => if String.eqb key "length" then parent
                else match prop_lookup key ps with
                     | Some _ => VArr es (prop_assign key child ps)
                     | None => parent
                     end
      end
  | _ => parent
  end.

(** The loop and the final assignment of [setPropertyValue], from the
    container [current] on. *)
Fixpoint set_walk (current : value) (keys : list string) (value : value) : outcome :=
  match keys with
  | [] => Put current key_undefined value
  | [lastKey] => Put current lastKey value
  | key :: (nextKey :: _) as rest =>
      match Get current key with
      | Thrown e => (current, Some e)
      | Returned found =>
          let '(current1, e1) :=
            if nullish found
            then Put current key (if is_numeric nextKey then VArr [] [] else VObj [])
            else (current, None) in
          match e1 with
          | Some e => (current1, Some e)
          | None =>
              match Get current1 key with
              | Thrown e => (current1, Some e)
              | Returned child =>
                  let '(child', e) := set_walk child rest value in
                  (rebind current1 key child', e)
              end
          end
      end
  end.

Definition setPropertyValue (obj : value) (path : string) (value : value) : outcome :=
  set_walk obj (parsePath path) value.

(** The loop of [getPropertyValue]: [None] is the early
    [return defaultValue]. *)
Fixpoint get_walk (current : value) (keys : list string) : result (option value) :=
  match keys with
  | [] => Returned (Some current)
  | key :: rest =>
      if nullish current then Returned None
      else match Get current key with
           | Returned next => get_walk next rest
           | Thrown e => Thrown e
           end
  end.

Definition getPropertyValue (obj : value) (path : string) (defaultValue : value) :
    result value :=
  match get_walk obj (parsePath path) with
  | Thrown e => Thrown e
  | Returned None => Returned defaultValue
  | Returned (Some current) => Returned (if nullish current then defaultValue else current)
  end.

(** [Array.isArray(current) ? current.splice(Number(lastKey), 1)
                            : delete current[lastKey]] *)
Definition delete_last (current : value) (lastKey : string) : outcome :=
  if isArray current then splice current (Number lastKey) 1 []
  else Delete current lastKey.

Fixpoint delete_walk (current : value) (keys : list string) : outcome :=
  match keys with
  | [] => delete_last current key_undefined
  | [lastKey] => delete_last current lastKey
  | key :: (_ :: _) as rest =>
      match Get current key with
      | Thrown e => (current, Some e)
      | Returned child =>
          if nullish child then (current, None)
          else let '(child', e) := delete_walk child rest in
               (rebind current key child', e)
      end
  end.

Definition deleteProperty (obj : value) (path : string) : outcome :=
  delete_walk obj (parsePath path).

(** [s.split(sep)] for a one-character separator. *)
Fixpoint split_on (sep : ascii) (l : list ascii) (piece : list ascii) : list string :=
  match l with
  | [] => [str piece]
  | c :: l' => if Ascii.eqb c sep then str piece :: split_on sep l' []
               else split_on sep l' (piece ++ [c])
  end.

(** [const [arrayPath, indexStr] = path.split('@')]; a missing second
    part is [undefined]. *)
Definition array_path (path : string) : string :=
  match split_on "@" (chars path) [] with
  | p :: _ => p
  | [] => key_undefined
  end.

Definition index_str (path : string) : value :=
  match split_on "@" (chars path) [] with
  | _ :: i :: _ => VStr i
  | _ => VUndefined
  end.

(** The array and the index of an [@] path.  The array is the one found
    inside [obj]; when nothing is found it is a new empty array that
    belongs to nobody. *)
Definition getArrayAndIndex (obj : value) (path : string) : result (value * number) :=
  let index := parseInt (ToString (index_str path)) in
  match getPropertyValue obj (array_path path) (VArr [] []) with
  | Thrown e => Thrown e
  | Returned arr => Returned (if nullish arr then VArr [] [] else arr, index)
  end.

(** Where the array of [getArrayAndIndex] came out of [obj], [obj] holds
    it as it is after its mutation; a new array that belongs to nobody
    leaves [obj] as it was.  The way to the array goes over own
    properties, the ones that [getPropertyValue] has just read. *)
Fixpoint put_back (current : value) (keys : list string) (arr : value) : value :=
  match keys with
  | [] => if nullish current then current else arr
  | key :: rest =>
      match GetOwn current key with
      | Some child => rebind current key (put_back child rest arr)
      | None => current
      end
  end.

Definition with_array (obj : value) (path : string)
    (f : value → number → outcome) : outcome :=
  match getArrayAndIndex obj path with
  | Thrown e => (obj, Some e)
  | Returned (arr, index) =>
      let '(arr', e) := f arr index in
      (put_back obj (parsePath (array_path path)) arr', e)
  end.

Definition insertAtIndex (obj : value) (path : string) (value : value) : outcome :=
  with_array obj path (fun arr index =>
    if num_eq index (of_Z (-1)) then push arr value
    else splice arr index 0 [value]).

(** [index >= 0 && index < arr.length].  No built-in prototype has a
    member [length] for a value to inherit: the length is an own
    property or [undefined]. *)
Definition removeAtIndex (obj : value) (path : string) : outcome :=
  with_array obj path (fun arr index =>
    if num_le (of_Z 0) index
       && num_lt index (ToNumber (default VUndefined (GetOwn arr "length")))
    then splice arr index 1 []
    else (arr, None)).

(** [arr[index] = value] names the property [String(index)]. *)
Definition setValueAtIndex (obj : value) (path : string) (value : value) : outcome :=
  with_array obj path (fun arr index =>
    if num_le (of_Z 0) index then Put arr (number_to_string index) value
    else (arr, None)).

End ObjectManipulator.

(* ===================================================================== *)
(** * DocumentChangeParser *)
(* ===================================================================== *)

Module DocumentChangeParser.
Import Chars JS Regex.

Inductive ChangeType := CREATE | UPDATE | DELETE.

Inductive PropertyType := STRING | NUMBER | OBJECT.

Record ChangeDescriptor := {
  type : ChangeType;
  propertyPath : string;
  newValue : option string;
  newValueType : option PropertyType
}.

Record DocumentChange := {
  id : option string;
  changes : list ChangeDescriptor;
  createdBy : option string;
  createdAt : option Z
}.

Record ApplyChangesOptions := {
  clone : option bool;
  validatePaths : option bool
}.

Definition ChangeType_name (t : ChangeType) : string :=
  match t with
  | CREATE => "CREATE"
  | UPDATE => "UPDATE"
  | DELETE => "DELETE"
  end.

(** [[a-zA-Z_$]] and [[0-9a-zA-Z_$]] *)
Definition identifier_start : regex :=
  Class [Range "a" "z"; Range "A" "Z"; Lit "_"; Lit "$"].

Definition identifier_part : regex :=
  Class [Range "0" "9"; Range "a" "z"; Range "A" "Z"; Lit "_"; Lit "$"].

Definition lit (c : ascii) : regex := Class [Lit c].

(** [VALID_IDENTIFIER]: one character of [[a-zA-Z_$]], any number of
    [[0-9a-zA-Z_$]], and optionally [\[\d+\]]. *)
Definition VALID_IDENTIFIER : regex :=
  Cat (Cat identifier_start (Star identifier_part))
      (Opt (Cat (lit "[") (Cat (Plus (Class [Digit])) (lit "]")))).

(** [PROPERTY_PATH_REGEX]: a [VALID_IDENTIFIER], any number of
    [\.VALID_IDENTIFIER], and optionally [@-?\d+], between [^] and [$]. *)
Definition PROPERTY_PATH_REGEX : regex :=
  Cat (Cat VALID_IDENTIFIER (Star (Cat (lit ".") VALID_IDENTIFIER)))
      (Opt (Cat (lit "@") (Cat (Opt (lit "-")) (Plus (Class [Digit]))))).

Definition isValidPropertyPath (path : string) : bool :=
  test PROPERTY_PATH_REGEX path.

(** [path.includes('@')] *)
Definition isArrayChange (path : string) : bool :=
  existsb (Ascii.eqb "@") (chars path).

Definition decode_failure (raw : string) : error :=
  Error ("Failed to parse object value: " +:+ raw).

Definition parseValue (value : string) (type : PropertyType) : result JS.value :=
  match type with
  | STRING => Returned (VStr value)
  | NUMBER => Returned (VNum (Number value))
  | OBJECT =>
      match JSON_parse value with
      | Some (VStr parsed) =>
          (* double-encoded JSON *)
          match JSON_parse parsed with
          | Some v => Returned v
          | None => Thrown (decode_failure value)
          end
      | Some parsed => Returned parsed
      | None => Thrown (decode_failure value)
      end
  end.

Definition applyArrayChange (obj : JS.value) (path : string) (type : ChangeType)
    (value : JS.value) : outcome :=
  match type with
  | CREATE => ObjectManipulator.insertAtIndex obj path value
  | UPDATE => ObjectManipulator.setValueAtIndex obj path value
  | DELETE => ObjectManipulator.removeAtIndex obj path
  end.

Definition applyPropertyChange (obj : JS.value) (path : string) (type : ChangeType)
    (value : JS.value) : outcome :=
  match type with
  | CREATE | UPDATE => ObjectManipulator.setPropertyValue obj path value
  | DELETE => ObjectManipulator.deleteProperty obj path
  end.

Definition missing_value (t : ChangeType) : error :=
  Error ("newValue and newValueType are required for " +:+ ChangeType_name t
         +:+ " operations").

(** An option that is left out is [undefined], which is falsy. *)
Definition truthy_option (o : option bool) : bool := default false o.

Definition applyFieldChange (obj : JS.value) (change : ChangeDescriptor)
    (options : ApplyChangesOptions) : outcome :=
  if truthy_option (validatePaths options)
     && negb (isValidPropertyPath (propertyPath change))
  then (obj, Some (InvalidPathError (propertyPath change)))
  else
    let parsed : result JS.value :=
      match type change with
      | CREATE | UPDATE =>
          match newValue change, newValueType change with
          | Some v, Some t => parseValue v t
          | _, _ => Thrown (missing_value (type change))
          end
      | DELETE => Returned VNull
      end in
    match parsed with
    | Thrown e => (obj, Some e)
    | Returned parsedValue =>
        if isArrayChange (propertyPath change)
        then applyArrayChange obj (propertyPath change) (type change) parsedValue
        else applyPropertyChange obj (propertyPath change) (type change) parsedValue
    end.

(** A [for ... of] loop over mutating steps: the first exception ends
    it and leaves the target as the steps so far have made it. *)
Fixpoint for_each {A} (step : JS.value → A → outcome) (obj : JS.value) (xs : list A) :
    outcome :=
  match xs with
  | [] => (obj, None)
  | x :: xs' =>
      match step obj x with
      | (obj', None) => for_each step obj' xs'
      | (obj', Some e) => (obj', Some e)
      end
  end.

Definition default_options : ApplyChangesOptions :=
  {| clone := None; validatePaths := Some true |}.

(** [options] is [None] when the caller leaves the argument out. *)
Definition applyChange (obj : JS.value) (documentChange : DocumentChange)
    (options : option ApplyChangesOptions) : outcome :=
  let options := default default_options options in
  for_each (fun o change => applyFieldChange o change options)
           obj (changes documentChange).

Definition applyChanges (obj : JS.value) (documentChanges : list DocumentChange)
    (options : option ApplyChangesOptions) : outcome :=
  for_each (fun o documentChange => applyChange o documentChange options)
           obj documentChanges.

End DocumentChangeParser.

(* ===================================================================== *)
(** * Objects in place: the heap *)
(* ===================================================================== *)

(** The entry points of the two classes work on objects in place.  Where
    it matters which object a reference denotes (a copy and its
    original), objects live in a heap: an object or an array is a cell,
    and a value in a cell is a primitive or a reference to a cell.  The
    functions of this module are the ones of [ObjectManipulator] and
    [DocumentChangeParser] once more, written the way the sources are:
    [current = current[key]] follows a reference, and an assignment
    rewrites a cell. *)
Module Heap.
Import Chars JS DocumentChangeParser.

Inductive hvalue :=
| HUndefined
| HNull
| HBool (b : bool)
| HNum (n : number)
| HStr (s : string)
| HRef (l : nat).

Inductive cell :=
| CObj (props : list (string * hvalue))
| CArr (elems : list (option hvalue)) (props : list (string * hvalue)).

Abbreviation heap := (gmap nat cell).

(** The first location above all cells: where the next object is
    made. *)
Definition top (h : heap) : nat :=
  max_list (S <$> elements (dom h)).

Definition alloc (c : cell) (h : heap) : heap * hvalue :=
  (<[top h := c]> h, HRef (top h)).

(** *** Properties in insertion order *)

Fixpoint lookup_key {A} (k : string) (ps : list (string * A)) : option A :=
  match ps with
  | [] => None
  | (k', v) :: ps' => if String.eqb k' k then Some v else lookup_key k ps'
  end.

Fixpoint assign_key {A} (k : string) (v : A) (ps : list (string * A)) :
    list (string * A) :=
  match ps with
  | [] => [(k, v)]
  | (k', v') :: ps' =>
      if String.eqb k' k then (k, v) :: ps' else (k', v') :: assign_key k v ps'
  end.

Definition remove_key {A} (k : string) (ps : list (string * A)) : list (string * A) :=
  List.filter (fun p => negb (String.eqb (fst p) k)) ps.

(** *** Values made by a literal or by [JSON.parse] *)

(** A tree becomes cells that are all new. *)
Fixpoint store (v : value) (h : heap) : heap * hvalue :=
  let store_props :=
    fix go (ps : list (string * value)) (h : heap) : heap * list (string * hvalue) :=
      match ps with
      | [] => (h, [])
      | (k, x) :: ps' =>
          let '(h1, hx) := store x h in
          let '(h2, hps) := go ps' h1 in
          (h2, (k, hx) :: hps)
      end in
  let store_elems :=
    fix go (es : list (option value)) (h : heap) : heap * list (option hvalue) :=
      match es with
      | [] => (h, [])
      | None :: es' => let '(h1, hes) := go es' h in (h1, None :: hes)
      | Some x :: es' =>
          let '(h1, hx) := store x h in
          let '(h2, hes) := go es' h1 in
          (h2, Some hx :: hes)
      end in
  match v with
  | VUndefined => (h, HUndefined)
  | VNull => (h, HNull)
  | VBool b => (h, HBool b)
  | VNum n => (h, HNum n)
  | VStr s => (h, HStr s)
  | VObj ps => let '(h1, hps) := store_props ps h in alloc (CObj hps) h1
  | VArr es ps =>
      let '(h1, hes) := store_elems es h in
      let '(h2, hps) := store_props ps h1 in
      alloc (CArr hes hps) h2
  end.

(** *** Reading, writing and deleting a property *)

Definition nullish (v : hvalue) : bool :=
  match v with
  | HUndefined | HNull => true
  | _ => false
  end.

(** A primitive as the value that it is. *)
Definition primitive (v : hvalue) : option value :=
  match v with
  | HUndefined => Some VUndefined
  | HNull => Some VNull
  | HBool b => Some (VBool b)
  | HNum n => Some (VNum n)
  | HStr s => Some (VStr s)
  | HRef _ => None
  end.

Definition prototype_members (h : heap) (o : hvalue) : list string :=
  match o with
  | HRef l =>
      match h !! l with
      | Some (CObj _) => object_members
      | Some (CArr _ _) => array_members ++ object_members
      | None => []
      end
  | HStr _ => string_members ++ object_members
  | HNum _ => number_members ++ object_members
  | HBool _ => object_members
  | HUndefined | HNull => []
  end.

Definition owns (h : heap) (o : hvalue) (k : string) : bool :=
  match o with
  | HRef l =>
      match h !! l with
      | Some (CObj ps) => bool_decide (is_Some (lookup_key k ps))
      | Some (CArr es ps) =>
          match array_index k with
          | Some i => match es !! i with
                      | Some (Some _) => true
                      | _ => false
                      end
          | None => String.eqb k "length" || bool_decide (is_Some (lookup_key k ps))
          end
      | None => false
      end
  | HStr s =>
      match array_index k with
      | Some i => bool_decide (i < length (chars s))
      | None => String.eqb k "length"
      end
  | _ => false
  end.

Definition inherited (h : heap) (o : hvalue) (k : string) : bool :=
  negb (owns h o k) && existsb (String.eqb k) (prototype_members h o).
Arguments inherited : simpl never.

Definition elem_value (e : option (option hvalue)) : hvalue :=
  match e with
  | Some (Some v) => v
  | _ => HUndefined
  end.

(** [o[k]] where nothing is inherited under [k]. *)
Definition GetOwn (h : heap) (o : hvalue) (k : string) : option hvalue :=
  match o with
  | HUndefined | HNull => None
  | HBool _ | HNum _ => Some HUndefined
  | HStr s =>
      Some match array_index k with
           | Some i => match chars s !! i with
                       | Some c => HStr (str [c])
                       | None => HUndefined
                       end
           | None => if String.eqb k "length" then HNum (of_nat (length (chars s)))
                     else HUndefined
           end
  | HRef l =>
      match h !! l with
      | Some (CObj ps) => Some (default HUndefined (lookup_key k ps))
      | Some (CArr es ps) =>
          Some match array_index k with
               | Some i => elem_value (es !! i)
               | None => if String.eqb k "length" then HNum (of_nat (length es))
                         else default HUndefined (lookup_key k ps)
               end
      | None => Some HUndefined
      end
  end.

(** [o[k]] *)
Definition Get (h : heap) (o : hvalue) (k : string) : result hvalue :=
  if inherited h o k then Thrown (Inherited k)
  else match GetOwn h o k with
       | Some v => Returned v
       | None => Thrown TypeError
       end.

Definition array_store (i : nat) (x : hvalue) (es : list (option hvalue)) :
    list (option hvalue) :=
  if decide (i < length es) then <[i := Some x]> es
  else es ++ replicate (i - length es) None ++ [Some x].

Definition array_resize (n : nat) (es : list (option hvalue)) : list (option hvalue) :=
  take n es ++ replicate (n - length es) None.

(** [o[k] = x] where nothing is inherited under [k].  A new length that
    is an object is converted by the methods that the object
    inherits. *)
Definition PutOwn (h : heap) (o : hvalue) (k : string) (x : hvalue) :
    heap * option error :=
  match o with
  | HRef l =>
      match h !! l with
      | Some (CObj ps) => (<[l := CObj (assign_key k x ps)]> h, None)
      | Some (CArr es ps) =>
          match array_index k with
          | Some i => (<[l := CArr (array_store i x es) ps]> h, None)
          | None =>
              if String.eqb k "length" then
                match primitive x with
                | Some v =>
                    match valid_length (ToNumber v) with
                    | Some n => (<[l := CArr (array_resize n es) ps]> h, None)
                    | None => (h, Some RangeError)
                    end
                | None => (h, Some (Inherited "valueOf"))
                end
              else (<[l := CArr es (assign_key k x ps)]> h, None)
          end
      | None => (h, Some TypeError)
      end
  | _ => (h, Some TypeError)
  end.

(** [o[k] = x] *)
Definition Put (h : heap) (o : hvalue) (k : string) (x : hvalue) : heap * option error :=
  if inherited h o k then (h, Some (Inherited k)) else PutOwn h o k x.

(** [delete o[k]] *)
Definition Delete (h : heap) (o : hvalue) (k : string) : heap * option error :=
  match o with
  | HUndefined | HNull => (h, Some TypeError)
  | HBool _ | HNum _ => (h, None)
  | HStr s =>
      match array_index k with
      | Some i => if decide (i < length (chars s)) then (h, Some TypeError) else (h, None)
      | None => if String.eqb k "length" then (h, Some TypeError) else (h, None)
      end
  | HRef l =>
      match h !! l with
      | Some (CObj ps) => (<[l := CObj (remove_key k ps)]> h, None)
      | Some (CArr es ps) =>
          match array_index k with
          | Some i =>
              (<[l := CArr (if decide (i < length es) then <[i := None]> es else es) ps]> h,
               None)
          | None => if String.eqb k "length" then (h, Some TypeError)
                    else (<[l := CArr es (remove_key k ps)]> h, None)
          end
      | None => (h, None)
      end
  end.

(** The elements after [splice(start, deleteCount, ...items)]. *)
Definition spliced (start : number) (deleteCount : nat) (items : list hvalue)
    (es : list (option hvalue)) : list (option hvalue) :=
  let a := splice_start (ToIntegerOrInfinity start) (length es) in
  let d := Nat.min deleteCount (length es - a) in
  take a es ++ map Some items ++ drop (a + d) es.

(** [arr.splice(start, deleteCount, ...items)]: only an array has the
    method, and an own property of the name hides it; no value here is
    a function. *)
Definition splice (h : heap) (arr : hvalue) (start : number) (deleteCount : nat)
    (items : list hvalue) : heap * option error :=
  match arr with
  | HRef l =>
      match h !! l with
      | Some (CArr es ps) =>
          match lookup_key "splice" ps with
          | Some _ => (h, Some TypeError)
          | None => (<[l := CArr (spliced start deleteCount items es) ps]> h, None)
          end
      | _ => (h, Some TypeError)
      end
  | _ => (h, Some TypeError)
  end.

(** [arr.push(x)] *)
Definition push (h : heap) (arr : hvalue) (x : hvalue) : heap * option error :=
  match arr with
  | HRef l =>
      match h !! l with
      | Some (CArr es ps) =>
          match lookup_key "push" ps with
          | Some _ => (h, Some TypeError)
          | None => (<[l := CArr (es ++ [Some x]) ps]> h, None)
          end
      | _ => (h, Some TypeError)
      end
  | _ => (h, Some TypeError)
  end.

Definition isArray (h : heap) (v : hvalue) : bool :=
  match v with
  | HRef l => match h !! l with
              | Some (CArr _ _) => true
              | _ => false
              end
  | _ => false
  end.

(** *** ObjectManipulator *)

Fixpoint set_walk (h : heap) (current : hvalue) (keys : list string) (value : hvalue) :
    heap * option error :=
  match keys with
  | [] => Put h current ObjectManipulator.key_undefined value
  | [lastKey] => Put h current lastKey value
  | key :: (nextKey :: _) as rest =>
      match Get h current key with
      | Thrown e => (h, Some e)
      | Returned found =>
          let '(h1, e1) :=
            if nullish found
            then let '(h0, fresh) :=
                   alloc (if ObjectManipulator.is_numeric nextKey then CArr [] []
                          else CObj []) h in
                 Put h0 current key fresh
            else (h, None) in
          match e1 with
          | Some e => (h1, Some e)
          | None =>
              match Get h1 current key with
              | Thrown e => (h1, Some e)
              | Returned child => set_walk h1 child rest value
              end
          end
      end
  end.

Definition setPropertyValue (h : heap) (obj : hvalue) (path : string) (value : hvalue) :
    heap * option error :=
  set_walk h obj (ObjectManipulator.parsePath path) value.

Fixpoint get_walk (h : heap) (current : hvalue) (keys : list string) :
    result (option hvalue) :=
  match keys with
  | [] => Returned (Some current)
  | key :: rest =>
      if nullish current then Returned None
      else match Get h current key with
           | Returned next => get_walk h next rest
           | Thrown e => Thrown e
           end
  end.

Definition getPropertyValue (h : heap) (obj : hvalue) (path : string)
    (defaultValue : hvalue) : result hvalue :=
  match get_walk h obj (ObjectManipulator.parsePath path) with
  | Thrown e => Thrown e
  | Returned None => Returned defaultValue
  | Returned (Some current) => Returned (if nullish current then defaultValue else current)
  end.

Definition delete_last (h : heap) (current : hvalue) (lastKey : string) :
    heap * option error :=
  if isArray h current then splice h current (Number lastKey) 1 []
  else Delete h current lastKey.

Fixpoint delete_walk (h : heap) (current : hvalue) (keys : list string) :
    heap * option error :=
  match keys with
  | [] => delete_last h current ObjectManipulator.key_undefined
  | [lastKey] => delete_last h current lastKey
  | key :: (_ :: _) as rest =>
      match Get h current key with
      | Thrown e => (h, Some e)
      | Returned child =>
          if nullish child then (h, None) else delete_walk h child rest
      end
  end.

Definition deleteProperty (h : heap) (obj : hvalue) (path : string) : heap * option error :=
  delete_walk h obj (ObjectManipulator.parsePath path).

(** The array and the index of an [@] path; each [[]] is a new
    array. *)
Definition getArrayAndIndex (h : heap) (obj : hvalue) (path : string) :
    heap * result (hvalue * number) :=
  let index := parseInt (ToString (ObjectManipulator.index_str path)) in
  let '(h1, empty) := alloc (CArr [] []) h in
  match getPropertyValue h1 obj (ObjectManipulator.array_path path) empty with
  | Thrown e => (h1, Thrown e)
  | Returned arr =>
      if nullish arr
      then let '(h2, empty') := alloc (CArr [] []) h1 in (h2, Returned (empty', index))
      else (h1, Returned (arr, index))
  end.

Definition insertAtIndex (h : heap) (obj : hvalue) (path : string) (value : hvalue) :
    heap * option error :=
  match getArrayAndIndex h obj path with
  | (h1, Thrown e) => (h1, Some e)
  | (h1, Returned (arr, index)) =>
      if num_eq index (of_Z (-1)) then push h1 arr value
      else splice h1 arr index 0 [value]
  end.

(** [arr.length] as a number.  A length that is an object is converted
    by the methods that the object inherits. *)
Definition length_of (h : heap) (arr : hvalue) : result number :=
  match primitive (default HUndefined (GetOwn h arr "length")) with
  | Some v => Returned (ToNumber v)
  | None => Thrown (Inherited "valueOf")
  end.

Definition removeAtIndex (h : heap) (obj : hvalue) (path : string) : heap * option error :=
  match getArrayAndIndex h obj path with
  | (h1, Thrown e) => (h1, Some e)
  | (h1, Returned (arr, index)) =>
      if num_le (of_Z 0) index then
        match length_of h1 arr with
        | Thrown e => (h1, Some e)
        | Returned len =>
            if num_lt index len then splice h1 arr index 1 [] else (h1, None)
        end
      else (h1, None)
  end.

Definition setValueAtIndex (h : heap) (obj : hvalue) (path : string) (value : hvalue) :
    heap * option error :=
  match getArrayAndIndex h obj path with
  | (h1, Thrown e) => (h1, Some e)
  | (h1, Returned (arr, index)) =>
      if num_le (of_Z 0) index then Put h1 arr (number_to_string index) value
      else (h1, None)
  end.

(** *** DocumentChangeParser *)

Definition applyArrayChange (h : heap) (obj : hvalue) (path : string) (type : ChangeType)
    (value : hvalue) : heap * option error :=
  match type with
  | CREATE => insertAtIndex h obj path value
  | UPDATE => setValueAtIndex h obj path value
  | DELETE => removeAtIndex h obj path
  end.

Definition applyPropertyChange (h : heap) (obj : hvalue) (path : string)
    (type : ChangeType) (value : hvalue) : heap * option error :=
  match type with
  | CREATE | UPDATE => setPropertyValue h obj path value
  | DELETE => deleteProperty h obj path
  end.

Definition applyFieldChange (h : heap) (obj : hvalue) (change : ChangeDescriptor)
    (options : ApplyChangesOptions) : heap * option error :=
  if truthy_option (validatePaths options)
     && negb (isValidPropertyPath (propertyPath change))
  then (h, Some (InvalidPathError (propertyPath change)))
  else
    let parsed : result value :=
      match type change with
      | CREATE | UPDATE =>
          match newValue change, newValueType change with
          | Some v, Some t => parseValue v t
          | _, _ => Thrown (missing_value (type change))
          end
      | DELETE => Returned VNull
      end in
    match parsed with
    | Thrown e => (h, Some e)
    | Returned parsed =>
        let '(h1, parsedValue) := store parsed h in
        if isArrayChange (propertyPath change)
        then applyArrayChange h1 obj (propertyPath change) (type change) parsedValue
        else applyPropertyChange h1 obj (propertyPath change) (type change) parsedValue
    end.

(** A [for ... of] loop over steps that work on the heap. *)
Fixpoint each {A} (step : heap → A → heap * option error) (h : heap) (xs : list A) :
    heap * option error :=
  match xs with
  | [] => (h, None)
  | x :: xs' =>
      match step h x with
      | (h1, None) => each step h1 xs'
      | (h1, Some e) => (h1, Some e)
      end
  end.

Definition returning (obj : hvalue) (r : heap * option error) : heap * result hvalue :=
  match r with
  | (h, None) => (h, Returned obj)
  | (h, Some e) => (h, Thrown e)
  end.

(** [applyChange(obj, documentChange, options)] returns [obj]. *)
Definition applyChange (h : heap) (obj : hvalue) (documentChange : DocumentChange)
    (options : option ApplyChangesOptions) : heap * result hvalue :=
  returning obj
    (each (fun h change => applyFieldChange h obj change (default default_options options))
       h (changes documentChange)).

Definition applyChanges (h : heap) (obj : hvalue) (documentChanges : list DocumentChange)
    (options : option ApplyChangesOptions) : heap * result hvalue :=
  returning obj
    (each (fun h documentChange =>
             match applyChange h obj documentChange options with
             | (h1, Returned _) => (h1, None)
             | (h1, Thrown e) => (h1, Some e)
             end)
       h documentChanges).

(** *** structuredClone *)

Definition shift (n : nat) (v : hvalue) : hvalue :=
  match v with
  | HRef l => HRef (l + n)
  | _ => v
  end.

Definition shift_cell (n : nat) (c : cell) : cell :=
  match c with
  | CObj ps => CObj (map (fun p => (fst p, shift n (snd p))) ps)
  | CArr es ps =>
      CArr (map (fun e => shift n <$> e) es) (map (fun p => (fst p, shift n (snd p))) ps)
  end.

(** Distinct objects have distinct copies. *)
#[export] Instance shift_inj n : Inj (=) (=) (fun l : nat => l + n).
Proof. intros l1 l2 ?. lia. Qed.

(** [structuredClone(v)]: every object that [v] reaches has a copy, a
    new object, and the copies refer to one another the way the
    originals do: what was one object is one object in the copy, and a
    cycle is a cycle.  The copy of the object at [l] is made at
    [l + top h].  The objects that [v] does not reach are copied along;
    nothing refers to their copies. *)
Definition structuredClone (h : heap) (v : hvalue) : heap * hvalue :=
  let n := top h in
  (h ∪ kmap (fun l => l + n) (shift_cell n <$> h), shift n v).

Definition getCopyWithChanges (h : heap) (obj : hvalue)
    (documentChanges : list DocumentChange) (options : option ApplyChangesOptions) :
    heap * result hvalue :=
  let '(h1, copy) := structuredClone h obj in
  applyChanges h1 copy documentChanges options.

Definition getCopyWithChange (h : heap) (obj : hvalue) (documentChange : DocumentChange)
    (options : option ApplyChangesOptions) : heap * result hvalue :=
  let '(h1, copy) := structuredClone h obj in
  applyChange h1 copy documentChange options.

(** *** What a call leaves alone *)

(** The values that a cell holds. *)
Definition cell_values (c : cell) : list hvalue :=
  match c with
  | CObj ps => ps.*2
  | CArr es ps => omap (M := list) (fun e => e) es ++ ps.*2
  end.

(** Every reference denotes an object. *)
Definition denotes (h : heap) (v : hvalue) : Prop :=
  match v with
  | HRef l => is_Some (h !! l)
  | _ => True
  end.

Definition well_formed (h : heap) : Prop :=
  ∀ l c, h !! l = Some c → Forall (denotes h) (cell_values c).

(** A value that is none of the objects [F]. *)
Definition outside (F : gset nat) (v : hvalue) : Prop :=
  match v with
  | HRef l => l ∉ F
  | _ => True
  end.

(** The objects [F] are in [h] what they are in [h0], and no other
    object of [h] refers to one of them. *)
Definition isolated (F : gset nat) (h0 h : heap) : Prop :=
  F ⊆ dom h
  ∧ (∀ l, l ∈ F → h !! l = h0 !! l)
  ∧ (∀ l c, h !! l = Some c → l ∉ F → Forall (outside F) (cell_values c)).

(** A copy of one level: a new object with the content of [v], which
    holds the very values that [v] holds.  The parser does not copy
    this way; the definition is here for the contrast. *)
Definition shallow_copy (h : heap) (v : hvalue) : heap * hvalue :=
  match v with
  | HRef l =>
      match h !! l with
      | Some c => alloc c h
      | None => (h, v)
      end
  | _ => (h, v)
  end.

(** *** Reading an object as a tree *)

(** The tree that a value unfolds to, as far as [depth] allows. *)
Fixpoint tree_of (depth : nat) (h : heap) (v : hvalue) : option value :=
  match v, depth with
  | HRef l, S d =>
      let props :=
        mapM (fun p : string * hvalue => pair p.1 <$> tree_of d h p.2) in
      let elems :=
        mapM (fun e : option hvalue =>
                match e with
                | Some x => Some <$> tree_of d h x
                | None => Some None
                end) in
      match h !! l with
      | Some (CObj ps) => VObj <$> props ps
      | Some (CArr es ps) => es' ← elems es; ps' ← props ps; Some (VArr es' ps')
      | None => None
      end
  | HRef l, 0 => None
  | _, _ => primitive v
  end.

(** *** The same up to the names of the objects *)

(** [ρ] names, for objects of one heap, the objects of another heap that
    stand for them. *)
Definition same_value (ρ : gmap nat nat) (v v' : hvalue) : Prop :=
  match v, v' with
  | HRef l, HRef l' => ρ !! l = Some l'
  | HRef _, _ | _, HRef _ => False
  | _, _ => v = v'
  end.

Definition same_property (ρ : gmap nat nat) (p p' : string * hvalue) : Prop :=
  p.1 = p'.1 ∧ same_value ρ p.2 p'.2.

Definition same_cell (ρ : gmap nat nat) (c c' : cell) : Prop :=
  match c, c' with
  | CObj ps, CObj ps' => Forall2 (same_property ρ) ps ps'
  | CArr es ps, CArr es' ps' =>
      Forall2 (option_Forall2 (same_value ρ)) es es' ∧ Forall2 (same_property ρ) ps ps'
  | _, _ => False
  end.

(** Distinct objects have distinct stand-ins, and an object and its
    stand-in hold the same, up to [ρ]. *)
Definition same_heap (ρ : gmap nat nat) (h h' : heap) : Prop :=
  (∀ l1 l2 l', ρ !! l1 = Some l' → ρ !! l2 = Some l' → l1 = l2)
  ∧ (∀ l l', ρ !! l = Some l' →
             ∃ c c', h !! l = Some c ∧ h' !! l' = Some c' ∧ same_cell ρ c c').

Definition same_result {A} (R : A → A → Prop) (r r' : result A) : Prop :=
  match r, r' with
  | Returned v, Returned v' => R v v'
  | Thrown e, Thrown e' => e = e'
  | _, _ => False
  end.

(** Two calls end the same way: in heaps that are the same up to names
    that extend [ρ], with results that are. *)
Definition same_end {A} (R : gmap nat nat → A → A → Prop) (ρ : gmap nat nat)
    (r r' : heap * A) : Prop :=
  ∃ ρ', ρ ⊆ ρ' ∧ same_heap ρ' r.1 r'.1 ∧ R ρ' r.2 r'.2.

Definition same_error (ρ : gmap nat nat) (e e' : option error) : Prop := e = e'.

(** The names of the clones. *)
Definition clone_names (h : heap) : gmap nat nat :=
  map_imap (fun l _ => Some (l + top h)) h.

(** What a copy-producing entry point leaves behind, next to what the
    in-place entry point makes of the same arguments.  [r] is the end of
    the call on [o] in the heap [h], [in_place] the end of the in-place
    call.
    - The objects of [h] are what they were, and none of the other
      objects refers to one of them: the copy has no object in common
      with [o].
    - [o] reads as it did.
    - The copy is an object that [h] does not have.
    - The call returns the copy where the in-place call returns [o],
      and throws what the in-place call throws.
    - The copy reads as [o] reads after the in-place call, up to the
      change that throws when one does. *)
Definition copy_result (h : heap) (o : hvalue) (r in_place : heap * result hvalue) :
    Prop :=
  let copy := (structuredClone h o).2 in
  isolated (dom h) h r.1
  ∧ (∀ depth, tree_of depth r.1 o = tree_of depth h o)
  ∧ copy ≠ o ∧ outside (dom h) copy
  ∧ same_result (fun v v' => v = copy ∧ v' = o) r.2 in_place.2
  ∧ (∀ depth, tree_of depth r.1 copy = tree_of depth in_place.1 o).

End Heap.

(* ===================================================================== *)
(** * DiffIdentifier *)
(* ===================================================================== *)

Module DiffIdentifier.
Import Chars JS.

(** A record of type [T extends Record<string, unknown>] is an object,
    given by its own properties. *)
Abbreviation item := (list (string * value)).

Record DiffConfig := {
  idField : string;
  nameField : string;
  isDeletedField : option string;
  ignoreFields : option (list string)
}.

Record update := {
  oldItem : item;
  newItem : item
}.

Record DiffResult := {
  inserts : list item;
  updates : list update;
  processedIds : gset string
}.

(** [item[field]] *)
Definition field (it : item) (f : string) : value :=
  default VUndefined (prop_lookup f it).

(** [a === b]: two primitives of one type with one value.  Two objects
    are the same only if they are one object, and the records and their
    parts that are compared here are taken to be different objects. *)
Definition strict_equal (a b : value) : bool :=
  match a, b with
  | VUndefined, VUndefined => true
  | VNull, VNull => true
  | VBool x, VBool y => Bool.eqb x y
  | VNum x, VNum y => num_eq x y
  | VStr x, VStr y => String.eqb x y
  | _, _ => false
  end.

(** [Object.keys(v)] of an object or an array: the indices that are not
    holes, then the other property names. *)
Fixpoint index_keys (es : list (option value)) (i : nat) : list string :=
  match es with
  | [] => []
  | Some _ :: es' => number_to_string (of_nat i) :: index_keys es' (S i)
  | None :: es' => index_keys es' (S i)
  end.

Definition keys (v : value) : list string :=
  match v with
  | VObj ps => map fst ps
  | VArr es ps => index_keys es 0 ++ map fst ps
  | _ => []
  end.

Definition includes (l : list string) (k : string) : bool :=
  existsb (String.eqb k) l.

Definition is_object (v : value) : bool :=
  match v with
  | VObj _ | VArr _ _ => true
  | _ => false
  end.

(** [typeof v !== 'object' || v === null] fails exactly on objects and
    arrays.  [obj2[key]] is read for a key that [keys2] includes, which
    is an own property of [obj2]. *)
Fixpoint deepEqual (obj1 obj2 : value) (ignoreFields : list string) : bool :=
  if strict_equal obj1 obj2 then true
  else if negb (is_object obj1) || negb (is_object obj2) then false
  else
    let kept l := List.filter (fun k => negb (includes ignoreFields k)) l in
    let keys2 := kept (keys obj2) in
    let get2 k := default VUndefined (GetOwn obj2 k) in
    let props_equal :=
      fix go (ps : list (string * value)) : bool :=
        match ps with
        | [] => true
        | (k, v1) :: ps' =>
            (if includes ignoreFields k then true
             else includes keys2 k && deepEqual v1 (get2 k) ignoreFields)
            && go ps'
        end in
    let elems_equal :=
      fix go (es : list (option value)) (i : nat) : bool :=
        match es with
        | [] => true
        | None :: es' => go es' (S i)
        | Some v1 :: es' =>
            let k := number_to_string (of_nat i) in
            (if includes ignoreFields k then true
             else includes keys2 k && deepEqual v1 (get2 k) ignoreFields)
            && go es' (S i)
        end in
    if negb (Nat.eqb (length (kept (keys obj1))) (length keys2)) then false
    else match obj1 with
         | VObj ps => props_equal ps
         | VArr es ps => elems_equal es 0 && props_equal ps
         | _ => false
         end.

(** A field name that is configured is a non-empty string. *)
Definition configured (f : option string) : option string :=
  match f with
  | Some name => if String.eqb name EmptyString then None else Some name
  | None => None
  end.

(** [isDeletedField && item[isDeletedField]], as a condition *)
Definition marked_deleted (isDeleted : option string) (it : item) : bool :=
  match configured isDeleted with
  | Some f => ToBoolean (field it f)
  | None => false
  end.

(** The map of the existing items by name; a later item replaces an
    earlier one of the same name. *)
Definition existingMap (existingItems : list item) (nameField : string) :
    gmap string item :=
  foldl (fun m it => <[ToString (field it nameField) := it]> m) ∅ existingItems.

(** What the loop of [identifyChanges] carries along: the three result
    collections and the items reported with [console.warn]. *)
Record changes_state := {
  st_inserts : list item;
  st_updates : list update;
  st_processedIds : gset string;
  st_warned : list item
}.

Definition resurrection (nameStr : string) : error :=
  InactiveItemError ("Cannot resurrect deleted item: " +:+ nameStr) nameStr
    ALREADY_DELETED.

(** One turn of the loop over the new items. *)
Definition changes_step (config : DiffConfig) (existing : gmap string item)
    (st : changes_state) (it : item) : result changes_state :=
  let name := field it (nameField config) in
  if negb (ToBoolean name) then
    Returned {| st_inserts := st_inserts st; st_updates := st_updates st;
                st_processedIds := st_processedIds st;
                st_warned := st_warned st ++ [it] |}
  else
    let nameStr := ToString name in
    let processed := {[ToString (field it (idField config))]} ∪ st_processedIds st in
    match existing !! nameStr with
    | Some old =>
        if match configured (isDeletedField config) with
           | Some f => negb (ToBoolean (field it f)) && ToBoolean (field old f)
           | None => false
           end
        then Thrown (resurrection nameStr)
        else
          Returned {| st_inserts := st_inserts st;
                      st_updates :=
                        if deepEqual (VObj old) (VObj it)
                             (default [] (ignoreFields config))
                        then st_updates st
                        else st_updates st ++ [{| oldItem := old; newItem := it |}];
                      st_processedIds := processed;
                      st_warned := st_warned st |}
    | None =>
        Returned {| st_inserts := st_inserts st ++ [it];
                    st_updates := st_updates st;
                    st_processedIds := processed;
                    st_warned := st_warned st |}
    end.

Fixpoint changes_loop (config : DiffConfig) (existing : gmap string item)
    (st : changes_state) (newItems : list item) : result changes_state :=
  match newItems with
  | [] => Returned st
  | it :: rest =>
      match changes_step config existing st it with
      | Returned st' => changes_loop config existing st' rest
      | Thrown e => Thrown e
      end
  end.

(** [newItems] is the sequence of values of the map or object that the
    caller passes, in iteration order. *)
Definition identifyChanges_state (newItems existingItems : list item)
    (config : DiffConfig) : result changes_state :=
  changes_loop config (existingMap existingItems (nameField config))
    {| st_inserts := []; st_updates := []; st_processedIds := ∅; st_warned := [] |}
    newItems.

Definition identifyChanges (newItems existingItems : list item)
    (config : DiffConfig) : result DiffResult :=
  match identifyChanges_state newItems existingItems config with
  | Returned st => Returned {| inserts := st_inserts st; updates := st_updates st;
                               processedIds := st_processedIds st |}
  | Thrown e => Thrown e
  end.

(** An entry [{ name }] of the result of [identifyInactive]. *)
Record inactive := { name : string }.

Definition missing (n : string) : error :=
  InactiveItemError ("Item missing from import: " +:+ n) n MISSING.

(** [options] is [None] when the caller leaves the argument out, and
    then [throwOnMissing] is [true]; an options object without the field
    has it [undefined]. *)
Definition throwOnMissing (options : option (option bool)) : bool :=
  match options with
  | None => true
  | Some o => default false o
  end.

Fixpoint inactive_loop (config : DiffConfig) (processed : gset string)
    (throws : bool) (acc : list inactive) (existingItems : list item) :
    result (list inactive) :=
  match existingItems with
  | [] => Returned acc
  | it :: rest =>
      let id := trim (ToString (field it (idField config))) in
      if bool_decide (id ∈ processed) then inactive_loop config processed throws acc rest
      else
        let n := ToString (field it (nameField config)) in
        if marked_deleted (isDeletedField config) it
        then inactive_loop config processed throws (acc ++ [{| name := n |}]) rest
        else if throws then Thrown (missing n)
        else inactive_loop config processed throws (acc ++ [{| name := n |}]) rest
  end.

Definition identifyInactive (existingItems : list item) (processedIds : gset string)
    (config : DiffConfig) (options : option (option bool)) : result (list inactive) :=
  inactive_loop config processedIds (throwOnMissing options) [] existingItems.

End DiffIdentifier.

(* ===================================================================== *)
(** * ChangeBuilder *)
(* ===================================================================== *)

Module ChangeBuilder.
Import Chars JS DocumentChangeParser.

(** [value] is typed [string], but [createObjectDescriptor] passes what
    [JSON.stringify] returns, which is [undefined] for [undefined]. *)
Definition createDescriptor (type : ChangeType) (path : string)
    (value : option string) (valueType : PropertyType) : ChangeDescriptor :=
  {| type := type; propertyPath := path;
     newValue := value; newValueType := Some valueType |}.

Definition createStringDescriptor (path value : string) : ChangeDescriptor :=
  createDescriptor CREATE path (Some value) STRING.

Definition updateStringDescriptor (path value : string) : ChangeDescriptor :=
  createDescriptor UPDATE path (Some value) STRING.

(** [String(value)] *)
Definition createNumberDescriptor (path : string) (value : number) : ChangeDescriptor :=
  createDescriptor CREATE path (Some (number_to_string value)) NUMBER.

Definition updateNumberDescriptor (path : string) (value : number) : ChangeDescriptor :=
  createDescriptor UPDATE path (Some (number_to_string value)) NUMBER.

(** [JSON.stringify(value)] *)
Definition createObjectDescriptor (path : string) (value : JS.value) : ChangeDescriptor :=
  createDescriptor CREATE path (JSON_stringify value) OBJECT.

Definition updateObjectDescriptor (path : string) (value : JS.value) : ChangeDescriptor :=
  createDescriptor UPDATE path (JSON_stringify value) OBJECT.

Definition deleteDescriptor (path : string) : ChangeDescriptor :=
  {| type := DELETE; propertyPath := path; newValue := None; newValueType := None |}.

(** [new Date()] reads the clock; the time it reads is the argument
    [now]. *)
Definition wrapChanges (changes : list ChangeDescriptor) (now : Z) : DocumentChange :=
  {| id := None; changes := changes; createdBy := None; createdAt := Some now |}.

Definition createStringChange (path value : string) (now : Z) : DocumentChange :=
  wrapChanges [createStringDescriptor path value] now.

Definition updateStringChange (path value : string) (now : Z) : DocumentChange :=
  wrapChanges [updateStringDescriptor path value] now.

Definition createNumberChange (path : string) (value : number) (now : Z) :
    DocumentChange :=
  wrapChanges [createNumberDescriptor path value] now.

Definition updateNumberChange (path : string) (value : number) (now : Z) :
    DocumentChange :=
  wrapChanges [updateNumberDescriptor path value] now.

Definition createObjectChange (path : string) (value : JS.value) (now : Z) :
    DocumentChange :=
  wrapChanges [createObjectDescriptor path value] now.

Definition updateObjectChange (path : string) (value : JS.value) (now : Z) :
    DocumentChange :=
  wrapChanges [updateObjectDescriptor path value] now.

Definition deleteChange (path : string) (now : Z) : DocumentChange :=
  wrapChanges [deleteDescriptor path] now.

(** ** The fluent interface

    A builder is its private field [changes]; a method that returns
    [this] returns the builder as the call leaves it. *)
Record builder := { pending : list ChangeDescriptor }.

(** [new ChangeBuilder()] *)
Definition new : builder := {| pending := [] |}.

(** [this.changes.push(d)] *)
Definition add (d : ChangeDescriptor) (b : builder) : builder :=
  {| pending := pending b ++ [d] |}.

Definition createString (path value : string) : builder → builder :=
  add (createStringDescriptor path value).

Definition updateString (path value : string) : builder → builder :=
  add (updateStringDescriptor path value).

Definition createNumber (path : string) (value : number) : builder → builder :=
  add (createNumberDescriptor path value).

Definition updateNumber (path : string) (value : number) : builder → builder :=
  add (updateNumberDescriptor path value).

Definition createObject (path : string) (value : JS.value) : builder → builder :=
  add (createObjectDescriptor path value).

Definition updateObject (path : string) (value : JS.value) : builder → builder :=
  add (updateObjectDescriptor path value).

Definition delete (path : string) : builder → builder :=
  add (deleteDescriptor path).

Record build_options := {
  opt_id : option string;
  opt_createdBy : option string
}.

(** [build(options)]: [options?.id] and [options?.createdBy] are
    [undefined] when [options] is left out. *)
Definition build (options : option build_options) (now : Z) (b : builder) :
    DocumentChange :=
  {| id := options ≫= opt_id;
     changes := pending b;
     createdBy := options ≫= opt_createdBy;
     createdAt := Some now |}.

Definition reset (b : builder) : builder := {| pending := [] |}.

End ChangeBuilder.

(* ===================================================================== *)
(** * The path grammar of the specification *)
(* ===================================================================== *)

(** The grammar as the specification writes it, to compare with
    [PROPERTY_PATH_REGEX]:
<<
    path       := segment ('.' segment)* ('@' index)?
    segment    := identifier ('[' index ']')?
    identifier := [A-Za-z_$][A-Za-z0-9_$]*
    index      := '-'? digit+
>>
    [path] takes what may stand between the brackets of a segment as a
    parameter: the specification puts [index] there. *)
Module PathGrammar.
Import Chars.

Definition identifier_start (c : ascii) : bool :=
  is_upper c || is_lower c || Ascii.eqb c "_" || Ascii.eqb c "$".

Definition identifier_char (c : ascii) : bool :=
  is_upper c || is_lower c || is_digit c || Ascii.eqb c "_" || Ascii.eqb c "$".

Definition identifier (s : list ascii) : Prop :=
  ∃ c cs, s = c :: cs ∧ identifier_start c = true
          ∧ Forall (fun x => identifier_char x = true) cs.

(** [digit+] *)
Definition digits (s : list ascii) : Prop :=
  s ≠ [] ∧ Forall (fun c => is_digit c = true) s.

(** ['-'? digit+] *)
Definition index (s : list ascii) : Prop :=
  digits s ∨ ∃ d, s = "-"%char :: d ∧ digits d.

Section Paths.
Variable bracket_index : list ascii → Prop.

Definition segment (s : list ascii) : Prop :=
  ∃ i, identifier i
       ∧ (s = i ∨ ∃ x, bracket_index x ∧ s = i ++ "["%char :: x ++ ["]"%char]).

(** [segment ('.' segment)*] *)
Inductive segments : list ascii → Prop :=
| segments_one s : segment s → segments s
| segments_more s rest :
    segment s → segments rest → segments (s ++ "."%char :: rest).

Definition path (s : list ascii) : Prop :=
  ∃ body, segments body
          ∧ (s = body ∨ ∃ x, index x ∧ s = body ++ "@"%char :: x).

End Paths.

(** The grammar of the specification, and the one with plain [digit+]
    between the brackets. *)
Definition spec_path (s : string) : Prop := path index (chars s).
Definition unsigned_bracket_path (s : string) : Prop := path digits (chars s).

End PathGrammar.

(* ===================================================================== *)
(** * Notions used to state the properties *)
(* ===================================================================== *)

Module Notions.
Import Chars JS ObjectManipulator.

(** The three shapes that the path engine tells apart. *)
Inductive shape := AnArray | AnObject | NoContainer.

Definition shape_of (v : value) : shape :=
  match v with
  | VArr _ _ => AnArray
  | VObj _ => AnObject
  | _ => NoContainer
  end.

(** [/^\d+$/.test(nextKey) ? [] : {}] *)
Definition fresh_container (nextKey : string) : value :=
  if is_numeric nextKey then VArr [] [] else VObj [].

(** The reading of one step of the walk: where it stands afterwards and
    with which child it goes on. *)
Inductive set_step (current : value) (key nextKey : string) :
    value → option value → option error → Prop :=
| step_unreadable e :
    Get current key = Thrown e →
    set_step current key nextKey current None (Some e)
| step_create_fails found e :
    Get current key = Returned found → nullish found = true →
    Put current key (fresh_container nextKey) = (current, Some e) →
    set_step current key nextKey current None (Some e)
| step_create found current1 :
    Get current key = Returned found → nullish found = true →
    Put current key (fresh_container nextKey) = (current1, None) →
    Get current1 key = Returned (fresh_container nextKey) →
    set_step current key nextKey current1 (Some (fresh_container nextKey)) None
| step_descend found :
    Get current key = Returned found → nullish found = false →
    set_step current key nextKey current (Some found) None.

(** What a walk along [keys] finds, [undefined] when the walk ends
    early. *)
Definition value_at (obj : value) (keys : list string) : value :=
  match get_walk obj keys with
  | Returned (Some v) => v
  | _ => VUndefined
  end.

(** [stored_at obj keys v]: reading key after key, starting from [obj],
    ends at [v]. *)
Inductive stored_at : value → list string → value → Prop :=
| stored_here obj : stored_at obj [] obj
| stored_below obj k ks child v :
    Get obj k = Returned child → stored_at child ks v → stored_at obj (k :: ks) v.

(** The root or some segment of the path, the last one included, is
    [undefined] or [null]. *)
Definition absent_on_path (obj : value) (keys : list string) : Prop :=
  ∃ (n : nat) x, (n ≤ length keys)%nat ∧ stored_at obj (take n keys) x ∧ nullish x = true.

(** Some segment before the last one is [undefined] or [null]. *)
Definition intermediate_absent (obj : value) (keys : list string) : Prop :=
  ∃ (n : nat) x, (0 < n < length keys)%nat ∧ stored_at obj (take n keys) x ∧ nullish x = true.

(** A value is JSON-serializable with the text [s] when [JSON.stringify]
    gives [s] for it and [JSON.parse] gives it back from [s]. *)
Definition JSON_serializable (x : value) (s : string) : Prop :=
  JSON_stringify x = Some s ∧ JSON_parse s = Some x.

End Notions.
Import Notions.

Module DiffNotions.
Import Chars JS DiffIdentifier.

(** The id of the record, stringified and trimmed, is not among the
    processed ids. *)
Definition unprocessed (config : DiffConfig) (processed : gset string)
    (it : item) : bool :=
  negb (bool_decide (trim (ToString (field it (idField config))) ∈ processed)).

(** The entry [{ name }] that reports a record. *)
Definition report (config : DiffConfig) (it : item) : inactive :=
  {| name := ToString (field it (nameField config)) |}.

Definition active (config : DiffConfig) (it : item) : bool :=
  negb (marked_deleted (isDeletedField config) it).

(** The existing record that is found under a name: the last one in the
    list that has it. *)
Definition found_by_name (existingItems : list item) (nameField n : string) :
    option item :=
  last (List.filter (fun it => String.eqb (ToString (field it nameField)) n)
          existingItems).

(** A new record resurrects a deleted one: it has a name, the field for
    the deleted mark is configured, the record is not marked deleted, and
    the existing record found under its name is. *)
Definition resurrects (config : DiffConfig) (existingItems : list item)
    (it : item) : bool :=
  ToBoolean (field it (nameField config))
  && match configured (isDeletedField config),
           found_by_name existingItems (nameField config)
             (ToString (field it (nameField config))) with
     | Some f, Some old => negb (ToBoolean (field it f)) && ToBoolean (field old f)
     | _, _ => false
     end.

End DiffNotions.
Import DiffNotions.

(** Case analysis on a character [c] for which [H] says that a test on
    characters holds: the characters that fail the test are discarded. *)
Ltac start_cases c H :=
  destruct c as [[] [] [] [] [] [] [] []];
  try (vm_compute in H; discriminate H); clear H.

(* ===================================================================== *)
(** * Numerals *)
(* ===================================================================== *)

Module Numerals.
Import Chars.

Definition all_digits (l : list ascii) : Prop :=
  Forall (fun c => is_digit c = true) l.

(** No leading zero, except for the numeral [0] itself. *)
Definition canonical_digits (l : list ascii) : Prop :=
  match l with
  | [] => False
  | c :: cs => c = "0"%char → cs = []
  end.

End Numerals.
Import Numerals.

(* ===================================================================== *)
(** * Paths as they are written *)
(* ===================================================================== *)

Module PathSyntax.
Import Chars.

(** What follows the first name of a path: [.name] or [[key]]. *)
Inductive accessor :=
| Dot (name : string)
| Bracket (key : string).

Definition key_of (a : accessor) : string :=
  match a with
  | Dot name => name
  | Bracket key => key
  end.

Definition write_accessor (a : accessor) : list ascii :=
  match a with
  | Dot name => "."%char :: chars name
  | Bracket key => "["%char :: chars key ++ ["]"%char]
  end.

(** The text of a path: its first name, then its accessors. *)
Definition write (first : string) (accessors : list accessor) : string :=
  str (chars first ++ flat_map write_accessor accessors).

(** A character that is no dot and no bracket. *)
Definition plain (c : ascii) : bool :=
  negb (Ascii.eqb c "." || Ascii.eqb c "[" || Ascii.eqb c "]").

(** A name is not empty and has plain characters only; what stands
    between brackets is anything without a closing bracket. *)
Definition name_ok (name : string) : Prop :=
  chars name ≠ [] ∧ Forall (fun c => plain c = true) (chars name).

Definition accessor_ok (a : accessor) : Prop :=
  match a with
  | Dot name => name_ok name
  | Bracket key => Forall (fun c => c ≠ "]"%char) (chars key)
  end.

(** The accessors of a path that passes validation: names are
    identifiers, and between brackets stand digits. *)
Definition accessor_valid (a : accessor) : Prop :=
  match a with
  | Dot name => PathGrammar.identifier (chars name)
  | Bracket key => PathGrammar.digits (chars key)
  end.

End PathSyntax.

(* ===================================================================== *)
(** * Notions used to state the properties of the change engine *)
(* ===================================================================== *)

Module ChangeNotions.
Import Chars JS DocumentChangeParser.

(** How a read, a write or an array method ends when it does not
    return: with a TypeError or a RangeError of the platform, or at a
    member that is inherited. *)
Definition platform_error (e : error) : Prop :=
  e = TypeError ∨ e = RangeError ∨ ∃ key, e = Inherited key.

(** The descriptors of a sequence of document changes, in the order in
    which they are applied. *)
Definition descriptors (documentChanges : list DocumentChange) :
    list ChangeDescriptor :=
  flat_map changes documentChanges.

(** Whether the options that a caller passes ask for validation. *)
Definition validates (options : option ApplyChangesOptions) : bool :=
  truthy_option (validatePaths (default default_options options)).

(** A document change that holds the given descriptors. *)
Definition group (cs : list ChangeDescriptor) : DocumentChange :=
  {| id := None; changes := cs; createdBy := None; createdAt := None |}.

(** [Number.isSafeInteger] *)
Definition safe_integer (z : Z) : Prop := (Z.abs z ≤ 2 ^ 53 - 1)%Z.

End ChangeNotions.
Import ChangeNotions.

(* ===================================================================== *)
(** * The values that JSON can carry *)
(* ===================================================================== *)

Module JsonValues.
Import Chars JS.

(** A number of the model in normal form: the mantissa has no trailing
    zero, and zero is [0 * 10^0].  The numbers that the operations of
    the model produce are of this form. *)
Definition normal (m e : Z) : bool :=
  if (m =? 0)%Z then (e =? 0)%Z else negb (m mod 10 =? 0)%Z.

Fixpoint distinct (ks : list string) : bool :=
  match ks with
  | [] => true
  | k :: ks' => negb (existsb (String.eqb k) ks') && distinct ks'
  end.

(** A number in normal form, [NaN] or an infinity. *)
Definition normal_number (n : number) : bool :=
  match n with
  | Finite m e => normal m e
  | _ => true
  end.

(** [null], the booleans, the finite numbers, the strings, the arrays of
    such values without holes and without further properties, and the
    objects of such values.  An array has less than [2^32] elements, as
    every array has.  The property names of an object are distinct;
    names that are array indices, which JavaScript enumerates before the
    others whatever the order of insertion, are left out. *)
Fixpoint is_json (v : value) : bool :=
  match v with
  | VUndefined => false
  | VNull | VBool _ | VStr _ => true
  | VNum (Finite m e) => normal m e
  | VNum _ => false
  | VArr es ps =>
      forallb (fun e => match e with
                        | Some x => is_json x
                        | None => false
                        end) es
      && match ps with [] => true | _ => false end
      && (Z.of_nat (length es) <? 2 ^ 32)%Z
  | VObj ps =>
      forallb (fun p => is_json (snd p)) ps
      && distinct (map fst ps)
      && forallb (fun p => match array_index (fst p) with
                           | Some _ => false
                           | None => true
                           end) ps
  end.

(** The numbers on which the exact decimal arithmetic of [number] and
    the binary floating point arithmetic of the platform agree: [NaN],
    the infinities, zero, and the decimals of at most fifteen significant
    digits in the range of the normal doubles.  Such a decimal is the
    shortest one that denotes its double, so [String] writes it and
    [Number] reads it back. *)
Definition double_exact (n : number) : bool :=
  match n with
  | Finite m e =>
      normal m e && (Z.abs m <? 10 ^ 15)%Z && (-300 <=? e)%Z && (e <=? 290)%Z
  | _ => true
  end.

(** All numbers in a value are of this kind. *)
Fixpoint exact_numbers (v : value) : bool :=
  match v with
  | VNum n => double_exact n
  | VObj ps => forallb (fun p => exact_numbers (snd p)) ps
  | VArr es ps =>
      forallb (fun e => match e with
                        | Some x => exact_numbers x
                        | None => true
                        end) es
      && forallb (fun p => exact_numbers (snd p)) ps
  | _ => true
  end.

(** What may follow a value in a JSON text: nothing, or a comma or a
    closing bracket. *)
Definition delimited (rest : list ascii) : Prop :=
  match rest with
  | [] => True
  | c :: _ => c = ","%char ∨ c = "]"%char ∨ c = "}"%char
  end.

End JsonValues.
Import JsonValues.

(* ===================================================================== *)
(** * Notions used to state the properties of a reconciliation *)
(* ===================================================================== *)

Module SyncNotions.
Import Chars JS DiffIdentifier DiffNotions.

(** The record has a name: [item[nameField]] is truthy. *)
Definition named (config : DiffConfig) (it : item) : bool :=
  ToBoolean (field it (nameField config)).

(** [String(item[nameField])] and [String(item[idField])] *)
Definition name_of (config : DiffConfig) (it : item) : string :=
  ToString (field it (nameField config)).

Definition id_of (config : DiffConfig) (it : item) : string :=
  ToString (field it (idField config)).

(** The existing record that has the name of a new record. *)
Definition existing_of (config : DiffConfig) (existingItems : list item)
    (it : item) : option item :=
  found_by_name existingItems (nameField config) (name_of config it).

(** A new record that is inserted: it has a name that no existing record
    has. *)
Definition is_insert (config : DiffConfig) (existingItems : list item)
    (it : item) : bool :=
  named config it
  && match existing_of config existingItems it with
     | Some _ => false
     | None => true
     end.

(** The update that a new record gives rise to: it has the name of an
    existing record from which it differs. *)
Definition update_of (config : DiffConfig) (existingItems : list item)
    (it : item) : option update :=
  if named config it then
    match existing_of config existingItems it with
    | Some old =>
        if deepEqual (VObj old) (VObj it) (default [] (ignoreFields config))
        then None
        else Some {| oldItem := old; newItem := it |}
    | None => None
    end
  else None.

(** Some new record with a name has, as the text of its id, the trimmed
    text of the id of the existing record. *)
Definition imported (config : DiffConfig) (newItems : list item) (it : item) : bool :=
  existsb (fun new => named config new
                      && String.eqb (id_of config new) (trim (id_of config it)))
    newItems.

End SyncNotions.
Import SyncNotions.

(* ===================================================================== *)
(** * The data of the unit tests of the repository *)
(* ===================================================================== *)

Module Fixtures.
Import Chars JS DocumentChangeParser DiffIdentifier.

Definition s (x : string) : option value := Some (VStr x).
Definition n (z : Z) : value := VNum (of_Z z).

(** [{items: [a, b, c]}] *)
Definition abc : value := VObj [("items", VArr [s "a"; s "b"; s "c"] [])].

(** A change group of one descriptor. *)
Definition change (t : ChangeType) (p : string) (v : option string)
    (vt : option PropertyType) : DocumentChange :=
  {| id := None; createdBy := None; createdAt := None;
     changes := [{| type := t; propertyPath := p; newValue := v; newValueType := vt |}] |}.

(** The text of [JSON.stringify({city: Paris})]. *)
Definition city : string := "{" +:+ quoted "city" +:+ ":" +:+ quoted "Paris" +:+ "}".

Definition config : DiffConfig :=
  {| idField := "id"; nameField := "name"; isDeletedField := Some "isDeleted";
     ignoreFields := Some [] |}.

(** A record [{id, name, value}]. *)
Definition entry (i nm : string) (v : Z) : item :=
  [("id", VStr i); ("name", VStr nm); ("value", VNum (of_Z v))].

(** [{name: John, address: {city: Paris}}], the two objects of a
    heap. *)
Definition john : Heap.heap :=
  {[ 0 := Heap.CObj [("name", Heap.HStr "John"); ("address", Heap.HRef 1)];
     1 := Heap.CObj [("city", Heap.HStr "Paris")] ]}.

End Fixtures.

(* ===================================================================== *)
(** * Facts about characters and patterns *)
(* ===================================================================== *)

Section CharFacts.
Import Chars.

Lemma str_chars s : str (chars s) = s.
Proof. apply String.string_of_list_ascii_of_string. Qed.

Lemma chars_str l : chars (str l) = l.
Proof. apply String.list_ascii_of_string_of_list_ascii. Qed.

Lemma chars_inj s t : chars s = chars t → s = t.
Proof. intros H. rewrite <- (str_chars s), <- (str_chars t). now f_equal. Qed.

End CharFacts.

Section RegexFacts.
Import Chars Regex.


Lemma Lang_Cat r1 r2 s :
  Lang (Cat r1 r2) s ↔ ∃ s1 s2, s = s1 ++ s2 ∧ Lang r1 s1 ∧ Lang r2 s2.
Proof.
  split.
  - intros H. inv H. eauto.
  - intros (s1 & s2 & -> & H1 & H2). now constructor.
Qed.

Lemma Lang_Plus r s :
  Lang (Plus r) s ↔ ∃ s1 s2, s = s1 ++ s2 ∧ Lang r s1 ∧ Lang (Star r) s2.
Proof.
  split.
  - intros H. inv H. eauto.
  - intros (s1 & s2 & -> & H1 & H2). now constructor.
Qed.

Lemma Lang_Opt r s : Lang (Opt r) s ↔ s = [] ∨ Lang r s.
Proof.
  split.
  - intros H. inv H; auto.
  - intros [->|H]; now constructor.
Qed.

Lemma Lang_Class items s :
  Lang (Class items) s ↔ ∃ c, s = [c] ∧ class_matches items c = true.
Proof.
  split.
  - intros H. inv H. eauto.
  - intros (c & -> & H). now constructor.
Qed.

Lemma nullable_Lang r : nullable r = true ↔ Lang r [].
Proof.
  induction r; simpl.
  - split; [constructor | done].
  - split; [done | intros H; inv H].
  - rewrite andb_true_iff, IHr1, IHr2, Lang_Cat. split.
    + intros [H1 H2]. exists [], []. done.
    + intros (s1 & s2 & E & H1 & H2). symmetry in E.
      apply app_eq_nil in E as [-> ->]. done.
  - split; [constructor | done].
  - rewrite IHr, Lang_Plus. split.
    + intros H. exists [], []. split; [done|]. split; [done | constructor].
    + intros (s1 & s2 & E & H1 & H2). symmetry in E.
      apply app_eq_nil in E as [-> ->]. done.
  - split; [constructor | done].
Qed.

Lemma deriv_sound c r : ∀ d s, In d (deriv c r) → Lang d s → Lang r (c :: s).
Proof.
  induction r; simpl; intros d s Hin HL.
  - done.
  - destruct (class_matches items c) eqn:E; simpl in Hin; [|done].
    destruct Hin as [<-|[]]. inv HL. now constructor.
  - apply in_app_or in Hin as [Hin|Hin].
    + apply in_map_iff in Hin as (d1 & <- & Hd1).
      apply Lang_Cat in HL as (s1 & s2 & -> & H1 & H2).
      apply (LCat _ _ (c :: s1) s2); eauto.
    + destruct (nullable r1) eqn:E; [|done].
      apply (LCat _ _ [] (c :: s)); [now apply nullable_Lang | eauto].
  - apply in_map_iff in Hin as (d1 & <- & Hd1).
    apply Lang_Cat in HL as (s1 & s2 & -> & H1 & H2).
    apply (LStarApp _ (c :: s1) s2); eauto.
  - apply in_map_iff in Hin as (d1 & <- & Hd1).
    apply Lang_Cat in HL as (s1 & s2 & -> & H1 & H2).
    apply (LPlus _ (c :: s1) s2); eauto.
  - apply LOptOne. eauto.
Qed.

Lemma deriv_complete r w :
  Lang r w → ∀ c s, w = c :: s → ∃ d, In d (deriv c r) ∧ Lang d s.
Proof.
  induction 1 as [|items a Ha|r1 r2 s1 s2 H1 IH1 H2 IH2| |r s1 s2 H1 IH1 H2 IH2
                 |r s1 s2 H1 IH1 H2 IH2| |r s0 H IH]; intros c s E; simpl.
  - done.
  - injection E as -> <-. rewrite Ha. exists Eps. split; [now left | constructor].
  - destruct s1 as [|a s1']; simpl in E.
    + destruct (IH2 _ _ E) as (d & Hd & HL). exists d. split; [|done].
      apply in_or_app. right. apply nullable_Lang in H1. now rewrite H1.
    + injection E as -> <-. destruct (IH1 _ _ eq_refl) as (d & Hd & HL).
      exists (Cat d r2). split; [|now constructor].
      apply in_or_app. left. apply in_map_iff. eauto.
  - done.
  - destruct s1 as [|a s1']; simpl in E.
    + apply (IH2 _ _ E).
    + injection E as -> <-. destruct (IH1 _ _ eq_refl) as (d & Hd & HL).
      exists (Cat d (Star r)). split; [|now constructor].
      apply in_map_iff. eauto.
  - destruct s1 as [|a s1']; simpl in E.
    + destruct (IH2 _ _ E) as (d & Hd & HL). simpl in Hd. eauto.
    + injection E as -> <-. destruct (IH1 _ _ eq_refl) as (d & Hd & HL).
      exists (Cat d (Star r)). split; [|now constructor].
      apply in_map_iff. eauto.
  - done.
  - apply (IH _ _ E).
Qed.

Lemma run_Lang s : ∀ rs, run rs s = true ↔ ∃ r, In r rs ∧ Lang r s.
Proof.
  induction s as [|c s IH]; intros rs; simpl.
  - rewrite existsb_exists. split; intros (r & Hr & H); exists r;
      (split; [done | now apply nullable_Lang]).
  - rewrite IH. split.
    + intros (d & Hd & HL). apply in_flat_map in Hd as (r & Hr & Hd).
      exists r. split; [done | eapply deriv_sound; eauto].
    + intros (r & Hr & HL). destruct (deriv_complete _ _ HL _ _ eq_refl) as (d & Hd & HL').
      exists d. split; [|done]. apply in_flat_map. eauto.
Qed.

(** The matcher decides membership in the language of the pattern. *)
Lemma test_Lang r s : test r s = true ↔ Lang r (chars s).
Proof.
  unfold test. rewrite run_Lang. split.
  - intros (r' & [<-|[]] & H). done.
  - intros H. exists r. split; [now left | done].
Qed.

Lemma Lang_Star_Class items s :
  Lang (Star (Class items)) s ↔ Forall (fun c => class_matches items c = true) s.
Proof.
  split.
  - intros H. remember (Star (Class items)) as R eqn:ER.
    induction H; try discriminate; injection ER as ->.
    + constructor.
    + apply Lang_Class in H as (c & -> & Hc). simpl. constructor; auto.
  - induction 1 as [|c s Hc _ IH]; [constructor |].
    apply (LStarApp _ [c] s); [now constructor | done].
Qed.

Lemma Lang_Plus_Class items s :
  Lang (Plus (Class items)) s
  ↔ s ≠ [] ∧ Forall (fun c => class_matches items c = true) s.
Proof.
  split.
  - intros H. apply Lang_Plus in H as (s1 & s2 & -> & H1 & H2).
    apply Lang_Class in H1 as (c & -> & Hc). apply Lang_Star_Class in H2.
    split; [done | now constructor].
  - intros [Hne H]. destruct s as [|c s]; [done|]. inversion H; subst.
    apply (LPlus _ [c] s); [now constructor | now apply Lang_Star_Class].
Qed.

End RegexFacts.

(* ===================================================================== *)
(** * The path pattern and the path grammar *)
(* ===================================================================== *)

Section PathPattern.
Import Chars Regex DocumentChangeParser.

Lemma Forall_true_ext {A} (f g : A → bool) (l : list A) :
  (∀ x, f x = g x) →
  Forall (fun x => f x = true) l ↔ Forall (fun x => g x = true) l.
Proof.
  intros E. split; intros H; eapply Forall_impl; eauto; intros x Hx;
    cbv beta in *; congruence.
Qed.

Lemma start_class c :
  class_matches [Range "a" "z"; Range "A" "Z"; Lit "_"; Lit "$"] c
  = PathGrammar.identifier_start c.
Proof.
  unfold PathGrammar.identifier_start, is_upper, is_lower.
  cbv [class_matches existsb item_matches].
  rewrite (Ascii.eqb_sym "_" c), (Ascii.eqb_sym "$" c).
  destruct (in_range "a" "z" c), (in_range "A" "Z" c), (Ascii.eqb c "_"),
    (Ascii.eqb c "$"); reflexivity.
Qed.

Lemma part_class c :
  class_matches [Range "0" "9"; Range "a" "z"; Range "A" "Z"; Lit "_"; Lit "$"] c
  = PathGrammar.identifier_char c.
Proof.
  unfold PathGrammar.identifier_char, is_upper, is_lower, is_digit.
  cbv [class_matches existsb item_matches]. rewrite (Ascii.eqb_sym "_" c), (Ascii.eqb_sym "$" c).
  destruct (in_range "0" "9" c), (in_range "a" "z" c), (in_range "A" "Z" c),
    (Ascii.eqb c "_"), (Ascii.eqb c "$"); reflexivity.
Qed.

Lemma digit_class c : class_matches [Digit] c = is_digit c.
Proof. cbv [class_matches existsb item_matches]. apply orb_false_r. Qed.

Lemma Lang_lit c s : Lang (lit c) s ↔ s = [c].
Proof.
  unfold lit. rewrite Lang_Class. cbv [class_matches existsb item_matches]. split.
  - intros (a & -> & H). rewrite orb_false_r in H.
    apply Ascii.eqb_eq in H as ->. done.
  - intros ->. exists c. now rewrite Ascii.eqb_refl.
Qed.

Lemma Lang_digits s : Lang (Plus (Class [Digit])) s ↔ PathGrammar.digits s.
Proof.
  rewrite Lang_Plus_Class. unfold PathGrammar.digits.
  now rewrite (Forall_true_ext _ _ s digit_class).
Qed.

Lemma Lang_identifier s :
  Lang (Cat identifier_start (Star identifier_part)) s ↔ PathGrammar.identifier s.
Proof.
  rewrite Lang_Cat. unfold PathGrammar.identifier, identifier_start, identifier_part.
  split.
  - intros (s1 & s2 & -> & H1 & H2).
    apply Lang_Class in H1 as (c & -> & Hc). apply Lang_Star_Class in H2.
    exists c, s2. rewrite start_class in Hc. split; [done|]. split; [done|].
    now apply (Forall_true_ext _ _ s2 part_class).
  - intros (c & cs & -> & Hc & Hcs). exists [c], cs. split; [done|]. split.
    + apply Lang_Class. exists c. now rewrite start_class.
    + apply Lang_Star_Class. now apply (Forall_true_ext _ _ cs part_class).
Qed.

Lemma Lang_segment s :
  Lang VALID_IDENTIFIER s ↔ PathGrammar.segment PathGrammar.digits s.
Proof.
  unfold VALID_IDENTIFIER, PathGrammar.segment. rewrite Lang_Cat. split.
  - intros (i & b & -> & Hi & Hb). apply Lang_identifier in Hi.
    exists i. split; [done|]. apply Lang_Opt in Hb as [->|Hb].
    + left. now rewrite app_nil_r.
    + right. apply Lang_Cat in Hb as (o & r & -> & Ho & Hr).
      apply Lang_lit in Ho as ->.
      apply Lang_Cat in Hr as (x & c & -> & Hx & Hc).
      apply Lang_lit in Hc as ->. apply Lang_digits in Hx. eauto.
  - intros (i & Hi & [->|(x & Hx & ->)]); apply Lang_identifier in Hi.
    + exists i, []. rewrite app_nil_r. split; [done|]. split; [done|].
      apply Lang_Opt. now left.
    + exists i, ("["%char :: x ++ ["]"%char]). split; [done|]. split; [done|].
      apply Lang_Opt. right. apply (LCat _ _ ["["%char] (x ++ ["]"%char])).
      * now apply Lang_lit.
      * apply LCat; [now apply Lang_digits | now apply Lang_lit].
Qed.

Lemma Lang_more_segments t :
  Lang (Star (Cat (lit ".") VALID_IDENTIFIER)) t →
  ∀ s, PathGrammar.segment PathGrammar.digits s →
       PathGrammar.segments PathGrammar.digits (s ++ t).
Proof.
  intros H. remember (Star (Cat (lit ".") VALID_IDENTIFIER)) as R eqn:ER.
  induction H as [| | | |r s1 s2 H1 _ H2 IH2| | |]; try discriminate;
    injection ER as ->; intros s Hs.
  - rewrite app_nil_r. now constructor.
  - apply Lang_Cat in H1 as (d & s' & -> & Hd & Hs').
    apply Lang_lit in Hd as ->. apply Lang_segment in Hs'.
    simpl. apply PathGrammar.segments_more; [done|]. now apply IH2.
Qed.

Lemma segments_Lang w :
  PathGrammar.segments PathGrammar.digits w →
  ∃ s t, w = s ++ t ∧ Lang VALID_IDENTIFIER s
         ∧ Lang (Star (Cat (lit ".") VALID_IDENTIFIER)) t.
Proof.
  induction 1 as [s Hs|s rest Hs _ (s' & t & -> & Hs' & Ht)].
  - exists s, []. rewrite app_nil_r. split; [done|]. split.
    + now apply Lang_segment.
    + constructor.
  - exists s, ("."%char :: s' ++ t). split; [done|]. split.
    + now apply Lang_segment.
    + apply (LStarApp _ ("."%char :: s') t); [|done].
      apply (LCat _ _ ["."%char] s'); [now apply Lang_lit | done].
Qed.

Lemma Lang_index x :
  Lang (Cat (Opt (lit "-")) (Plus (Class [Digit]))) x ↔ PathGrammar.index x.
Proof.
  rewrite Lang_Cat. unfold PathGrammar.index. split.
  - intros (m & d & -> & Hm & Hd). apply Lang_digits in Hd.
    apply Lang_Opt in Hm as [->|Hm]; [now left|].
    apply Lang_lit in Hm as ->. right. eauto.
  - intros [Hd|(d & -> & Hd)]; apply Lang_digits in Hd.
    + exists [], x. split; [done|]. split; [|done]. apply Lang_Opt. now left.
    + exists ["-"%char], d. split; [done|]. split; [|done].
      apply Lang_Opt. right. now apply Lang_lit.
Qed.

(** The words of [PROPERTY_PATH_REGEX] are the paths of the grammar whose
    bracket indices are unsigned. *)
Lemma Lang_path w :
  Lang PROPERTY_PATH_REGEX w ↔ PathGrammar.path PathGrammar.digits w.
Proof.
  unfold PROPERTY_PATH_REGEX, PathGrammar.path. rewrite Lang_Cat. split.
  - intros (b & a & -> & Hb & Ha).
    apply Lang_Cat in Hb as (s & t & -> & Hs & Ht).
    apply Lang_segment in Hs. pose proof (Lang_more_segments _ Ht _ Hs) as Hb.
    exists (s ++ t). split; [done|].
    apply Lang_Opt in Ha as [->|Ha]; [left; now rewrite app_nil_r|].
    apply Lang_Cat in Ha as (o & x & -> & Ho & Hx).
    apply Lang_lit in Ho as ->. apply Lang_index in Hx. right. eauto.
  - intros (b & Hb & Hw). apply segments_Lang in Hb as (s & t & -> & Hs & Ht).
    destruct Hw as [->|(x & Hx & ->)].
    + exists (s ++ t), []. rewrite app_nil_r. split; [done|]. split.
      * now constructor.
      * apply Lang_Opt. now left.
    + exists (s ++ t), ("@"%char :: x). split; [done|]. split.
      * now constructor.
      * apply Lang_Opt. right. apply (LCat _ _ ["@"%char] x);
          [now apply Lang_lit | now apply Lang_index].
Qed.

End PathPattern.

Section PathValidation.
Import Chars Regex DocumentChangeParser.

Lemma isValidPropertyPath_Lang path :
  isValidPropertyPath path = true ↔ Lang PROPERTY_PATH_REGEX (chars path).
Proof. apply test_Lang. Qed.

(** C1, as stated, fails: the grammar of the specification lets a bracket
    index carry a minus sign, and so derives [items[-1]], which
    [isValidPropertyPath] rejects. *)
Lemma C1_signed_bracket_index :
  ¬ (isValidPropertyPath "items[-1]" = true ↔ PathGrammar.spec_path "items[-1]").
Proof.
  intros [_ H]. enough (isValidPropertyPath "items[-1]" = true) by done.
  apply H. exists (chars "items[-1]"). split; [|now left].
  apply PathGrammar.segments_one. exists (chars "items"). split.
  - exists "i"%char, (chars "tems"). split; [done|]. split; [done|].
    repeat constructor.
  - right. exists (chars "-1"). split; [|done].
    right. exists (chars "1"). split; [done|]. split; [done|]. repeat constructor.
Qed.

(** C1 (amended): [isValidPropertyPath(path)] is true exactly when the
    whole of [path] is derived by the grammar of the specification with
    plain [digit+] between the brackets of a segment (the index after [@]
    keeps its optional minus sign).  It accepts [name], [user.name],
    [items[0]], [items[0].name], [items@0] and [user.items@0], and rejects
    the empty path, [123], [.name] and [name.]. *)
Theorem C1_isValidPropertyPath_grammar :
  (∀ path, isValidPropertyPath path = true ↔ PathGrammar.unsigned_bracket_path path)
  ∧ Forall (fun p => isValidPropertyPath p = true)
      ["name"; "user.name"; "items[0]"; "items[0].name"; "items@0"; "user.items@0"]
  ∧ Forall (fun p => isValidPropertyPath p = false)
      [EmptyString; "123"; ".name"; "name."].
Proof.
  split; [|split].
  - intros path. rewrite isValidPropertyPath_Lang. apply Lang_path.
  - repeat constructor.
  - repeat constructor.
Qed.

End PathValidation.

(* ===================================================================== *)
(** * Facts about properties, reads and writes *)
(* ===================================================================== *)

Section PropertyFacts.
Import Chars JS.

Lemma prop_lookup_assign k v ps : prop_lookup k (prop_assign k v ps) = Some v.
Proof.
  induction ps as [|[k' v'] ps IH]; simpl.
  - now rewrite String.eqb_refl.
  - destruct (String.eqb k' k) eqn:E; simpl.
    + now rewrite String.eqb_refl.
    + now rewrite E.
Qed.

Lemma prop_assign_idem k v ps :
  prop_assign k v (prop_assign k v ps) = prop_assign k v ps.
Proof.
  induction ps as [|[k' v'] ps IH]; simpl.
  - now rewrite String.eqb_refl.
  - destruct (String.eqb k' k) eqn:E; simpl.
    + now rewrite String.eqb_refl.
    + rewrite E. now f_equal.
Qed.

Lemma prop_assign_same k v ps : prop_lookup k ps = Some v → prop_assign k v ps = ps.
Proof.
  induction ps as [|[k' v'] ps IH]; simpl; [done|].
  destruct (String.eqb k' k) eqn:E.
  - apply String.eqb_eq in E as ->. now intros [= ->].
  - intros H. now rewrite IH.
Qed.

Lemma prop_assign_assign k v w ps :
  prop_assign k w (prop_assign k v ps) = prop_assign k w ps.
Proof.
  induction ps as [|[k' v'] ps IH]; simpl.
  - now rewrite String.eqb_refl.
  - destruct (String.eqb k' k) eqn:E; simpl.
    + now rewrite String.eqb_refl.
    + rewrite E. now f_equal.
Qed.

Lemma array_store_lookup i x es : elem_value (array_store i x es !! i) = x.
Proof.
  unfold array_store. destruct (decide (i < length es)) as [Hlt|Hge].
  - now rewrite list_lookup_insert_eq.
  - rewrite lookup_app_r by lia. rewrite lookup_app_r; rewrite length_replicate; [|lia].
    now replace (i - length es - (i - length es)) with 0 by lia.
Qed.

Lemma array_store_slot i x es : ∃ y, array_store i x es !! i = Some (Some y).
Proof.
  unfold array_store. destruct (decide (i < length es)) as [Hlt|Hge].
  - exists x. now rewrite list_lookup_insert_eq.
  - exists x. rewrite lookup_app_r by lia.
    rewrite lookup_app_r; rewrite length_replicate; [|lia].
    now replace (i - length es - (i - length es)) with 0 by lia.
Qed.

Lemma array_store_length i x es : i < length (array_store i x es).
Proof.
  unfold array_store. destruct (decide (i < length es)) as [Hlt|Hge].
  - now rewrite length_insert.
  - rewrite !length_app, length_replicate. simpl. lia.
Qed.

Lemma array_store_idem i x es :
  array_store i x (array_store i x es) = array_store i x es.
Proof.
  pose proof (array_store_length i x es) as Hlt.
  unfold array_store at 1. destruct (decide _); [|done].
  apply list_insert_id. destruct (array_store_slot i x es) as [y Hy].
  pose proof (array_store_lookup i x es) as Hx. rewrite Hy in Hx. simpl in Hx.
  now subst.
Qed.

Lemma array_resize_length n es : length (array_resize n es) = n.
Proof.
  unfold array_resize. rewrite length_app, length_take, length_replicate. lia.
Qed.

Lemma array_resize_idem n es :
  array_resize n (array_resize n es) = array_resize n es.
Proof.
  unfold array_resize at 1. rewrite array_resize_length.
  rewrite Nat.sub_diag. simpl. rewrite app_nil_r.
  apply firstn_all2. now rewrite array_resize_length.
Qed.

Lemma nullish_shape v : nullish v = true → shape_of v = NoContainer.
Proof. now destruct v. Qed.

Lemma shape_nullish v : shape_of v ≠ NoContainer → nullish v = false.
Proof. now destruct v. Qed.

Lemma owns_not_inherited o k : owns o k = true → inherited o k = false.
Proof. unfold inherited. now intros ->. Qed.

Lemma inherited_nullish o k : nullish o = true → inherited o k = false.
Proof. now destruct o. Qed.

(** A read returns when nothing is inherited under the key: it then
    returns the own property, or [undefined]. *)
Lemma Get_Returned o k v :
  Get o k = Returned v ↔ inherited o k = false ∧ GetOwn o k = Some v.
Proof.
  unfold Get. destruct (inherited o k); [split; [done | now intros [? ?]]|].
  destruct (GetOwn o k); split; try done.
  - now intros [= ->].
  - now intros [_ [= ->]].
  - now intros [_ ?].
Qed.

Lemma GetOwn_None o k : GetOwn o k = None ↔ nullish o = true.
Proof. destruct o; simpl; split; done. Qed.

Lemma GetOwn_total o k : nullish o = false → ∃ v, GetOwn o k = Some v.
Proof. destruct o; simpl; try done; eauto. Qed.

Lemma Get_None o k : Get o k = Thrown TypeError ↔ nullish o = true.
Proof.
  unfold Get. split.
  - destruct (inherited o k); [done|].
    destruct (GetOwn o k) eqn:E; [done|]. intros _. now apply (GetOwn_None o k).
  - intros H. rewrite inherited_nullish by done.
    now rewrite (proj2 (GetOwn_None o k) H).
Qed.

(** What a read of a value other than [undefined] and [null] ends with. *)
Lemma Get_total o k :
  nullish o = false →
  (∃ v, Get o k = Returned v) ∨ Get o k = Thrown (Inherited k).
Proof.
  intros H. unfold Get. destruct (inherited o k); [now right|].
  destruct (GetOwn_total o k H) as [v ->]. left. eauto.
Qed.

Lemma Get_Thrown o k e :
  Get o k = Thrown e → (e = TypeError ∧ nullish o = true) ∨ e = Inherited k.
Proof.
  unfold Get. destruct (inherited o k); [intros [= <-]; now right|].
  destruct (GetOwn o k) eqn:E; [done|]. intros [= <-]. left.
  split; [done | now apply (GetOwn_None o k)].
Qed.

Lemma PutOwn_shape o k x : shape_of (PutOwn o k x).1 = shape_of o.
Proof.
  destruct o; simpl; try done.
  destruct (array_index k); [done|].
  destruct (String.eqb k "length"); [|done].
  now destruct (valid_length _).
Qed.

Lemma Put_shape o k x : shape_of (Put o k x).1 = shape_of o.
Proof. unfold Put. destruct (inherited o k); [done | apply PutOwn_shape]. Qed.

Lemma PutOwn_nullish o k x : nullish (PutOwn o k x).1 = nullish o.
Proof.
  destruct o; simpl; try done.
  destruct (array_index k); [done|].
  destruct (String.eqb k "length"); [|done].
  now destruct (valid_length _).
Qed.

Lemma Put_nullish o k x : nullish (Put o k x).1 = nullish o.
Proof. unfold Put. destruct (inherited o k); [done | apply PutOwn_nullish]. Qed.

Lemma PutOwn_error o k x e : (PutOwn o k x).2 = Some e → (PutOwn o k x).1 = o.
Proof.
  destruct o; simpl; try done.
  destruct (array_index k); [done|].
  destruct (String.eqb k "length"); [|done].
  now destruct (valid_length _).
Qed.

(** A write that throws leaves its target as it was. *)
Lemma Put_error o k x e : (Put o k x).2 = Some e → (Put o k x).1 = o.
Proof. unfold Put. destruct (inherited o k); [done | apply PutOwn_error]. Qed.

(** What has been written is owned. *)
Lemma PutOwn_owns o k x o1 : PutOwn o k x = (o1, None) → owns o1 k = true.
Proof.
  destruct o; simpl; try done.
  - intros [= <-]. simpl. apply bool_decide_eq_true. rewrite prop_lookup_assign. eauto.
  - destruct (array_index k) eqn:Ei.
    + intros [= <-]. simpl. rewrite Ei.
      now destruct (array_store_slot n x elems) as [y ->].
    + destruct (String.eqb k "length") eqn:El.
      * destruct (valid_length _); [|done]. intros [= <-]. simpl. now rewrite Ei, El.
      * intros [= <-]. simpl. rewrite Ei, El. simpl.
        apply bool_decide_eq_true. rewrite prop_lookup_assign. eauto.
Qed.

Lemma PutOwn_idem o k x : PutOwn (PutOwn o k x).1 k x = PutOwn o k x.
Proof.
  destruct o; simpl; try done.
  - now rewrite prop_assign_idem.
  - destruct (array_index k) eqn:Ei; simpl.
    + now rewrite Ei, array_store_idem.
    + destruct (String.eqb k "length") eqn:El.
      * destruct (valid_length (ToNumber x)) eqn:Ev; simpl; rewrite Ei, El, Ev.
        -- now rewrite array_resize_idem.
        -- done.
      * simpl. now rewrite Ei, El, prop_assign_idem.
Qed.

Lemma Put_idem o k x : Put (Put o k x).1 k x = Put o k x.
Proof.
  unfold Put. destruct (inherited o k) eqn:Ei; cbn [fst]; [now rewrite Ei|].
  destruct (PutOwn o k x) as [o1 [e|]] eqn:EP; cbn [fst].
  - pose proof (PutOwn_error o k x e) as H. rewrite EP in H.
    specialize (H eq_refl). simpl in H. subst o1. now rewrite Ei.
  - rewrite (owns_not_inherited _ _ (PutOwn_owns _ _ _ _ EP)).
    pose proof (PutOwn_idem o k x) as H. now rewrite EP in H.
Qed.

(** After a write into a slot that read as [undefined] or [null], the
    slot reads as what was written. *)
Lemma GetOwn_PutOwn o k x o1 :
  PutOwn o k x = (o1, None) → String.eqb k "length" = false ∨ isArray o = false →
  GetOwn o1 k = Some x.
Proof.
  destruct o; simpl; try done.
  - intros [= <-] _. simpl. now rewrite prop_lookup_assign.
  - destruct (array_index k) eqn:Ei.
    + intros [= <-] _. simpl. now rewrite Ei, array_store_lookup.
    + destruct (String.eqb k "length") eqn:El.
      * now intros _ [|].
      * intros [= <-] _. simpl. now rewrite Ei, El, prop_lookup_assign.
Qed.

Lemma Get_Put o k x o1 found :
  Put o k x = (o1, None) → Get o k = Returned found → nullish found = true →
  Get o1 k = Returned x.
Proof.
  intros HP HG Hn. apply Get_Returned in HG as [Hi HG].
  unfold Put in HP. rewrite Hi in HP.
  apply Get_Returned. split.
  - apply owns_not_inherited. now apply (PutOwn_owns o k x).
  - apply (GetOwn_PutOwn o k x o1 HP).
    destruct (String.eqb_spec k "length") as [->|]; [|now left].
    right. destruct o; try done. simpl in HG. injection HG as <-. done.
Qed.

End PropertyFacts.

Section RebindFacts.
Import Chars JS ObjectManipulator.

Lemma rebind_shape p k c : shape_of (rebind p k c) = shape_of p.
Proof.
  destruct p; simpl; try done.
  - now destruct (prop_lookup k props).
  - destruct (array_index k).
    + now destruct (elems !! n) as [[|]|].
    + destruct (String.eqb k "length"); [done|]. now destruct (prop_lookup k props).
Qed.

Lemma rebind_nullish p k c : nullish (rebind p k c) = nullish p.
Proof.
  destruct p; simpl; try done.
  - now destruct (prop_lookup k props).
  - destruct (array_index k).
    + now destruct (elems !! n) as [[|]|].
    + destruct (String.eqb k "length"); [done|]. now destruct (prop_lookup k props).
Qed.

(** Putting back what is already there changes nothing. *)
Lemma rebind_same_own p k c : GetOwn p k = Some c → rebind p k c = p.
Proof.
  destruct p; simpl; try done.
  - destruct (prop_lookup k props) eqn:E; [|done].
    simpl. intros [= <-]. now rewrite prop_assign_same.
  - destruct (array_index k).
    + destruct (elems !! n) as [[v|]|] eqn:E; try done.
      simpl. intros [= <-]. now rewrite list_insert_id.
    + destruct (String.eqb k "length"); [done|].
      destruct (prop_lookup k props) eqn:E; [|done].
      simpl. intros [= <-]. now rewrite prop_assign_same.
Qed.

Lemma rebind_same p k c : Get p k = Returned c → rebind p k c = p.
Proof. intros [_ H]%Get_Returned. now apply rebind_same_own. Qed.

(** Either the slot exists and now holds the child, or there is no such
    slot and the parent is as before. *)
Lemma rebind_cases_own p k c :
  (owns (rebind p k c) k = true ∧ GetOwn (rebind p k c) k = Some c) ∨ rebind p k c = p.
Proof.
  destruct p; simpl; auto.
  - destruct (prop_lookup k props) eqn:E; [|auto].
    left. simpl. rewrite prop_lookup_assign. split; [|done].
    apply bool_decide_eq_true. eauto.
  - destruct (array_index k) eqn:Ei.
    + destruct (elems !! n) as [[v|]|] eqn:E; auto.
      left. simpl. rewrite Ei. rewrite list_lookup_insert_eq; [done|].
      now apply lookup_lt_Some in E.
    + destruct (String.eqb k "length") eqn:El; [auto|].
      destruct (prop_lookup k props) eqn:E; [|auto].
      left. simpl. rewrite Ei, El, prop_lookup_assign. split; [|done].
      apply bool_decide_eq_true. eauto.
Qed.

Lemma rebind_cases p k c : Get (rebind p k c) k = Returned c ∨ rebind p k c = p.
Proof.
  destruct (rebind_cases_own p k c) as [[Ho HG]|H]; [left | now right].
  apply Get_Returned. split; [now apply owns_not_inherited | done].
Qed.

Lemma rebind_idem p k c : rebind (rebind p k c) k c = rebind p k c.
Proof.
  destruct (rebind_cases p k c) as [H|H].
  - now apply rebind_same.
  - now rewrite !H.
Qed.

End RebindFacts.

Section ValueInduction.
Import Chars JS.

(** Induction on values, with the parts of a container as hypotheses. *)
Lemma value_induction (P : value → Prop) :
  P VUndefined → P VNull → (∀ b, P (VBool b)) → (∀ n, P (VNum n)) →
  (∀ s, P (VStr s)) →
  (∀ ps, Forall (fun p => P (snd p)) ps → P (VObj ps)) →
  (∀ es ps,
     Forall (fun e => match e with Some x => P x | None => True end) es →
     Forall (fun p => P (snd p)) ps → P (VArr es ps)) →
  ∀ v, P v.
Proof.
  intros Hu Hn Hb Hnum Hs Ho Ha. fix IH 1. intros v.
  destruct v as [| | b | n | s | ps | es ps].
  - exact Hu.
  - exact Hn.
  - apply Hb.
  - apply Hnum.
  - apply Hs.
  - apply Ho. induction ps as [|[k x] ps IHps]; constructor; [apply IH | exact IHps].
  - apply Ha.
    + induction es as [|[x|] es IHes]; constructor;
        [apply IH | exact IHes | exact I | exact IHes].
    + induction ps as [|[k x] ps IHps]; constructor; [apply IH | exact IHps].
Qed.

End ValueInduction.

(* ===================================================================== *)
(** * setPropertyValue *)
(* ===================================================================== *)

Section SetFacts.
Import Chars JS ObjectManipulator.

Lemma set_walk_step current key nextKey rest value :
  set_walk current (key :: nextKey :: rest) value =
  match Get current key with
  | Thrown e => (current, Some e)
  | Returned found =>
      let '(current1, e1) :=
        if nullish found then Put current key (fresh_container nextKey)
        else (current, None) in
      match e1 with
      | Some e => (current1, Some e)
      | None =>
          match Get current1 key with
          | Thrown e => (current1, Some e)
          | Returned child =>
              let '(child', e) := set_walk child (nextKey :: rest) value in
              (rebind current1 key child', e)
          end
      end
  end.
Proof. reflexivity. Qed.

Lemma set_step_total current key nextKey :
  ∃ current1 child e, set_step current key nextKey current1 child e.
Proof.
  destruct (Get current key) as [found|e0] eqn:EG.
  - destruct (nullish found) eqn:EN.
    + destruct (Put current key (fresh_container nextKey)) as [c1 [e|]] eqn:EP.
      * pose proof (Put_error current key (fresh_container nextKey) e) as H.
        rewrite EP in H. simpl in H. rewrite H in EP by done.
        eauto using step_create_fails.
      * pose proof (Get_Put _ _ _ _ _ EP EG EN). eauto using step_create.
    + eauto using step_descend.
  - eauto using step_unreadable.
Qed.

Lemma set_walk_by_step current key nextKey rest value current1 child e :
  set_step current key nextKey current1 child e →
  set_walk current (key :: nextKey :: rest) value =
  match child with
  | Some c => let '(c', e') := set_walk c (nextKey :: rest) value in
              (rebind current1 key c', e')
  | None => (current1, e)
  end.
Proof.
  intros Hs. rewrite set_walk_step.
  destruct Hs as [e0 EG|found e0 EG EN EP|found c1 EG EN EP EG1|found EG EN].
  - now rewrite EG.
  - rewrite EG, EN, EP. done.
  - rewrite EG, EN, EP, EG1. done.
  - rewrite EG, EN, EG. done.
Qed.

Lemma set_step_shape current key nextKey current1 child e :
  set_step current key nextKey current1 child e → shape_of current1 = shape_of current.
Proof.
  intros Hs. destruct Hs as [e0 EG|found e0 EG EN EP|found c1 EG EN EP EG1|found EG EN];
    try done.
  pose proof (Put_shape current key (fresh_container nextKey)) as Hp.
  now rewrite EP in Hp.
Qed.

Lemma set_step_child current key nextKey current1 child :
  set_step current key nextKey current1 (Some child) None →
  Get current1 key = Returned child ∧ nullish child = false.
Proof.
  inversion 1; subst; [|done].
  split; [done|]. unfold fresh_container. now destruct (is_numeric nextKey).
Qed.

(** Induction over the keys the way the walk takes them: no key, the
    last key, or a key with a next one. *)
Lemma keys_ind (P : list string → Prop) :
  P [] → (∀ k, P [k]) → (∀ k k' rest, P (k' :: rest) → P (k :: k' :: rest)) →
  ∀ keys, P keys.
Proof.
  intros H0 H1 H2. induction keys as [|k [|k' rest] IH]; auto.
Qed.

Lemma set_walk_shape keys value :
  ∀ current, shape_of (set_walk current keys value).1 = shape_of current.
Proof.
  induction keys as [|k|k k' rest IH] using keys_ind; intros current.
  - apply Put_shape.
  - apply Put_shape.
  - destruct (set_step_total current k k') as (c1 & child & e & Hs).
    rewrite (set_walk_by_step _ _ _ rest value _ _ _ Hs).
    pose proof (set_step_shape _ _ _ _ _ _ Hs) as Hc1.
    destruct child as [c|]; [|done].
    destruct (set_walk c (k' :: rest) value) as [c' e'] eqn:E. simpl.
    now rewrite rebind_shape.
Qed.

Lemma Put_no_container o k x :
  shape_of o = NoContainer → ∃ e, Put o k x = (o, Some e).
Proof.
  intros H. unfold Put. destruct (inherited o k); [eauto|].
  destruct o; try done; simpl; eauto.
Qed.

Lemma rebind_no_container p k c : shape_of p = NoContainer → rebind p k c = p.
Proof. now destruct p. Qed.

(** On anything but an object or an array the assignment changes
    nothing. *)
Lemma set_walk_no_container keys value :
  ∀ current, shape_of current = NoContainer →
             (set_walk current keys value).1 = current.
Proof.
  induction keys as [|k|k k' rest IH] using keys_ind; intros current Hc.
  - simpl. now destruct (Put_no_container current key_undefined value Hc) as [e ->].
  - simpl. now destruct (Put_no_container current k value Hc) as [e ->].
  - destruct (set_step_total current k k') as (c1 & child & e & Hs).
    rewrite (set_walk_by_step _ _ _ rest value _ _ _ Hs).
    inversion Hs as [e0 EG|found e0 EG EN EP|found c1' EG EN EP EG1|found EG EN]; subst;
      try done.
    + destruct (Put_no_container current k (fresh_container k') Hc) as [e0 He].
      congruence.
    + destruct (set_walk found (k' :: rest) value). simpl.
      now apply rebind_no_container.
Qed.

Lemma set_walk_nullish keys value current :
  nullish (set_walk current keys value).1 = nullish current.
Proof.
  destruct (shape_of current) eqn:E.
  - pose proof (set_walk_shape keys value current) as H. rewrite E in H.
    rewrite !shape_nullish; congruence.
  - pose proof (set_walk_shape keys value current) as H. rewrite E in H.
    rewrite !shape_nullish; congruence.
  - now rewrite set_walk_no_container.
Qed.

(** Applying the same assignment again changes nothing more and ends the
    same way. *)
Lemma set_walk_idem keys value :
  ∀ current, set_walk (set_walk current keys value).1 keys value
             = set_walk current keys value.
Proof.
  induction keys as [|k|k k' rest IH] using keys_ind; intros current.
  - apply Put_idem.
  - apply Put_idem.
  - destruct (set_step_total current k k') as (c1 & child & e & Hs).
    rewrite (set_walk_by_step _ _ _ rest value _ _ _ Hs).
    destruct child as [c|].
    + assert (e = None) as -> by (inversion Hs; done).
      destruct (set_step_child _ _ _ _ _ Hs) as [EG EN].
      destruct (set_walk c (k' :: rest) value) as [c' e'] eqn:E. cbn [fst snd].
      assert (Hc' : nullish c' = false).
      { pose proof (set_walk_nullish (k' :: rest) value c) as H.
        rewrite E in H. simpl in H. congruence. }
      assert (Hidem : set_walk c' (k' :: rest) value = (c', e')).
      { pose proof (IH c) as H. now rewrite E in H. }
      destruct (rebind_cases c1 k c') as [HG|Hsame].
      * rewrite (set_walk_by_step _ k k' rest value (rebind c1 k c') (Some c') None).
        -- now rewrite Hidem, rebind_idem.
        -- now apply step_descend.
      * rewrite Hsame.
        rewrite (set_walk_by_step _ k k' rest value c1 (Some c) None).
        -- now rewrite E, Hsame.
        -- now apply step_descend.
    + assert (c1 = current) as -> by (inversion Hs; done).
      cbn [fst]. now rewrite (set_walk_by_step _ _ _ rest value _ _ _ Hs).
Qed.

End SetFacts.

Section AutoVivification.
Import Chars JS ObjectManipulator.

Lemma Get_no_container p k c :
  shape_of p = NoContainer → Get p k = Returned c → shape_of c = NoContainer.
Proof.
  intros Hp [_ HG]%Get_Returned. revert Hp HG.
  destruct p; try done; simpl; intros _ [= <-]; try done.
  destruct (array_index k); [now destruct (_ !! _) | now destruct (String.eqb _ _)].
Qed.

Lemma set_walk_no_container_fails keys value current :
  shape_of current = NoContainer → (set_walk current keys value).2 ≠ None.
Proof.
  revert current.
  induction keys as [|k|k k' rest IH] using keys_ind; intros current Hc.
  - simpl. now destruct (Put_no_container current key_undefined value Hc) as [e ->].
  - simpl. now destruct (Put_no_container current k value Hc) as [e ->].
  - destruct (set_step_total current k k') as (c1 & child & e & Hs).
    rewrite (set_walk_by_step _ _ _ rest value _ _ _ Hs).
    inversion Hs as [e0 EG|found e0 EG EN EP|found c1' EG EN EP EG1|found EG EN]; subst;
      try done.
    + destruct (Put_no_container current k (fresh_container k') Hc) as [e0 He].
      congruence.
    + assert (shape_of found = NoContainer) as Hf
        by (eapply Get_no_container; eauto).
      specialize (IH found Hf). destruct (set_walk found (k' :: rest) value). done.
Qed.

(** A container that was read out of a slot is put back into that
    slot. *)
Lemma Get_rebind_container p k c c' :
  Get p k = Returned c → shape_of c ≠ NoContainer → Get (rebind p k c') k = Returned c'.
Proof.
  intros [_ EG]%Get_Returned Hc.
  assert (Hslot : match p with
                  | VObj ps => prop_lookup k ps = Some c
                  | VArr es ps =>
                      match array_index k with
                      | Some i => es !! i = Some (Some c)
                      | None => String.eqb k "length" = false ∧ prop_lookup k ps = Some c
                      end
                  | _ => False
                  end).
  { destruct p; simpl in EG; try done; try (injection EG as <-; done).
    - injection EG as <-. exfalso. apply Hc.
      destruct (array_index k); [now destruct (_ !! _) | now destruct (String.eqb _ _)].
    - injection EG as <-. destruct (prop_lookup k props); [done|]. now exfalso.
    - injection EG as <-. destruct (array_index k).
      + destruct (elems !! n) as [[v|]|]; try done; now exfalso.
      + destruct (String.eqb k "length"); [now exfalso|].
        split; [done|]. destruct (prop_lookup k props); [done|]. now exfalso. }
  destruct p; try done; cbn [rebind].
  - rewrite Hslot. apply Get_Returned. split.
    + apply owns_not_inherited. simpl. apply bool_decide_eq_true.
      rewrite prop_lookup_assign. eauto.
    + simpl. now rewrite prop_lookup_assign.
  - destruct (array_index k) eqn:Ei.
    + rewrite Hslot. pose proof (lookup_lt_Some _ _ _ Hslot) as Hlt.
      apply Get_Returned. split.
      * apply owns_not_inherited. simpl. now rewrite Ei, list_lookup_insert_eq.
      * simpl. now rewrite Ei, list_lookup_insert_eq.
    + destruct Hslot as [El Hp]. rewrite El, Hp. apply Get_Returned. split.
      * apply owns_not_inherited. simpl. rewrite Ei, El. simpl.
        apply bool_decide_eq_true. rewrite prop_lookup_assign. eauto.
      * simpl. now rewrite Ei, El, prop_lookup_assign.
Qed.

Lemma value_at_nil obj : value_at obj [] = obj.
Proof. reflexivity. Qed.

Lemma value_at_cons obj k ks child :
  Get obj k = Returned child → value_at obj (k :: ks) = value_at child ks.
Proof.
  intros EG. unfold value_at. simpl.
  assert (nullish obj = false) as ->.
  { destruct (nullish obj) eqn:E; [|done]. apply Get_None with (k := k) in E. congruence. }
  now rewrite EG.
Qed.

Lemma value_at_nullish v ks : nullish v = true → nullish (value_at v ks) = true.
Proof.
  intros H. unfold value_at. destruct ks as [|k ks]; simpl; [done|]. now rewrite H.
Qed.

Lemma is_numeric_not_length k : is_numeric k = true → String.eqb k "length" = false.
Proof.
  intros H. apply String.eqb_neq. intros ->. done.
Qed.

(** Nothing is found along a path that starts in a container that was
    just created for its first key. *)
Lemma value_at_fresh nextKey ks :
  nullish (value_at (fresh_container nextKey) (nextKey :: ks)) = true.
Proof.
  destruct (Get (fresh_container nextKey) nextKey) as [v|e] eqn:EG.
  - rewrite (value_at_cons _ _ _ _ EG). apply value_at_nullish.
    apply Get_Returned in EG as [_ EG]. unfold fresh_container in EG.
    destruct (is_numeric nextKey) eqn:E; simpl in EG.
    + rewrite (is_numeric_not_length _ E) in EG.
      destruct (array_index nextKey); now injection EG as <-.
    + now injection EG as <-.
  - unfold value_at. cbn [get_walk]. rewrite EG.
    now destruct (nullish (fresh_container nextKey)).
Qed.

(** The policy of the walk: a position before the last key where nothing
    was found holds, after an assignment that returns, an array if the
    next key is numeric and a plain object otherwise. *)
Lemma set_walk_creates keys value :
  ∀ obj obj' i nextKey,
    set_walk obj keys value = (obj', None) →
    keys !! S i = Some nextKey →
    nullish (value_at obj (take (S i) keys)) = true →
    shape_of (value_at obj' (take (S i) keys)) = shape_of (fresh_container nextKey).
Proof.
  induction keys as [|k|k k' rest IH] using keys_ind;
    intros obj obj' i nextKey Hset Hnext Habsent.
  - done.
  - done.
  - destruct (set_step_total obj k k') as (c1 & child & e & Hs).
    rewrite (set_walk_by_step _ _ _ rest value _ _ _ Hs) in Hset.
    destruct child as [c|]; [|inversion Hs; subst; done].
    assert (e = None) as -> by (inversion Hs; done).
    destruct (set_step_child _ _ _ _ _ Hs) as [EG1 ENc].
    destruct (set_walk c (k' :: rest) value) as [c' e'] eqn:E.
    injection Hset as <- ->.
    assert (Hc : shape_of c ≠ NoContainer).
    { intros Hc. apply (set_walk_no_container_fails (k' :: rest) value) in Hc.
      now rewrite E in Hc. }
    pose proof (Get_rebind_container _ _ _ c' EG1 Hc) as EG'.
    pose proof (set_walk_shape (k' :: rest) value c) as Hshape.
    rewrite E in Hshape. simpl in Hshape.
    change (take (S i) (k :: k' :: rest)) with (k :: take i (k' :: rest)) in *.
    rewrite (value_at_cons _ _ _ _ EG').
    inversion Hs as [|?|found c1' EG EN EP EG2|found EG EN]; subst.
    + (* the container for [k] was created at this step *)
      destruct i as [|j].
      * simpl in Hnext. injection Hnext as <-. now rewrite value_at_nil.
      * apply (IH _ _ j nextKey E); [done|]. apply value_at_fresh.
    + (* it was there already *)
      rewrite (value_at_cons _ _ _ _ EG) in Habsent.
      destruct i as [|j].
      * rewrite value_at_nil in Habsent. congruence.
      * now apply (IH _ _ j nextKey E).
Qed.

(** The creation itself: in an object or an array in which nothing is
    found under the key, the walk stores a new container of the kind the
    next key asks for, and goes on inside it. *)
Lemma set_walk_creates_at_step current key nextKey rest value found :
  shape_of current ≠ NoContainer →
  Get current key = Returned found → nullish found = true →
  ∃ current1,
    Put current key (fresh_container nextKey) = (current1, None)
    ∧ Get current1 key = Returned (fresh_container nextKey)
    ∧ set_walk current (key :: nextKey :: rest) value
      = (rebind current1 key
           (set_walk (fresh_container nextKey) (nextKey :: rest) value).1,
         (set_walk (fresh_container nextKey) (nextKey :: rest) value).2).
Proof.
  intros Hc EG EN.
  destruct (Put current key (fresh_container nextKey)) as [c1 e] eqn:EP.
  assert (e = None) as ->.
  { pose proof EG as [Hi EGo]%Get_Returned. unfold Put in EP. rewrite Hi in EP.
    destruct current; try done; simpl in EP.
    - now injection EP as _ <-.
    - destruct (array_index key) eqn:Ei; [now injection EP as _ <-|].
      destruct (String.eqb key "length") eqn:El; [|now injection EP as _ <-].
      simpl in EGo. rewrite Ei, El in EGo. injection EGo as <-. done. }
  exists c1. split; [done|].
  pose proof (Get_Put _ _ _ _ _ EP EG EN) as EG1. split; [done|].
  rewrite (set_walk_by_step _ _ _ rest value c1 (Some (fresh_container nextKey)) None).
  - now destruct (set_walk _ _ _).
  - now apply (step_create _ _ _ found).
Qed.

(** In a string, a number or a boolean nothing can be created: the
    assignment of the new container raises a TypeError. *)
Lemma set_walk_primitive_parent current key nextKey rest value found :
  shape_of current = NoContainer →
  Get current key = Returned found → nullish found = true →
  set_walk current (key :: nextKey :: rest) value = (current, Some TypeError).
Proof.
  intros Hc EG EN. rewrite set_walk_step, EG, EN.
  pose proof EG as [Hi EGo]%Get_Returned. unfold Put. rewrite Hi.
  now destruct current.
Qed.

Lemma C2_example :
  setPropertyValue (VObj []) "items.0.name" (VStr "first")
  = (VObj [("items", VArr [Some (VObj [("name", VStr "first")])] [])], None).
Proof. reflexivity. Qed.

(** C2, as stated, fails: in [{a: 5}] the path [a.b.c] has the
    intermediate key [b], under which the number [5] holds nothing;
    [setPropertyValue] creates no container there but raises a
    TypeError, and the object is as it was. *)
Lemma C2_nothing_created_in_a_number :
  Get (VObj [("a", VNum (of_Z 5))]) "a" = Returned (VNum (of_Z 5))
  ∧ Get (VNum (of_Z 5)) "b" = Returned VUndefined
  ∧ setPropertyValue (VObj [("a", VNum (of_Z 5))]) "a.b.c" (VStr "v")
    = (VObj [("a", VNum (of_Z 5))], Some TypeError).
Proof. repeat split. Qed.

(** C2 (amended): while it walks the keys, [setPropertyValue] creates
    the container of an intermediate key that is absent ([undefined] or
    [null]) when it stands in an object or an array, at the step of the
    walk that meets the key: an array if the next key is a run of digits
    and a plain object otherwise.  The walk stores the new container
    under the key and goes on inside it; and after a call that returns,
    every position along the path before the last key at which nothing
    was found holds a container of that kind.  When the walk stands in a
    string, a number or a boolean, it creates nothing and the call
    raises a TypeError.  On [{}] the path [items.0.name] with the value
    [first] gives [{items: [{name: first}]}]. *)
Theorem C2_setPropertyValue_creates_containers :
  (∀ current key nextKey rest value found,
     Get current key = Returned found → nullish found = true →
     (shape_of current ≠ NoContainer →
      ∃ current1,
        Put current key (if is_numeric nextKey then VArr [] [] else VObj [])
        = (current1, None)
        ∧ Get current1 key
          = Returned (if is_numeric nextKey then VArr [] [] else VObj [])
        ∧ set_walk current (key :: nextKey :: rest) value
          = (rebind current1 key
               (set_walk (if is_numeric nextKey then VArr [] [] else VObj [])
                  (nextKey :: rest) value).1,
             (set_walk (if is_numeric nextKey then VArr [] [] else VObj [])
                (nextKey :: rest) value).2))
     ∧ (shape_of current = NoContainer →
        set_walk current (key :: nextKey :: rest) value = (current, Some TypeError)))
  ∧ (∀ obj path value obj' i nextKey,
     setPropertyValue obj path value = (obj', None) →
     parsePath path !! S i = Some nextKey →
     nullish (value_at obj (take (S i) (parsePath path))) = true →
     shape_of (value_at obj' (take (S i) (parsePath path)))
     = if is_numeric nextKey then AnArray else AnObject)
  ∧ setPropertyValue (VObj []) "items.0.name" (VStr "first")
    = (VObj [("items", VArr [Some (VObj [("name", VStr "first")])] [])], None).
Proof.
  split; [|split; [|exact C2_example]].
  { intros current key nextKey rest value found EG EN. split.
    - intros Hc.
      destruct (set_walk_creates_at_step current key nextKey rest value found Hc EG EN)
        as (c1 & H1 & H2 & H3).
      exists c1. split; [exact H1|]. split; [exact H2 | exact H3].
    - intros Hc. now apply (set_walk_primitive_parent _ _ _ _ _ found). }
  intros obj path value obj' i nextKey Hset Hnext Habsent.
  rewrite (set_walk_creates _ _ _ _ _ _ Hset Hnext Habsent).
  unfold fresh_container. now destruct (is_numeric nextKey).
Qed.

(** On [{}] and [items.0.name]: nothing is found at [items], the next key
    [0] is numeric, and an array is there afterwards. *)
Lemma C2_witness :
  shape_of (value_at (VObj [("items", VArr [Some (VObj [("name", VStr "first")])] [])])
              (take 1 (parsePath "items.0.name")))
  = AnArray.
Proof.
  exact (proj1 (proj2 C2_setPropertyValue_creates_containers)
           (VObj []) "items.0.name" (VStr "first") _ 0 "0"
           eq_refl eq_refl eq_refl).
Defined.

End AutoVivification.

(* ===================================================================== *)
(** * getPropertyValue *)
(* ===================================================================== *)

Section GetFacts.
Import Chars JS ObjectManipulator.

Lemma get_walk_total keys :
  ∀ obj, (∃ r, get_walk obj keys = Returned r)
         ∨ (∃ key, get_walk obj keys = Thrown (Inherited key)).
Proof.
  induction keys as [|k ks IH]; intros obj; simpl; [eauto|].
  destruct (nullish obj) eqn:E; [eauto|].
  destruct (Get_total obj k E) as [[v ->]| ->]; [apply IH | eauto].
Qed.

Lemma get_walk_stored keys :
  ∀ obj v, get_walk obj keys = Returned (Some v) ↔ stored_at obj keys v.
Proof.
  induction keys as [|k ks IH]; intros obj v; simpl.
  - split.
    + intros [= ->]. constructor.
    + intros H. inv H. done.
  - split.
    + destruct (nullish obj) eqn:E; [done|].
      destruct (Get obj k) as [c|] eqn:EG; [|done].
      intros H. apply IH in H. econstructor; eauto.
    + intros H. inv H. assert (nullish obj = false) as ->.
      { destruct (nullish obj) eqn:E; [|done]. apply (Get_None _ k) in E. congruence. }
      match goal with H : Get obj k = Returned _ |- _ => rewrite H end. now apply IH.
Qed.

Lemma stored_at_functional obj keys v w :
  stored_at obj keys v → stored_at obj keys w → v = w.
Proof.
  intros Hv Hw. apply get_walk_stored in Hv, Hw. congruence.
Qed.

Lemma stored_at_split obj keys v n :
  stored_at obj keys v →
  ∃ x, stored_at obj (take n keys) x ∧ stored_at x (drop n keys) v.
Proof.
  intros H. revert n. induction H as [obj|obj k ks child v EG H IH]; intros n.
  - exists obj. rewrite take_nil, drop_nil. split; constructor.
  - destruct n as [|n]; simpl.
    + exists obj. split; [constructor | econstructor; eauto].
    + destruct (IH n) as (x & H1 & H2). exists x. split; [econstructor; eauto | done].
Qed.

Lemma get_walk_none keys :
  ∀ obj, get_walk obj keys = Returned None →
         ∃ (n : nat) x, (n < length keys)%nat ∧ stored_at obj (take n keys) x
                        ∧ nullish x = true.
Proof.
  induction keys as [|k ks IH]; intros obj; simpl; [done|].
  destruct (nullish obj) eqn:E.
  - intros _. exists 0, obj. split; [lia|]. split; [constructor | done].
  - destruct (Get obj k) as [c|] eqn:EG; [|done].
    intros H. destruct (IH _ H) as (n & x & Hn & Hs & Hx).
    exists (S n), x. split; [lia|]. split; [econstructor; eauto | done].
Qed.

(** A path on which something is absent leads to no value that is
    there. *)
Lemma absent_blocks obj keys v :
  absent_on_path obj keys → stored_at obj keys v → nullish v = true.
Proof.
  intros (n & x & Hn & Hs & Hx) Hv.
  destruct (stored_at_split _ _ _ n Hv) as (x' & H1 & H2).
  assert (x' = x) as -> by (eapply stored_at_functional; eauto).
  inv H2; [done|]. apply (Get_None _ k) in Hx. congruence.
Qed.

(** Where something is absent on the path, the walk ends early or at
    [undefined] or [null]. *)
Lemma absent_get_walk obj keys :
  absent_on_path obj keys →
  get_walk obj keys = Returned None
  ∨ ∃ x, get_walk obj keys = Returned (Some x) ∧ nullish x = true.
Proof.
  intros (n & x & _ & Hs & Hx). revert obj n Hs.
  induction keys as [|k ks IH]; intros obj n Hs.
  - rewrite take_nil in Hs. inv Hs. right. eauto.
  - destruct n as [|n].
    + inv Hs. left. simpl. now rewrite Hx.
    + simpl in Hs. inv Hs. simpl.
      assert (nullish obj = false) as ->.
      { destruct (nullish obj) eqn:E; [|done]. apply (Get_None _ k) in E. congruence. }
      match goal with H : Get obj k = Returned _ |- _ => rewrite H end. eauto.
Qed.

Lemma getPropertyValue_absent obj path defaultValue :
  absent_on_path obj (parsePath path) →
  getPropertyValue obj path defaultValue = Returned defaultValue.
Proof.
  intros Ha. unfold getPropertyValue.
  destruct (absent_get_walk _ _ Ha) as [-> | (v & -> & ->)]; done.
Qed.

Lemma getPropertyValue_found_value obj path defaultValue v :
  stored_at obj (parsePath path) v → nullish v = false →
  getPropertyValue obj path defaultValue = Returned v.
Proof.
  intros Hs Hv. unfold getPropertyValue.
  rewrite (proj2 (get_walk_stored _ _ _) Hs). now rewrite Hv.
Qed.

Lemma getPropertyValue_returned obj path defaultValue r :
  getPropertyValue obj path defaultValue = Returned r →
  (absent_on_path obj (parsePath path) ∧ r = defaultValue)
  ∨ (stored_at obj (parsePath path) r ∧ nullish r = false).
Proof.
  unfold getPropertyValue.
  destruct (get_walk obj (parsePath path)) as [[v|]|e] eqn:E; [| |done].
  - pose proof (proj1 (get_walk_stored _ _ _) E) as Hv.
    destruct (nullish v) eqn:Ev; intros [= <-]; [left | now right].
    split; [|done]. exists (length (parsePath path)), v.
    rewrite firstn_all. done.
  - intros [= <-]. left. split; [|done].
    destruct (get_walk_none _ _ E) as (n & x & Hlt & Hs & Hx).
    exists n, x. split; [lia | done].
Qed.

Lemma getPropertyValue_thrown obj path defaultValue e :
  getPropertyValue obj path defaultValue = Thrown e → ∃ key, e = Inherited key.
Proof.
  unfold getPropertyValue.
  destruct (get_walk_total (parsePath path) obj) as [[[v|] ->]|[key ->]]; try done.
  intros [= <-]. eauto.
Qed.




End GetFacts.

(* ===================================================================== *)
(** * Mutation of a container found along a path *)
(* ===================================================================== *)

Section PutBackFacts.
Import Chars JS ObjectManipulator.

Lemma stored_at_container obj keys v :
  stored_at obj keys v → shape_of v ≠ NoContainer → shape_of obj ≠ NoContainer.
Proof.
  induction 1 as [obj|obj k ks child v EG H IH]; [done|].
  intros Hv Ho. apply (IH Hv). eapply Get_no_container; eauto.
Qed.

(** A container found along a path is, after its mutation, found along
    the same path. *)
Lemma stored_at_put_back obj keys a a' :
  stored_at obj keys a → shape_of a ≠ NoContainer →
  stored_at (put_back obj keys a') keys a'.
Proof.
  induction 1 as [obj|obj k ks child v EG H IH]; intros Ha; simpl.
  - rewrite (shape_nullish _ Ha). constructor.
  - rewrite (proj2 (proj1 (Get_Returned _ _ _) EG)). econstructor; [|now apply IH].
    eapply Get_rebind_container; eauto. eapply stored_at_container; eauto.
Qed.

(** Putting back what is found along the path changes nothing. *)
Lemma put_back_same obj keys a :
  stored_at obj keys a → put_back obj keys a = obj.
Proof.
  induction 1 as [obj|obj k ks child v EG H IH]; simpl.
  - now destruct (nullish obj).
  - rewrite (proj2 (proj1 (Get_Returned _ _ _) EG)), IH. now apply rebind_same.
Qed.

(** Where the walk of [getPropertyValue] ends early or at [undefined] or
    [null], nothing is put back. *)
Lemma put_back_absent keys :
  ∀ obj a, (get_walk obj keys = Returned None
            ∨ ∃ x, get_walk obj keys = Returned (Some x) ∧ nullish x = true) →
           put_back obj keys a = obj.
Proof.
  induction keys as [|k ks IH]; intros obj a; simpl.
  - intros [H|(x & [= ->] & Hx)]; [done|]. now rewrite Hx.
  - destruct (nullish obj) eqn:E.
    + intros _. apply (GetOwn_None _ k) in E. now rewrite E.
    + destruct (Get obj k) as [c|e] eqn:EG; [|now intros [?|(? & ? & ?)]].
      intros H. rewrite (proj2 (proj1 (Get_Returned _ _ _) EG)), (IH _ _ H).
      now apply rebind_same.
Qed.

Lemma delete_walk_step current key nextKey rest :
  delete_walk current (key :: nextKey :: rest) =
  match Get current key with
  | Thrown e => (current, Some e)
  | Returned child =>
      if nullish child then (current, None)
      else let '(child', e) := delete_walk child (nextKey :: rest) in
           (rebind current key child', e)
  end.
Proof. reflexivity. Qed.

(** The walk of [deleteProperty] down to a container that is there, and
    the removal in it. *)
Lemma delete_walk_at obj ckeys c k :
  stored_at obj ckeys c → shape_of c ≠ NoContainer →
  delete_walk obj (ckeys ++ [k]) =
  ((put_back obj ckeys (delete_last c k).1), (delete_last c k).2).
Proof.
  induction 1 as [obj|obj k0 ks child v EG H IH]; intros Hc.
  - simpl. rewrite (shape_nullish _ Hc). now destruct (delete_last obj k).
  - specialize (IH Hc).
    assert (Hchild : nullish child = false).
    { apply shape_nullish. eapply stored_at_container; eauto. }
    change ((k0 :: ks) ++ [k]) with (k0 :: (ks ++ [k])).
    destruct (ks ++ [k]) as [|k1 rest] eqn:E; [now destruct ks|].
    rewrite delete_walk_step, EG, Hchild, IH. cbn [put_back].
    now rewrite (proj2 (proj1 (Get_Returned _ _ _) EG)).
Qed.

End PutBackFacts.

(* ===================================================================== *)
(** * deleteProperty on an array *)
(* ===================================================================== *)

Section DeleteFacts.
Import Chars JS ObjectManipulator.

Lemma start_not_whitespace c :
  PathGrammar.identifier_char c = true → is_whitespace c = false.
Proof. intros H. start_cases c H; reflexivity. Qed.

Lemma start_is_char c :
  PathGrammar.identifier_start c = true → PathGrammar.identifier_char c = true.
Proof.
  unfold PathGrammar.identifier_start, PathGrammar.identifier_char.
  destruct (is_upper c), (is_lower c), (is_digit c), (Ascii.eqb c "_"), (Ascii.eqb c "$"); done.
Qed.

Lemma non_decimal_identifier c cs :
  PathGrammar.identifier_start c = true → non_decimal (c :: cs) = None.
Proof. intros H. start_cases c H; reflexivity. Qed.

Lemma signed_decimal_identifier c cs :
  PathGrammar.identifier_start c = true → c :: cs ≠ chars "Infinity" →
  signed_decimal (c :: cs) = NaN.
Proof.
  intros H Hne. start_cases c H; unfold signed_decimal, sign;
   (destruct (decide _) as [E|_]; [done|reflexivity]).
Qed.

Lemma trim_start_id l :
  match l with c :: _ => is_whitespace c = false | [] => True end → trim_start l = l.
Proof. destruct l as [|c l]; simpl; [done|]. now intros ->. Qed.

Lemma trim_chars_identifier l :
  Forall (fun c => PathGrammar.identifier_char c = true) l → trim_chars l = l.
Proof.
  intros H. unfold trim_chars. rewrite (trim_start_id l).
  - rewrite trim_start_id; [apply rev_involutive|].
    apply Forall_rev in H. destruct (rev l) as [|c r]; [done|].
    inv H. now apply start_not_whitespace.
  - destruct H; [done|]. now apply start_not_whitespace.
Qed.

Lemma Number_identifier k :
  PathGrammar.identifier (chars k) → k ≠ "Infinity" → Number k = NaN.
Proof.
  intros (c & cs & E & Hc & Hcs) Hne. unfold Number.
  rewrite trim_chars_identifier.
  - rewrite E, non_decimal_identifier by done.
    apply signed_decimal_identifier; [done|].
    rewrite <- E. intros HE. apply Hne. now apply chars_inj.
  - rewrite E. constructor; [now apply start_is_char | done].
Qed.

Lemma spliced_NaN_one es : spliced NaN 1 [] es = drop 1 es.
Proof. unfold spliced. simpl. now destruct es. Qed.

(** The removal in an array for a last key that coerces to [NaN]. *)
Lemma delete_last_NaN es ps k :
  Number k = NaN → delete_last (VArr es ps) k = (VArr (drop 1 es) ps, None).
Proof.
  intros Hk. unfold delete_last, splice. simpl isArray. cbv iota.
  now rewrite Hk, spliced_NaN_one.
Qed.

Lemma C10_example :
  deleteProperty (VObj [("items", VArr [Some (VStr "a"); Some (VStr "b")] [])]) "items.x"
  = (VObj [("items", VArr [Some (VStr "b")] [])], None).
Proof. reflexivity. Qed.



End DeleteFacts.

(* ===================================================================== *)
(** * Integers as numbers *)
(* ===================================================================== *)

Section IntegerFacts.
Import Chars JS.
Open Scope Z_scope.

Lemma strip_zeros_value fuel :
  ∀ m e, 0 ≤ e → 0 ≤ (strip_zeros fuel m e).2
                 ∧ (strip_zeros fuel m e).1 * 10 ^ (strip_zeros fuel m e).2 = m * 10 ^ e.
Proof.
  induction fuel as [|f IH]; intros m e He; simpl; [done|].
  destruct (m mod 10 =? 0) eqn:E; [|done].
  apply Z.eqb_eq in E. destruct (IH (m / 10) (e + 1)) as [H1 H2]; [lia|].
  split; [done|]. rewrite H2, Z.pow_add_r by lia.
  rewrite (Z.div_mod m 10) at 2 by lia. rewrite E. lia.
Qed.

(** An integer as a number: a mantissa and a non-negative exponent of
    that value. *)
Lemma of_Z_value z : ∃ m e, of_Z z = Finite m e ∧ 0 ≤ e ∧ m * 10 ^ e = z.
Proof.
  unfold of_Z, mk_finite. destruct (z =? 0) eqn:E.
  - apply Z.eqb_eq in E as ->. exists 0, 0. done.
  - destruct (strip_zeros_value (Z.to_nat (Z.log2 (Z.abs z)) + 1) z 0) as [H1 H2]; [done|].
    destruct (strip_zeros _ z 0) as [m e]. simpl in *. exists m, e.
    split; [done|]. split; [done|]. lia.
Qed.

Lemma ToIntegerOrInfinity_of_Z z : ToIntegerOrInfinity (of_Z z) = Int z.
Proof.
  destruct (of_Z_value z) as (m & e & -> & He & Hv). simpl.
  apply Z.leb_le in He. now rewrite He, Hv.
Qed.

Lemma num_cmp_of_Z a b m1 e1 m2 e2 :
  0 ≤ e1 → 0 ≤ e2 → m1 * 10 ^ e1 = a → m2 * 10 ^ e2 = b →
  num_cmp_finite m1 e1 m2 e2 = (a ?= b).
Proof.
  intros H1 H2 <- <-. unfold num_cmp_finite.
  set (e := Z.min e1 e2).
  assert (0 ≤ e ∧ e ≤ e1 ∧ e ≤ e2) as (He0 & He1 & He2) by lia.
  replace e1 with ((e1 - e) + e) at 2 by lia.
  replace e2 with ((e2 - e) + e) at 2 by lia.
  rewrite !Z.pow_add_r, !Z.mul_assoc by lia.
  apply Zmult_compare_compat_r. pose proof (Z.pow_pos_nonneg 10 e); lia.
Qed.

Lemma num_eq_of_Z a b : num_eq (of_Z a) (of_Z b) = (a =? b).
Proof.
  destruct (of_Z_value a) as (m1 & e1 & -> & H1 & V1).
  destruct (of_Z_value b) as (m2 & e2 & -> & H2 & V2).
  simpl. rewrite (num_cmp_of_Z a b m1 e1 m2 e2 H1 H2 V1 V2).
  destruct (Z.compare_spec a b) as [->|H|H]; symmetry;
    [apply Z.eqb_refl | apply Z.eqb_neq; lia | apply Z.eqb_neq; lia].
Qed.

Lemma num_lt_of_Z a b : num_lt (of_Z a) (of_Z b) = (a <? b).
Proof.
  destruct (of_Z_value a) as (m1 & e1 & -> & H1 & V1).
  destruct (of_Z_value b) as (m2 & e2 & -> & H2 & V2).
  simpl. rewrite (num_cmp_of_Z a b m1 e1 m2 e2 H1 H2 V1 V2).
  unfold Z.ltb. now destruct (a ?= b).
Qed.

End IntegerFacts.

(* ===================================================================== *)
(** * insertAtIndex *)
(* ===================================================================== *)

Section InsertFacts.
Import Chars JS ObjectManipulator.

(** The helpers on an array that is found inside the object. *)
Lemma getPropertyValue_found obj path a d :
  stored_at obj (parsePath path) a → nullish a = false →
  getPropertyValue obj path d = Returned a.
Proof.
  intros Hs Ha. unfold getPropertyValue.
  apply get_walk_stored in Hs. now rewrite Hs, Ha.
Qed.

Lemma with_array_found obj path f a :
  stored_at obj (parsePath (array_path path)) a → shape_of a ≠ NoContainer →
  with_array obj path f =
  ((put_back obj (parsePath (array_path path))
      (f a (parseInt (ToString (index_str path)))).1),
   (f a (parseInt (ToString (index_str path)))).2).
Proof.
  intros Hs Ha. unfold with_array, getArrayAndIndex.
  rewrite (getPropertyValue_found _ _ a) by (auto using shape_nullish).
  rewrite (shape_nullish _ Ha). now destruct (f a _).
Qed.

Lemma spliced_insert z v es :
  spliced (of_Z z) 0 [v] es =
  let p := if (z <? 0)%Z then Z.to_nat (Z.max (Z.of_nat (length es) + z) 0)
           else Z.to_nat (Z.min z (Z.of_nat (length es))) in
  take p es ++ Some v :: drop p es.
Proof.
  unfold spliced. rewrite ToIntegerOrInfinity_of_Z. simpl.
  now rewrite Nat.add_0_r.
Qed.

Lemma C4_counterexample_value :
  insertAtIndex
    (VObj [("items", VArr [Some (VStr "a"); Some (VStr "b"); Some (VStr "c")] [])])
    "items@-2" (VStr "x")
  = (VObj [("items", VArr [Some (VStr "a"); Some (VStr "x"); Some (VStr "b");
                           Some (VStr "c")] [])], None).
Proof. reflexivity. Qed.




End InsertFacts.

(* ===================================================================== *)
(** * Applying an UPDATE twice *)
(* ===================================================================== *)

Section UpdateTwice.
Import Chars JS ObjectManipulator DocumentChangeParser.

(** A mutation of the array of an [@] path that, applied again, changes
    nothing more, applied to the object a second time changes nothing
    more. *)
Lemma with_array_idem obj path f :
  (∀ a i, f (f a i).1 i = f a i) →
  (∀ a i, shape_of (f a i).1 = shape_of a) →
  (∀ a i, shape_of a = NoContainer → (f a i).1 = a) →
  with_array (with_array obj path f).1 path f = with_array obj path f.
Proof.
  intros Hidem Hshape Hprim.
  set (keys := parsePath (array_path path)).
  set (index := parseInt (ToString (index_str path))).
  assert (Hsame : ∀ a, put_back obj keys (f a index).1 = obj →
                       with_array obj path f = (obj, (f a index).2) →
                       with_array (with_array obj path f).1 path f
                       = with_array obj path f).
  { intros a _ E. rewrite E. cbn [fst]. now rewrite E. }
  destruct (get_walk_total keys obj) as [[r Er]|[key Er]]; cycle 1.
  { assert (E : with_array obj path f = (obj, Some (Inherited key))).
    { unfold with_array, getArrayAndIndex, getPropertyValue. fold keys.
      now rewrite Er. }
    rewrite E. cbn [fst]. exact E. }
  assert (Hdetached : (r = None ∨ ∃ x, r = Some x ∧ nullish x = true) →
                      with_array (with_array obj path f).1 path f
                      = with_array obj path f).
  { intros Hr.
    assert (Hpb : ∀ a, put_back obj keys a = obj).
    { intros a. apply put_back_absent. rewrite Er.
      destruct Hr as [->|(x & -> & Hx)]; eauto. }
    apply (Hsame (VArr [] [])); [apply Hpb|].
    unfold with_array, getArrayAndIndex, getPropertyValue. fold keys. rewrite Er.
    destruct Hr as [->|(x & -> & Hx)].
    - cbn [nullish]. fold index. destruct (f _ index). now rewrite Hpb.
    - rewrite Hx. cbn [nullish]. fold index. destruct (f _ index). now rewrite Hpb. }
  destruct r as [a|]; [|apply Hdetached; auto].
  destruct (nullish a) eqn:Ea; [apply Hdetached; eauto|].
  pose proof (proj1 (get_walk_stored _ _ _) Er) as Hs.
  destruct (shape_of a) eqn:Esh.
  1,2: rewrite (with_array_found _ _ f a Hs) by congruence; fold keys index; cbn [fst];
       assert (Ha' : shape_of (f a index).1 ≠ NoContainer) by (rewrite Hshape; congruence);
       assert (Hs' : stored_at (put_back obj keys (f a index).1) keys (f a index).1)
         by (apply (stored_at_put_back _ _ a); [done | congruence]);
       rewrite (with_array_found _ _ f _ Hs') by done; fold keys index;
       rewrite Hidem; now rewrite (put_back_same _ _ _ Hs').
  apply (Hsame a).
  - rewrite (Hprim _ _ Esh). now apply put_back_same.
  - unfold with_array, getArrayAndIndex.
    rewrite (getPropertyValue_found _ _ a) by done. rewrite Ea. fold index keys.
    destruct (f a index) as [a' e] eqn:Ef. cbn [fst snd].
    pose proof (Hprim a index Esh) as Hp. rewrite Ef in Hp. cbn [fst] in Hp. subst a'.
    now rewrite (put_back_same _ _ _ Hs).
Qed.

Lemma setValueAtIndex_idem obj path value :
  setValueAtIndex (setValueAtIndex obj path value).1 path value
  = setValueAtIndex obj path value.
Proof.
  unfold setValueAtIndex. apply with_array_idem.
  - intros a i. destruct (num_le (of_Z 0) i); [apply Put_idem | done].
  - intros a i. destruct (num_le (of_Z 0) i); [apply Put_shape | done].
  - intros a i Ha. destruct (num_le (of_Z 0) i); [|done].
    now destruct (Put_no_container a (number_to_string i) value Ha) as [e ->].
Qed.

Lemma setPropertyValue_idem obj path value :
  setPropertyValue (setPropertyValue obj path value).1 path value
  = setPropertyValue obj path value.
Proof. apply set_walk_idem. Qed.

(** What an UPDATE with a valid path and a value does: it decodes the
    value and hands it to [setValueAtIndex] for an [@] path and to
    [setPropertyValue] for any other path. *)
Lemma applyFieldChange_update obj change options v t :
  type change = UPDATE →
  isValidPropertyPath (propertyPath change) = true →
  newValue change = Some v → newValueType change = Some t →
  applyFieldChange obj change options =
  match parseValue v t with
  | Thrown e => (obj, Some e)
  | Returned x =>
      if isArrayChange (propertyPath change)
      then setValueAtIndex obj (propertyPath change) x
      else setPropertyValue obj (propertyPath change) x
  end.
Proof.
  intros Ht Hp Hv Hvt. unfold applyFieldChange.
  rewrite Hp, Ht, Hv, Hvt, andb_false_r.
  destruct (parseValue v t); [|done].
  now destruct (isArrayChange _).
Qed.



End UpdateTwice.

(* ===================================================================== *)
(** * The fuel of the JSON parser *)
(* ===================================================================== *)

Section ParserFuel.
Import Chars JS.

Lemma skip_ws_length l : (length (skip_ws l) ≤ length l)%nat.
Proof.
  induction l as [|c l IH]; simpl; [done|].
  destruct (is_json_space c); simpl; lia.
Qed.

Lemma span_length {A} (p : A → bool) l :
  (length (span p l).2 ≤ length l)%nat.
Proof.
  induction l as [|x l IH]; simpl; [done|].
  destruct (p x); [|simpl; lia].
  destruct (span p l) as [a b]. simpl in *. lia.
Qed.

Lemma span_nonempty_length {A} (p : A → bool) l a b :
  span p l = (a, b) → a ≠ [] → length b < length l.
Proof.
  destruct l as [|x l]; simpl; [now intros [= <- <-]|].
  destruct (p x); [|now intros [= <- <-]].
  pose proof (span_length p l) as H. destruct (span p l) as [a' b'].
  intros [= <- <-] _. simpl in *. lia.
Qed.

Lemma parse_string_length l :
  ∀ acc s r, parse_string l acc = Some (s, r) → length r < length l.
Proof.
  induction l as [l IH] using (induction_ltof1 _ (@length _)); unfold ltof in IH.
  intros acc s r. destruct l as [|c l]; simpl; [done|].
  destruct (Ascii.eqb c dquote); [intros [= <- <-]; simpl; lia|].
  destruct (Ascii.eqb c "\").
  - destruct l as [|e l]; [done|].
    repeat (match goal with
            | |- context [if ?b then _ else _] => destruct b
            end;
            [intros H; apply IH in H; simpl in *; lia|]).
    destruct (Ascii.eqb e "u"); [|done].
    destruct l as [|h1 [|h2 [|h3 [|h4 l]]]]; try done.
    destruct (hex4 h1 h2 h3 h4) as [z|]; [|done].
    destruct (z <? 256)%Z; [|done].
    intros H. apply IH in H; simpl in *; lia.
  - destruct (code c <? 32)%N; [done|].
    intros H. apply IH in H; simpl in *; lia.
Qed.

Lemma minus_length l : (length (minus l).2 ≤ length l)%nat.
Proof.
  destruct l as [|c r]; [done|].
  destruct c as [[] [] [] [] [] [] [] []]; simpl; lia.
Qed.

Lemma sign_length l : (length (sign l).2 ≤ length l)%nat.
Proof.
  destruct l as [|c r]; [done|].
  destruct c as [[] [] [] [] [] [] [] []]; simpl; lia.
Qed.

Lemma fraction_length l fp r : fraction l = Some (fp, r) → (length r ≤ length l)%nat.
Proof.
  assert (Hdot : ∀ r0, match span is_digit r0 with
                       | ([], _) => None
                       | (fp', r') => Some (fp', r')
                       end = Some (fp, r) → (length r ≤ S (length r0))%nat).
  { intros r0. pose proof (span_length is_digit r0) as H.
    destruct (span is_digit r0) as [[|d ds] b]; [done|].
    intros [= <- <-]. simpl in H. lia. }
  destruct l as [|c l']; [now intros [= <- <-]|].
  destruct c as [[] [] [] [] [] [] [] []]; simpl;
    try (now intros [= <- <-]); apply Hdot.
Qed.

Lemma exponent_length l x r : exponent l = Some (x, r) → (length r ≤ length l)%nat.
Proof.
  destruct l as [|c l']; simpl; [now intros [= <- <-]|].
  destruct (Ascii.eqb c "e" || Ascii.eqb c "E"); [|now intros [= <- <-]].
  pose proof (sign_length l') as Hs. destruct (sign l') as [neg r'].
  pose proof (span_length is_digit r') as H.
  destruct (span is_digit r') as [[|d ds] b]; [done|].
  intros [= <- <-]. simpl in *. lia.
Qed.

Lemma parse_number_length l n r : parse_number l = Some (n, r) → length r < length l.
Proof.
  unfold parse_number. pose proof (minus_length l) as Hm.
  destruct (minus l) as [neg r0].
  destruct (span is_digit r0) as [ip r1] eqn:Es.
  destruct (integer_part_ok ip) eqn:Eok; [|done]. simpl.
  assert (ip ≠ []) as Hip by (now destruct ip).
  pose proof (span_nonempty_length _ _ _ _ Es Hip) as H1.
  destruct (fraction r1) as [[fp r2]|] eqn:Ef; [|done].
  apply fraction_length in Ef.
  destruct (exponent r2) as [[x r3]|] eqn:Ee; [|done].
  apply exponent_length in Ee.
  intros [= <- <-]. simpl in *. lia.
Qed.

Lemma strip_prefix_length p l r : strip_prefix p l = Some r → (length r ≤ length l)%nat.
Proof.
  unfold strip_prefix. destruct (decide _); [|done].
  intros [= <-]. rewrite length_drop. lia.
Qed.

(** A value, a run of elements and a run of members are parsed with any
    fuel that is at least the number of characters they take. *)
Lemma parse_fuel m :
  (∀ l v rest, parse_value m l = Some (v, rest) →
     length rest < length l
     ∧ ∀ k, (length l - length rest ≤ k)%nat → parse_value k l = Some (v, rest))
  ∧ (∀ l acc es rest, parse_elements m l acc = Some (es, rest) →
       length rest < length l
       ∧ ∀ k, (length l - length rest ≤ k)%nat →
              parse_elements k l acc = Some (es, rest))
  ∧ (∀ l acc ps rest, parse_members m l acc = Some (ps, rest) →
       length rest < length l
       ∧ ∀ k, (length l - length rest ≤ k)%nat →
              parse_members k l acc = Some (ps, rest)).
Proof.
  induction m as [|f (IHv & IHe & IHm)]; [repeat split; done|].
  split; [|split].
  - (* a value *)
    intros l v rest. simpl.
    pose proof (skip_ws_length l) as Hws.
    destruct (skip_ws l) as [|c r] eqn:Ews; [done|]. simpl in Hws.
    destruct (Ascii.eqb c "{") eqn:Eo.
    { pose proof (skip_ws_length r) as Hws'.
      destruct (skip_ws r) as [|c' r'] eqn:Ews'; [done|]. simpl in Hws'.
      destruct (Ascii.eqb c' "}") eqn:Ec.
      - intros [= <- <-]. split; [lia|]. intros [|k] Hk; [lia|].
        simpl. now rewrite Ews, Eo, Ews', Ec.
      - destruct (parse_members f (c' :: r') []) as [[ps r'']|] eqn:Ep; [|done].
        intros [= <- <-]. destruct (IHm _ _ _ _ Ep) as [Hlt Hk']. simpl in Hlt.
        split; [lia|]. intros [|k] Hk; [lia|].
        simpl. rewrite Ews, Eo, Ews', Ec, Hk'; [done|]. simpl. lia. }
    destruct (Ascii.eqb c "[") eqn:Ea.
    { pose proof (skip_ws_length r) as Hws'.
      destruct (skip_ws r) as [|c' r'] eqn:Ews'; [done|]. simpl in Hws'.
      destruct (Ascii.eqb c' "]") eqn:Ec.
      - intros [= <- <-]. split; [lia|]. intros [|k] Hk; [lia|].
        simpl. now rewrite Ews, Eo, Ea, Ews', Ec.
      - destruct (parse_elements f (c' :: r') []) as [[es r'']|] eqn:Ep; [|done].
        intros [= <- <-]. destruct (IHe _ _ _ _ Ep) as [Hlt Hk']. simpl in Hlt.
        split; [lia|]. intros [|k] Hk; [lia|].
        simpl. rewrite Ews, Eo, Ea, Ews', Ec, Hk'; [done|]. simpl. lia. }
    destruct (Ascii.eqb c dquote) eqn:Eq.
    { destruct (parse_string r []) as [[s r']|] eqn:Ep; [|done].
      intros [= <- <-]. apply parse_string_length in Ep as Hlt.
      split; [lia|]. intros [|k] Hk; [lia|].
      simpl. now rewrite Ews, Eo, Ea, Eq, Ep. }
    destruct (Ascii.eqb c "t") eqn:Et.
    { destruct (strip_prefix _ r) as [r'|] eqn:Ep; simpl; [|done].
      intros [= <- <-]. apply strip_prefix_length in Ep as Hlt.
      split; [lia|]. intros [|k] Hk; [lia|].
      simpl. now rewrite Ews, Eo, Ea, Eq, Et, Ep. }
    destruct (Ascii.eqb c "f") eqn:Ef.
    { destruct (strip_prefix _ r) as [r'|] eqn:Ep; simpl; [|done].
      intros [= <- <-]. apply strip_prefix_length in Ep as Hlt.
      split; [lia|]. intros [|k] Hk; [lia|].
      simpl. now rewrite Ews, Eo, Ea, Eq, Et, Ef, Ep. }
    destruct (Ascii.eqb c "n") eqn:En.
    { destruct (strip_prefix _ r) as [r'|] eqn:Ep; simpl; [|done].
      intros [= <- <-]. apply strip_prefix_length in Ep as Hlt.
      split; [lia|]. intros [|k] Hk; [lia|].
      simpl. now rewrite Ews, Eo, Ea, Eq, Et, Ef, En, Ep. }
    destruct (parse_number (c :: r)) as [[n r']|] eqn:Ep; [|done].
    intros [= <- <-]. apply parse_number_length in Ep as Hlt. simpl in Hlt.
    split; [lia|]. intros [|k] Hk; [lia|].
    simpl. now rewrite Ews, Eo, Ea, Eq, Et, Ef, En, Ep.
  - (* elements *)
    intros l acc es rest. simpl.
    destruct (parse_value f l) as [[v r]|] eqn:Ev; [|done].
    destruct (IHv _ _ _ Ev) as [Hlt Hkv].
    pose proof (skip_ws_length r) as Hws.
    destruct (skip_ws r) as [|c r'] eqn:Ews; [done|]. simpl in Hws.
    destruct (Ascii.eqb c ",") eqn:Ec.
    + intros Hrest. destruct (IHe _ _ _ _ Hrest) as [Hlt' Hke].
      split; [lia|]. intros [|k] Hk; [lia|].
      simpl. rewrite Hkv by lia. rewrite Ews, Ec. apply Hke. lia.
    + destruct (Ascii.eqb c "]") eqn:Ee; [|done].
      intros [= <- <-]. split; [lia|]. intros [|k] Hk; [lia|].
      simpl. rewrite Hkv by lia. now rewrite Ews, Ec, Ee.
  - (* members *)
    intros l acc ps rest. simpl.
    pose proof (skip_ws_length l) as Hws.
    destruct (skip_ws l) as [|c r] eqn:Ews; [done|]. simpl in Hws.
    destruct (Ascii.eqb c dquote) eqn:Eq; [|done].
    destruct (parse_string r []) as [[key r1]|] eqn:Ek; [|done].
    apply parse_string_length in Ek as Hk1.
    pose proof (skip_ws_length r1) as Hws1.
    destruct (skip_ws r1) as [|c1 r2] eqn:Ews1; [done|]. simpl in Hws1.
    destruct (Ascii.eqb c1 ":") eqn:Ec; [|done].
    destruct (parse_value f r2) as [[v r3]|] eqn:Ev; [|done].
    destruct (IHv _ _ _ Ev) as [Hlt Hkv].
    pose proof (skip_ws_length r3) as Hws3.
    destruct (skip_ws r3) as [|c3 r4] eqn:Ews3; [done|]. simpl in Hws3.
    destruct (Ascii.eqb c3 ",") eqn:Ecomma.
    + intros Hrest. destruct (IHm _ _ _ _ Hrest) as [Hlt' Hkm].
      split; [lia|]. intros [|k] Hk; [lia|].
      simpl. rewrite Ews, Eq, Ek, Ews1, Ec. rewrite Hkv by lia.
      rewrite Ews3, Ecomma. apply Hkm. lia.
    + destruct (Ascii.eqb c3 "}") eqn:Eclose; [|done].
      intros [= <- <-]. split; [lia|]. intros [|k] Hk; [lia|].
      simpl. rewrite Ews, Eq, Ek, Ews1, Ec. rewrite Hkv by lia.
      now rewrite Ews3, Ecomma, Eclose.
Qed.

(** No amount of fuel parses a text that [JSON_parse] rejects, and none
    parses it to another value. *)
Lemma parse_value_fuel text m v rest :
  parse_value m (chars text) = Some (v, rest) → skip_ws rest = [] →
  JSON_parse text = Some v.
Proof.
  intros H Hrest. unfold JSON_parse.
  destruct (proj1 (parse_fuel m) _ _ _ H) as [_ Hk].
  rewrite Hk by lia. now rewrite Hrest.
Qed.

End ParserFuel.

(* ===================================================================== *)
(** * Decoding an OBJECT value *)
(* ===================================================================== *)

Section DecodeFacts.
Import Chars JS DocumentChangeParser.

Lemma parse_string_escaped c tail acc :
  parse_string (escape_char c ++ tail) acc = parse_string tail (c :: acc).
Proof.
  destruct c as [[] [] [] [] [] [] [] []]; reflexivity.
Qed.

Lemma parse_string_quote cs :
  ∀ acc rest, parse_string (flat_map escape_char cs ++ dquote :: rest) acc
              = Some (rev acc ++ cs, rest).
Proof.
  induction cs as [|c cs IH]; intros acc rest.
  - simpl. now rewrite app_nil_r.
  - cbn [flat_map]. rewrite <- app_assoc, parse_string_escaped, IH.
    simpl. now rewrite <- app_assoc.
Qed.

Lemma JSON_parse_quoted s :
  JSON_parse (str (quote (chars s))) = Some (VStr s).
Proof.
  unfold JSON_parse. rewrite chars_str. unfold quote.
  cbn [parse_value skip_ws is_json_space code].
  change (is_json_space dquote) with false. cbv iota.
  change (Ascii.eqb dquote "{") with false.
  change (Ascii.eqb dquote "[") with false.
  change (Ascii.eqb dquote dquote) with true. cbv iota.
  rewrite parse_string_quote. simpl. now rewrite str_chars.
Qed.

Lemma JSON_stringify_string s :
  JSON_stringify (VStr s) = Some (str (quote (chars s))).
Proof. reflexivity. Qed.

(** Every string is JSON-serializable. *)
Lemma string_serializable s : JSON_serializable (VStr s) (str (quote (chars s))).
Proof. split; [reflexivity | apply JSON_parse_quoted]. Qed.




End DecodeFacts.

(* ===================================================================== *)
(** * The copy-producing entry points *)
(* ===================================================================== *)

Section HeapFacts.
Import Chars JS DocumentChangeParser Heap.

Lemma top_above (h : heap) l : l ∈ dom h → (l < top h)%nat.
Proof.
  intros Hl. unfold top.
  assert (S l ≤ max_list (S <$> elements (dom h)))%nat; [|lia].
  apply max_list_elem_of_le, list_elem_of_fmap_2, elem_of_elements, Hl.
Qed.

Lemma top_fresh (h : heap) : h !! top h = None.
Proof. apply not_elem_of_dom. intros H%top_above. lia. Qed.

Lemma heap_set_walk_step h current key nextKey rest value :
  set_walk h current (key :: nextKey :: rest) value
  = match Get h current key with
    | Thrown e => (h, Some e)
    | Returned found =>
        let '(h1, e1) :=
          if nullish found
          then let '(h0, fresh) :=
                 alloc (if ObjectManipulator.is_numeric nextKey then CArr [] []
                        else CObj []) h in
               Put h0 current key fresh
          else (h, None) in
        match e1 with
        | Some e => (h1, Some e)
        | None =>
            match Get h1 current key with
            | Thrown e => (h1, Some e)
            | Returned child => set_walk h1 child (nextKey :: rest) value
            end
        end
    end.
Proof. reflexivity. Qed.

Lemma heap_delete_walk_step h current key nextKey rest :
  delete_walk h current (key :: nextKey :: rest)
  = match Get h current key with
    | Thrown e => (h, Some e)
    | Returned child =>
        if nullish child then (h, None)
        else delete_walk h child (nextKey :: rest)
    end.
Proof. reflexivity. Qed.

(** *** What the values of a cell have in common *)

Lemma Forall_elements (P : hvalue → Prop) es :
  Forall P (omap (M := list) (fun e => e) es) ↔ Forall (from_option P True) es.
Proof.
  induction es as [|[x|] es IH]; simpl.
  - split; constructor.
  - rewrite !Forall_cons, IH. simpl. tauto.
  - rewrite Forall_cons, IH. simpl. tauto.
Qed.

Lemma cell_values_array (P : hvalue → Prop) es ps :
  Forall P (cell_values (CArr es ps))
  ↔ Forall (from_option P True) es ∧ Forall P ps.*2.
Proof. simpl. by rewrite Forall_app, Forall_elements. Qed.

Lemma lookup_key_Forall {A} (P : A → Prop) k ps v :
  Forall P ps.*2 → lookup_key k ps = Some v → P v.
Proof.
  induction ps as [|[k' x] ps IH]; simpl; [done|].
  rewrite Forall_cons. intros [Hx Hps].
  destruct (String.eqb k' k); [by intros [= <-]|by apply IH].
Qed.

Lemma assign_key_Forall {A} (P : A → Prop) k v ps :
  P v → Forall P ps.*2 → Forall P (assign_key k v ps).*2.
Proof.
  intros Hv. induction ps as [|[k' x] ps IH]; simpl.
  - by repeat constructor.
  - rewrite Forall_cons. intros [Hx Hps].
    destruct (String.eqb k' k); simpl; constructor; auto.
Qed.

Lemma remove_key_Forall {A} (P : A → Prop) k (ps : list (string * A)) :
  Forall P ps.*2 → Forall P (remove_key k ps).*2.
Proof.
  induction ps as [|[k' x] ps IH]; simpl; [done|].
  rewrite Forall_cons. intros [Hx Hps].
  destruct (negb (String.eqb k' k)); simpl; [constructor|]; auto.
Qed.

Lemma array_store_Forall (P : hvalue → Prop) i x es :
  P x → Forall (from_option P True) es →
  Forall (from_option P True) (array_store i x es).
Proof.
  intros Hx Hes. unfold array_store. destruct (decide _).
  - by apply Forall_insert.
  - rewrite !Forall_app. split_and!; [done| |by repeat constructor].
    by apply Forall_replicate.
Qed.

Lemma array_resize_Forall (P : hvalue → Prop) n es :
  Forall (from_option P True) es → Forall (from_option P True) (array_resize n es).
Proof.
  intros Hes. unfold array_resize. rewrite Forall_app. split.
  - by apply Forall_take.
  - by apply Forall_replicate.
Qed.

Lemma spliced_Forall (P : hvalue → Prop) start d items es :
  Forall P items → Forall (from_option P True) es →
  Forall (from_option P True) (spliced start d items es).
Proof.
  intros Hi Hes. unfold spliced. rewrite !Forall_app. split_and!.
  - by apply Forall_take.
  - by rewrite Forall_fmap.
  - by apply Forall_drop.
Qed.

Lemma elem_value_Forall (P : hvalue → Prop) es i :
  P HUndefined → Forall (from_option P True) es → P (elem_value (es !! i)).
Proof.
  intros Hu Hes. destruct (es !! i) as [[x|]|] eqn:E; simpl; try done.
  by apply (Forall_lookup_1 _ _ _ _ Hes E).
Qed.


(** *** Objects that a call leaves alone *)

Section Isolated.
Context (F : gset nat) (h0 : heap).

Lemma isolated_insert h l c :
  isolated F h0 h → l ∉ F → Forall (outside F) (cell_values c) →
  isolated F h0 (<[l := c]> h).
Proof.
  intros (Hdom & Hsame & Hout) Hl Hc. split_and!.
  - intros l' Hl'. apply elem_of_dom. destruct (decide (l = l')) as [->|Hne].
    + rewrite lookup_insert_eq. eauto.
    + rewrite lookup_insert_ne by done. apply elem_of_dom. auto.
  - intros l' Hl'. rewrite lookup_insert_ne; [auto|]. by intros ->.
  - intros l' c' Hc' Hl'. destruct (decide (l = l')) as [->|Hne].
    + rewrite lookup_insert_eq in Hc'. by injection Hc' as <-.
    + rewrite lookup_insert_ne in Hc' by done. eauto.
Qed.

Lemma isolated_top h : isolated F h0 h → top h ∉ F.
Proof.
  intros (Hdom & _) Hin. apply Hdom, elem_of_dom in Hin.
  rewrite top_fresh in Hin. by destruct Hin.
Qed.

Lemma isolated_alloc h c :
  isolated F h0 h → Forall (outside F) (cell_values c) →
  isolated F h0 (alloc c h).1 ∧ outside F (alloc c h).2.
Proof.
  intros Hi Hc. pose proof (isolated_top h Hi). split; [|done].
  by apply isolated_insert.
Qed.

Lemma isolated_cell h l c :
  isolated F h0 h → outside F (HRef l) → h !! l = Some c →
  Forall (outside F) (cell_values c).
Proof. intros (_ & _ & Hout) Hl Hc. eauto. Qed.

Lemma isolated_store v : ∀ h,
  isolated F h0 h →
  isolated F h0 (store v h).1 ∧ outside F (store v h).2.
Proof.
  induction v as [| | b | n | s | ps IH | es ps IHe IHp] using value_induction;
    intros h Hi; try done.
  - cbn [store].
    set (go := fix go (ps : list (string * value)) (h : heap) :=
           match ps with
           | [] => (h, [])
           | (k, x) :: ps' =>
               let '(h1, hx) := store x h in
               let '(h2, hps) := go ps' h1 in (h2, (k, hx) :: hps)
           end).
    assert (Hgo : ∀ h, isolated F h0 h →
                       isolated F h0 (go ps h).1 ∧ Forall (outside F) (go ps h).2.*2).
    { clear h Hi. induction IH as [|[k x] ps Hx _ IHps]; intros h Hi; [done|].
      cbn [snd] in Hx. simpl. destruct (Hx h Hi) as [H1 Hv]. destruct (store x h) as [h1 hx].
      destruct (IHps h1 H1) as [H2 Hvs]. destruct (go ps h1) as [h2 hps].
      split; [done|]. by constructor. }
    destruct (Hgo h Hi) as [H1 Hvs]. destruct (go ps h) as [h1 hps].
    by apply isolated_alloc.
  - cbn [store].
    set (go := fix go (ps : list (string * value)) (h : heap) :=
           match ps with
           | [] => (h, [])
           | (k, x) :: ps' =>
               let '(h1, hx) := store x h in
               let '(h2, hps) := go ps' h1 in (h2, (k, hx) :: hps)
           end).
    set (goe := fix go (es : list (option value)) (h : heap) :=
           match es with
           | [] => (h, [])
           | None :: es' => let '(h1, hes) := go es' h in (h1, None :: hes)
           | Some x :: es' =>
               let '(h1, hx) := store x h in
               let '(h2, hes) := go es' h1 in (h2, Some hx :: hes)
           end).
    assert (Hgo : ∀ h, isolated F h0 h →
                       isolated F h0 (go ps h).1 ∧ Forall (outside F) (go ps h).2.*2).
    { clear h Hi. induction IHp as [|[k x] ps Hx _ IHps]; intros h Hi; [done|].
      cbn [snd] in Hx. simpl. destruct (Hx h Hi) as [H1 Hv]. destruct (store x h) as [h1 hx].
      destruct (IHps h1 H1) as [H2 Hvs]. destruct (go ps h1) as [h2 hps].
      split; [done|]. by constructor. }
    assert (Hgoe : ∀ h, isolated F h0 h →
                        isolated F h0 (goe es h).1
                        ∧ Forall (from_option (outside F) True) (goe es h).2).
    { clear h Hi. induction IHe as [|[x|] es Hx _ IHes]; intros h Hi; [done| |].
      - cbn [snd] in Hx. simpl. destruct (Hx h Hi) as [H1 Hv].
        destruct (store x h) as [h1 hx]. destruct (IHes h1 H1) as [H2 Hvs]. destruct (goe es h1) as [h2 hes].
        split; [done|]. by constructor.
      - simpl. destruct (IHes h Hi) as [H2 Hvs]. destruct (goe es h) as [h2 hes].
        split; [done|]. by constructor. }
    destruct (Hgoe h Hi) as [H1 Hes]. destruct (goe es h) as [h1 hes].
    destruct (Hgo h1 H1) as [H2 Hps]. destruct (go ps h1) as [h2 hps].
    apply isolated_alloc; [done|]. by apply cell_values_array.
Qed.

Lemma isolated_Get h o k v :
  isolated F h0 h → outside F o → Get h o k = Returned v → outside F v.
Proof.
  intros Hi Ho. unfold Get. destruct (inherited h o k); [done|].
  destruct o as [| | b | n | s | l]; simpl; try done; try by intros [= <-].
  - intros [= <-]. destruct (array_index k); [by destruct (_ !! _)|].
    by destruct (String.eqb k "length").
  - destruct (h !! l) as [[ps|es ps]|] eqn:El; [| |by intros [= <-]].
    + intros [= <-]. pose proof (isolated_cell h l _ Hi Ho El) as Hc.
      destruct (lookup_key k ps) eqn:Ek; [|done].
      by apply (lookup_key_Forall _ _ _ _ Hc Ek).
    + intros [= <-]. pose proof (isolated_cell h l _ Hi Ho El) as Hc.
      apply cell_values_array in Hc as [Hes Hps].
      destruct (array_index k); [by apply elem_value_Forall|].
      destruct (String.eqb k "length"); [done|].
      destruct (lookup_key k ps) eqn:Ek; [|done].
      by apply (lookup_key_Forall _ _ _ _ Hps Ek).
Qed.

Lemma isolated_Put h o k x :
  isolated F h0 h → outside F o → outside F x → isolated F h0 (Put h o k x).1.
Proof.
  intros Hi Ho Hx. unfold Put. destruct (inherited h o k); [done|].
  destruct o as [| | b | n | s | l]; simpl; try done.
  destruct (h !! l) as [[ps|es ps]|] eqn:El; [| |done].
  - pose proof (isolated_cell h l _ Hi Ho El) as Hc.
    apply isolated_insert; [done..|]. by apply assign_key_Forall.
  - pose proof (isolated_cell h l _ Hi Ho El) as Hc.
    apply cell_values_array in Hc as [Hes Hps].
    destruct (array_index k).
    { apply isolated_insert; [done..|]. apply cell_values_array.
      split; [|done]. by apply array_store_Forall. }
    destruct (String.eqb k "length").
    { destruct (primitive x); [|done]. destruct (valid_length _); [|done].
      apply isolated_insert; [done..|]. apply cell_values_array.
      split; [|done]. by apply array_resize_Forall. }
    apply isolated_insert; [done..|]. apply cell_values_array.
    split; [done|]. by apply assign_key_Forall.
Qed.

Lemma isolated_Delete h o k :
  isolated F h0 h → outside F o → isolated F h0 (Delete h o k).1.
Proof.
  intros Hi Ho.
  destruct o as [| | b | n | s | l]; simpl; try done.
  { destruct (array_index k); [by destruct (decide _)|].
    by destruct (String.eqb k "length"). }
  destruct (h !! l) as [[ps|es ps]|] eqn:El; [| |done].
  - pose proof (isolated_cell h l _ Hi Ho El) as Hc.
    apply isolated_insert; [done..|]. by apply remove_key_Forall.
  - pose proof (isolated_cell h l _ Hi Ho El) as Hc.
    apply cell_values_array in Hc as [Hes Hps].
    destruct (array_index k).
    { apply isolated_insert; [done..|]. apply cell_values_array.
      split; [|done]. destruct (decide _); [|done]. by apply Forall_insert. }
    destruct (String.eqb k "length"); [done|].
    apply isolated_insert; [done..|]. apply cell_values_array.
    split; [done|]. by apply remove_key_Forall.
Qed.

Lemma isolated_splice h arr start d items :
  isolated F h0 h → outside F arr → Forall (outside F) items →
  isolated F h0 (splice h arr start d items).1.
Proof.
  intros Hi Ho Hx.
  destruct arr as [| | b | n | s | l]; simpl; try done.
  destruct (h !! l) as [[ps|es ps]|] eqn:El; [done| |done].
  destruct (lookup_key "splice" ps); [done|].
  pose proof (isolated_cell h l _ Hi Ho El) as Hc.
  apply cell_values_array in Hc as [Hes Hps].
  apply isolated_insert; [done..|]. apply cell_values_array.
  split; [|done]. by apply spliced_Forall.
Qed.

Lemma isolated_push h arr x :
  isolated F h0 h → outside F arr → outside F x →
  isolated F h0 (push h arr x).1.
Proof.
  intros Hi Ho Hx.
  destruct arr as [| | b | n | s | l]; simpl; try done.
  destruct (h !! l) as [[ps|es ps]|] eqn:El; [done| |done].
  destruct (lookup_key "push" ps); [done|].
  pose proof (isolated_cell h l _ Hi Ho El) as Hc.
  apply cell_values_array in Hc as [Hes Hps].
  apply isolated_insert; [done..|]. apply cell_values_array.
  split; [|done]. rewrite Forall_app. split; [done|]. by repeat constructor.
Qed.


Lemma isolated_set_walk keys value : ∀ h current,
  isolated F h0 h → outside F current → outside F value →
  isolated F h0 (set_walk h current keys value).1.
Proof.
  induction keys as [|key rest IH]; intros h current Hi Hc Hv.
  { by apply isolated_Put. }
  destruct rest as [|nextKey rest]; [by apply isolated_Put|].
  change (set_walk h current (key :: nextKey :: rest) value)
    with (match Get h current key with
          | Thrown e => (h, Some e)
          | Returned found =>
              let '(h1, e1) :=
                if nullish found
                then let '(h0, fresh) :=
                       alloc (if ObjectManipulator.is_numeric nextKey then CArr [] []
                              else CObj []) h in
                     Put h0 current key fresh
                else (h, None) in
              match e1 with
              | Some e => (h1, Some e)
              | None =>
                  match Get h1 current key with
                  | Thrown e => (h1, Some e)
                  | Returned child => set_walk h1 child (nextKey :: rest) value
                  end
              end
          end).
  destruct (Get h current key) as [found|e] eqn:EG; [|done].
  assert (H1 : isolated F h0
                 (if nullish found
                  then let '(h0, fresh) :=
                         alloc (if ObjectManipulator.is_numeric nextKey then CArr [] []
                                else CObj []) h in
                       Put h0 current key fresh
                  else (h, None)).1).
  { destruct (nullish found); [|done].
    destruct (isolated_alloc h
                (if ObjectManipulator.is_numeric nextKey then CArr [] [] else CObj []) Hi)
      as [Ha Hf]; [by destruct (ObjectManipulator.is_numeric nextKey)|].
    destruct (alloc _ h) as [h' fresh]. by apply isolated_Put. }
  destruct (if nullish found then _ else _) as [h1 [e|]]; [done|].
  destruct (Get h1 current key) as [child|e] eqn:EG1; [|done].
  apply IH; [done| |done]. by apply (isolated_Get h1 current key).
Qed.

Lemma isolated_get_walk keys : ∀ h current v,
  isolated F h0 h → outside F current →
  get_walk h current keys = Returned (Some v) → outside F v.
Proof.
  induction keys as [|key rest IH]; intros h current v Hi Hc; simpl.
  { by intros [= <-]. }
  destruct (nullish current); [done|].
  destruct (Get h current key) as [next|e] eqn:EG; [|done].
  apply IH; [done|]. by apply (isolated_Get h current key).
Qed.

Lemma isolated_getPropertyValue h obj path defaultValue v :
  isolated F h0 h → outside F obj → outside F defaultValue →
  getPropertyValue h obj path defaultValue = Returned v → outside F v.
Proof.
  intros Hi Ho Hd. unfold getPropertyValue.
  destruct (get_walk h obj _) as [[current|]|e] eqn:EW; [| |done].
  - intros [= <-]. destruct (nullish current); [done|].
    by apply (isolated_get_walk _ _ _ _ Hi Ho EW).
  - by intros [= <-].
Qed.

Lemma isolated_delete_last h current lastKey :
  isolated F h0 h → outside F current →
  isolated F h0 (delete_last h current lastKey).1.
Proof.
  intros Hi Hc. unfold delete_last. destruct (isArray h current).
  - by apply isolated_splice.
  - by apply isolated_Delete.
Qed.

Lemma isolated_delete_walk keys : ∀ h current,
  isolated F h0 h → outside F current →
  isolated F h0 (delete_walk h current keys).1.
Proof.
  induction keys as [|key rest IH]; intros h current Hi Hc.
  { by apply isolated_delete_last. }
  destruct rest as [|nextKey rest]; [by apply isolated_delete_last|].
  change (delete_walk h current (key :: nextKey :: rest))
    with (match Get h current key with
          | Thrown e => (h, Some e)
          | Returned child =>
              if nullish child then (h, None)
              else delete_walk h child (nextKey :: rest)
          end).
  destruct (Get h current key) as [child|e] eqn:EG; [|done].
  destruct (nullish child); [done|].
  apply IH; [done|]. by apply (isolated_Get h current key).
Qed.

Lemma isolated_getArrayAndIndex h obj path :
  isolated F h0 h → outside F obj →
  isolated F h0 (getArrayAndIndex h obj path).1
  ∧ ∀ arr index, (getArrayAndIndex h obj path).2 = Returned (arr, index) →
                 outside F arr.
Proof.
  intros Hi Ho. unfold getArrayAndIndex.
  destruct (isolated_alloc h (CArr [] []) Hi) as [H1 He]; [done|].
  destruct (alloc (CArr [] []) h) as [h1 empty]. cbn [fst snd] in H1, He.
  destruct (getPropertyValue h1 obj _ empty) as [arr|e] eqn:EG; [|done].
  pose proof (isolated_getPropertyValue _ _ _ _ _ H1 Ho He EG) as Harr.
  destruct (nullish arr).
  - destruct (isolated_alloc h1 (CArr [] []) H1) as [H2 He']; [done|].
    destruct (alloc (CArr [] []) h1) as [h2 empty']. split; [done|].
    by intros arr' index [= <- _].
  - split; [done|]. by intros arr' index [= <- _].
Qed.

Lemma isolated_insertAtIndex h obj path value :
  isolated F h0 h → outside F obj → outside F value →
  isolated F h0 (insertAtIndex h obj path value).1.
Proof.
  intros Hi Ho Hv. unfold insertAtIndex.
  destruct (isolated_getArrayAndIndex h obj path Hi Ho) as [H1 Harr].
  destruct (getArrayAndIndex h obj path) as [h1 [[arr index]|e]]; [|done].
  specialize (Harr arr index eq_refl). destruct (num_eq _ _).
  - by apply isolated_push.
  - apply isolated_splice; [done..|]. by repeat constructor.
Qed.

Lemma isolated_removeAtIndex h obj path :
  isolated F h0 h → outside F obj →
  isolated F h0 (removeAtIndex h obj path).1.
Proof.
  intros Hi Ho. unfold removeAtIndex.
  destruct (isolated_getArrayAndIndex h obj path Hi Ho) as [H1 Harr].
  destruct (getArrayAndIndex h obj path) as [h1 [[arr index]|e]]; [|done].
  specialize (Harr arr index eq_refl). destruct (num_le _ _); [|done].
  destruct (length_of h1 arr) as [len|e]; [|done].
  destruct (num_lt _ _); [|done]. by apply isolated_splice.
Qed.

Lemma isolated_setValueAtIndex h obj path value :
  isolated F h0 h → outside F obj → outside F value →
  isolated F h0 (setValueAtIndex h obj path value).1.
Proof.
  intros Hi Ho Hv. unfold setValueAtIndex.
  destruct (isolated_getArrayAndIndex h obj path Hi Ho) as [H1 Harr].
  destruct (getArrayAndIndex h obj path) as [h1 [[arr index]|e]]; [|done].
  specialize (Harr arr index eq_refl). destruct (num_le _ _); [|done].
  by apply isolated_Put.
Qed.

Lemma isolated_applyFieldChange h obj change options :
  isolated F h0 h → outside F obj →
  isolated F h0 (applyFieldChange h obj change options).1.
Proof.
  intros Hi Ho. unfold applyFieldChange.
  destruct (_ && _); [done|].
  destruct (match type change with
            | DELETE => _
            | _ => _
            end) as [parsed|e]; [|done].
  destruct (isolated_store parsed h Hi) as [H1 Hv].
  destruct (store parsed h) as [h1 parsedValue].
  destruct (isArrayChange _).
  - destruct (type change); simpl.
    + by apply isolated_insertAtIndex.
    + by apply isolated_setValueAtIndex.
    + by apply isolated_removeAtIndex.
  - destruct (type change); simpl.
    + by apply isolated_set_walk.
    + by apply isolated_set_walk.
    + by apply isolated_delete_walk.
Qed.

Lemma isolated_each {A} (step : heap → A → heap * option error) xs :
  (∀ h x, isolated F h0 h → isolated F h0 (step h x).1) →
  ∀ h, isolated F h0 h → isolated F h0 (each step h xs).1.
Proof.
  intros Hstep. induction xs as [|x xs IH]; intros h Hi; [done|].
  simpl. specialize (Hstep h x Hi). destruct (step h x) as [h1 [e|]]; [done|].
  by apply IH.
Qed.

Lemma returning_heap obj r : (returning obj r).1 = r.1.
Proof. by destruct r as [h [e|]]. Qed.

Lemma returning_value obj r v : (returning obj r).2 = Returned v → v = obj.
Proof. destruct r as [h [e|]]; [done|]. by intros [= <-]. Qed.

Lemma isolated_applyChange h obj documentChange options :
  isolated F h0 h → outside F obj →
  isolated F h0 (applyChange h obj documentChange options).1.
Proof.
  intros Hi Ho. unfold applyChange. rewrite returning_heap.
  apply isolated_each; [|done]. intros h' x Hi'.
  by apply isolated_applyFieldChange.
Qed.

Lemma isolated_applyChanges h obj documentChanges options :
  isolated F h0 h → outside F obj →
  isolated F h0 (applyChanges h obj documentChanges options).1.
Proof.
  intros Hi Ho. unfold applyChanges. rewrite returning_heap.
  apply isolated_each; [|done]. intros h' x Hi'.
  pose proof (isolated_applyChange h' obj x options Hi' Ho) as H1.
  by destruct (applyChange h' obj x options) as [h1 [v|e]].
Qed.

End Isolated.

(** *** The clone *)

Lemma shift_outside (h : heap) v : outside (dom h) (shift (top h) v).
Proof.
  destruct v as [| | b | n | s | l]; try done.
  simpl. intros Hl%top_above. lia.
Qed.

Lemma shift_cell_outside (h : heap) c :
  Forall (outside (dom h)) (cell_values (shift_cell (top h) c)).
Proof.
  assert (Hps : ∀ ps : list (string * hvalue),
            Forall (outside (dom h)) (map (fun p => (p.1, shift (top h) p.2)) ps).*2).
  { intros ps. induction ps as [|[k x] ps IH]; simpl; constructor; [|done].
    apply shift_outside. }
  destruct c as [ps|es ps]; [apply Hps|].
  apply cell_values_array. split; [|apply Hps].
  induction es as [|[x|] es IH]; simpl; constructor; try done.
  apply shift_outside.
Qed.

Lemma structuredClone_old (h : heap) v l :
  l ∈ dom h → (structuredClone h v).1 !! l = h !! l.
Proof.
  intros [c Hc]%elem_of_dom. simpl. rewrite Hc. by apply lookup_union_Some_l.
Qed.

Lemma structuredClone_new (h : heap) v l :
  (structuredClone h v).1 !! (l + top h) = shift_cell (top h) <$> h !! l.
Proof.
  simpl. rewrite lookup_union_r.
  - by rewrite (lookup_kmap (fun l => l + top h)), lookup_fmap.
  - apply not_elem_of_dom. intros Hl%top_above. lia.
Qed.

Lemma structuredClone_isolated (h : heap) v :
  isolated (dom h) h (structuredClone h v).1
  ∧ outside (dom h) (structuredClone h v).2.
Proof.
  split; [|apply shift_outside]. split_and!.
  - simpl. rewrite dom_union. set_solver.
  - intros l Hl. by apply structuredClone_old.
  - intros l c Hc Hl. simpl in Hc. apply lookup_union_Some_raw in Hc as [Hc|[_ Hc]].
    { exfalso. apply Hl, elem_of_dom. eauto. }
    apply (lookup_kmap_Some (fun l => l + top h)) in Hc as (l' & -> & Hc).
    rewrite lookup_fmap in Hc. destruct (h !! l') as [c'|]; [|done].
    injection Hc as <-. apply shift_cell_outside.
Qed.


(** *** What an object reads as *)

Lemma mapM_agree {A B} (f g : A → option B) l :
  Forall (fun x => f x = g x) l → mapM f l = mapM g l.
Proof.
  induction 1 as [|x l Hx _ IH]; [done|]. simpl. by rewrite Hx, IH.
Qed.

Lemma mapM_map {A B C} (f : B → option C) (g : A → B) l :
  mapM f (map g l) = mapM (fun x => f (g x)) l.
Proof. induction l as [|x l IH]; [done|]. simpl. by rewrite IH. Qed.

(** An object of a well-formed heap reads the same wherever the objects
    of that heap are what they were. *)
Lemma tree_of_same (h h' : heap) :
  well_formed h → (∀ l, l ∈ dom h → h' !! l = h !! l) →
  ∀ d v, denotes h v → tree_of d h' v = tree_of d h v.
Proof.
  intros Hwf Hsame d. induction d as [|d IH]; intros v Hv.
  { by destruct v. }
  destruct v as [| | b | n | s | l]; try done.
  cbn [tree_of]. destruct Hv as [c Hc].
  rewrite Hsame by (apply elem_of_dom; eauto). rewrite Hc.
  pose proof (Hwf l c Hc) as Hvs.
  assert (Hps : ∀ ps : list (string * hvalue), Forall (denotes h) ps.*2 →
            mapM (fun p => pair p.1 <$> tree_of d h' p.2) ps
            = mapM (fun p => pair p.1 <$> tree_of d h p.2) ps).
  { intros ps Hps. apply mapM_agree. rewrite Forall_fmap in Hps.
    eapply Forall_impl; [exact Hps|]. intros [k x] Hx. simpl in *. by rewrite IH. }
  destruct c as [ps|es ps]; [by rewrite Hps|].
  apply cell_values_array in Hvs as [Hes Hvs]. rewrite Hps by done.
  f_equal. apply mapM_agree. eapply Forall_impl; [exact Hes|].
  intros [x|] Hx; [|done]. simpl in *. by rewrite IH.
Qed.

(** The clone reads as the original. *)
Lemma tree_of_structuredClone (h : heap) v0 d : ∀ v,
  tree_of d (structuredClone h v0).1 (shift (top h) v) = tree_of d h v.
Proof.
  induction d as [|d IH]; intros v.
  { by destruct v. }
  destruct v as [| | b | n | s | l]; try done.
  cbn [shift tree_of]. rewrite structuredClone_new.
  assert (Hps : ∀ ps : list (string * hvalue),
            mapM (fun p => pair p.1 <$> tree_of d (structuredClone h v0).1 p.2)
                 (map (fun p => (p.1, shift (top h) p.2)) ps)
            = mapM (fun p => pair p.1 <$> tree_of d h p.2) ps).
  { intros ps. rewrite mapM_map. apply mapM_ext. intros [k x]. simpl. by rewrite IH. }
  destruct (h !! l) as [[ps|es ps]|]; [| |done].
  - cbn [fmap option_fmap option_map shift_cell]. by rewrite Hps.
  - cbn [fmap option_fmap option_map shift_cell]. rewrite Hps, mapM_map.
    f_equal. apply mapM_ext. intros [x|]; [|done]. simpl. by rewrite IH.
Qed.

End HeapFacts.

(* ===================================================================== *)
(** * A call does not depend on the names of the objects *)
(* ===================================================================== *)

Section SameFacts.
Import Chars JS DocumentChangeParser Heap.

Lemma same_value_mono ρ ρ' v v' : ρ ⊆ ρ' → same_value ρ v v' → same_value ρ' v v'.
Proof.
  intros Hsub. destruct v, v'; simpl; try done.
  intros H. by apply (lookup_weaken _ _ _ _ H Hsub).
Qed.

Lemma same_properties_mono ρ ρ' ps ps' :
  ρ ⊆ ρ' → Forall2 (same_property ρ) ps ps' → Forall2 (same_property ρ') ps ps'.
Proof.
  intros Hsub H. eapply Forall2_impl; [exact H|]. intros p p' [? ?]. split; [done|].
  by apply (same_value_mono ρ).
Qed.

Lemma same_elements_mono ρ ρ' es es' :
  ρ ⊆ ρ' → Forall2 (option_Forall2 (same_value ρ)) es es' →
  Forall2 (option_Forall2 (same_value ρ')) es es'.
Proof.
  intros Hsub H. eapply Forall2_impl; [exact H|]. intros e e' [v v' Hv|]; constructor.
  by apply (same_value_mono ρ).
Qed.

Lemma same_cell_mono ρ ρ' c c' : ρ ⊆ ρ' → same_cell ρ c c' → same_cell ρ' c c'.
Proof.
  intros Hsub. destruct c, c'; simpl; try done.
  - by apply same_properties_mono.
  - intros [? ?]. split; [by apply (same_elements_mono ρ)|by apply (same_properties_mono ρ)].
Qed.

Lemma same_value_primitive ρ v v' : same_value ρ v v' → primitive v = primitive v'.
Proof. destruct v, v'; simpl; try done; by intros [= ->]. Qed.

Lemma same_value_nullish ρ v v' : same_value ρ v v' → nullish v = nullish v'.
Proof. destruct v, v'; simpl; try done. Qed.

Lemma same_value_prim ρ v : primitive v ≠ None → same_value ρ v v.
Proof. by destruct v. Qed.

(** *** Properties and elements *)

Lemma same_lookup_key ρ k ps ps' :
  Forall2 (same_property ρ) ps ps' →
  option_Forall2 (same_value ρ) (lookup_key k ps) (lookup_key k ps').
Proof.
  induction 1 as [|[k1 x] [k2 x'] ps ps' [Hk Hx] _ IH]; simpl; [constructor|].
  simpl in Hk, Hx. subst k2. destruct (String.eqb k1 k); [by constructor|exact IH].
Qed.

Lemma same_assign_key ρ k x x' ps ps' :
  same_value ρ x x' → Forall2 (same_property ρ) ps ps' →
  Forall2 (same_property ρ) (assign_key k x ps) (assign_key k x' ps').
Proof.
  intros Hx. induction 1 as [|[k1 y] [k2 y'] ps ps' [Hk Hy] Hps IH]; simpl.
  { by repeat constructor. }
  simpl in Hk, Hy. subst k2. destruct (String.eqb k1 k); by constructor.
Qed.

Lemma same_remove_key ρ k ps ps' :
  Forall2 (same_property ρ) ps ps' →
  Forall2 (same_property ρ) (remove_key k ps) (remove_key k ps').
Proof.
  induction 1 as [|[k1 y] [k2 y'] ps ps' [Hk Hy] _ IH]; simpl; [done|].
  simpl in Hk, Hy. subst k2. destruct (negb (String.eqb k1 k)); [by constructor|done].
Qed.

Lemma same_lookup_key_is_Some ρ k ps ps' :
  Forall2 (same_property ρ) ps ps' →
  bool_decide (is_Some (lookup_key k ps)) = bool_decide (is_Some (lookup_key k ps')).
Proof.
  intros H. apply bool_decide_ext.
  destruct (same_lookup_key ρ k ps ps' H); split; by eauto using is_Some_None.
Qed.

Lemma same_elem_value ρ es es' i :
  Forall2 (option_Forall2 (same_value ρ)) es es' →
  same_value ρ (elem_value (es !! i)) (elem_value (es' !! i)).
Proof.
  intros H. destruct (es !! i) as [e|] eqn:E.
  - destruct (Forall2_lookup_l _ _ _ _ _ H E) as (e' & -> & He).
    by destruct He.
  - apply lookup_ge_None in E. rewrite (Forall2_length _ _ _ H) in E.
    apply lookup_ge_None in E. by rewrite E.
Qed.

Lemma same_array_store ρ i x x' es es' :
  same_value ρ x x' → Forall2 (option_Forall2 (same_value ρ)) es es' →
  Forall2 (option_Forall2 (same_value ρ)) (array_store i x es) (array_store i x' es').
Proof.
  intros Hx H. unfold array_store. rewrite <- (Forall2_length _ _ _ H).
  destruct (decide _).
  - apply Forall2_insert; [done|]. by constructor.
  - apply Forall2_app; [done|]. apply Forall2_app; [|by repeat constructor].
    apply Forall2_replicate. constructor.
Qed.

Lemma same_array_resize ρ n es es' :
  Forall2 (option_Forall2 (same_value ρ)) es es' →
  Forall2 (option_Forall2 (same_value ρ)) (array_resize n es) (array_resize n es').
Proof.
  intros H. unfold array_resize. rewrite <- (Forall2_length _ _ _ H).
  apply Forall2_app; [by apply Forall2_take|]. apply Forall2_replicate. constructor.
Qed.

Lemma same_spliced ρ start d items items' es es' :
  Forall2 (same_value ρ) items items' →
  Forall2 (option_Forall2 (same_value ρ)) es es' →
  Forall2 (option_Forall2 (same_value ρ))
    (spliced start d items es) (spliced start d items' es').
Proof.
  intros Hi H. unfold spliced. rewrite <- (Forall2_length _ _ _ H).
  apply Forall2_app; [by apply Forall2_take|].
  apply Forall2_app; [|by apply Forall2_drop].
  apply Forall2_fmap. eapply Forall2_impl; [exact Hi|]. by constructor.
Qed.

(** *** Heaps *)

Lemma same_heap_cells ρ h h' l l' :
  same_heap ρ h h' → ρ !! l = Some l' →
  ∃ c c', h !! l = Some c ∧ h' !! l' = Some c' ∧ same_cell ρ c c'.
Proof. intros [_ H]. apply H. Qed.

Lemma same_heap_insert ρ h h' l l' c c' :
  same_heap ρ h h' → ρ !! l = Some l' → same_cell ρ c c' →
  same_heap ρ (<[l := c]> h) (<[l' := c']> h').
Proof.
  intros [Hinj Hcells] Hl Hc. split; [done|]. intros l1 l1' Hl1.
  destruct (decide (l1 = l)) as [->|Hne].
  - rewrite Hl in Hl1. injection Hl1 as <-. rewrite !lookup_insert_eq. eauto.
  - assert (l1' ≠ l') by (intros ->; eauto).
    rewrite !lookup_insert_ne by done. eauto.
Qed.

Lemma same_heap_alloc ρ h h' c c' :
  same_heap ρ h h' → same_cell ρ c c' →
  same_end same_value ρ (alloc c h) (alloc c' h').
Proof.
  intros [Hinj Hcells] Hc.
  assert (Hnew : ρ !! top h = None).
  { destruct (ρ !! top h) as [l'|] eqn:E; [|done].
    destruct (Hcells _ _ E) as (? & ? & H & _). by rewrite top_fresh in H. }
  assert (Hnew' : ∀ l, ρ !! l ≠ Some (top h')).
  { intros l E. destruct (Hcells _ _ E) as (? & ? & _ & H & _).
    by rewrite top_fresh in H. }
  assert (Hsub : ρ ⊆ <[top h := top h']> ρ) by by apply insert_subseteq.
  exists (<[top h := top h']> ρ). split; [done|]. split; [|apply lookup_insert_eq].
  split.
  - intros l1 l2 l' H1 H2. apply lookup_insert_Some in H1, H2.
    destruct H1 as [[E1 E1']|[N1 H1]], H2 as [[E2 E2']|[N2 H2]].
    + congruence.
    + subst l'. by destruct (Hnew' l2).
    + subst l'. by destruct (Hnew' l1).
    + eauto.
  - intros l l' [[<- <-]|[Hne Hl]]%lookup_insert_Some; simpl.
    + rewrite !lookup_insert_eq. eexists _, _. split_and!; [done..|].
      by apply (same_cell_mono ρ).
    + assert (top h' ≠ l') by (intros <-; by destruct (Hnew' l)).
      rewrite !lookup_insert_ne by done.
      destruct (Hcells _ _ Hl) as (c1 & c1' & ? & ? & ?).
      eexists _, _. split_and!; [done..|]. by apply (same_cell_mono ρ).
Qed.


(** *** Reading, writing and deleting *)

Section SameObjects.
Context (ρ : gmap nat nat) (h h' : heap) (Hh : same_heap ρ h h').

Lemma same_value_cases o o' :
  same_value ρ o o' →
  (primitive o ≠ None ∧ o' = o)
  ∨ (∃ l l' c c', o = HRef l ∧ o' = HRef l' ∧ ρ !! l = Some l'
                  ∧ h !! l = Some c ∧ h' !! l' = Some c' ∧ same_cell ρ c c').
Proof.
  destruct o as [| | b | n | s | l], o' as [| | b' | n' | s' | l']; simpl;
    intros Hl; try done; try (left; split; [done|by symmetry]).
  right. destruct (same_heap_cells _ _ _ _ _ Hh Hl) as (c & c' & ? & ? & ?).
  by exists l, l', c, c'.
Qed.

Lemma same_prototype_members o o' :
  same_value ρ o o' → prototype_members h o = prototype_members h' o'.
Proof.
  intros [[Hp ->]|(l & l' & c & c' & -> & -> & Hl & Hc & Hc' & Hcc)]%same_value_cases.
  - by destruct o.
  - simpl. rewrite Hc, Hc'. by destruct c, c'.
Qed.

Lemma same_owns o o' k : same_value ρ o o' → owns h o k = owns h' o' k.
Proof.
  intros [[Hp ->]|(l & l' & c & c' & -> & -> & Hl & Hc & Hc' & Hcc)]%same_value_cases.
  - by destruct o.
  - simpl. rewrite Hc, Hc'.
    destruct c as [ps|es ps], c' as [ps'|es' ps']; simpl in Hcc; try done.
    + by apply (same_lookup_key_is_Some ρ).
    + destruct Hcc as [Hes Hps]. destruct (array_index k) as [i|].
      * pose proof (same_elem_value ρ es es' i Hes) as Hi.
        destruct (es !! i) as [[x|]|] eqn:E.
        -- destruct (Forall2_lookup_l _ _ _ _ _ Hes E) as (e' & -> & He).
           by inversion He.
        -- destruct (Forall2_lookup_l _ _ _ _ _ Hes E) as (e' & -> & He).
           by inversion He.
        -- apply lookup_ge_None in E. rewrite (Forall2_length _ _ _ Hes) in E.
           apply lookup_ge_None in E. by rewrite E.
      * by rewrite (same_lookup_key_is_Some ρ k ps ps').
Qed.

Lemma same_inherited o o' k : same_value ρ o o' → inherited h o k = inherited h' o' k.
Proof.
  intros Ho. unfold inherited.
  by rewrite (same_owns o o' k Ho), (same_prototype_members o o' Ho).
Qed.

Lemma same_GetOwn o o' k :
  same_value ρ o o' →
  option_Forall2 (same_value ρ) (GetOwn h o k) (GetOwn h' o' k).
Proof.
  intros [[Hp ->]|(l & l' & c & c' & -> & -> & Hl & Hc & Hc' & Hcc)]%same_value_cases.
  - destruct o as [| | b | n | s | l]; simpl; try done; repeat constructor.
    apply same_value_prim. destruct (array_index k); [by destruct (_ !! _)|].
    by destruct (String.eqb k "length").
  - simpl. rewrite Hc, Hc'.
    destruct c as [ps|es ps], c' as [ps'|es' ps']; simpl in Hcc; try done;
      constructor.
    + by destruct (same_lookup_key ρ k ps ps' Hcc).
    + destruct Hcc as [Hes Hps]. destruct (array_index k) as [i|].
      { by apply same_elem_value. }
      rewrite (Forall2_length _ _ _ Hes).
      destruct (String.eqb k "length"); [done|].
      by destruct (same_lookup_key ρ k ps ps' Hps).
Qed.

Lemma same_Get o o' k :
  same_value ρ o o' →
  same_result (same_value ρ) (Get h o k) (Get h' o' k).
Proof.
  intros Ho. unfold Get. rewrite (same_inherited o o' k Ho).
  destruct (inherited h' o' k); [done|].
  by destruct (same_GetOwn o o' k Ho).
Qed.

Lemma same_isArray o o' : same_value ρ o o' → isArray h o = isArray h' o'.
Proof.
  intros [[Hp ->]|(l & l' & c & c' & -> & -> & Hl & Hc & Hc' & Hcc)]%same_value_cases.
  - by destruct o.
  - simpl. rewrite Hc, Hc'. by destruct c, c'.
Qed.

Lemma same_length_of o o' : same_value ρ o o' → length_of h o = length_of h' o'.
Proof.
  intros Ho. unfold length_of.
  destruct (same_GetOwn o o' "length" Ho) as [v v' Hv|]; simpl; [|done].
  by rewrite (same_value_primitive ρ v v' Hv).
Qed.

Lemma same_Put o o' k x x' :
  same_value ρ o o' → same_value ρ x x' →
  same_heap ρ (Put h o k x).1 (Put h' o' k x').1
  ∧ (Put h o k x).2 = (Put h' o' k x').2.
Proof.
  intros Ho Hx. unfold Put. rewrite (same_inherited o o' k Ho).
  destruct (inherited h' o' k); [done|]. revert Ho.
  intros [[Hp ->]|(l & l' & c & c' & -> & -> & Hl & Hc & Hc' & Hcc)]%same_value_cases.
  { by destruct o. }
  simpl. rewrite Hc, Hc'.
  destruct c as [ps|es ps], c' as [ps'|es' ps']; simpl in Hcc; try done.
  - split; [|done]. apply same_heap_insert; [done..|]. by apply same_assign_key.
  - destruct Hcc as [Hes Hps]. destruct (array_index k) as [i|].
    { split; [|done]. apply same_heap_insert; [done..|].
      split; [|done]. by apply same_array_store. }
    destruct (String.eqb k "length").
    { rewrite (same_value_primitive ρ x x' Hx). destruct (primitive x'); [|done].
      destruct (valid_length _); [|done].
      split; [|done]. apply same_heap_insert; [done..|].
      split; [|done]. by apply same_array_resize. }
    split; [|done]. apply same_heap_insert; [done..|].
    split; [done|]. by apply same_assign_key.
Qed.

Lemma same_Delete o o' k :
  same_value ρ o o' →
  same_heap ρ (Delete h o k).1 (Delete h' o' k).1
  ∧ (Delete h o k).2 = (Delete h' o' k).2.
Proof.
  intros [[Hp ->]|(l & l' & c & c' & -> & -> & Hl & Hc & Hc' & Hcc)]%same_value_cases.
  { destruct o as [| | b | n | s | l]; simpl; try done.
    destruct (array_index k); [by destruct (decide _)|].
    by destruct (String.eqb k "length"). }
  simpl. rewrite Hc, Hc'.
  destruct c as [ps|es ps], c' as [ps'|es' ps']; simpl in Hcc; try done.
  - split; [|done]. apply same_heap_insert; [done..|]. by apply same_remove_key.
  - destruct Hcc as [Hes Hps]. destruct (array_index k) as [i|].
    { split; [|done]. apply same_heap_insert; [done..|].
      split; [|done]. rewrite (Forall2_length _ _ _ Hes).
      destruct (decide _); [|done]. apply Forall2_insert; [done|constructor]. }
    destruct (String.eqb k "length"); [done|].
    split; [|done]. apply same_heap_insert; [done..|].
    split; [done|]. by apply same_remove_key.
Qed.

Lemma same_splice arr arr' start d items items' :
  same_value ρ arr arr' → Forall2 (same_value ρ) items items' →
  same_heap ρ (splice h arr start d items).1 (splice h' arr' start d items').1
  ∧ (splice h arr start d items).2 = (splice h' arr' start d items').2.
Proof.
  intros [[Hp ->]|(l & l' & c & c' & -> & -> & Hl & Hc & Hc' & Hcc)]%same_value_cases Hi.
  { by destruct arr. }
  simpl. rewrite Hc, Hc'.
  destruct c as [ps|es ps], c' as [ps'|es' ps']; simpl in Hcc; try done.
  destruct Hcc as [Hes Hps].
  destruct (same_lookup_key ρ "splice" ps ps' Hps); [done|].
  split; [|done]. apply same_heap_insert; [done..|].
  split; [|done]. by apply same_spliced.
Qed.

Lemma same_push arr arr' x x' :
  same_value ρ arr arr' → same_value ρ x x' →
  same_heap ρ (push h arr x).1 (push h' arr' x').1
  ∧ (push h arr x).2 = (push h' arr' x').2.
Proof.
  intros [[Hp ->]|(l & l' & c & c' & -> & -> & Hl & Hc & Hc' & Hcc)]%same_value_cases Hx.
  { by destruct arr. }
  simpl. rewrite Hc, Hc'.
  destruct c as [ps|es ps], c' as [ps'|es' ps']; simpl in Hcc; try done.
  destruct Hcc as [Hes Hps].
  destruct (same_lookup_key ρ "push" ps ps' Hps); [done|].
  split; [|done]. apply same_heap_insert; [done..|].
  split; [|done]. apply Forall2_app; [done|]. by repeat constructor.
Qed.

End SameObjects.


(** *** Calls that make objects *)

Lemma same_end_here {A} (R : gmap nat nat → A → A → Prop) ρ (r r' : heap * A) :
  same_heap ρ r.1 r'.1 → R ρ r.2 r'.2 → same_end R ρ r r'.
Proof. intros Hh Hr. by exists ρ. Qed.

Lemma same_end_mono {A} (R : gmap nat nat → A → A → Prop) ρ ρ1 (r r' : heap * A) :
  ρ ⊆ ρ1 → same_end R ρ1 r r' → same_end R ρ r r'.
Proof.
  intros Hsub (ρ2 & Hsub2 & Hh & Hr). exists ρ2. split; [|done].
  by transitivity ρ1.
Qed.

Lemma same_store v : ∀ ρ h h',
  same_heap ρ h h' → same_end same_value ρ (store v h) (store v h').
Proof.
  induction v as [| | b | n | s | ps IH | es ps IHe IHp] using value_induction;
    intros ρ h h' Hh; try by apply same_end_here.
  - cbn [store].
    set (go := fix go (ps : list (string * value)) (h : heap) :=
           match ps with
           | [] => (h, [])
           | (k, x) :: ps' =>
               let '(h1, hx) := store x h in
               let '(h2, hps) := go ps' h1 in (h2, (k, hx) :: hps)
           end).
    assert (Hgo : ∀ ρ h h', same_heap ρ h h' →
              same_end (fun ρ => Forall2 (same_property ρ)) ρ (go ps h) (go ps h')).
    { clear ρ h h' Hh. induction IH as [|[k x] ps Hx _ IHps]; intros ρ h h' Hh.
      { by apply same_end_here. }
      cbn [snd] in Hx. simpl. destruct (Hx ρ h h' Hh) as (ρ1 & Hs1 & H1 & Hv).
      destruct (store x h) as [h1 hx], (store x h') as [h1' hx'].
      destruct (IHps ρ1 h1 h1' H1) as (ρ2 & Hs2 & H2 & Hvs).
      destruct (go ps h1) as [h2 hps], (go ps h1') as [h2' hps'].
      exists ρ2. split; [by transitivity ρ1|]. split; [done|].
      constructor; [|done]. split; [done|]. by apply (same_value_mono ρ1). }
    destruct (Hgo ρ h h' Hh) as (ρ1 & Hs1 & H1 & Hps).
    destruct (go ps h) as [h1 hps], (go ps h') as [h1' hps'].
    apply (same_end_mono _ ρ ρ1); [done|]. by apply same_heap_alloc.
  - cbn [store].
    set (go := fix go (ps : list (string * value)) (h : heap) :=
           match ps with
           | [] => (h, [])
           | (k, x) :: ps' =>
               let '(h1, hx) := store x h in
               let '(h2, hps) := go ps' h1 in (h2, (k, hx) :: hps)
           end).
    set (goe := fix go (es : list (option value)) (h : heap) :=
           match es with
           | [] => (h, [])
           | None :: es' => let '(h1, hes) := go es' h in (h1, None :: hes)
           | Some x :: es' =>
               let '(h1, hx) := store x h in
               let '(h2, hes) := go es' h1 in (h2, Some hx :: hes)
           end).
    assert (Hgo : ∀ ρ h h', same_heap ρ h h' →
              same_end (fun ρ => Forall2 (same_property ρ)) ρ (go ps h) (go ps h')).
    { clear ρ h h' Hh. induction IHp as [|[k x] ps Hx _ IHps]; intros ρ h h' Hh.
      { by apply same_end_here. }
      cbn [snd] in Hx. simpl. destruct (Hx ρ h h' Hh) as (ρ1 & Hs1 & H1 & Hv).
      destruct (store x h) as [h1 hx], (store x h') as [h1' hx'].
      destruct (IHps ρ1 h1 h1' H1) as (ρ2 & Hs2 & H2 & Hvs).
      destruct (go ps h1) as [h2 hps], (go ps h1') as [h2' hps'].
      exists ρ2. split; [by transitivity ρ1|]. split; [done|].
      constructor; [|done]. split; [done|]. by apply (same_value_mono ρ1). }
    assert (Hgoe : ∀ ρ h h', same_heap ρ h h' →
              same_end (fun ρ => Forall2 (option_Forall2 (same_value ρ))) ρ
                (goe es h) (goe es h')).
    { clear ρ h h' Hh. induction IHe as [|[x|] es Hx _ IHes]; intros ρ h h' Hh.
      - by apply same_end_here.
      - simpl. destruct (Hx ρ h h' Hh) as (ρ1 & Hs1 & H1 & Hv).
        destruct (store x h) as [h1 hx], (store x h') as [h1' hx'].
        destruct (IHes ρ1 h1 h1' H1) as (ρ2 & Hs2 & H2 & Hvs).
        destruct (goe es h1) as [h2 hes], (goe es h1') as [h2' hes'].
        exists ρ2. split; [by transitivity ρ1|]. split; [done|].
        constructor; [|done]. constructor. by apply (same_value_mono ρ1).
      - simpl. destruct (IHes ρ h h' Hh) as (ρ2 & Hs2 & H2 & Hvs).
        destruct (goe es h) as [h2 hes], (goe es h') as [h2' hes'].
        exists ρ2. split; [done|]. split; [done|]. constructor; [constructor|done]. }
    destruct (Hgoe ρ h h' Hh) as (ρ1 & Hs1 & H1 & Hes).
    destruct (goe es h) as [h1 hes], (goe es h') as [h1' hes'].
    destruct (Hgo ρ1 h1 h1' H1) as (ρ2 & Hs2 & H2 & Hps).
    destruct (go ps h1) as [h2 hps], (go ps h1') as [h2' hps'].
    apply (same_end_mono _ ρ ρ2); [by transitivity ρ1|].
    apply same_heap_alloc; [done|]. split; [|done]. by apply (same_elements_mono ρ1).
Qed.


Lemma same_end_pure {A} (R : gmap nat nat → A → A → Prop) ρ (r r' : heap * A) :
  same_heap ρ r.1 r'.1 ∧ r.2 = r'.2 → (∀ x, R ρ x x) → same_end R ρ r r'.
Proof. intros [Hh Hr] HR. exists ρ. rewrite Hr. by split. Qed.

Lemma same_end_error ρ (r r' : heap * option error) :
  same_heap ρ r.1 r'.1 ∧ r.2 = r'.2 → same_end same_error ρ r r'.
Proof. intros H. by apply same_end_pure. Qed.

Lemma same_set_walk keys : ∀ ρ h h' current current' value value',
  same_heap ρ h h' → same_value ρ current current' → same_value ρ value value' →
  same_end same_error ρ
    (set_walk h current keys value) (set_walk h' current' keys value').
Proof.
  induction keys as [|key rest IH]; intros ρ h h' current current' value value' Hh Hc Hv.
  { by apply same_end_error, (same_Put ρ). }
  destruct rest as [|nextKey rest]; [by apply same_end_error, (same_Put ρ)|].
  rewrite !heap_set_walk_step.
  pose proof (same_Get ρ h h' Hh current current' key Hc) as HG.
  destruct (Get h current key) as [found|e], (Get h' current' key) as [found'|e'];
    simpl in HG; try done; [|subst e'; by apply same_end_here].
  rewrite <- (same_value_nullish ρ found found' HG).
  set (c := if ObjectManipulator.is_numeric nextKey then CArr [] [] else CObj []).
  assert (H1 : same_end same_error ρ
                 (if nullish found
                  then let '(h0, fresh) := alloc c h in Put h0 current key fresh
                  else (h, None))
                 (if nullish found
                  then let '(h0, fresh) := alloc c h' in Put h0 current' key fresh
                  else (h', None))).
  { destruct (nullish found); [|by apply same_end_here].
    destruct (same_heap_alloc ρ h h' c c Hh) as (ρ1 & Hs1 & Ha & Hf).
    { unfold c. destruct (ObjectManipulator.is_numeric nextKey); simpl; by repeat constructor. }
    destruct (alloc c h) as [ha fresh], (alloc c h') as [ha' fresh'].
    apply (same_end_mono _ ρ ρ1); [done|]. apply same_end_error.
    apply (same_Put ρ1); [done| |done]. by apply (same_value_mono ρ). }
  destruct H1 as (ρ1 & Hs1 & H1 & He).
  destruct (if nullish found then _ else _) as [h1 e1].
  destruct (if nullish found then _ else _) as [h1' e1'].
  cbn [fst snd] in H1, He. unfold same_error in He. subst e1'.
  apply (same_end_mono _ ρ ρ1); [done|].
  destruct e1 as [e|]; [by apply same_end_here|].
  pose proof (same_Get ρ1 h1 h1' H1 current current' key
                (same_value_mono ρ ρ1 _ _ Hs1 Hc)) as HG1.
  destruct (Get h1 current key) as [child|e], (Get h1' current' key) as [child'|e'];
    simpl in HG1; try done; [|subst e'; by apply same_end_here].
  apply IH; [done..|]. by apply (same_value_mono ρ).
Qed.

Section SameWalks.
Context (ρ : gmap nat nat) (h h' : heap) (Hh : same_heap ρ h h').

Lemma same_get_walk keys : ∀ current current',
  same_value ρ current current' →
  same_result (option_Forall2 (same_value ρ))
    (get_walk h current keys) (get_walk h' current' keys).
Proof.
  induction keys as [|key rest IH]; intros current current' Hc; simpl.
  { by constructor. }
  rewrite <- (same_value_nullish ρ current current' Hc).
  destruct (nullish current); [constructor|].
  pose proof (same_Get ρ h h' Hh current current' key Hc) as HG.
  destruct (Get h current key) as [next|e], (Get h' current' key) as [next'|e'];
    simpl in HG; try done.
  by apply IH.
Qed.

Lemma same_getPropertyValue obj obj' path defaultValue defaultValue' :
  same_value ρ obj obj' → same_value ρ defaultValue defaultValue' →
  same_result (same_value ρ)
    (getPropertyValue h obj path defaultValue)
    (getPropertyValue h' obj' path defaultValue').
Proof.
  intros Ho Hd. unfold getPropertyValue.
  pose proof (same_get_walk (ObjectManipulator.parsePath path) obj obj' Ho) as HW.
  destruct (get_walk h obj _) as [r|e], (get_walk h' obj' _) as [r'|e'];
    simpl in HW; try done.
  destruct HW as [current current' Hc|]; simpl; [|done].
  rewrite <- (same_value_nullish ρ current current' Hc).
  by destruct (nullish current).
Qed.

Lemma same_delete_last current current' lastKey :
  same_value ρ current current' →
  same_heap ρ (delete_last h current lastKey).1 (delete_last h' current' lastKey).1
  ∧ (delete_last h current lastKey).2 = (delete_last h' current' lastKey).2.
Proof.
  intros Hc. unfold delete_last. rewrite <- (same_isArray ρ h h' Hh current current' Hc).
  destruct (isArray h current).
  - by apply (same_splice ρ).
  - by apply (same_Delete ρ).
Qed.

Lemma same_delete_walk keys : ∀ current current',
  same_value ρ current current' →
  same_heap ρ (delete_walk h current keys).1 (delete_walk h' current' keys).1
  ∧ (delete_walk h current keys).2 = (delete_walk h' current' keys).2.
Proof.
  induction keys as [|key rest IH]; intros current current' Hc.
  { by apply same_delete_last. }
  destruct rest as [|nextKey rest]; [by apply same_delete_last|].
  rewrite !heap_delete_walk_step.
  pose proof (same_Get ρ h h' Hh current current' key Hc) as HG.
  destruct (Get h current key) as [child|e], (Get h' current' key) as [child'|e'];
    simpl in HG; try done; [|by subst e'].
  rewrite <- (same_value_nullish ρ child child' HG).
  destruct (nullish child); [done|]. by apply IH.
Qed.

End SameWalks.

Lemma same_getArrayAndIndex ρ h h' obj obj' path :
  same_heap ρ h h' → same_value ρ obj obj' →
  same_end (fun ρ => same_result (fun p p' => same_value ρ p.1 p'.1 ∧ p.2 = p'.2)) ρ
    (getArrayAndIndex h obj path) (getArrayAndIndex h' obj' path).
Proof.
  intros Hh Ho. unfold getArrayAndIndex.
  destruct (same_heap_alloc ρ h h' (CArr [] []) (CArr [] []) Hh) as (ρ1 & Hs1 & H1 & He).
  { by repeat constructor. }
  destruct (alloc (CArr [] []) h) as [h1 empty], (alloc (CArr [] []) h') as [h1' empty'].
  cbn [fst snd] in H1, He. apply (same_end_mono _ ρ ρ1); [done|].
  pose proof (same_getPropertyValue ρ1 h1 h1' H1 obj obj'
                (ObjectManipulator.array_path path) empty empty'
                (same_value_mono ρ ρ1 _ _ Hs1 Ho) He) as HG.
  destruct (getPropertyValue h1 obj _ empty) as [arr|e],
           (getPropertyValue h1' obj' _ empty') as [arr'|e'];
    simpl in HG; try done; [|by apply same_end_here].
  rewrite <- (same_value_nullish ρ1 arr arr' HG). destruct (nullish arr).
  - destruct (same_heap_alloc ρ1 h1 h1' (CArr [] []) (CArr [] []) H1)
      as (ρ2 & Hs2 & H2 & He2).
    { by repeat constructor. }
    destruct (alloc (CArr [] []) h1) as [h2 e2], (alloc (CArr [] []) h1') as [h2' e2'].
    by exists ρ2.
  - by apply same_end_here.
Qed.

Lemma same_insertAtIndex ρ h h' obj obj' path value value' :
  same_heap ρ h h' → same_value ρ obj obj' → same_value ρ value value' →
  same_end same_error ρ
    (insertAtIndex h obj path value) (insertAtIndex h' obj' path value').
Proof.
  intros Hh Ho Hv. unfold insertAtIndex.
  destruct (same_getArrayAndIndex ρ h h' obj obj' path Hh Ho) as (ρ1 & Hs1 & H1 & Hr).
  destruct (getArrayAndIndex h obj path) as [h1 [[arr index]|e]],
           (getArrayAndIndex h' obj' path) as [h1' [[arr' index']|e']];
    simpl in H1, Hr; try done; [|subst e'; exists ρ1; by split].
  destruct Hr as [Harr <-]. apply (same_end_mono _ ρ ρ1); [done|].
  apply same_end_error. pose proof (same_value_mono ρ ρ1 _ _ Hs1 Hv).
  destruct (num_eq _ _).
  - by apply (same_push ρ1).
  - apply (same_splice ρ1); [done..|]. by repeat constructor.
Qed.

Lemma same_removeAtIndex ρ h h' obj obj' path :
  same_heap ρ h h' → same_value ρ obj obj' →
  same_end same_error ρ (removeAtIndex h obj path) (removeAtIndex h' obj' path).
Proof.
  intros Hh Ho. unfold removeAtIndex.
  destruct (same_getArrayAndIndex ρ h h' obj obj' path Hh Ho) as (ρ1 & Hs1 & H1 & Hr).
  destruct (getArrayAndIndex h obj path) as [h1 [[arr index]|e]],
           (getArrayAndIndex h' obj' path) as [h1' [[arr' index']|e']];
    simpl in H1, Hr; try done; [|subst e'; exists ρ1; by split].
  destruct Hr as [Harr <-]. apply (same_end_mono _ ρ ρ1); [done|].
  apply same_end_error. destruct (num_le _ _); [|done].
  rewrite <- (same_length_of ρ1 h1 h1' H1 arr arr' Harr).
  destruct (length_of h1 arr) as [len|e]; [|done].
  destruct (num_lt _ _); [|done]. by apply (same_splice ρ1).
Qed.

Lemma same_setValueAtIndex ρ h h' obj obj' path value value' :
  same_heap ρ h h' → same_value ρ obj obj' → same_value ρ value value' →
  same_end same_error ρ
    (setValueAtIndex h obj path value) (setValueAtIndex h' obj' path value').
Proof.
  intros Hh Ho Hv. unfold setValueAtIndex.
  destruct (same_getArrayAndIndex ρ h h' obj obj' path Hh Ho) as (ρ1 & Hs1 & H1 & Hr).
  destruct (getArrayAndIndex h obj path) as [h1 [[arr index]|e]],
           (getArrayAndIndex h' obj' path) as [h1' [[arr' index']|e']];
    simpl in H1, Hr; try done; [|subst e'; exists ρ1; by split].
  destruct Hr as [Harr <-]. apply (same_end_mono _ ρ ρ1); [done|].
  apply same_end_error. pose proof (same_value_mono ρ ρ1 _ _ Hs1 Hv).
  destruct (num_le _ _); [|done]. by apply (same_Put ρ1).
Qed.

Lemma same_applyFieldChange ρ h h' obj obj' change options :
  same_heap ρ h h' → same_value ρ obj obj' →
  same_end same_error ρ
    (applyFieldChange h obj change options) (applyFieldChange h' obj' change options).
Proof.
  intros Hh Ho. unfold applyFieldChange.
  destruct (_ && _); [by apply same_end_here|].
  destruct (match type change with
            | DELETE => _
            | _ => _
            end) as [parsed|e]; [|by apply same_end_here].
  destruct (same_store parsed ρ h h' Hh) as (ρ1 & Hs1 & H1 & Hv).
  destruct (store parsed h) as [h1 parsedValue], (store parsed h') as [h1' parsedValue'].
  cbn [fst snd] in H1, Hv. apply (same_end_mono _ ρ ρ1); [done|].
  pose proof (same_value_mono ρ ρ1 _ _ Hs1 Ho).
  destruct (isArrayChange _).
  - destruct (type change); simpl.
    + by apply same_insertAtIndex.
    + by apply same_setValueAtIndex.
    + by apply same_removeAtIndex.
  - destruct (type change); simpl.
    + by apply same_set_walk.
    + by apply same_set_walk.
    + by apply same_end_error, (same_delete_walk ρ1).
Qed.

Lemma same_each {A} (step step' : heap → A → heap * option error) xs : ∀ ρ h h',
  (∀ ρ1 h h' x, ρ ⊆ ρ1 → same_heap ρ1 h h' →
                same_end same_error ρ1 (step h x) (step' h' x)) →
  same_heap ρ h h' →
  same_end same_error ρ (each step h xs) (each step' h' xs).
Proof.
  induction xs as [|x xs IH]; intros ρ h h' Hstep Hh; [by apply same_end_here|].
  simpl. destruct (Hstep ρ h h' x (reflexivity ρ) Hh) as (ρ1 & Hs1 & H1 & He).
  destruct (step h x) as [h1 e1], (step' h' x) as [h1' e1'].
  cbn [fst snd] in H1, He. unfold same_error in He. subst e1'.
  apply (same_end_mono _ ρ ρ1); [done|].
  destruct e1 as [e|]; [by apply same_end_here|].
  apply IH; [|done]. intros ρ2 h2 h2' y Hs2. apply Hstep. by transitivity ρ1.
Qed.

Lemma same_returning ρ obj obj' (r r' : heap * option error) :
  same_value ρ obj obj' → same_end same_error ρ r r' →
  same_end (fun ρ => same_result (same_value ρ)) ρ (returning obj r) (returning obj' r').
Proof.
  intros Ho (ρ1 & Hs1 & H1 & He). destruct r as [h1 e1], r' as [h1' e1'].
  cbn [fst snd] in H1, He. unfold same_error in He. subst e1'.
  exists ρ1. split; [done|]. destruct e1 as [e|]; simpl; [done|].
  split; [done|]. by apply (same_value_mono ρ).
Qed.

Lemma same_applyChange ρ h h' obj obj' documentChange options :
  same_heap ρ h h' → same_value ρ obj obj' →
  same_end (fun ρ => same_result (same_value ρ)) ρ
    (applyChange h obj documentChange options)
    (applyChange h' obj' documentChange options).
Proof.
  intros Hh Ho. unfold applyChange. apply same_returning; [done|].
  apply same_each; [|done]. intros ρ1 h1 h1' x Hs1 H1.
  apply same_applyFieldChange; [done|]. by apply (same_value_mono ρ).
Qed.

Lemma same_applyChanges ρ h h' obj obj' documentChanges options :
  same_heap ρ h h' → same_value ρ obj obj' →
  same_end (fun ρ => same_result (same_value ρ)) ρ
    (applyChanges h obj documentChanges options)
    (applyChanges h' obj' documentChanges options).
Proof.
  intros Hh Ho. unfold applyChanges. apply same_returning; [done|].
  apply same_each; [|done]. intros ρ1 h1 h1' x Hs1 H1.
  destruct (same_applyChange ρ1 h1 h1' obj obj' x options H1
              (same_value_mono ρ ρ1 _ _ Hs1 Ho)) as (ρ2 & Hs2 & H2 & Hr).
  destruct (applyChange h1 obj x options) as [h2 [v|e]],
           (applyChange h1' obj' x options) as [h2' [v'|e']];
    simpl in H2, Hr; try done; exists ρ2; (split; [done|]); (split; [done|]);
    unfold same_error; simpl; congruence.
Qed.

(** *** The clone and the original *)

Lemma clone_names_lookup (h : heap) l l' :
  clone_names h !! l = Some l' ↔ is_Some (h !! l) ∧ l' = l + top h.
Proof.
  unfold clone_names. rewrite map_lookup_imap.
  destruct (h !! l) as [c|]; simpl; split.
  - intros [= <-]. eauto.
  - by intros [_ ->].
  - done.
  - by intros [[? [=]] _].
Qed.

Lemma clone_names_value (h : heap) v :
  denotes h v → same_value (clone_names h) v (shift (top h) v).
Proof.
  destruct v as [| | b | n | s | l]; try done. simpl. intros Hl.
  by apply clone_names_lookup.
Qed.

Lemma clone_names_cell (h : heap) c :
  Forall (denotes h) (cell_values c) →
  same_cell (clone_names h) c (shift_cell (top h) c).
Proof.
  assert (Hps : ∀ ps : list (string * hvalue), Forall (denotes h) ps.*2 →
            Forall2 (same_property (clone_names h)) ps
              (map (fun p => (p.1, shift (top h) p.2)) ps)).
  { intros ps. induction ps as [|[k x] ps IH]; simpl; [constructor|].
    rewrite Forall_cons. intros [Hx Hps]. constructor; [|by apply IH].
    split; [done|]. by apply clone_names_value. }
  destruct c as [ps|es ps]; [apply Hps|].
  intros [Hes Hvs]%cell_values_array. split; [|by apply Hps].
  induction Hes as [|[x|] es Hx _ IH]; simpl; constructor; try done.
  - constructor. by apply clone_names_value.
  - constructor.
Qed.

Lemma structuredClone_same (h : heap) v :
  well_formed h →
  same_heap (clone_names h) h (structuredClone h v).1.
Proof.
  intros Hwf. split.
  - intros l1 l2 l' [_ ->]%clone_names_lookup [_ E]%clone_names_lookup. lia.
  - intros l l' [[c Hc] ->]%clone_names_lookup.
    exists c, (shift_cell (top h) c). split; [done|].
    split; [by rewrite structuredClone_new, Hc|].
    apply clone_names_cell. by apply (Hwf l).
Qed.

(** Heaps that are the same up to names read the same. *)
Lemma mapM_same {A B C} (f : A → option C) (g : B → option C) (R : A → B → Prop) l l' :
  Forall2 R l l' → (∀ x y, R x y → f x = g y) → mapM f l = mapM g l'.
Proof.
  intros H HR. induction H as [|x y l l' Hxy _ IH]; [done|].
  simpl. by rewrite (HR x y Hxy), IH.
Qed.

Lemma tree_of_same_heap ρ (h h' : heap) :
  same_heap ρ h h' →
  ∀ d v v', same_value ρ v v' → tree_of d h v = tree_of d h' v'.
Proof.
  intros Hh d. induction d as [|d IH]; intros v v' Hv.
  { destruct v, v'; simpl in *; try done; congruence. }
  destruct (same_value_cases ρ h h' Hh v v' Hv)
    as [[Hp ->]|(l & l' & c & c' & -> & -> & Hl & Hc & Hc' & Hcc)].
  { by destruct v. }
  cbn [tree_of]. rewrite Hc, Hc'.
  assert (Hps : ∀ ps ps', Forall2 (same_property ρ) ps ps' →
            mapM (fun p => pair p.1 <$> tree_of d h p.2) ps
            = mapM (fun p => pair p.1 <$> tree_of d h' p.2) ps').
  { intros ps ps' H. apply (mapM_same _ _ _ _ _ H).
    intros [k x] [k' x'] [Hk Hx]. simpl in *. subst k'. by rewrite (IH x x'). }
  destruct c as [ps|es ps], c' as [ps'|es' ps']; simpl in Hcc; try done.
  { by rewrite (Hps ps ps'). }
  destruct Hcc as [Hes Hpp]. rewrite (Hps ps ps') by done.
  f_equal. apply (mapM_same _ _ _ _ _ Hes).
  intros e e' [x x' Hx|]; [|done]. by rewrite (IH x x').
Qed.

End SameFacts.

(* ===================================================================== *)
(** * The copy and the original *)
(* ===================================================================== *)

Section CopyFacts.
Import Chars JS DocumentChangeParser Heap Fixtures.

(** The entry points that copy are the in-place ones on a clone. *)
Lemma copy_then_in_place (h : heap) l
    (apply : heap → hvalue → heap * result hvalue) :
  well_formed h → is_Some (h !! l) →
  (∀ h1 obj, isolated (dom h) h h1 → outside (dom h) obj →
             isolated (dom h) h (apply h1 obj).1) →
  (∀ h1 obj v, (apply h1 obj).2 = Returned v → v = obj) →
  (∀ ρ h1 h1' obj obj', same_heap ρ h1 h1' → same_value ρ obj obj' →
     same_end (fun ρ => same_result (same_value ρ)) ρ (apply h1 obj) (apply h1' obj')) →
  copy_result h (HRef l)
    (let '(h1, copy) := structuredClone h (HRef l) in apply h1 copy)
    (apply h (HRef l)).
Proof.
  intros Hwf Hl Hiso Hret Hsame. unfold copy_result.
  destruct (structuredClone_isolated h (HRef l)) as [Hi Ho].
  pose proof (structuredClone_same h (HRef l) Hwf) as Hh.
  assert (Hv : same_value (clone_names h) (HRef l) (structuredClone h (HRef l)).2).
  { by apply clone_names_value. }
  specialize (Hiso _ _ Hi Ho).
  destruct (Hsame _ _ _ _ _ Hh Hv) as (ρ & Hsub & Hh1 & Hr).
  pose proof (Hret (structuredClone h (HRef l)).1 (structuredClone h (HRef l)).2) as Hret1.
  pose proof (Hret h (HRef l)) as Hret2.
  destruct (structuredClone h (HRef l)) as [h1 copy] eqn:Ec. cbn [fst snd] in *.
  set (r := apply h1 copy) in *. set (r' := apply h (HRef l)) in *.
  split_and!.
  - done.
  - intros d. apply (tree_of_same h r.1 Hwf); [|done].
    intros l' Hl'. by destruct Hiso as (_ & -> & _).
  - intros ->. simpl in Ho. apply Ho, elem_of_dom, Hl.
  - done.
  - destruct r.2 as [v|e], r'.2 as [v'|e']; simpl in Hr |- *; try done.
    split; [by apply Hret1|by apply Hret2].
  - intros d. symmetry. apply (tree_of_same_heap ρ); [done|].
    by apply (same_value_mono (clone_names h)).
Qed.



End CopyFacts.

(* ===================================================================== *)
(** * identifyInactive *)
(* ===================================================================== *)

Section InactiveFacts.
Import Chars JS DiffIdentifier.

Lemma inactive_loop_quiet config processed existingItems :
  ∀ acc,
    inactive_loop config processed false acc existingItems
    = Returned (acc ++ map (report config)
                         (List.filter (unprocessed config processed) existingItems)).
Proof.
  induction existingItems as [|it rest IH]; intros acc; simpl.
  - now rewrite app_nil_r.
  - assert (Hu : unprocessed config processed it
                 = negb (bool_decide (trim (ToString (field it (idField config)))
                                      ∈ processed))) by reflexivity.
    rewrite Hu. destruct (bool_decide _); simpl; [apply IH|].
    destruct (marked_deleted _ it); rewrite IH, <- app_assoc; reflexivity.
Qed.

Lemma inactive_loop_strict config processed existingItems :
  ∀ acc,
    inactive_loop config processed true acc existingItems
    = match find (active config)
              (List.filter (unprocessed config processed) existingItems) with
      | Some it => Thrown (missing (ToString (field it (nameField config))))
      | None => Returned (acc ++ map (report config)
                                   (List.filter (unprocessed config processed)
                                      existingItems))
      end.
Proof.
  induction existingItems as [|it rest IH]; intros acc; simpl.
  - now rewrite app_nil_r.
  - assert (Hu : unprocessed config processed it
                 = negb (bool_decide (trim (ToString (field it (idField config)))
                                      ∈ processed))) by reflexivity.
    rewrite Hu. destruct (bool_decide _); simpl; [apply IH|].
    assert (Ha : active config it = negb (marked_deleted (isDeletedField config) it))
      by reflexivity.
    rewrite Ha. destruct (marked_deleted _ it); simpl; [|done].
    rewrite IH. destruct (find _ _); [done|]. now rewrite <- app_assoc.
Qed.

Lemma find_app {A} (p : A → bool) l1 l2 :
  find p (l1 ++ l2) = match find p l1 with
                      | Some x => Some x
                      | None => find p l2
                      end.
Proof.
  induction l1 as [|x l1 IH]; simpl; [done|]. now destruct (p x).
Qed.

Lemma identifyInactive_spec existingItems processedIds config options :
  identifyInactive existingItems processedIds config options
  = match (if throwOnMissing options
           then find (active config)
                  (List.filter (unprocessed config processedIds) existingItems)
           else None) with
    | Some it => Thrown (missing (ToString (field it (nameField config))))
    | None => Returned (map (report config)
                          (List.filter (unprocessed config processedIds) existingItems))
    end.
Proof.
  unfold identifyInactive. destruct (throwOnMissing options).
  - apply inactive_loop_strict.
  - apply inactive_loop_quiet.
Qed.

(** The handling of one record [r], met after the records [before] have
    been handled without an exception and reported as [acc]. *)
Lemma identifyInactive_at_record before r after processedIds config options acc :
  identifyInactive before processedIds config options = Returned acc →
  unprocessed config processedIds r = true →
  (active config r = true → throwOnMissing options = true →
   identifyInactive (before ++ r :: after) processedIds config options
   = Thrown (missing (ToString (field r (nameField config)))))
  ∧ (active config r = false ∨ throwOnMissing options = false →
     ∀ reported,
       identifyInactive (before ++ r :: after) processedIds config options
       = Returned reported →
       ∃ more, reported = acc ++ report config r :: more).
Proof.
  rewrite !identifyInactive_spec. intros Hbefore Hr.
  rewrite List.filter_app. simpl. rewrite Hr.
  destruct (throwOnMissing options).
  - destruct (find (active config) (List.filter _ before)) as [it|] eqn:Ef; [done|].
    injection Hbefore as <-. split.
    + intros Ha _. rewrite find_app, Ef. simpl. now rewrite Ha.
    + intros [Ha|?] reported; [|done]. rewrite find_app, Ef. simpl. rewrite Ha.
      destruct (find (active config) (List.filter _ after)); [done|].
      intros H. injection H as H. subst reported.
      rewrite map_app. simpl. eauto.
  - injection Hbefore as <-. split; [done|].
    intros _ reported H. injection H as H. subst reported.
    rewrite map_app. simpl. eauto.
Qed.



End InactiveFacts.

(* ===================================================================== *)
(** * identifyChanges *)
(* ===================================================================== *)

Section ChangesFacts.
Import Chars JS DiffIdentifier.

Lemma existingMap_snoc existingItems it nameField :
  existingMap (existingItems ++ [it]) nameField
  = <[ToString (field it nameField) := it]> (existingMap existingItems nameField).
Proof. unfold existingMap. now rewrite foldl_app. Qed.

(** The map of the existing items finds the last item of each name. *)
Lemma existingMap_lookup existingItems nameField n :
  existingMap existingItems nameField !! n = found_by_name existingItems nameField n.
Proof.
  unfold found_by_name.
  induction existingItems as [|it rest IH] using rev_ind; [done|].
  rewrite existingMap_snoc, List.filter_app. simpl.
  destruct (String.eqb_spec (ToString (field it nameField)) n) as [->|Hne].
  - now rewrite lookup_insert_eq, last_snoc.
  - now rewrite lookup_insert_ne, app_nil_r.
Qed.

Lemma changes_step_spec config existingItems st it :
  (resurrects config existingItems it = true →
   changes_step config (existingMap existingItems (nameField config)) st it
   = Thrown (resurrection (ToString (field it (nameField config)))))
  ∧ (resurrects config existingItems it = false →
     ∃ st', changes_step config (existingMap existingItems (nameField config)) st it
            = Returned st').
Proof.
  unfold changes_step, resurrects. rewrite existingMap_lookup.
  destruct (ToBoolean (field it (nameField config))); simpl; [|split; [done | eauto]].
  destruct (found_by_name _ _ _) as [old|];
    [|destruct (configured _); split; [done | eauto | done | eauto]].
  destruct (configured _) as [f|]; [|split; [done | eauto]].
  destruct (negb (ToBoolean (field it f)) && ToBoolean (field old f));
    split; try done; eauto.
Qed.

Lemma changes_loop_spec config existingItems newItems :
  ∀ st,
    match find (resurrects config existingItems) newItems with
    | Some it =>
        changes_loop config (existingMap existingItems (nameField config)) st newItems
        = Thrown (resurrection (ToString (field it (nameField config))))
    | None =>
        ∃ st', changes_loop config (existingMap existingItems (nameField config))
                 st newItems = Returned st'
    end.
Proof.
  induction newItems as [|it rest IH]; intros st; simpl; [eauto|].
  destruct (changes_step_spec config existingItems st it) as [H1 H2].
  destruct (resurrects config existingItems it) eqn:E.
  - now rewrite (H1 eq_refl).
  - destruct (H2 eq_refl) as [st' ->]. apply IH.
Qed.




End ChangesFacts.

(* ===================================================================== *)
(** * The unit tests of the repository, evaluated on the model *)
(* ===================================================================== *)

Section RepositoryTests.
Import Chars JS ObjectManipulator DocumentChangeParser Fixtures.

(** object-manipulator.test.ts *)

Example test_set_simple :
  setPropertyValue (VObj []) "name" (VStr "John") = (VObj [("name", VStr "John")], None).
Proof. reflexivity. Qed.

Example test_set_nested :
  setPropertyValue (VObj []) "user.profile.name" (VStr "John")
  = (VObj [("user", VObj [("profile", VObj [("name", VStr "John")])])], None).
Proof. reflexivity. Qed.

Example test_set_array_element :
  setPropertyValue abc "items[1]" (VStr "x")
  = (VObj [("items", VArr [s "a"; s "x"; s "c"] [])], None).
Proof. reflexivity. Qed.

Example test_get_simple :
  getPropertyValue (VObj [("name", VStr "John")]) "name" VUndefined
  = Returned (VStr "John").
Proof. reflexivity. Qed.

Example test_get_nested :
  getPropertyValue (VObj [("user", VObj [("profile", VObj [("name", VStr "John")])])])
    "user.profile.name" VUndefined
  = Returned (VStr "John").
Proof. reflexivity. Qed.

Example test_get_default :
  getPropertyValue (VObj []) "missing" (VStr "default") = Returned (VStr "default").
Proof. reflexivity. Qed.

Example test_get_array_element :
  getPropertyValue abc "items[1]" VUndefined = Returned (VStr "b").
Proof. reflexivity. Qed.

Example test_delete_simple :
  deleteProperty (VObj [("name", VStr "John"); ("age", n 25)]) "age"
  = (VObj [("name", VStr "John")], None).
Proof. reflexivity. Qed.

Example test_delete_nested :
  deleteProperty (VObj [("user", VObj [("name", VStr "John"); ("age", n 25)])]) "user.age"
  = (VObj [("user", VObj [("name", VStr "John")])], None).
Proof. reflexivity. Qed.

Example test_delete_missing :
  deleteProperty (VObj [("name", VStr "John")]) "missing.path"
  = (VObj [("name", VStr "John")], None).
Proof. reflexivity. Qed.

Example test_insert_beginning :
  insertAtIndex (VObj [("items", VArr [s "b"; s "c"] [])]) "items@0" (VStr "a")
  = (abc, None).
Proof. reflexivity. Qed.

Example test_insert_middle :
  insertAtIndex (VObj [("items", VArr [s "a"; s "c"] [])]) "items@1" (VStr "b")
  = (abc, None).
Proof. reflexivity. Qed.

Example test_insert_append :
  insertAtIndex (VObj [("items", VArr [s "a"; s "b"] [])]) "items@-1" (VStr "c")
  = (abc, None).
Proof. reflexivity. Qed.

Example test_insert_nested :
  insertAtIndex (VObj [("user", VObj [("items", VArr [s "a"] [])])]) "user.items@0"
    (VStr "x")
  = (VObj [("user", VObj [("items", VArr [s "x"; s "a"] [])])], None).
Proof. reflexivity. Qed.

Example test_remove_beginning :
  removeAtIndex abc "items@0" = (VObj [("items", VArr [s "b"; s "c"] [])], None).
Proof. reflexivity. Qed.

Example test_remove_middle :
  removeAtIndex abc "items@1" = (VObj [("items", VArr [s "a"; s "c"] [])], None).
Proof. reflexivity. Qed.

Example test_remove_end :
  removeAtIndex abc "items@2" = (VObj [("items", VArr [s "a"; s "b"] [])], None).
Proof. reflexivity. Qed.

Example test_set_at_index :
  setValueAtIndex abc "items@1" (VStr "x")
  = (VObj [("items", VArr [s "a"; s "x"; s "c"] [])], None).
Proof. reflexivity. Qed.

Example test_set_at_index_object :
  setValueAtIndex
    (VObj [("items", VArr [Some (VObj [("id", n 1)]); Some (VObj [("id", n 2)])] [])])
    "items@0" (VObj [("id", n 99)])
  = (VObj [("items", VArr [Some (VObj [("id", n 99)]); Some (VObj [("id", n 2)])] [])],
     None).
Proof. reflexivity. Qed.

(** The bounds of the array mutations: removing at the length and
    setting at a negative index do nothing. *)

Example test_remove_out_of_range :
  removeAtIndex (VObj [("items", VArr [s "a"; s "b"] [])]) "items@2"
  = (VObj [("items", VArr [s "a"; s "b"] [])], None).
Proof. reflexivity. Qed.

Example test_set_at_negative_index :
  setValueAtIndex abc "items@-1" (VStr "x") = (abc, None).
Proof. reflexivity. Qed.

(** document-change-parser.test.ts *)

Example test_apply_string_creation :
  applyChanges (VObj []) [change CREATE "name" (Some "John") (Some STRING)] None
  = (VObj [("name", VStr "John")], None).
Proof. reflexivity. Qed.

Example test_apply_number_creation :
  applyChanges (VObj []) [change CREATE "age" (Some "25") (Some NUMBER)] None
  = (VObj [("age", n 25)], None).
Proof. reflexivity. Qed.

Example test_apply_object_creation :
  applyChanges (VObj []) [change CREATE "address" (Some city) (Some OBJECT)] None
  = (VObj [("address", VObj [("city", VStr "Paris")])], None).
Proof. reflexivity. Qed.

Example test_apply_deletion :
  applyChanges (VObj [("name", VStr "John"); ("age", n 25)])
    [change DELETE "age" None None] None
  = (VObj [("name", VStr "John")], None).
Proof. reflexivity. Qed.

Example test_apply_sequence :
  applyChanges (VObj [("name", VStr "John")])
    [change UPDATE "name" (Some "Jane") (Some STRING);
     change CREATE "age" (Some "30") (Some NUMBER);
     change CREATE "address" (Some city) (Some OBJECT)] None
  = (VObj [("name", VStr "Jane"); ("age", n 30);
           ("address", VObj [("city", VStr "Paris")])], None).
Proof. reflexivity. Qed.

Example test_array_create :
  applyChange abc (change CREATE "items@1" (Some "x") (Some STRING)) None
  = (VObj [("items", VArr [s "a"; s "x"; s "b"; s "c"] [])], None).
Proof. reflexivity. Qed.

Example test_array_update :
  applyChange abc (change UPDATE "items@1" (Some "x") (Some STRING)) None
  = (VObj [("items", VArr [s "a"; s "x"; s "c"] [])], None).
Proof. reflexivity. Qed.

Example test_array_delete :
  applyChange abc (change DELETE "items@1" None None) None
  = (VObj [("items", VArr [s "a"; s "c"] [])], None).
Proof. reflexivity. Qed.

Example test_invalid_path_throws :
  applyChange (VObj []) (change CREATE ".invalid" (Some "test") (Some STRING))
    (Some {| clone := None; validatePaths := Some true |})
  = (VObj [], Some (InvalidPathError ".invalid")).
Proof. reflexivity. Qed.

Example test_copy_keeps_original :
  let r := Heap.getCopyWithChanges john (Heap.HRef 0)
             [change UPDATE "address.city" (Some "Rome") (Some STRING)] None in
  Heap.tree_of 2 r.1 (Heap.HRef 0)
  = Some (VObj [("name", VStr "John"); ("address", VObj [("city", VStr "Paris")])])
  ∧ r.2 = Returned (Heap.HRef 2)
  ∧ Heap.tree_of 2 r.1 (Heap.HRef 2)
    = Some (VObj [("name", VStr "John"); ("address", VObj [("city", VStr "Rome")])]).
Proof. vm_compute. done. Qed.

(** [applyChanges] on the same object changes it in place. *)
Example test_apply_in_place :
  let r := Heap.applyChanges john (Heap.HRef 0)
             [change UPDATE "address.city" (Some "Rome") (Some STRING)] None in
  r.2 = Returned (Heap.HRef 0)
  ∧ Heap.tree_of 2 r.1 (Heap.HRef 0)
    = Some (VObj [("name", VStr "John"); ("address", VObj [("city", VStr "Rome")])]).
Proof. vm_compute. done. Qed.

(** A copy of one level would not do: the address of the copy is the
    address of the original, and the change shows in both. *)
Example test_copy_of_one_level :
  let '(h1, copy) := Heap.shallow_copy john (Heap.HRef 0) in
  let r := Heap.applyChanges h1 copy
             [change UPDATE "address.city" (Some "Rome") (Some STRING)] None in
  r.2 = Returned (Heap.HRef 2)
  ∧ Heap.tree_of 2 r.1 (Heap.HRef 0)
    = Some (VObj [("name", VStr "John"); ("address", VObj [("city", VStr "Rome")])]).
Proof. vm_compute. done. Qed.

(** A value made by a literal has no object twice; there the calls in
    place and the functions on trees come to the same. *)
Example test_in_place_and_on_trees :
  let '(h, obj) := Heap.store abc ∅ in
  let c := change CREATE "items@1" (Some "x") (Some STRING) in
  let d := change DELETE "items[0]" None None in
  let u := change UPDATE "meta.tags[0]" (Some "t") (Some STRING) in
  let r := Heap.applyChanges h obj [c; d; u] None in
  r.2 = Returned obj
  ∧ Heap.tree_of 4 r.1 obj = Some (applyChanges abc [c; d; u] None).1
  ∧ (applyChanges abc [c; d; u] None).2 = None.
Proof. vm_compute. done. Qed.

End RepositoryTests.

Section DiffTests.
Import Chars JS DiffIdentifier Fixtures.

(** diff-identifier.test.ts *)

Example test_identify_inserts :
  identifyChanges [entry "1" "Item 1" 10; entry "2" "Item 2" 20] [entry "1" "Item 1" 10]
    config
  = Returned {| inserts := [entry "2" "Item 2" 20]; updates := [];
                processedIds := {["1"; "2"]} |}.
Proof. vm_compute. reflexivity. Qed.

Example test_identify_updates :
  identifyChanges [entry "1" "Item 1" 20] [entry "1" "Item 1" 10] config
  = Returned {| inserts := [];
                updates := [{| oldItem := entry "1" "Item 1" 10;
                               newItem := entry "1" "Item 1" 20 |}];
                processedIds := {["1"]} |}.
Proof. vm_compute. reflexivity. Qed.

Example test_identify_unchanged :
  identifyChanges [entry "1" "Item 1" 10] [entry "1" "Item 1" 10] config
  = Returned {| inserts := []; updates := []; processedIds := {["1"]} |}.
Proof. vm_compute. reflexivity. Qed.

Example test_identify_ignored_field :
  identifyChanges [entry "1" "Item 1" 999] [entry "1" "Item 1" 10]
    {| idField := "id"; nameField := "name"; isDeletedField := Some "isDeleted";
       ignoreFields := Some ["value"] |}
  = Returned {| inserts := []; updates := []; processedIds := {["1"]} |}.
Proof. vm_compute. reflexivity. Qed.

Example test_inactive_deleted :
  identifyInactive [entry "1" "Item 1" 10 ++ [("isDeleted", VBool true)]] ∅ config None
  = Returned [{| name := "Item 1" |}].
Proof. vm_compute. reflexivity. Qed.

Example test_inactive_processed :
  identifyInactive [entry "1" "Item 1" 10] {["1"]} config None = Returned [].
Proof. vm_compute. reflexivity. Qed.

End DiffTests.

(* ===================================================================== *)
(** * Decimal digits: printing an integer and reading it again *)
(* ===================================================================== *)

Section DigitFacts.
Import Chars JS.
Open Scope Z_scope.

Lemma digits_value_step acc c ds :
  fold_left (fun a d => a * 10 + digit_value d) (c :: ds) acc
  = fold_left (fun a d => a * 10 + digit_value d) ds (acc * 10 + digit_value c).
Proof. done. Qed.

Lemma fold_digits_app ds : ∀ acc,
  fold_left (fun a d => a * 10 + digit_value d) ds acc
  = acc * 10 ^ Z.of_nat (length ds) + digits_value ds.
Proof.
  unfold digits_value.
  induction ds as [|c ds IH]; intros acc; simpl fold_left.
  - simpl. lia.
  - rewrite IH, (IH (0 * 10 + digit_value c)).
    replace (Z.of_nat (length (c :: ds))) with (Z.succ (Z.of_nat (length ds)))
      by (simpl; lia).
    rewrite Z.pow_succ_r by lia. lia.
Qed.

Lemma digits_value_app a b :
  digits_value (a ++ b) = digits_value a * 10 ^ Z.of_nat (length b) + digits_value b.
Proof.
  unfold digits_value at 1. rewrite fold_left_app.
  rewrite fold_digits_app. done.
Qed.

Lemma digits_value_zeros n : digits_value (replicate n "0"%char) = 0.
Proof.
  induction n as [|n IH]; [done|].
  change (replicate (S n) "0"%char) with (["0"%char] ++ replicate n "0"%char).
  rewrite digits_value_app, IH. done.
Qed.

Lemma digit_value_range c : is_digit c = true → 0 ≤ digit_value c ≤ 9.
Proof. intros H. start_cases c H; vm_compute; split; discriminate. Qed.

Lemma digit_value_zero c : is_digit c = true → digit_value c = 0 → c = "0"%char.
Proof. intros H. start_cases c H; vm_compute; intros; congruence. Qed.

Lemma digits_value_bounds ds :
  all_digits ds → 0 ≤ digits_value ds < 10 ^ Z.of_nat (length ds).
Proof.
  induction ds as [|c ds IH] using rev_ind; intros Hd.
  - vm_compute. split; [discriminate | done].
  - apply Forall_app in Hd as [Hd Hc]. inv Hc.
    rewrite digits_value_app, length_app. simpl length.
    replace (Z.of_nat (length ds + 1)%nat) with (Z.succ (Z.of_nat (length ds))) by lia.
    rewrite Z.pow_succ_r by lia.
    assert (digits_value [c] = digit_value c) as -> by (unfold digits_value; simpl; lia).
    pose proof (digit_value_range c H1). specialize (IH Hd).
    change (10 ^ Z.of_nat 1) with 10. lia.
Qed.

(** A numeral without a leading zero is at least [10 ^ (length - 1)]. *)
Lemma digits_value_lower c cs :
  all_digits (c :: cs) → c ≠ "0"%char →
  10 ^ Z.of_nat (length cs) ≤ digits_value (c :: cs).
Proof.
  intros Hd Hc. inv Hd.
  change (c :: cs) with ([c] ++ cs). rewrite digits_value_app.
  assert (digits_value [c] = digit_value c) as -> by (unfold digits_value; simpl; lia).
  pose proof (digit_value_range c H1).
  assert (digit_value c ≠ 0) by (intros E; by apply Hc, digit_value_zero).
  pose proof (digits_value_bounds cs H2).
  assert (0 < 10 ^ Z.of_nat (length cs)) by (apply Z.pow_pos_nonneg; lia).
  nia.
Qed.

(** Every run of digits is the text of some numeral of the library. *)
Lemma digits_uint l :
  all_digits l → ∃ d, chars (DecimalString.NilEmpty.string_of_uint d) = l.
Proof.
  induction l as [|c l IH]; intros Hd.
  - by exists Decimal.Nil.
  - inv Hd. destruct (IH H2) as [d Hd]. unfold chars in *.
    start_cases c H1;
      first [ by exists (Decimal.D0 d); simpl; rewrite Hd
            | by exists (Decimal.D1 d); simpl; rewrite Hd
            | by exists (Decimal.D2 d); simpl; rewrite Hd
            | by exists (Decimal.D3 d); simpl; rewrite Hd
            | by exists (Decimal.D4 d); simpl; rewrite Hd
            | by exists (Decimal.D5 d); simpl; rewrite Hd
            | by exists (Decimal.D6 d); simpl; rewrite Hd
            | by exists (Decimal.D7 d); simpl; rewrite Hd
            | by exists (Decimal.D8 d); simpl; rewrite Hd
            | by exists (Decimal.D9 d); simpl; rewrite Hd ].
Qed.

Lemma uint_all_digits d : all_digits (chars (DecimalString.NilEmpty.string_of_uint d)).
Proof. unfold chars. induction d; simpl; constructor; done. Qed.

Lemma fold_uint_acc d : ∀ acc,
  fold_left (fun a c => a * 10 + digit_value c)
    (chars (DecimalString.NilEmpty.string_of_uint d)) (Z.pos acc)
  = Z.pos (Pos.of_uint_acc d acc).
Proof.
  unfold chars.
  induction d; intros acc; simpl; [done | rewrite <- IHd; f_equal; vm_compute digit_value; lia ..].
Qed.

Lemma digits_value_uint d :
  digits_value (chars (DecimalString.NilEmpty.string_of_uint d))
  = Z.of_N (Pos.of_uint d).
Proof.
  unfold digits_value, chars.
  induction d; simpl; [done | exact IHd | ..];
    (etransitivity; [|apply fold_uint_acc]); done.
Qed.

Lemma NilZero_NilEmpty d :
  d ≠ Decimal.Nil →
  DecimalString.NilZero.string_of_uint d = DecimalString.NilEmpty.string_of_uint d.
Proof. by destruct d. Qed.

Lemma decimal_digits_uint n :
  0 ≤ n →
  decimal_digits n
  = chars (DecimalString.NilEmpty.string_of_uint (Decimal.unorm (N.to_uint (Z.to_N n)))).
Proof.
  intros Hn. unfold decimal_digits.
  rewrite <- (DecimalN.Unsigned.of_to (Z.to_N n)) at 1.
  rewrite DecimalN.Unsigned.to_of.
  rewrite NilZero_NilEmpty; [done | apply DecimalFacts.unorm_nonnil].
Qed.

(** Printing an integer and reading the digits gives the integer. *)
Lemma digits_value_decimal n : 0 ≤ n → digits_value (decimal_digits n) = n.
Proof.
  intros Hn. rewrite decimal_digits_uint by done.
  rewrite digits_value_uint.
  change (Pos.of_uint ?d) with (N.of_uint d).
  rewrite DecimalN.Unsigned.of_uint_norm, DecimalN.Unsigned.of_to. lia.
Qed.

Lemma decimal_digits_all n : 0 ≤ n → all_digits (decimal_digits n).
Proof. intros Hn. rewrite decimal_digits_uint by done. apply uint_all_digits. Qed.

Lemma unorm_canonical d :
  canonical_digits (chars (DecimalString.NilEmpty.string_of_uint (Decimal.unorm d))).
Proof.
  unfold Decimal.unorm, chars.
  induction d; simpl; try done.
Qed.

Lemma decimal_digits_canonical n : 0 ≤ n → canonical_digits (decimal_digits n).
Proof. intros Hn. rewrite decimal_digits_uint by done. apply unorm_canonical. Qed.

(** The digits of a number are the only canonical numeral for it. *)
Lemma decimal_digits_unique l :
  all_digits l → canonical_digits l → decimal_digits (digits_value l) = l.
Proof.
  intros Hd Hc.
  destruct (digits_uint l Hd) as [d <-].
  pose proof (digits_value_bounds _ (uint_all_digits d)) as Hb.
  rewrite decimal_digits_uint by lia.
  rewrite digits_value_uint, N2Z.id.
  change (Pos.of_uint d) with (N.of_uint d).
  rewrite DecimalN.Unsigned.to_of, DecimalFacts.unorm_involutive.
  f_equal. f_equal.
  unfold canonical_digits, chars in Hc. destruct d; simpl in Hc; try done.
  specialize (Hc eq_refl). by destruct d.
Qed.

End DigitFacts.

(* ===================================================================== *)
(** * Integers as text: [String(n)], [Number(s)], [parseInt(s)], indices *)
(* ===================================================================== *)

Section IntegerText.
Import Chars JS.
Open Scope Z_scope.

Lemma span_digits ds rest :
  all_digits ds →
  match rest with c :: _ => is_digit c = false | [] => True end →
  span is_digit (ds ++ rest) = (ds, rest).
Proof.
  intros Hd Hr. induction Hd as [|c ds Hc Hd IH]; simpl.
  - destruct rest as [|c r]; [done|]. simpl. by rewrite Hr.
  - by rewrite Hc, IH.
Qed.

Lemma span_all_digits ds : all_digits ds → span is_digit ds = (ds, []).
Proof. intros Hd. rewrite <- (app_nil_r ds) at 1. by apply span_digits. Qed.

Lemma forallb_all_digits l : forallb is_digit l = true ↔ all_digits l.
Proof.
  unfold all_digits. induction l as [|c l IH]; simpl.
  - split; [constructor | done].
  - rewrite andb_true_iff, IH, Forall_cons. done.
Qed.

Lemma digit_identifier_char c :
  is_digit c = true → PathGrammar.identifier_char c = true.
Proof.
  intros H. unfold PathGrammar.identifier_char. rewrite H.
  by destruct (is_upper c), (is_lower c).
Qed.

Lemma trim_chars_digits l : all_digits l → trim_chars l = l.
Proof.
  intros Hd. apply trim_chars_identifier.
  eapply Forall_impl; [exact Hd|]. apply digit_identifier_char.
Qed.

Lemma sign_digit c cs : is_digit c = true → sign (c :: cs) = (false, c :: cs).
Proof. intros H. by start_cases c H. Qed.

Lemma non_decimal_digits l : all_digits l → non_decimal l = None.
Proof.
  intros Hd. destruct l as [|c [|p [|d ds]]]; try done; [by destruct c as [[] [] [] [] [] [] [] []] ..|].
  inv Hd. inv H2. clear H1 H4.
  unfold non_decimal.
  destruct c as [[] [] [] [] [] [] [] []]; try done.
  by start_cases p H3.
Qed.

Lemma digits_not_Infinity l : all_digits l → l ≠ chars "Infinity".
Proof. intros Hd ->. by inv Hd. Qed.

(** [Number(s)] of a run of digits. *)
Lemma Number_digits k :
  ObjectManipulator.is_numeric k = true → Number k = of_Z (digits_value (chars k)).
Proof.
  unfold ObjectManipulator.is_numeric, Number.
  destruct (chars k) as [|c cs] eqn:E; [done|]. intros Hd.
  apply forallb_all_digits in Hd.
  rewrite trim_chars_digits by done.
  rewrite non_decimal_digits by done.
  unfold signed_decimal. rewrite sign_digit by (by inv Hd).
  rewrite decide_False by (by apply digits_not_Infinity).
  unfold unsigned_decimal. rewrite span_all_digits by done.
  simpl. by rewrite app_nil_r.
Qed.

Lemma trim_start_digits l : all_digits l → trim_start l = l.
Proof.
  intros Hd. apply trim_start_id. destruct l as [|c l]; [done|].
  apply start_not_whitespace, digit_identifier_char. by inv Hd.
Qed.

(** [parseInt(s, 10)] of an optional minus sign and a run of digits. *)
Lemma parseInt_digits ds :
  all_digits ds → ds ≠ [] → parseInt (str ds) = of_Z (digits_value ds).
Proof.
  intros Hd Hne. unfold parseInt. rewrite chars_str.
  rewrite trim_start_digits by done.
  destruct ds as [|c cs]; [done|].
  rewrite sign_digit by (by inv Hd).
  by rewrite span_all_digits.
Qed.

Lemma parseInt_minus_digits ds :
  all_digits ds → ds ≠ [] → parseInt (str ("-"%char :: ds)) = of_Z (- digits_value ds).
Proof.
  intros Hd Hne. unfold parseInt. rewrite chars_str.
  simpl trim_start. simpl sign. cbv beta iota zeta.
  rewrite span_all_digits by done. by destruct ds.
Qed.

Lemma decimal_digits_nonempty n : 0 ≤ n → decimal_digits n ≠ [].
Proof.
  intros Hn E. pose proof (decimal_digits_canonical n Hn) as Hc.
  by rewrite E in Hc.
Qed.

Lemma decimal_digits_head n c cs :
  0 < n → decimal_digits n = c :: cs → c ≠ "0"%char.
Proof.
  intros Hn E ->. pose proof (decimal_digits_canonical n ltac:(lia)) as Hc.
  rewrite E in Hc. specialize (Hc eq_refl). subst cs.
  pose proof (digits_value_decimal n ltac:(lia)) as Hv. rewrite E in Hv.
  vm_compute in Hv. lia.
Qed.

(** [String(n)] of an integer in plain notation. *)
Lemma number_to_chars_of_Z z :
  Z.abs z < 10 ^ 21 →
  number_to_chars (of_Z z)
  = (if z <? 0 then ["-"%char] else []) ++ decimal_digits (Z.abs z).
Proof.
  intros Hz. destruct (of_Z_value z) as (m & e & -> & He & Hv).
  unfold number_to_chars.
  destruct (m =? 0) eqn:Em.
  - apply Z.eqb_eq in Em. subst m. simpl in Hv. by subst z.
  - apply Z.eqb_neq in Em.
    assert (0 < 10 ^ e) by (apply Z.pow_pos_nonneg; lia).
    assert (Hsign : (m <? 0) = (z <? 0)).
    { destruct (Z.ltb_spec m 0), (Z.ltb_spec z 0); try done; nia. }
    assert (Habs : Z.abs m * 10 ^ e = Z.abs z).
    { rewrite <- Hv, Z.abs_mul. f_equal. lia. }
    assert (Hm : 0 < Z.abs m) by lia.
    rewrite Hsign. destruct (z <? 0); (f_equal; []).
    all: set (ds := decimal_digits (Z.abs m)).
    all: assert (Hds : all_digits ds) by (apply decimal_digits_all; lia).
    all: assert (Hzs : all_digits (replicate (Z.to_nat e) "0"%char))
      by (apply Forall_forall; intros c Hc;
          apply elem_of_replicate in Hc as [-> _]; done).
    all: assert (Hval : digits_value (ds ++ replicate (Z.to_nat e) "0"%char)
                        = Z.abs z)
      by (rewrite digits_value_app, digits_value_zeros, length_replicate;
          unfold ds; rewrite digits_value_decimal by lia;
          rewrite Z2Nat.id by lia; lia).
    all: assert (Hhead : ∃ c cs, ds = c :: cs ∧ c ≠ "0"%char)
      by (destruct ds as [|c cs] eqn:Eds;
          [by apply decimal_digits_nonempty in Eds; [|lia]
          |exists c, cs; split; [done|]; by eapply decimal_digits_head; [|exact Eds]]).
    all: destruct Hhead as (c & cs & Eds & Hc).
    all: assert (Hcan : canonical_digits (ds ++ replicate (Z.to_nat e) "0"%char))
      by (rewrite Eds; simpl; intros ->; done).
    all: assert (Hlen : Z.of_nat (length ds) + e ≤ 21).
    1, 3: (pose proof (digits_value_lower c (cs ++ replicate (Z.to_nat e) "0"%char))
             as Hl;
           rewrite Eds in Hval, Hds; rewrite <- app_comm_cons in Hval;
           rewrite Hval in Hl; rewrite length_app, length_replicate in Hl;
           assert (all_digits (c :: cs ++ replicate (Z.to_nat e) "0"%char))
             by (constructor; [by inv Hds | apply Forall_app; split; [by inv Hds | done]]);
           specialize (Hl ltac:(done) ltac:(done));
           assert (Z.of_nat (length cs + Z.to_nat e) < 21)
             by (apply (Z.pow_lt_mono_r_iff 10); lia);
           rewrite Eds; simpl length; lia).
    all: rewrite (proj2 (Z.leb_le (Z.of_nat (length ds)) _)) by lia.
    all: rewrite (proj2 (Z.leb_le _ 21)) by lia.
    all: simpl andb; cbv iota.
    all: replace (Z.of_nat (length ds) + e - Z.of_nat (length ds)) with e by lia.
    all: rewrite <- Hval; symmetry; apply decimal_digits_unique; [|done].
    all: by apply Forall_app.
Qed.

Lemma number_to_string_of_Z z :
  0 ≤ z < 10 ^ 21 → number_to_string (of_Z z) = str (decimal_digits z).
Proof.
  intros Hz. unfold number_to_string. rewrite number_to_chars_of_Z by lia.
  rewrite (proj2 (Z.ltb_ge z 0)) by lia. simpl. by rewrite Z.abs_eq by lia.
Qed.

(** The property key of an index is the index. *)
Lemma array_index_of_Z z :
  0 ≤ z < 2 ^ 32 - 1 → array_index (number_to_string (of_Z z)) = Some (Z.to_nat z).
Proof.
  intros Hz. rewrite number_to_string_of_Z by lia.
  unfold array_index. rewrite chars_str.
  pose proof (decimal_digits_all z ltac:(lia)) as Hd.
  pose proof (decimal_digits_canonical z ltac:(lia)) as Hc.
  pose proof (digits_value_decimal z ltac:(lia)) as Hv.
  destruct (decimal_digits z) as [|c cs]; [done|].
  rewrite (proj2 (forallb_all_digits _) Hd). simpl andb.
  assert (implb (Ascii.eqb c "0") (bool_decide (cs = [])) = true) as ->.
  { destruct (Ascii.eqb c "0") eqn:E; [|done]. apply Ascii.eqb_eq in E.
    simpl. apply bool_decide_eq_true. by apply Hc. }
  rewrite Hv. by rewrite (proj2 (Z.ltb_lt _ _)) by lia.
Qed.

Lemma trim_chars_id l :
  match l with c :: _ => is_whitespace c = false | [] => True end →
  match rev l with c :: _ => is_whitespace c = false | [] => True end →
  trim_chars l = l.
Proof.
  intros Hh Hl. unfold trim_chars.
  rewrite (trim_start_id l Hh), (trim_start_id (rev l) Hl). apply rev_involutive.
Qed.

Lemma digit_not_whitespace c : is_digit c = true → is_whitespace c = false.
Proof. intros H. apply start_not_whitespace. by apply digit_identifier_char. Qed.

(** [String(n)] then [Number(s)] gives [n] back. *)
Lemma Number_of_Z z :
  Z.abs z < 10 ^ 21 → Number (number_to_string (of_Z z)) = of_Z z.
Proof.
  intros Hz. unfold number_to_string. rewrite number_to_chars_of_Z by done.
  pose proof (decimal_digits_all (Z.abs z) ltac:(lia)) as Hd.
  pose proof (decimal_digits_nonempty (Z.abs z) ltac:(lia)) as Hne.
  pose proof (digits_value_decimal (Z.abs z) ltac:(lia)) as Hval.
  destruct (Z.ltb_spec z 0) as [Hneg|Hpos]; simpl app.
  - unfold Number. rewrite chars_str.
    rewrite trim_chars_id; [| done |].
    2:{ simpl. destruct (rev (decimal_digits (Z.abs z))) as [|c r] eqn:Er; [done|].
        simpl. apply digit_not_whitespace.
        apply Forall_rev in Hd. rewrite Er in Hd. by inv Hd. }
    simpl non_decimal. unfold signed_decimal. simpl sign. cbv beta iota zeta.
    rewrite decide_False by (by apply digits_not_Infinity).
    unfold unsigned_decimal. rewrite span_all_digits by done.
    destruct (decimal_digits (Z.abs z)) as [|c cs] eqn:E; [done|].
    simpl. rewrite app_nil_r, Hval. unfold of_Z. f_equal. lia.
  - rewrite Number_digits.
    + rewrite chars_str, Hval. f_equal. lia.
    + unfold ObjectManipulator.is_numeric. rewrite chars_str.
      destruct (decimal_digits (Z.abs z)); [done|]. by apply forallb_all_digits.
Qed.

Lemma parseInt_of_Z z :
  Z.abs z < 10 ^ 21 → parseInt (number_to_string (of_Z z)) = of_Z z.
Proof.
  intros Hz. unfold number_to_string. rewrite number_to_chars_of_Z by done.
  pose proof (decimal_digits_all (Z.abs z) ltac:(lia)) as Hd.
  pose proof (decimal_digits_nonempty (Z.abs z) ltac:(lia)) as Hne.
  pose proof (digits_value_decimal (Z.abs z) ltac:(lia)) as Hval.
  destruct (Z.ltb_spec z 0) as [Hneg|Hpos]; simpl app.
  - rewrite parseInt_minus_digits by done. rewrite Hval. f_equal. lia.
  - rewrite parseInt_digits by done. rewrite Hval. f_equal. lia.
Qed.

End IntegerText.

(* ===================================================================== *)
(** * Paths: how [parsePath] splits what is written *)
(* ===================================================================== *)

Section PathFacts.
Import Chars JS Regex ObjectManipulator DocumentChangeParser PathSyntax.

Lemma parsePath_loop_plain w : ∀ rest current result,
  Forall (fun c => plain c = true) w →
  parsePath_loop (w ++ rest) current result
  = parsePath_loop rest (current ++ w) result.
Proof.
  induction w as [|c w IH]; intros rest current result Hw.
  - by rewrite app_nil_r.
  - inv Hw. simpl app. rewrite parsePath_loop_equation_2.
    unfold plain in H1. apply negb_true_iff in H1.
    apply orb_false_iff in H1 as [H1 Hc]. apply orb_false_iff in H1 as [Ha Hb].
    rewrite Ha, Hb, Hc. rewrite IH by done. by rewrite <- app_assoc.
Qed.

Lemma index_of_closing x rest :
  Forall (fun c => c ≠ "]"%char) x →
  index_of "]" (x ++ "]"%char :: rest) = Some (length x).
Proof.
  induction 1 as [|c x Hc Hx IH]; simpl; [done|].
  destruct (Ascii.eqb c "]") eqn:E; [by apply Ascii.eqb_eq in E|].
  by rewrite IH.
Qed.

Lemma flush_name name result :
  chars name ≠ [] → flush (chars name) result = result ++ [name].
Proof.
  intros Hne. unfold flush. destruct (chars name) eqn:E; [done|].
  by rewrite <- E, str_chars.
Qed.

Lemma parsePath_loop_accessors accessors : ∀ current result,
  Forall accessor_ok accessors →
  parsePath_loop (flat_map write_accessor accessors) current result
  = flush current result ++ map key_of accessors.
Proof.
  induction accessors as [|a accessors IH]; intros current result Hok.
  - simpl. by rewrite parsePath_loop_equation_1, app_nil_r.
  - inv Hok. destruct a as [name|key]; simpl flat_map; simpl app.
    + destruct H1 as [Hne Hplain].
      rewrite parsePath_loop_equation_2. simpl.
      rewrite parsePath_loop_plain by done. simpl app.
      rewrite IH by done. rewrite flush_name by done.
      by rewrite <- app_assoc.
    + rewrite parsePath_loop_equation_2. simpl Ascii.eqb. cbv iota.
      rewrite <- app_assoc. simpl app.
      rewrite index_of_closing by done.
      rewrite (cons_middle "]"%char), app_assoc.
      rewrite drop_app_length' by (rewrite length_app; simpl; lia).
      rewrite <- app_assoc. rewrite take_app_length.
      rewrite IH by done. simpl flush. rewrite str_chars.
      by rewrite <- app_assoc.
Qed.

Lemma parsePath_write first accessors :
  name_ok first → Forall accessor_ok accessors →
  parsePath (write first accessors) = first :: map key_of accessors.
Proof.
  intros [Hne Hplain] Hok. unfold parsePath, write. rewrite chars_str.
  rewrite parsePath_loop_plain by done. simpl app.
  rewrite parsePath_loop_accessors by done.
  by rewrite flush_name.
Qed.

(** ** Paths that pass validation *)

Lemma identifier_char_plain c :
  PathGrammar.identifier_char c = true → plain c = true.
Proof. intros H. by start_cases c H. Qed.

Lemma identifier_char_not_at c :
  PathGrammar.identifier_char c = true → c ≠ "@"%char.
Proof. intros H ->. done. Qed.

Lemma identifier_chars i :
  PathGrammar.identifier i →
  i ≠ [] ∧ Forall (fun c => PathGrammar.identifier_char c = true) i.
Proof.
  intros (c & cs & -> & Hc & Hcs). split; [done|].
  constructor; [by apply start_is_char | done].
Qed.

Lemma identifier_name_ok i : PathGrammar.identifier i → name_ok (str i).
Proof.
  intros Hi. apply identifier_chars in Hi as [Hne Hcs].
  unfold name_ok. rewrite chars_str. split; [done|].
  eapply Forall_impl; [exact Hcs|]. apply identifier_char_plain.
Qed.

Lemma digits_no_closing x :
  PathGrammar.digits x → Forall (fun c => c ≠ "]"%char) x.
Proof.
  intros [_ Hd]. eapply Forall_impl; [exact Hd|]. by intros c Hc ->.
Qed.

Lemma digits_not_at x :
  PathGrammar.digits x → Forall (fun c => c ≠ "@"%char) x.
Proof.
  intros [_ Hd]. eapply Forall_impl; [exact Hd|]. by intros c Hc ->.
Qed.

Lemma accessor_valid_ok a : accessor_valid a → accessor_ok a.
Proof.
  destruct a as [name|key]; simpl.
  - intros Hi. rewrite <- (str_chars name). by apply identifier_name_ok.
  - apply digits_no_closing.
Qed.

(** A segment is a name, or a name and a bracket accessor. *)
Lemma segment_syntax w :
  PathGrammar.segment PathGrammar.digits w →
  ∃ first accessors,
    w = chars first ++ flat_map write_accessor accessors
    ∧ PathGrammar.identifier (chars first)
    ∧ Forall accessor_valid accessors
    ∧ Forall (fun c => c ≠ "@"%char) w.
Proof.
  intros (i & Hi & [-> | (x & Hx & ->)]).
  - exists (str i), []. rewrite chars_str, app_nil_r. split; [done|].
    split; [done|]. split; [constructor|].
    apply identifier_chars in Hi as [_ Hi].
    eapply Forall_impl; [exact Hi|]. apply identifier_char_not_at.
  - exists (str i), [Bracket (str x)]. simpl. rewrite !chars_str, app_nil_r.
    split; [done|]. split; [done|]. split.
    + constructor; [|constructor]. simpl. by rewrite chars_str.
    + apply identifier_chars in Hi as [_ Hi].
      apply Forall_app. split.
      * eapply Forall_impl; [exact Hi|]. apply identifier_char_not_at.
      * constructor; [done|]. apply Forall_app. split; [by apply digits_not_at|].
        by constructor.
Qed.

Lemma segments_syntax w :
  PathGrammar.segments PathGrammar.digits w →
  ∃ first accessors,
    w = chars first ++ flat_map write_accessor accessors
    ∧ PathGrammar.identifier (chars first)
    ∧ Forall accessor_valid accessors
    ∧ Forall (fun c => c ≠ "@"%char) w.
Proof.
  induction 1 as [w Hw | w rest Hw Hrest IH].
  - by apply segment_syntax.
  - destruct (segment_syntax w Hw) as (first & accs & -> & Hf & Ha & Hat).
    destruct IH as (first' & accs' & -> & Hf' & Ha' & Hat').
    exists first, (accs ++ Dot first' :: accs').
    rewrite flat_map_app. simpl flat_map. simpl write_accessor.
    split; [by rewrite <- !app_assoc|]. split; [done|]. split.
    + apply Forall_app. split; [done|]. by constructor.
    + apply Forall_app. split; [done|]. by constructor.
Qed.

Lemma no_at_not_array_change w :
  Forall (fun c => c ≠ "@"%char) w → existsb (Ascii.eqb "@") w = false.
Proof.
  induction 1 as [|c w Hc Hw IH]; cbn [existsb]; [done|].
  rewrite IH. destruct (Ascii.eqb "@" c) eqn:E; [|done].
  apply Ascii.eqb_eq in E. congruence.
Qed.

Lemma chars_app a b : chars (a +:+ b) = chars a ++ chars b.
Proof. unfold chars. induction a as [|c a IH]; simpl; [done | by rewrite IH]. Qed.

Lemma existsb_app_at a b :
  existsb (Ascii.eqb "@") (a ++ "@"%char :: b) = true.
Proof. rewrite existsb_app. simpl. apply orb_true_r. Qed.

Lemma split_on_no_sep sep w : ∀ rest piece,
  Forall (fun c => c ≠ sep) w →
  split_on sep (w ++ rest) piece = split_on sep rest (piece ++ w).
Proof.
  induction w as [|c w IH]; intros rest piece Hw.
  - by rewrite app_nil_r.
  - inv Hw. simpl. destruct (Ascii.eqb c sep) eqn:E; [by apply Ascii.eqb_eq in E|].
    rewrite IH by done. by rewrite <- app_assoc.
Qed.

Lemma split_on_once body x :
  Forall (fun c => c ≠ "@"%char) body → Forall (fun c => c ≠ "@"%char) x →
  split_on "@" (body ++ "@"%char :: x) [] = [str body; str x].
Proof.
  intros Hb Hx. rewrite split_on_no_sep by done. simpl.
  rewrite <- (app_nil_r x) at 1. rewrite split_on_no_sep by done. done.
Qed.

Lemma index_not_at x :
  PathGrammar.index x → Forall (fun c => c ≠ "@"%char) x.
Proof.
  intros [Hd | (d & -> & Hd)]; [by apply digits_not_at|].
  constructor; [done | by apply digits_not_at].
Qed.

Lemma parseInt_index x :
  PathGrammar.index x →
  ∃ z, parseInt (str x) = of_Z z ∧ (Z.abs z < 10 ^ Z.of_nat (length x))%Z.
Proof.
  intros [[Hne Hd] | (d & -> & Hne & Hd)].
  - exists (digits_value x). split; [by apply parseInt_digits|].
    pose proof (digits_value_bounds x Hd). lia.
  - exists (- digits_value d)%Z. split; [by apply parseInt_minus_digits|].
    pose proof (digits_value_bounds d Hd) as Hb. simpl length.
    assert (10 ^ Z.of_nat (length d) ≤ 10 ^ Z.of_nat (S (length d)))%Z
      by (apply Z.pow_le_mono_r; lia).
    lia.
Qed.

(** What validation accepts, spelled out. *)
Lemma valid_path_syntax path :
  isValidPropertyPath path = true →
  ∃ first accessors,
    PathGrammar.identifier (chars first) ∧ Forall accessor_valid accessors
    ∧ isValidPropertyPath (write first accessors) = true
    ∧ isArrayChange (write first accessors) = false
    ∧ ((path = write first accessors ∧ isArrayChange path = false)
       ∨ ∃ x, PathGrammar.index x
              ∧ path = write first accessors +:+ "@" +:+ str x
              ∧ isArrayChange path = true
              ∧ array_path path = write first accessors
              ∧ index_str path = VStr (str x)).
Proof.
  intros Hv. apply isValidPropertyPath_Lang, Lang_path in Hv.
  destruct Hv as (body & Hbody & Hpath).
  destruct (segments_syntax body Hbody) as (first & accs & -> & Hf & Ha & Hat).
  exists first, accs. split; [done|]. split; [done|]. split.
  { apply isValidPropertyPath_Lang, Lang_path. exists (chars first ++ flat_map write_accessor accs).
    split; [done|]. left. unfold write. by rewrite chars_str. }
  split.
  { unfold isArrayChange, write. rewrite chars_str.
    by apply no_at_not_array_change. }
  destruct Hpath as [Hp | (x & Hx & Hp)].
  - left. unfold isArrayChange, write. rewrite Hp. split.
    + apply chars_inj. by rewrite chars_str.
    + by apply no_at_not_array_change.
  - right. exists x. split; [done|].
    pose proof (index_not_at x Hx) as Hxat.
    assert (Hsplit : split_on "@" (chars path) [] = [write first accs; str x]).
    { rewrite Hp. by apply split_on_once. }
    split; [|split; [|split]].
    + apply chars_inj. rewrite !chars_app, Hp. unfold write.
      by rewrite !chars_str.
    + unfold isArrayChange. rewrite Hp. apply existsb_app_at.
    + unfold array_path. by rewrite Hsplit.
    + unfold index_str. by rewrite Hsplit.
Qed.

Lemma valid_name_ok first :
  PathGrammar.identifier (chars first) → name_ok first.
Proof. intros Hi. rewrite <- (str_chars first). by apply identifier_name_ok. Qed.

Lemma valid_accessors_ok accessors :
  Forall accessor_valid accessors → Forall accessor_ok accessors.
Proof. intros H. eapply Forall_impl; [exact H|]. apply accessor_valid_ok. Qed.

(** X1. [parsePath] gives back the keys of a written path: for a first
    name and accessors [.name] and [[key]], where a name is not empty and
    has no dot and no bracket, and a key between brackets has no closing
    bracket, the result is the first name followed by the names and
    keys, in order.  What stands between brackets is taken as it is,
    dots included. *)
Theorem parsePath_of_written_path :
  ∀ first accessors,
    name_ok first → Forall accessor_ok accessors →
    parsePath (write first accessors) = first :: map key_of accessors.
Proof. intros first accessors. apply parsePath_write. Qed.

Lemma parsePath_of_written_path_witness :
  parsePath "user.addresses[0].city" = ["user"; "addresses"; "0"; "city"]
  ∧ parsePath "a[b.c]" = ["a"; "b.c"].
Proof.
  split.
  - apply (parsePath_of_written_path "user"
             [Dot "addresses"; Bracket "0"; Dot "city"]).
    + split; [discriminate | repeat constructor].
    + repeat constructor; discriminate.
  - apply (parsePath_of_written_path "a" [Bracket "b.c"]).
    + split; [discriminate | repeat constructor].
    + repeat constructor; discriminate.
Defined.

(** X2. A path without [@] that passes validation is a first identifier
    followed by accessors [.identifier] and [[digits]], and [parsePath]
    splits it into exactly these identifiers and digit runs, in order;
    in particular it has at least one key. *)
Theorem valid_path_keys :
  ∀ path,
    isValidPropertyPath path = true → isArrayChange path = false →
    ∃ first accessors,
      path = write first accessors
      ∧ PathGrammar.identifier (chars first)
      ∧ Forall accessor_valid accessors
      ∧ parsePath path = first :: map key_of accessors.
Proof.
  intros path Hv Hna.
  destruct (valid_path_syntax path Hv)
    as (first & accs & Hf & Ha & _ & _ & [[-> _] | (x & _ & _ & Harr & _)]);
    [|congruence].
  exists first, accs. split; [done|]. split; [done|]. split; [done|].
  apply parsePath_write; [by apply valid_name_ok | by apply valid_accessors_ok].
Qed.

Lemma valid_path_keys_witness :
  ∃ first accessors,
    "items[0].name" = write first accessors
    ∧ PathGrammar.identifier (chars first)
    ∧ Forall accessor_valid accessors
    ∧ parsePath "items[0].name" = first :: map key_of accessors.
Proof.
  apply (valid_path_keys "items[0].name"); reflexivity.
Defined.

(** X13. A path with [@] that passes validation splits at the [@] into
    an array path that passes validation itself and has no [@], and an
    index text that [parseInt] does not read as [NaN]; an index text of
    at most fifteen characters is read as the integer that it writes. *)
Theorem valid_array_path_index :
  ∀ path,
    isValidPropertyPath path = true → isArrayChange path = true →
    isValidPropertyPath (array_path path) = true
    ∧ isArrayChange (array_path path) = false
    ∧ ∃ i, index_str path = VStr i
           ∧ path = array_path path +:+ "@" +:+ i
           ∧ parseInt (ToString (index_str path)) ≠ NaN
           ∧ ((length (chars i) ≤ 15)%nat →
              ∃ z, (Z.abs z < 10 ^ 15)%Z
                   ∧ parseInt (ToString (index_str path)) = of_Z z).
Proof.
  intros path Hv Harr.
  destruct (valid_path_syntax path Hv)
    as (first & accs & Hf & Ha & Hvalid & Hplain
        & [[_ Hna] | (x & Hx & Hp & _ & Hap & Hi)]); [congruence|].
  rewrite Hap, Hi. split; [done|]. split; [done|].
  destruct (parseInt_index x Hx) as (z & Hz & Hb).
  exists (str x). split; [done|]. split; [done|]. cbn [ToString]. rewrite Hz.
  split.
  - destruct (of_Z_value z) as (m & e & -> & _). done.
  - rewrite chars_str. intros Hlen. exists z. split; [|done].
    assert (10 ^ Z.of_nat (length x) ≤ 10 ^ 15)%Z by (apply Z.pow_le_mono_r; lia).
    lia.
Qed.

Lemma valid_array_path_index_witness :
  isValidPropertyPath (array_path "user.items@-1") = true
  ∧ isArrayChange (array_path "user.items@-1") = false
  ∧ ∃ i, index_str "user.items@-1" = VStr i
         ∧ "user.items@-1" = array_path "user.items@-1" +:+ "@" +:+ i
         ∧ parseInt (ToString (index_str "user.items@-1")) ≠ NaN
         ∧ ((length (chars i) ≤ 15)%nat →
            ∃ z, (Z.abs z < 10 ^ 15)%Z
                 ∧ parseInt (ToString (index_str "user.items@-1")) = of_Z z).
Proof.
  apply (valid_array_path_index "user.items@-1"); reflexivity.
Defined.

End PathFacts.

(* ===================================================================== *)
(** * ObjectManipulator: reading back, deleting, and what stays untouched *)
(* ===================================================================== *)

Section StoreFacts.
Import Chars JS ObjectManipulator.

Lemma prop_lookup_assign_ne k k' v ps :
  k ≠ k' → prop_lookup k' (prop_assign k v ps) = prop_lookup k' ps.
Proof.
  intros Hne. induction ps as [|[k0 v0] ps IH]; simpl.
  - destruct (String.eqb k k') eqn:E; [apply String.eqb_eq in E; done | done].
  - destruct (String.eqb k0 k) eqn:E0; simpl.
    + apply String.eqb_eq in E0 as ->.
      destruct (String.eqb k k') eqn:E; [apply String.eqb_eq in E; done | done].
    + destruct (String.eqb k0 k'); [done | apply IH].
Qed.

Lemma prop_lookup_remove k ps : prop_lookup k (prop_remove k ps) = None.
Proof.
  unfold prop_remove. induction ps as [|[k0 v0] ps IH]; [done|].
  rewrite filter_cons. destruct (decide _) as [H|H]; simpl in *; [|apply IH].
  destruct (String.eqb k0 k); [done | apply IH].
Qed.

Lemma prop_lookup_remove_ne k k' ps :
  k ≠ k' → prop_lookup k' (prop_remove k ps) = prop_lookup k' ps.
Proof.
  intros Hne. unfold prop_remove. induction ps as [|[k0 v0] ps IH]; [done|].
  rewrite filter_cons. destruct (decide _) as [H|H]; simpl in *.
  - destruct (String.eqb k0 k'); [done | apply IH].
  - destruct (String.eqb k0 k) eqn:E; [|done]. apply String.eqb_eq in E as ->.
    destruct (String.eqb k k') eqn:E'; [apply String.eqb_eq in E'; done | apply IH].
Qed.

(** What an assignment stores is what a read finds, except under the
    [length] of an array, which converts what it is given. *)
Lemma Get_Put_stored o k x o1 :
  Put o k x = (o1, None) → k ≠ "length" → Get o1 k = Returned x.
Proof.
  intros HP Hk. unfold Put in HP.
  destruct (inherited o k); [done|]. apply Get_Returned. split.
  - apply owns_not_inherited. by apply (PutOwn_owns o k x).
  - apply (GetOwn_PutOwn o k x o1 HP). left. by apply String.eqb_neq.
Qed.

Lemma owns_assign_ne ps k k' x :
  k ≠ k' → owns (VObj (prop_assign k x ps)) k' = owns (VObj ps) k'.
Proof. intros Hne. simpl. by rewrite prop_lookup_assign_ne. Qed.

Lemma Get_assign_ne ps k k' x :
  k ≠ k' → Get (VObj (prop_assign k x ps)) k' = Get (VObj ps) k'.
Proof.
  intros Hne. unfold Get, inherited. rewrite owns_assign_ne by done.
  simpl. by rewrite prop_lookup_assign_ne.
Qed.

(** Only the property that is named changes in an object. *)
Lemma Get_Put_object_ne ps k k' x :
  k ≠ k' → Get (Put (VObj ps) k x).1 k' = Get (VObj ps) k'.
Proof.
  intros Hne. unfold Put. destruct (inherited (VObj ps) k); [done|].
  cbn [PutOwn fst]. by apply Get_assign_ne.
Qed.

Lemma Get_rebind_object_ne ps k k' c :
  k ≠ k' → Get (rebind (VObj ps) k c) k' = Get (VObj ps) k'.
Proof.
  intros Hne. cbn [rebind]. destruct (prop_lookup k ps); [|done].
  by apply Get_assign_ne.
Qed.

Lemma rebind_object ps k c : ∃ ps', rebind (VObj ps) k c = VObj ps'.
Proof. simpl. destruct (prop_lookup k ps); eauto. Qed.

Lemma rebind_rebind p k c c' c'' :
  Get p k = Returned c → shape_of c ≠ NoContainer →
  rebind (rebind p k c') k c'' = rebind p k c''.
Proof.
  intros [_ HG]%Get_Returned Hc. destruct p; simpl in *; try done.
  - destruct (prop_lookup k props) eqn:E; [|simpl in HG; inv HG; done].
    simpl. rewrite prop_lookup_assign. by rewrite prop_assign_assign.
  - destruct (array_index k) eqn:Ei.
    + destruct (elems !! n) as [[y|]|] eqn:En; simpl in HG; try (inv HG; done).
      simpl. rewrite Ei.
      assert (n < length elems) by (eapply lookup_lt_Some; eauto).
      rewrite list_lookup_insert_eq by done. by rewrite list_insert_insert_eq.
    + destruct (String.eqb k "length") eqn:El; [inv HG; done|].
      destruct (prop_lookup k props) eqn:E; [|simpl in HG; inv HG; done].
      simpl. rewrite Ei, El, prop_lookup_assign. by rewrite prop_assign_assign.
Qed.

Lemma put_back_put_back keys :
  ∀ obj a a' a'',
    stored_at obj keys a → shape_of a ≠ NoContainer → shape_of a' ≠ NoContainer →
    put_back (put_back obj keys a') keys a'' = put_back obj keys a''.
Proof.
  induction keys as [|k keys IH]; intros obj a a' a'' Hs Ha Ha'.
  - inv Hs. simpl. rewrite (shape_nullish _ Ha).
    by rewrite (shape_nullish _ Ha').
  - inv Hs. simpl. rewrite (proj2 (proj1 (Get_Returned _ _ _) H2)).
    assert (Hc : shape_of child ≠ NoContainer)
      by (eapply stored_at_container; eauto).
    rewrite (proj2 (proj1 (Get_Returned _ _ _) (Get_rebind_container _ _ _ (put_back child keys a') H2 Hc))).
    rewrite (IH _ _ _ _ H4 Ha Ha').
    by apply rebind_rebind with (c := child).
Qed.

End StoreFacts.

Section ReadBack.
Import Chars JS ObjectManipulator.

(** After a write that returns, reading key after key finds the value. *)
Lemma set_walk_stored keys value :
  keys ≠ [] → last keys ≠ Some "length" →
  ∀ current current',
    set_walk current keys value = (current', None) → stored_at current' keys value.
Proof.
  induction keys as [| k | k k' rest IH] using keys_ind; intros Hne Hlast.
  - done.
  - intros current current' HP. simpl in HP.
    econstructor; [|constructor].
    eapply Get_Put_stored; [exact HP|]. intros ->. by apply Hlast.
  - intros current current' HP.
    destruct (set_step_total current k k') as (current1 & child & e & Hstep).
    rewrite (set_walk_by_step _ _ _ _ _ _ _ _ Hstep) in HP.
    destruct child as [c|].
    + destruct (set_walk c (k' :: rest) value) as [c' e'] eqn:Hw.
      injection HP as <- ->.
      assert (e = None) as -> by (by inv Hstep).
      destruct (set_step_child _ _ _ _ _ Hstep) as [HG Hnn].
      assert (Hc : shape_of c ≠ NoContainer).
      { intros Hno. apply (set_walk_no_container_fails (k' :: rest) value c Hno).
        by rewrite Hw. }
      econstructor.
      * by apply Get_rebind_container with (c := c).
      * apply IH with (current := c); [done | | done].
        by rewrite last_cons_cons in Hlast.
    + injection HP as <- ->. inv Hstep.
Qed.

Lemma stored_at_nullish_default obj path v d :
  stored_at obj (parsePath path) v → nullish v = true →
  getPropertyValue obj path d = Returned d.
Proof.
  intros Hs Hn. apply getPropertyValue_absent.
  exists (length (parsePath path)), v. by rewrite firstn_all.
Qed.

(** A deletion that meets [undefined] or [null] before the last key
    returns at once. *)
Lemma delete_walk_absent keys :
  ∀ obj, intermediate_absent obj keys → delete_walk obj keys = (obj, None).
Proof.
  induction keys as [| k | k k' rest IH] using keys_ind;
    intros obj (n & x & Hn & Hs & Hx); simpl in Hn; try lia.
  rewrite delete_walk_step.
  destruct n as [|n]; [lia|]. simpl in Hs. inv Hs. rewrite H2.
  destruct (nullish child) eqn:Hc; [done|].
  rewrite IH.
  - by rewrite rebind_same.
  - exists n, x. split; [|done].
    destruct n as [|n]; [inv H4; congruence | simpl in *; lia].
Qed.

End ReadBack.

Section PathEngine.
Import Chars JS ObjectManipulator Fixtures.

Lemma stored_at_app obj ks ks' x v :
  stored_at obj ks x → stored_at x ks' v → stored_at obj (ks ++ ks') v.
Proof.
  intros Hs. induction Hs as [|obj k ks child x HG Hs IH]; intros Hv; [done|].
  simpl. econstructor; [exact HG | by apply IH].
Qed.

Lemma set_walk_object_frame keys value ps k' :
  k' ≠ hd key_undefined keys →
  Get (set_walk (VObj ps) keys value).1 k' = Get (VObj ps) k'.
Proof.
  intros Hne. apply not_eq_sym in Hne. destruct keys as [|k [|k1 rest]].
  - by apply Get_Put_object_ne.
  - by apply Get_Put_object_ne.
  - simpl hd in Hne.
    destruct (set_step_total (VObj ps) k k1) as (current1 & child & e & Hstep).
    rewrite (set_walk_by_step _ _ _ _ _ _ _ _ Hstep).
    inversion Hstep as [e0 HG | found e0 HG Hn HP | found c1 HG Hn HP HG1 | found HG Hn];
      subst; try done.
    + pose proof (Get_Put_object_ne ps k k' (fresh_container k1) Hne) as Hf.
      rewrite HP in Hf. cbn [fst] in Hf.
      assert (∃ ps1, current1 = VObj ps1) as [ps1 ->].
      { pose proof (Put_shape (VObj ps) k (fresh_container k1)) as Hsh.
        rewrite HP in Hsh. destruct current1; try done. eauto. }
      destruct (set_walk _ (k1 :: rest) value) as [c' e'].
      cbn [fst]. rewrite Get_rebind_object_ne by done. exact Hf.
    + destruct (set_walk _ (k1 :: rest) value) as [c' e'].
      cbn [fst]. by rewrite Get_rebind_object_ne.
Qed.

Lemma delete_walk_object_frame keys ps k' :
  k' ≠ hd key_undefined keys →
  Get (delete_walk (VObj ps) keys).1 k' = Get (VObj ps) k'.
Proof.
  intros Hne. apply not_eq_sym in Hne.
  assert (Hrm : ∀ k, k ≠ k' → Get (VObj (prop_remove k ps)) k' = Get (VObj ps) k').
  { intros k Hk. unfold Get, inherited. simpl. by rewrite prop_lookup_remove_ne. }
  destruct keys as [|k [|k1 rest]].
  - by apply Hrm.
  - by apply Hrm.
  - simpl hd in Hne. rewrite delete_walk_step.
    destruct (Get (VObj ps) k) as [child|] eqn:HG; [|done].
    destruct (nullish child); [done|].
    destruct (delete_walk _ (k1 :: rest)) as [c' e'].
    cbn [fst]. by rewrite Get_rebind_object_ne.
Qed.





(** X5. [deleteProperty] creates nothing: when some key before the last
    one leads to [undefined] or [null], the call returns without an
    exception and the object is as it was. *)
Theorem deleteProperty_missing_path :
  ∀ obj path,
    intermediate_absent obj (parsePath path) → deleteProperty obj path = (obj, None).
Proof. intros obj path H. by apply delete_walk_absent. Qed.

Lemma deleteProperty_missing_path_witness :
  deleteProperty (VObj [("name", VStr "John")]) "missing.path"
  = (VObj [("name", VStr "John")], None).
Proof.
  apply (deleteProperty_missing_path (VObj [("name", VStr "John")]) "missing.path").
  exists 1, VUndefined. split; [vm_compute; lia|]. split; [|reflexivity].
  apply get_walk_stored. reflexivity.
Defined.

(** X6. Deleting a property of a plain object: the object that holds the
    last key loses that key and keeps its other properties, no exception
    is raised, and, the key being no name of a member that objects
    inherit, [getPropertyValue] on the same path then returns the
    default. *)
Theorem deleteProperty_then_get :
  ∀ obj path ckeys k ps defaultValue,
    parsePath path = ckeys ++ [k] → stored_at obj ckeys (VObj ps) →
    ∃ obj',
      deleteProperty obj path = (obj', None)
      ∧ stored_at obj' ckeys (VObj (prop_remove k ps))
      ∧ (∀ k', k' ≠ k → prop_lookup k' (prop_remove k ps) = prop_lookup k' ps)
      ∧ owns (VObj (prop_remove k ps)) k = false
      ∧ (inherited (VObj []) k = false →
         getPropertyValue obj' path defaultValue = Returned defaultValue).
Proof.
  intros obj path ckeys k ps d Hp Hs.
  unfold deleteProperty. rewrite Hp.
  rewrite (delete_walk_at obj ckeys (VObj ps) k Hs) by done.
  simpl. eexists. split; [done|].
  assert (Hs' : stored_at (put_back obj ckeys (VObj (prop_remove k ps))) ckeys
                  (VObj (prop_remove k ps)))
    by (by eapply stored_at_put_back).
  split; [done|]. split; [intros; by apply prop_lookup_remove_ne|].
  assert (Ho : owns (VObj (prop_remove k ps)) k = false).
  { simpl. apply bool_decide_eq_false. rewrite prop_lookup_remove. by intros [? ?]. }
  split; [done|]. intros Hk.
  eapply stored_at_nullish_default with (v := VUndefined); [|done].
  rewrite Hp. eapply stored_at_app; [exact Hs'|].
  econstructor; [|constructor]. apply Get_Returned. split.
  - unfold inherited in *. rewrite Ho. simpl in *. exact Hk.
  - simpl. by rewrite prop_lookup_remove.
Qed.

Lemma deleteProperty_then_get_witness :
  ∃ obj',
    deleteProperty (VObj [("user", VObj [("name", VStr "John"); ("age", n 25)])])
      "user.age" = (obj', None)
    ∧ stored_at obj' ["user"] (VObj [("name", VStr "John")])
    ∧ getPropertyValue obj' "user.age" (VStr "none") = Returned (VStr "none").
Proof.
  destruct (deleteProperty_then_get
              (VObj [("user", VObj [("name", VStr "John"); ("age", n 25)])])
              "user.age" ["user"] "age" [("name", VStr "John"); ("age", n 25)]
              (VStr "none"))
    as (obj' & H1 & H2 & _ & _ & H3).
  - reflexivity.
  - apply get_walk_stored. reflexivity.
  - exists obj'. split; [exact H1|]. split; [exact H2|]. apply H3. reflexivity.
Defined.

End PathEngine.

(* ===================================================================== *)
(** * ObjectManipulator: the operations on [@] paths *)
(* ===================================================================== *)

Section ArrayPaths.
Import Chars JS ObjectManipulator Fixtures.

Lemma num_le_of_Z a b : num_le (of_Z a) (of_Z b) = (a <=? b)%Z.
Proof.
  pose proof (num_lt_of_Z b a) as Hlt.
  destruct (of_Z_value a) as (m1 & e1 & E1 & _), (of_Z_value b) as (m2 & e2 & E2 & _).
  rewrite E1, E2 in *. unfold num_le. rewrite Hlt. symmetry. apply Z.leb_antisym.
Qed.

Lemma parseInt_cases s : parseInt s = NaN ∨ ∃ z, parseInt s = of_Z z.
Proof.
  unfold parseInt. destruct (sign _) as [neg r]. destruct (span is_digit r) as [[|d ds] r'].
  - by left.
  - right. eauto.
Qed.

Lemma spliced_remove z es :
  (0 ≤ z)%Z →
  spliced (of_Z z) 1 [] es = take (Z.to_nat z) es ++ drop (S (Z.to_nat z)) es.
Proof.
  intros Hz. unfold spliced. rewrite ToIntegerOrInfinity_of_Z. simpl splice_start.
  rewrite (proj2 (Z.ltb_ge z 0)) by lia. simpl app.
  destruct (Z.lt_ge_cases z (Z.of_nat (length es))) as [Hin|Hout].
  - rewrite Z.min_l by lia.
    destruct (length es - Z.to_nat z)%nat eqn:E; [lia|]. by rewrite Nat.add_1_r.
  - rewrite Z.min_r by lia. rewrite Nat2Z.id, Nat.sub_diag, Nat.add_0_r.
    rewrite firstn_all, (take_ge es (Z.to_nat z)) by lia.
    rewrite !drop_ge by lia. done.
Qed.

Lemma spliced_NaN_insert v es : spliced NaN 0 [v] es = Some v :: es.
Proof. unfold spliced. simpl. by rewrite Z.min_l by lia. Qed.

(** The first character of [String(n)] is a digit, a minus sign, or the
    first letter of [NaN] or [Infinity]. *)
Lemma number_to_chars_head x :
  ∃ c cs, number_to_chars x = c :: cs
          ∧ (is_digit c = true ∨ c = "-"%char ∨ c = "N"%char ∨ c = "I"%char).
Proof.
  destruct x as [|[]|m e]; [eexists _, _; split; [reflexivity | auto] ..|].
  unfold number_to_chars.
  destruct (m =? 0)%Z eqn:Em; [eexists _, _; split; [reflexivity | by left]|].
  destruct (m <? 0)%Z; [eexists _, _; split; [reflexivity | auto]|]. simpl app.
  apply Z.eqb_neq in Em.
  pose proof (decimal_digits_all (Z.abs m) ltac:(lia)) as Hd.
  pose proof (decimal_digits_nonempty (Z.abs m) ltac:(lia)) as Hne.
  destruct (decimal_digits (Z.abs m)) as [|d ds]; [done|].
  assert (Hdig : is_digit d = true) by (by inv Hd).
  set (k := Z.of_nat (length (d :: ds))). set (n := (k + e)%Z).
  destruct ((k <=? n) && (n <=? 21))%Z;
    [eexists _, _; split; [reflexivity | by left]|].
  destruct ((0 <? n) && (n <=? 21))%Z eqn:E2.
  { apply andb_true_iff in E2 as [E2 _]. apply Z.ltb_lt in E2.
    destruct (Z.to_nat n) eqn:En; [lia|].
    eexists _, _. split; [reflexivity | by left]. }
  destruct ((-6 <? n) && (n <=? 0))%Z;
    [eexists _, _; split; [reflexivity | by left]|].
  destruct ds; eexists _, _; (split; [reflexivity | by left]).
Qed.

Lemma number_to_string_not_length x : String.eqb (number_to_string x) "length" = false.
Proof.
  apply String.eqb_neq. intros E. apply (f_equal chars) in E.
  unfold number_to_string in E. rewrite chars_str in E.
  destruct (number_to_chars_head x) as (c & cs & Hc & Hl). rewrite Hc in E.
  injection E as -> _. by destruct Hl as [?|[?|[?|?]]].
Qed.

(** The text of a number names no member of a built-in prototype. *)
Lemma number_to_string_not_inherited o x : inherited o (number_to_string x) = false.
Proof.
  unfold inherited. apply andb_false_iff. right.
  unfold number_to_string.
  destruct (number_to_chars_head x) as (c & cs & -> & Hc).
  change (str (c :: cs)) with (String c (str cs)).
  assert (Hcases : c = "-"%char ∨ c = "N"%char ∨ c = "I"%char ∨ is_digit c = true)
    by tauto.
  clear Hc. destruct Hcases as [-> | [-> | [-> | Hd]]]; [by destruct o ..|].
  start_cases c Hd; by destruct o.
Qed.

Lemma Put_array_number es ps x v :
  ∃ es' ps', Put (VArr es ps) (number_to_string x) v = (VArr es' ps', None).
Proof.
  unfold Put. rewrite number_to_string_not_inherited. simpl.
  destruct (array_index _); [by eexists _, _|].
  rewrite number_to_string_not_length. by eexists _, _.
Qed.

(** An [@] operation that finds no array works on a new empty array that
    is dropped afterwards. *)
Lemma with_array_absent obj path f :
  absent_on_path obj (parsePath (array_path path)) →
  with_array obj path f
  = (obj, (f (VArr [] []) (parseInt (ToString (index_str path)))).2).
Proof.
  intros Ha. unfold with_array, getArrayAndIndex.
  rewrite (getPropertyValue_absent obj (array_path path) (VArr [] []) Ha).
  simpl nullish. cbv iota.
  destruct (f _ _) as [arr' e]. simpl.
  f_equal. by apply put_back_absent, absent_get_walk.
Qed.

Lemma with_array_stored obj path f es ps :
  stored_at obj (parsePath (array_path path)) (VArr es ps) →
  ∀ arr' e,
    f (VArr es ps) (parseInt (ToString (index_str path))) = (arr', e) →
    shape_of arr' ≠ NoContainer →
    with_array obj path f = (put_back obj (parsePath (array_path path)) arr', e)
    ∧ stored_at (put_back obj (parsePath (array_path path)) arr')
        (parsePath (array_path path)) arr'.
Proof.
  intros Hs arr' e Hf Harr.
  rewrite (with_array_found obj path f (VArr es ps) Hs) by done.
  rewrite Hf. split; [done|]. by eapply stored_at_put_back.
Qed.

Lemma removeAtIndex_found obj path es ps z :
  stored_at obj (parsePath (array_path path)) (VArr es ps) →
  parseInt (ToString (index_str path)) = of_Z z →
  removeAtIndex obj path
  = (put_back obj (parsePath (array_path path))
       (VArr (if (0 <=? z)%Z && (z <? Z.of_nat (length es))%Z
              then take (Z.to_nat z) es ++ drop (S (Z.to_nat z)) es
              else es) ps),
     None).
Proof.
  intros Hs Hi. unfold removeAtIndex.
  rewrite (with_array_found obj path _ (VArr es ps) Hs) by done.
  rewrite Hi, num_le_of_Z.
  change (ToNumber (default VUndefined (GetOwn (VArr es ps) "length")))
    with (of_Z (Z.of_nat (length es))).
  rewrite num_lt_of_Z.
  destruct (Z.leb_spec 0 z); [|done].
  destruct (Z.ltb_spec z (Z.of_nat (length es))); [|done].
  simpl. by rewrite spliced_remove.
Qed.

Lemma insertAtIndex_found obj path value es ps z :
  stored_at obj (parsePath (array_path path)) (VArr es ps) →
  parseInt (ToString (index_str path)) = of_Z z →
  insertAtIndex obj path value
  = (put_back obj (parsePath (array_path path))
       (VArr (if (z =? -1)%Z then es ++ [Some value]
              else spliced (of_Z z) 0 [value] es) ps),
     None).
Proof.
  intros Hs Hi. unfold insertAtIndex.
  rewrite (with_array_found obj path _ (VArr es ps) Hs) by done.
  rewrite Hi, num_eq_of_Z. by destruct (z =? -1)%Z.
Qed.



(** X9. [setValueAtIndex] with an index from zero on stores the value at
    that index: inside the array it replaces the element there, at or
    beyond the length the array grows and the positions in between are
    holes.  With a negative index it changes nothing. *)
Theorem setValueAtIndex_positions :
  ∀ obj path value es ps z,
    stored_at obj (parsePath (array_path path)) (VArr es ps) →
    parseInt (ToString (index_str path)) = of_Z z →
    ((0 ≤ z < 2 ^ 32 - 1)%Z →
     ∃ obj' es',
       setValueAtIndex obj path value = (obj', None)
       ∧ stored_at obj' (parsePath (array_path path)) (VArr es' ps)
       ∧ ((z < Z.of_nat (length es))%Z → es' = <[Z.to_nat z := Some value]> es)
       ∧ ((Z.of_nat (length es) ≤ z)%Z →
          es' = es ++ replicate (Z.to_nat z - length es) None ++ [Some value]))
    ∧ ((z < 0)%Z → setValueAtIndex obj path value = (obj, None)).
Proof.
  intros obj path value es ps z Hs Hi. unfold setValueAtIndex.
  set (f := fun arr index => if _ : bool then _ else _). split.
  - intros Hz.
    assert (Hf : f (VArr es ps) (parseInt (ToString (index_str path)))
                 = (VArr (array_store (Z.to_nat z) value es) ps, None)).
    { rewrite Hi. unfold f. rewrite num_le_of_Z, (proj2 (Z.leb_le 0 z)) by lia.
      unfold Put. rewrite number_to_string_not_inherited.
      simpl. by rewrite array_index_of_Z. }
    destruct (with_array_stored obj path f es ps Hs _ _ Hf) as [-> Hs']; [done|].
    eexists _, _. split; [done|]. split; [exact Hs'|].
    unfold array_store. split; intros Hlen.
    + by rewrite decide_True by lia.
    + by rewrite decide_False by lia.
  - intros Hz.
    assert (Hf : f (VArr es ps) (parseInt (ToString (index_str path)))
                 = (VArr es ps, None)).
    { rewrite Hi. unfold f. by rewrite num_le_of_Z, (proj2 (Z.leb_gt 0 z)) by lia. }
    destruct (with_array_stored obj path f es ps Hs _ _ Hf) as [-> Hs']; [done|].
    by rewrite put_back_same.
Qed.

Lemma setValueAtIndex_positions_witness :
  ∃ obj' es',
    setValueAtIndex abc "items@4" (VStr "x") = (obj', None)
    ∧ stored_at obj' ["items"] (VArr es' [])
    ∧ es' = [s "a"; s "b"; s "c"] ++ replicate (4 - 3) None ++ [s "x"].
Proof.
  destruct (proj1 (setValueAtIndex_positions abc "items@4" (VStr "x")
                     [s "a"; s "b"; s "c"] [] 4%Z
                     ltac:(apply get_walk_stored; reflexivity) eq_refl))
    as (obj' & es' & H1 & H2 & _ & H3).
  - lia.
  - exists obj', es'. split; [exact H1|]. split; [exact H2|].
    apply H3. simpl. lia.
Defined.

(** X10. An [@] operation on a path at which no array is found is lost:
    when the array path leads to [undefined] or [null], [insertAtIndex],
    [removeAtIndex] and [setValueAtIndex] return without an exception
    and leave the object as it was. *)
Theorem array_change_without_array :
  ∀ obj path value,
    absent_on_path obj (parsePath (array_path path)) →
    insertAtIndex obj path value = (obj, None)
    ∧ removeAtIndex obj path = (obj, None)
    ∧ setValueAtIndex obj path value = (obj, None).
Proof.
  intros obj path value Ha. unfold insertAtIndex, removeAtIndex, setValueAtIndex.
  rewrite !with_array_absent by done. repeat split; f_equal.
  - by destruct (num_eq _ _).
  - by destruct (_ && _).
  - destruct (num_le _ _); [|done].
    by destruct (Put_array_number [] [] (parseInt (ToString (index_str path))) value)
      as (es' & ps' & ->).
Qed.

Lemma array_change_without_array_witness :
  insertAtIndex (VObj []) "items@0" (VStr "a") = (VObj [], None)
  ∧ removeAtIndex (VObj []) "items@0" = (VObj [], None)
  ∧ setValueAtIndex (VObj []) "items@0" (VStr "a") = (VObj [], None).
Proof.
  apply (array_change_without_array (VObj []) "items@0" (VStr "a")).
  exists 1, VUndefined. split; [vm_compute; lia|]. split; [|reflexivity].
  apply get_walk_stored. reflexivity.
Defined.







End ArrayPaths.

(* ===================================================================== *)
(** * DocumentChangeParser: sequences of changes and their exceptions *)
(* ===================================================================== *)

Section ChangeSequences.
Import Chars JS ObjectManipulator DocumentChangeParser Fixtures.

Lemma for_each_app {A} (step : JS.value → A → outcome) xs ys : ∀ obj,
  for_each step obj (xs ++ ys)
  = match for_each step obj xs with
    | (obj', None) => for_each step obj' ys
    | (obj', Some e) => (obj', Some e)
    end.
Proof.
  induction xs as [|x xs IH]; intros obj; simpl; [done|].
  destruct (step obj x) as [obj' [e|]]; [done | apply IH].
Qed.

Lemma for_each_flat_map {A B} (step : JS.value → B → outcome) (g : A → list B) xs :
  ∀ obj,
    for_each (fun o x => for_each step o (g x)) obj xs
    = for_each step obj (flat_map g xs).
Proof.
  induction xs as [|x xs IH]; intros obj; simpl; [done|].
  rewrite for_each_app. destruct (for_each step obj (g x)) as [obj' [e|]]; [done|].
  apply IH.
Qed.

(** An exception of a loop is the exception of one of its steps. *)
Lemma for_each_error {A} (step : JS.value → A → outcome) xs : ∀ obj obj' e,
  for_each step obj xs = (obj', Some e) →
  ∃ x o, In x xs ∧ step o x = (obj', Some e).
Proof.
  induction xs as [|x xs IH]; intros obj obj' e H; simpl in H; [done|].
  destruct (step obj x) as [o1 [e1|]] eqn:Hs.
  - injection H as <- <-. exists x, obj. split; [by left | done].
  - destruct (IH _ _ _ H) as (y & o & Hy & Ho). exists y, o. split; [by right | done].
Qed.

(** X14. Applying a sequence of document changes is applying their
    descriptors one after the other: how the descriptors are grouped
    into document changes does not matter, nor do [id], [createdBy] and
    [createdAt]; and applying two sequences in a row is applying the
    first and, if it raises nothing, the second to its result. *)
Theorem applyChanges_grouping :
  ∀ obj documentChanges more options i b t,
    applyChanges obj documentChanges options
    = applyChange obj
        {| id := i; changes := descriptors documentChanges;
           createdBy := b; createdAt := t |} options
    ∧ applyChanges obj (documentChanges ++ more) options
      = match applyChanges obj documentChanges options with
        | (obj', None) => applyChanges obj' more options
        | (obj', Some e) => (obj', Some e)
        end.
Proof.
  intros obj dcs more options i b t. split.
  - unfold applyChanges, applyChange, descriptors. simpl.
    apply (for_each_flat_map
             (fun o change => applyFieldChange o change (default default_options options))
             changes).
  - unfold applyChanges. apply for_each_app.
Qed.

(** X15. Nothing is rolled back: when the descriptors before an invalid
    path apply without an exception, a document change applied with the
    default options stops at the invalid path with [InvalidPathError],
    the object is as the earlier descriptors have left it, and the later
    descriptors are not applied.  The path is checked before the value
    of the descriptor is looked at. *)
Theorem applyChange_stops_at_invalid_path :
  ∀ obj before change after obj1,
    applyChange obj (group before) None = (obj1, None) →
    isValidPropertyPath (propertyPath change) = false →
    applyChange obj (group (before ++ change :: after)) None
    = (obj1, Some (InvalidPathError (propertyPath change))).
Proof.
  intros obj before change after obj1 Hb Hv.
  unfold applyChange, group in *. simpl in *.
  rewrite for_each_app, Hb. simpl.
  unfold applyFieldChange at 1. simpl. by rewrite Hv.
Qed.

Lemma applyChange_stops_at_invalid_path_witness :
  applyChange (VObj [])
    (group ([{| type := CREATE; propertyPath := "name"; newValue := Some "John";
                newValueType := Some STRING |}]
            ++ {| type := CREATE; propertyPath := "123"; newValue := None;
                  newValueType := None |}
            :: [{| type := CREATE; propertyPath := "age"; newValue := Some "25";
                   newValueType := Some NUMBER |}])) None
  = (VObj [("name", VStr "John")], Some (InvalidPathError "123")).
Proof.
  apply (applyChange_stops_at_invalid_path (VObj [])
           [{| type := CREATE; propertyPath := "name"; newValue := Some "John";
               newValueType := Some STRING |}]
           {| type := CREATE; propertyPath := "123"; newValue := None;
              newValueType := None |}
           [{| type := CREATE; propertyPath := "age"; newValue := Some "25";
               newValueType := Some NUMBER |}]
           (VObj [("name", VStr "John")])); reflexivity.
Defined.

End ChangeSequences.

Section ChangeErrors.
Import Chars JS ObjectManipulator DocumentChangeParser.

Lemma Put_platform_error o k x e : (Put o k x).2 = Some e → platform_error e.
Proof.
  unfold platform_error, Put.
  destruct (inherited o k); [intros [= <-]; eauto|].
  destruct o; simpl; try (intros [= <-]; by left); try done.
  destruct (array_index k); [done|]. destruct (String.eqb k "length"); [|done].
  destruct (valid_length _); [done|]. intros [= <-]. right. by left.
Qed.

Lemma Get_platform_error o k e : Get o k = Thrown e → platform_error e.
Proof.
  intros [[-> _]| ->]%Get_Thrown; [by left|]. right. right. eauto.
Qed.

Lemma Delete_platform_error o k e : (Delete o k).2 = Some e → platform_error e.
Proof.
  unfold platform_error. destruct o; simpl; try (intros [= <-]; by left); try done.
  - destruct (array_index k).
    + destruct (decide _); [intros [= <-]; by left | done].
    + destruct (String.eqb k "length"); [intros [= <-]; by left | done].
  - destruct (array_index k); [done|].
    destruct (String.eqb k "length"); [intros [= <-]; by left | done].
Qed.

Lemma splice_platform_error arr start n items e :
  (splice arr start n items).2 = Some e → platform_error e.
Proof. destruct arr; simpl; try (intros [= <-]; by left); done. Qed.

Lemma push_platform_error arr x e : (push arr x).2 = Some e → platform_error e.
Proof. destruct arr; simpl; try (intros [= <-]; by left); done. Qed.

Lemma set_walk_platform_error keys value : ∀ current e,
  (set_walk current keys value).2 = Some e → platform_error e.
Proof.
  induction keys as [| k | k k' rest IH] using keys_ind; intros current e.
  - apply Put_platform_error.
  - apply Put_platform_error.
  - destruct (set_step_total current k k') as (current1 & child & e1 & Hstep).
    rewrite (set_walk_by_step _ _ _ _ _ _ _ _ Hstep).
    destruct child as [c|].
    + destruct (set_walk c (k' :: rest) value) as [c' e'] eqn:Hw. simpl.
      intros ->. apply (IH c). by rewrite Hw.
    + simpl. intros ->. inversion Hstep; subst; [by eapply Get_platform_error|].
      match goal with
      | HP : Put ?o ?key ?x = (_, Some _) |- _ =>
          apply (Put_platform_error o key x); by rewrite HP
      end.
Qed.

Lemma delete_walk_platform_error keys : ∀ current e,
  (delete_walk current keys).2 = Some e → platform_error e.
Proof.
  assert (Hlast : ∀ current k e, (delete_last current k).2 = Some e → platform_error e).
  { intros current k e. unfold delete_last. destruct (isArray current).
    - apply splice_platform_error.
    - apply Delete_platform_error. }
  induction keys as [| k | k k' rest IH] using keys_ind; intros current e.
  - apply Hlast.
  - apply Hlast.
  - rewrite delete_walk_step.
    destruct (Get current k) as [child|e0] eqn:EG;
      [|intros [= <-]; by eapply Get_platform_error].
    destruct (nullish child); [done|].
    destruct (delete_walk child (k' :: rest)) as [c' e'] eqn:Hw. simpl.
    intros ->. apply (IH child). by rewrite Hw.
Qed.

Lemma with_array_platform_error obj path f e :
  (∀ arr index e', (f arr index).2 = Some e' → platform_error e') →
  (with_array obj path f).2 = Some e → platform_error e.
Proof.
  intros Hf. unfold with_array, getArrayAndIndex, getPropertyValue.
  destruct (get_walk_total (parsePath (array_path path)) obj) as [[r ->]|[key ->]];
    [|intros [= <-]; right; right; eauto].
  destruct r as [v|].
  - destruct (f _ _) as [arr' e'] eqn:Hfe. simpl. intros ->.
    eapply Hf. by rewrite Hfe.
  - destruct (f _ _) as [arr' e'] eqn:Hfe. simpl. intros ->.
    eapply Hf. by rewrite Hfe.
Qed.

Lemma manipulation_platform_error obj change value e :
  (if isArrayChange (propertyPath change)
   then applyArrayChange obj (propertyPath change) (type change) value
   else applyPropertyChange obj (propertyPath change) (type change) value).2 = Some e →
  platform_error e.
Proof.
  destruct (isArrayChange _).
  - unfold applyArrayChange, insertAtIndex, setValueAtIndex, removeAtIndex.
    destruct (type change); apply with_array_platform_error; intros arr index e'.
    + destruct (num_eq _ _); [apply push_platform_error | apply splice_platform_error].
    + destruct (num_le _ _); [apply Put_platform_error | done].
    + destruct (_ && _); [apply splice_platform_error | done].
  - unfold applyPropertyChange, setPropertyValue, deleteProperty.
    destruct (type change);
      [apply set_walk_platform_error .. | apply delete_walk_platform_error].
Qed.

Lemma parseValue_thrown v t e :
  parseValue v t = Thrown e → t = OBJECT ∧ e = decode_failure v.
Proof.
  destruct t; simpl; try done.
  destruct (JSON_parse v) as [[| | | | parsed | |]|]; try done;
    [|by intros [= <-]].
  destruct (JSON_parse parsed); [done | by intros [= <-]].
Qed.

Lemma applyFieldChange_error obj change options obj' e :
  applyFieldChange obj change options = (obj', Some e) →
  (truthy_option (validatePaths options) = true
   ∧ isValidPropertyPath (propertyPath change) = false
   ∧ e = InvalidPathError (propertyPath change))
  ∨ (type change ≠ DELETE ∧ (newValue change = None ∨ newValueType change = None)
     ∧ e = missing_value (type change))
  ∨ (∃ raw, type change ≠ DELETE ∧ newValue change = Some raw
            ∧ newValueType change = Some OBJECT ∧ e = decode_failure raw)
  ∨ platform_error e.
Proof.
  unfold applyFieldChange.
  destruct (truthy_option (validatePaths options)
            && negb (isValidPropertyPath (propertyPath change))) eqn:Hc.
  { apply andb_true_iff in Hc as [Hv Hp]. apply negb_true_iff in Hp.
    intros [= <- <-]. by left. }
  assert (Hman : ∀ x,
            (if isArrayChange (propertyPath change)
             then applyArrayChange obj (propertyPath change) (type change) x
             else applyPropertyChange obj (propertyPath change) (type change) x)
            = (obj', Some e) → platform_error e).
  { intros x Hx. apply (manipulation_platform_error obj change x). by rewrite Hx. }
  assert (Hval : ∀ v t,
            newValue change = Some v → newValueType change = Some t →
            type change ≠ DELETE →
            match parseValue v t with
            | Thrown e0 => (obj, Some e0)
            | Returned x =>
                if isArrayChange (propertyPath change)
                then applyArrayChange obj (propertyPath change) (type change) x
                else applyPropertyChange obj (propertyPath change) (type change) x
            end = (obj', Some e) →
            (∃ raw, type change ≠ DELETE ∧ newValue change = Some raw
                    ∧ newValueType change = Some OBJECT ∧ e = decode_failure raw)
            ∨ platform_error e).
  { intros v t Hv Ht Hty. destruct (parseValue v t) as [x|e0] eqn:Hpv.
    - intros Hx. right. by eapply Hman.
    - intros [= <- <-]. apply parseValue_thrown in Hpv as [-> ->].
      left. by exists v. }
  destruct (type change) eqn:Hty.
  - destruct (newValue change) as [v|] eqn:Hv, (newValueType change) as [t|] eqn:Ht;
      try (intros [= <- <-]; right; left; split; [done|]; split; [|done]; eauto).
    intros H. right. right. by eapply Hval.
  - destruct (newValue change) as [v|] eqn:Hv, (newValueType change) as [t|] eqn:Ht;
      try (intros [= <- <-]; right; left; split; [done|]; split; [|done]; eauto).
    intros H. right. right. by eapply Hval.
  - intros H. right. right. right. by eapply Hman.
Qed.

(** X16. The exceptions of [applyChanges]: an [InvalidPathError] for the
    path of a descriptor that fails validation, raised only when
    validation is asked for; the error for a CREATE or UPDATE descriptor
    without [newValue] or [newValueType]; the error for an OBJECT value
    that cannot be decoded, with the text of the value; or a TypeError
    or RangeError of the platform.  With an options object that does not
    set [validatePaths], no path is ever rejected.  (An exception is not
    the mark [Inherited], under which nothing is said.) *)
Theorem applyChanges_exceptions :
  ∀ obj documentChanges options obj' e,
    applyChanges obj documentChanges options = (obj', Some e) →
    (∀ key, e ≠ Inherited key) →
    ∃ change,
      In change (descriptors documentChanges)
      ∧ ((validates options = true
          ∧ isValidPropertyPath (propertyPath change) = false
          ∧ e = InvalidPathError (propertyPath change))
         ∨ (type change ≠ DELETE
            ∧ (newValue change = None ∨ newValueType change = None)
            ∧ e = Error ("newValue and newValueType are required for "
                         +:+ ChangeType_name (type change) +:+ " operations"))
         ∨ (∃ raw, type change ≠ DELETE ∧ newValue change = Some raw
                   ∧ newValueType change = Some OBJECT
                   ∧ e = Error ("Failed to parse object value: " +:+ raw))
         ∨ e = TypeError ∨ e = RangeError).
Proof.
  intros obj dcs options obj' e H Hexc.
  assert (Hflat : applyChanges obj dcs options
                  = for_each (fun o change =>
                                applyFieldChange o change (default default_options options))
                      obj (descriptors dcs)).
  { unfold applyChanges, applyChange, descriptors.
    apply (for_each_flat_map
             (fun o change => applyFieldChange o change (default default_options options))
             changes). }
  rewrite Hflat in H. apply for_each_error in H as (change & o & Hin & Hstep).
  exists change. split; [done|].
  apply applyFieldChange_error in Hstep.
  destruct Hstep as [H1 | [H2 | [H3 | [H4 | [H4 | [key H4]]]]]]; eauto 10.
  by destruct (Hexc key).
Qed.

Lemma applyChanges_exceptions_witness :
  ∃ change,
    In change (descriptors [Fixtures.change CREATE "123" (Some "x") (Some STRING)])
    ∧ ((validates None = true
        ∧ isValidPropertyPath (propertyPath change) = false
        ∧ InvalidPathError "123" = InvalidPathError (propertyPath change))
       ∨ (type change ≠ DELETE
          ∧ (newValue change = None ∨ newValueType change = None)
          ∧ InvalidPathError "123"
            = Error ("newValue and newValueType are required for "
                     +:+ ChangeType_name (type change) +:+ " operations"))
       ∨ (∃ raw, type change ≠ DELETE ∧ newValue change = Some raw
                 ∧ newValueType change = Some OBJECT
                 ∧ InvalidPathError "123"
                   = Error ("Failed to parse object value: " +:+ raw))
       ∨ InvalidPathError "123" = TypeError ∨ InvalidPathError "123" = RangeError).
Proof.
  apply (applyChanges_exceptions (VObj [])
           [Fixtures.change CREATE "123" (Some "x") (Some STRING)] None (VObj [])).
  - reflexivity.
  - discriminate.
Defined.

End ChangeErrors.

(* ===================================================================== *)
(** * JSON: a number that is printed is read back *)
(* ===================================================================== *)

Section NumberText.
Import Chars JS.
Open Scope Z_scope.

Lemma normal_nonzero m e : normal m e = true → m ≠ 0 → m mod 10 ≠ 0.
Proof.
  unfold normal. intros H Hm. rewrite (proj2 (Z.eqb_neq m 0) Hm) in H.
  apply negb_true_iff, Z.eqb_neq in H. done.
Qed.

Lemma normal_mk_finite m e : normal m e = true → mk_finite m e = Finite m e.
Proof.
  unfold normal, mk_finite. destruct (m =? 0) eqn:E.
  - intros He. apply Z.eqb_eq in E, He. by subst.
  - intros Hm. apply negb_true_iff in Hm. rewrite Nat.add_1_r. simpl. by rewrite Hm.
Qed.

Lemma strip_zeros_scale e : ∀ fuel m a,
  strip_zeros (e + fuel) (m * 10 ^ Z.of_nat e) a
  = strip_zeros fuel m (a + Z.of_nat e).
Proof.
  induction e as [|e IH]; intros fuel m a.
  - simpl. f_equal; lia.
  - replace (Z.of_nat (S e)) with (Z.succ (Z.of_nat e)) by lia.
    rewrite Z.pow_succ_r by lia. simpl strip_zeros.
    replace (m * (10 * 10 ^ Z.of_nat e)) with (m * 10 ^ Z.of_nat e * 10) by lia.
    rewrite Z.mod_mul by lia. simpl. rewrite Z.div_mul by lia.
    rewrite IH. f_equal. lia.
Qed.

Lemma mk_finite_scale_nat m (n : nat) :
  m ≠ 0 → m mod 10 ≠ 0 → mk_finite (m * 10 ^ Z.of_nat n) 0 = Finite m (Z.of_nat n).
Proof.
  intros Hm Hmod. unfold mk_finite.
  assert (Hpow : 0 < 10 ^ Z.of_nat n) by (apply Z.pow_pos_nonneg; lia).
  rewrite (proj2 (Z.eqb_neq _ 0)) by nia.
  assert (Hlog : Z.of_nat n ≤ Z.log2 (Z.abs (m * 10 ^ Z.of_nat n))).
  { rewrite <- (Z.log2_pow2 (Z.of_nat n)) at 1 by lia. apply Z.log2_le_mono.
    rewrite Z.abs_mul, (Z.abs_eq (10 ^ Z.of_nat n)) by lia.
    assert (2 ^ Z.of_nat n ≤ 10 ^ Z.of_nat n) by (apply Z.pow_le_mono_l; lia). nia. }
  set (F := (Z.to_nat (Z.log2 (Z.abs (m * 10 ^ Z.of_nat n))) + 1)%nat).
  replace F with (n + S (F - n - 1))%nat by lia.
  rewrite strip_zeros_scale. simpl.
  by rewrite (proj2 (Z.eqb_neq _ 0)) by done.
Qed.

Lemma mk_finite_scale m e :
  m ≠ 0 → m mod 10 ≠ 0 → 0 ≤ e → mk_finite (m * 10 ^ e) 0 = Finite m e.
Proof.
  intros Hm Hmod He. rewrite <- (Z2Nat.id e) by lia. by apply mk_finite_scale_nat.
Qed.

Lemma strip_zeros_opp fuel : ∀ m e,
  strip_zeros fuel (- m) e
  = ((- (strip_zeros fuel m e).1), (strip_zeros fuel m e).2).
Proof.
  induction fuel as [|f IH]; intros m e; simpl; [done|].
  destruct (m mod 10 =? 0) eqn:E.
  - apply Z.eqb_eq in E.
    rewrite (proj2 (Z.eqb_eq ((- m) mod 10) 0)) by (by apply Z.mod_opp_l_z).
    rewrite Z.div_opp_l_z by (lia || done). apply IH.
  - apply Z.eqb_neq in E.
    assert ((- m) mod 10 ≠ 0).
    { intros H. apply E. rewrite <- (Z.opp_involutive m). by apply Z.mod_opp_l_z. }
    by rewrite (proj2 (Z.eqb_neq ((- m) mod 10) 0)).
Qed.

Lemma mk_finite_opp m e :
  mk_finite (- m) e
  = match mk_finite m e with
    | Finite a b => Finite (- a) b
    | x => x
    end.
Proof.
  unfold mk_finite. destruct (m =? 0) eqn:E.
  - apply Z.eqb_eq in E. by subst.
  - apply Z.eqb_neq in E. rewrite (proj2 (Z.eqb_neq (- m) 0)) by lia.
    rewrite Z.abs_opp, strip_zeros_opp.
    by destruct (strip_zeros _ m e).
Qed.

(** *** The parts of a number literal *)

Lemma delimited_not_digit rest :
  delimited rest → match rest with c :: _ => is_digit c = false | [] => True end.
Proof. destruct rest as [|c r]; [done|]. by intros [-> | [-> | ->]]. Qed.

Lemma fraction_none l :
  match l with c :: _ => c ≠ "."%char | [] => True end → fraction l = Some ([], l).
Proof.
  destruct l as [|c r]; [done|]. intros Hc. unfold fraction.
  destruct c as [[] [] [] [] [] [] [] []]; done.
Qed.

Lemma exponent_none l :
  match l with c :: _ => c ≠ "e"%char ∧ c ≠ "E"%char | [] => True end →
  exponent l = Some (0, l).
Proof.
  destruct l as [|c r]; [done|]. intros [H1 H2]. unfold exponent.
  destruct (Ascii.eqb c "e") eqn:E1; [by apply Ascii.eqb_eq in E1|].
  destruct (Ascii.eqb c "E") eqn:E2; [by apply Ascii.eqb_eq in E2|]. done.
Qed.

Lemma delimited_fraction rest : delimited rest → fraction rest = Some ([], rest).
Proof.
  intros H. apply fraction_none. destruct rest as [|c r]; [done|].
  by destruct H as [-> | [-> | ->]].
Qed.

Lemma delimited_exponent rest : delimited rest → exponent rest = Some (0, rest).
Proof.
  intros H. apply exponent_none. destruct rest as [|c r]; [done|].
  by destruct H as [-> | [-> | ->]].
Qed.

Lemma minus_digit d l : is_digit d = true → minus (d :: l) = (false, d :: l).
Proof. intros H. by start_cases d H. Qed.

Lemma integer_part_ok_nonzero d l :
  d ≠ "0"%char → integer_part_ok (d :: l) = true.
Proof.
  intros H. unfold integer_part_ok.
  destruct d as [[] [] [] [] [] [] [] []]; done.
Qed.

Lemma fraction_digits fp rest :
  all_digits fp → fp ≠ [] →
  match rest with c :: _ => is_digit c = false | [] => True end →
  fraction ("."%char :: fp ++ rest) = Some (fp, rest).
Proof.
  intros Hd Hne Hr. unfold fraction. rewrite span_digits by done.
  by destruct fp.
Qed.

Lemma exponent_printed x rest :
  match rest with c :: _ => is_digit c = false | [] => True end →
  exponent ("e"%char :: (if x <? 0 then "-"%char else "+"%char)
            :: decimal_digits (Z.abs x) ++ rest)
  = Some (x, rest).
Proof.
  intros Hr. unfold exponent. simpl Ascii.eqb. cbv iota. simpl orb. cbv iota.
  pose proof (decimal_digits_all (Z.abs x) ltac:(lia)) as Hd.
  pose proof (decimal_digits_nonempty (Z.abs x) ltac:(lia)) as Hne.
  pose proof (digits_value_decimal (Z.abs x) ltac:(lia)) as Hv.
  destruct (Z.ltb_spec x 0); simpl sign; cbv beta iota zeta;
    rewrite span_digits by done;
    destruct (decimal_digits (Z.abs x)) as [|c cs]; try done;
    rewrite Hv; do 2 f_equal; lia.
Qed.

(** A minus sign in front of a literal negates the number. *)
Lemma parse_number_minus l :
  match l with d :: _ => is_digit d = true | [] => False end →
  parse_number ("-"%char :: l)
  = match parse_number l with
    | Some (Finite a b, r) => Some (Finite (- a) b, r)
    | other => other
    end.
Proof.
  destruct l as [|d l]; [done|]. intros Hd.
  unfold parse_number.
  change (minus ("-"%char :: d :: l)) with (true, d :: l).
  rewrite (minus_digit d l Hd). cbv beta iota zeta.
  destruct (span is_digit (d :: l)) as [ip r1].
  destruct (negb (integer_part_ok ip)); [done|].
  destruct (fraction r1) as [[fp r2]|]; [|done].
  destruct (exponent r2) as [[x r3]|]; [|done].
  rewrite mk_finite_opp.
  by destruct (mk_finite _ _) as [|[]|a b].
Qed.

(** *** The four notations of [Number::toString] *)

Lemma number_to_chars_negative m e :
  m < 0 → number_to_chars (Finite m e) = "-"%char :: number_to_chars (Finite (- m) e).
Proof.
  intros Hm. unfold number_to_chars.
  rewrite (proj2 (Z.eqb_neq m 0)), (proj2 (Z.eqb_neq (- m) 0)) by lia.
  rewrite (proj2 (Z.ltb_lt m 0)), (proj2 (Z.ltb_ge (- m) 0)) by lia.
  by rewrite Z.abs_opp.
Qed.

Lemma number_to_chars_digit m e :
  0 ≤ m → ∃ d l, number_to_chars (Finite m e) = d :: l ∧ is_digit d = true.
Proof.
  intros Hm. unfold number_to_chars.
  destruct (m =? 0) eqn:Em; [by eexists _, _|]. apply Z.eqb_neq in Em.
  rewrite (proj2 (Z.ltb_ge m 0)) by lia. simpl app.
  pose proof (decimal_digits_all (Z.abs m) ltac:(lia)) as Hd.
  pose proof (decimal_digits_nonempty (Z.abs m) ltac:(lia)) as Hne.
  destruct (decimal_digits (Z.abs m)) as [|d ds]; [done|].
  assert (is_digit d = true) by (by inv Hd).
  set (k := Z.of_nat (length (d :: ds))). set (n := k + e).
  destruct ((k <=? n) && (n <=? 21)); [by eexists _, _|].
  destruct ((0 <? n) && (n <=? 21)) eqn:C2.
  - apply andb_true_iff in C2 as [C2 _]. apply Z.ltb_lt in C2.
    destruct (Z.to_nat n) eqn:En; [lia|]. by eexists _, _.
  - destruct ((-6 <? n) && (n <=? 0)); [by eexists _, _|].
    destruct ds; by eexists _, _.
Qed.

Lemma parse_number_positive m e rest :
  0 < m → normal m e = true → delimited rest →
  parse_number (number_to_chars (Finite m e) ++ rest) = Some (Finite m e, rest).
Proof.
  intros Hm Hn Hrest.
  pose proof (normal_nonzero m e Hn ltac:(lia)) as Hmod.
  pose proof (delimited_not_digit rest Hrest) as Hnd.
  unfold number_to_chars.
  rewrite (proj2 (Z.eqb_neq m 0)), (proj2 (Z.ltb_ge m 0)) by lia. simpl app.
  rewrite Z.abs_eq by lia.
  pose proof (decimal_digits_all m ltac:(lia)) as Hd.
  pose proof (digits_value_decimal m ltac:(lia)) as Hv.
  destruct (decimal_digits m) as [|d ds] eqn:Eds.
  { by apply decimal_digits_nonempty in Eds; [|lia]. }
  assert (Hd0 : d ≠ "0"%char) by (eapply decimal_digits_head; [|exact Eds]; lia).
  assert (Hdd : is_digit d = true) by (by inv Hd).
  assert (Hds : all_digits ds) by (by inv Hd).
  set (k := Z.of_nat (length (d :: ds))). set (n := k + e).
  assert (Hk : k = Z.of_nat (length ds) + 1) by (unfold k; simpl length; lia).
  destruct ((k <=? n) && (n <=? 21)) eqn:Ca.
  { (* digits, then zeros *)
    apply andb_true_iff in Ca as [Ca _]. apply Z.leb_le in Ca.
    assert (He : 0 ≤ e) by lia.
    replace (n - k) with e by lia.
    set (zs := replicate (Z.to_nat e) "0"%char).
    assert (Hzs : all_digits zs).
    { apply Forall_forall. intros c Hc. by apply elem_of_replicate in Hc as [-> _]. }
    unfold parse_number. rewrite <- !app_comm_cons. rewrite minus_digit by done.
    rewrite (app_comm_cons _ _ d), (app_comm_cons _ _ d).
    rewrite span_digits; [|by apply Forall_app|done].
    rewrite <- !app_comm_cons, integer_part_ok_nonzero by done. simpl negb. cbv iota.
    rewrite delimited_fraction, delimited_exponent by done.
    rewrite app_nil_r, app_comm_cons, digits_value_app, Hv.
    unfold zs. rewrite digits_value_zeros, length_replicate, Z2Nat.id by lia.
    simpl length. rewrite Z.add_0_r, Z.sub_0_r.
    by rewrite mk_finite_scale by (lia || done). }
  destruct ((0 <? n) && (n <=? 21)) eqn:Cb.
  { (* digits, a point, digits *)
    apply andb_true_iff in Cb as [Cb Cb']. apply Z.ltb_lt in Cb. apply Z.leb_le in Cb'.
    assert (Hnk : n < k).
    { apply andb_false_iff in Ca as [Ca|Ca]; [apply Z.leb_gt in Ca | apply Z.leb_gt in Ca];
        lia. }
    destruct (Z.to_nat n) as [|n'] eqn:En; [lia|].
    assert (Hn' : (n' < length ds)%nat) by lia.
    simpl take. simpl drop. rewrite <- app_assoc, <- (app_comm_cons _ _ "."%char).
    unfold parse_number. rewrite <- (app_comm_cons _ _ d), minus_digit by done.
    rewrite (app_comm_cons _ _ d).
    rewrite span_digits; [|constructor; [done | by apply Forall_take]|done].
    rewrite integer_part_ok_nonzero by done. simpl negb. cbv iota.
    rewrite fraction_digits; [|by apply Forall_drop| |done].
    2:{ intros E. apply (f_equal length) in E. rewrite length_drop in E.
        simpl in E. lia. }
    rewrite delimited_exponent by done.
    rewrite <- app_comm_cons, take_drop, Hv, length_drop.
    replace (0 - Z.of_nat (length ds - n')) with e by lia.
    by rewrite normal_mk_finite. }
  destruct ((-6 <? n) && (n <=? 0)) eqn:Cc.
  { (* zero, a point, zeros, digits *)
    apply andb_true_iff in Cc as [_ Cc]. apply Z.leb_le in Cc.
    set (zs := replicate (Z.to_nat (- n)) "0"%char).
    assert (Hzs : all_digits zs).
    { apply Forall_forall. intros c Hc. by apply elem_of_replicate in Hc as [-> _]. }
    unfold parse_number. simpl app. simpl minus. cbv beta iota zeta.
    change (span is_digit ("0"%char :: "."%char :: (zs ++ d :: ds) ++ rest))
      with (["0"%char], "."%char :: (zs ++ d :: ds) ++ rest).
    cbv beta iota zeta. simpl negb. cbv iota.
    rewrite fraction_digits; [| by apply Forall_app | by destruct zs | done].
    rewrite delimited_exponent by done.
    rewrite app_assoc, digits_value_app, Hv.
    change (["0"%char] ++ zs) with (replicate 1 "0"%char ++ zs).
    unfold zs. rewrite <- replicate_add, digits_value_zeros.
    rewrite length_app, length_replicate. simpl length.
    replace (0 - Z.of_nat (Z.to_nat (- n) + S (length ds))) with e by lia.
    simpl. by rewrite normal_mk_finite. }
  (* exponent notation *)
  set (x := n - 1).
  destruct ds as [|d' ds'].
  - unfold parse_number. simpl app. rewrite minus_digit by done.
    change (span is_digit (d :: "e"%char :: ?l)) with
      (let '(a, b) := span is_digit ("e"%char :: l) in
       if is_digit d then (d :: a, b) else ([], d :: "e"%char :: l)).
    rewrite Hdd. simpl span. cbv beta iota zeta.
    rewrite integer_part_ok_nonzero by done. simpl negb. cbv iota.
    rewrite fraction_none by done.
    rewrite exponent_printed by done.
    simpl app. rewrite Hv. simpl length.
    assert (x - Z.of_nat 0 = e) as -> by (unfold x, n, k; simpl length; lia).
    by rewrite normal_mk_finite.
  - unfold parse_number. rewrite <- !app_comm_cons. rewrite minus_digit by done.
    change (span is_digit (d :: "."%char :: ?l)) with
      (let '(a, b) := span is_digit ("."%char :: l) in
       if is_digit d then (d :: a, b) else ([], d :: "."%char :: l)).
    rewrite Hdd. simpl span. cbv beta iota zeta.
    rewrite integer_part_ok_nonzero by done. simpl negb. cbv iota.
    rewrite <- app_assoc, (app_comm_cons ds' _ d'), <- !(app_comm_cons _ rest).
    rewrite fraction_digits; [|done|done|done].
    rewrite exponent_printed by done.
    simpl app. rewrite Hv.
    assert (x - Z.of_nat (length (d' :: ds')) = e) as ->
      by (unfold x, n, k; simpl length; lia).
    by rewrite normal_mk_finite.
Qed.

(** A finite number in normal form that is printed is read back. *)
Lemma parse_number_printed m e rest :
  normal m e = true → delimited rest →
  parse_number (number_to_chars (Finite m e) ++ rest) = Some (Finite m e, rest).
Proof.
  intros Hn Hrest.
  destruct (Z.lt_trichotomy m 0) as [Hneg | [-> | Hpos]].
  - rewrite number_to_chars_negative by done. rewrite <- app_comm_cons.
    assert (Hn' : normal (- m) e = true).
    { unfold normal in *. rewrite (proj2 (Z.eqb_neq m 0)) in Hn by lia.
      rewrite (proj2 (Z.eqb_neq (- m) 0)) by lia.
      apply negb_true_iff, Z.eqb_neq in Hn. apply negb_true_iff, Z.eqb_neq.
      intros H. apply Hn. rewrite <- (Z.opp_involutive m). by apply Z.mod_opp_l_z. }
    rewrite parse_number_minus.
    + rewrite parse_number_positive by (lia || done). by rewrite Z.opp_involutive.
    + destruct (number_to_chars_digit (- m) e ltac:(lia)) as (d & l & -> & Hd). done.
  - unfold normal in Hn. simpl in Hn. apply Z.eqb_eq in Hn as ->.
    pose proof (delimited_not_digit rest Hrest) as Hnd.
    unfold parse_number. simpl app. simpl minus. cbv beta iota zeta.
    change ("0"%char :: rest) with (["0"%char] ++ rest).
    rewrite span_digits; [|by repeat constructor|done].
    simpl negb. cbv iota.
    by rewrite delimited_fraction, delimited_exponent.
  - by apply parse_number_positive.
Qed.

(** *** [Number(s)] on the text of a number *)

Lemma trim_chars_plain l :
  Forall (fun c => is_whitespace c = false) l → trim_chars l = l.
Proof.
  intros H. apply trim_chars_id.
  - destruct l; [done | by inv H].
  - apply Forall_rev in H. destruct (rev l); [done | by inv H].
Qed.

Lemma minus_cases l :
  (∃ r, l = "-"%char :: r ∧ minus l = (true, r) ∧ sign l = (true, r))
  ∨ (minus l = (false, l)
     ∧ (sign l = (false, l) ∨ ∃ r, l = "+"%char :: r)).
Proof.
  destruct l as [|c r]; [right; split; [done | by left]|].
  destruct (Ascii.eqb c "-") eqn:E1.
  { apply Ascii.eqb_eq in E1 as ->. left. by exists r. }
  destruct (Ascii.eqb c "+") eqn:E2.
  { apply Ascii.eqb_eq in E2 as ->. right. split; [done|]. right. by exists r. }
  right. apply Ascii.eqb_neq in E1, E2.
  split; [|left]; destruct c as [[] [] [] [] [] [] [] []]; done.
Qed.

Lemma fraction_unsigned r1 fp r2 :
  fraction r1 = Some (fp, r2) →
  match r1 with
  | "."%char :: r => span is_digit r
  | _ => ([], r1)
  end = (fp, r2).
Proof.
  unfold fraction. destruct r1 as [|c r]; [by intros [= <- <-]|].
  destruct (Ascii.eqb c ".") eqn:E.
  - apply Ascii.eqb_eq in E as ->.
    destruct (span is_digit r) as [[|f fp'] r']; [done | by intros [= <- <-]].
  - apply Ascii.eqb_neq in E.
    destruct c as [[] [] [] [] [] [] [] []]; try done; by intros [= <- <-].
Qed.

Lemma exponent_part_end r2 x : exponent r2 = Some (x, []) → exponent_part r2 = Some x.
Proof.
  unfold exponent, exponent_part. destruct r2 as [|c r]; [by intros [= <-]|].
  destruct (Ascii.eqb c "e" || Ascii.eqb c "E"); [|done].
  destruct (sign r) as [neg r']. destruct (span is_digit r') as [[|d ds] r'']; [done|].
  by intros [= <- ->].
Qed.

Lemma span_head {A} (p : A → bool) l a b x :
  span p l = (x :: a, b) → ∃ l', l = x :: l' ∧ p x = true.
Proof.
  destruct l as [|y l']; simpl; [done|].
  destruct (p y) eqn:E; [|done]. destruct (span p l') as [a' b'].
  intros [= <- <- <-]. eauto.
Qed.

Lemma Number_of_literal l n :
  parse_number l = Some (n, []) →
  Forall (fun c => is_whitespace c = false) l →
  Number (str l) = n.
Proof.
  intros Hp Hws. unfold Number. rewrite chars_str, trim_chars_plain by done.
  assert (Hnd : non_decimal l = None).
  { destruct l as [|c [|p [|d ds]]]; try done;
      try (by destruct c as [[] [] [] [] [] [] [] []]).
    unfold non_decimal.
    destruct (Ascii.eqb c "0") eqn:E0.
    2:{ apply Ascii.eqb_neq in E0. by destruct c as [[] [] [] [] [] [] [] []]. }
    apply Ascii.eqb_eq in E0 as ->.
    destruct (Ascii.eqb p "x") eqn:E1; [apply Ascii.eqb_eq in E1 as ->; done|].
    destruct (Ascii.eqb p "X") eqn:E2; [apply Ascii.eqb_eq in E2 as ->; done|].
    destruct (Ascii.eqb p "o") eqn:E3; [apply Ascii.eqb_eq in E3 as ->; done|].
    destruct (Ascii.eqb p "O") eqn:E4; [apply Ascii.eqb_eq in E4 as ->; done|].
    destruct (Ascii.eqb p "b") eqn:E5; [apply Ascii.eqb_eq in E5 as ->; done|].
    destruct (Ascii.eqb p "B") eqn:E6; [apply Ascii.eqb_eq in E6 as ->; done|].
    done. }
  unfold parse_number in Hp.
  destruct (minus l) as [neg r0] eqn:Emin.
  destruct (span is_digit r0) as [ip r1] eqn:Espan.
  destruct (integer_part_ok ip) eqn:Eok; [|done]. simpl negb in Hp. cbv iota in Hp.
  destruct (fraction r1) as [[fp r2]|] eqn:Efr; [|done].
  destruct (exponent r2) as [[x r3]|] eqn:Eex; [|done].
  injection Hp as <- ->.
  destruct ip as [|d ip]; [done|].
  destruct (span_head _ _ _ _ _ Espan) as (r0' & -> & Hd).
  assert (Hsign : sign l = (neg, d :: r0')).
  { destruct (minus_cases l) as [(r & -> & Hm & Hs) | [Hm [Hs | (r & ->)]]].
    - rewrite Hm in Emin. by injection Emin as <- <-.
    - rewrite Hm in Emin. injection Emin as <- <-. done.
    - simpl in Emin. by injection Emin as <- <- <-. }
  destruct l as [|c l']; [done|]. rewrite Hnd.
  unfold signed_decimal. rewrite Hsign.
  rewrite decide_False
    by (intros E; apply (f_equal (hd "0"%char)) in E; simpl in E; by subst d).
  unfold unsigned_decimal. rewrite Espan.
  rewrite (fraction_unsigned _ _ _ Efr).
  by rewrite (exponent_part_end _ _ Eex).
Qed.

Lemma number_text_plain x :
  Forall (fun c => is_whitespace c = false) (number_to_chars x).
Proof.
  assert (Hdig : ∀ n, Forall (fun c => is_whitespace c = false)
                        (decimal_digits (Z.abs n))).
  { intros n. eapply Forall_impl; [apply decimal_digits_all; lia|].
    apply digit_not_whitespace. }
  assert (Hz : ∀ k, Forall (fun c => is_whitespace c = false) (replicate k "0"%char)).
  { intros k. apply Forall_forall. intros c Hc.
    by apply elem_of_replicate in Hc as [-> _]. }
  destruct x as [|[]|m e]; [by repeat constructor ..|].
  unfold number_to_chars. destruct (m =? 0); [by repeat constructor|].
  apply Forall_app. split; [destruct (m <? 0); by repeat constructor|].
  pose proof (Hdig m) as Hd.
  set (ds := decimal_digits (Z.abs m)) in *.
  set (k := Z.of_nat (length ds)). set (n := k + e).
  destruct ((k <=? n) && (n <=? 21)).
  { apply Forall_app. split; [done | apply Hz]. }
  destruct ((0 <? n) && (n <=? 21)).
  { apply Forall_app. split; [by apply Forall_take|].
    constructor; [done | by apply Forall_drop]. }
  destruct ((-6 <? n) && (n <=? 0)).
  { constructor; [done|]. constructor; [done|].
    apply Forall_app. split; [apply Hz | done]. }
  apply Forall_app. split.
  - destruct ds as [|d [|d' r]]; [done | done |].
    inv Hd. constructor; [done|]. by constructor.
  - constructor; [done|]. constructor; [by destruct (n - 1 <? 0)|]. apply Hdig.
Qed.

(** [String(n)] then [Number(s)] gives [n] back. *)
Lemma Number_printed x : normal_number x = true → Number (number_to_string x) = x.
Proof.
  destruct x as [|[]|m e]; [done ..|]. simpl. intros Hn.
  unfold number_to_string. apply Number_of_literal; [|apply number_text_plain].
  rewrite <- (app_nil_r (number_to_chars _)). by apply parse_number_printed.
Qed.

End NumberText.

(* ===================================================================== *)
(** * JSON: a value that is printed is read back *)
(* ===================================================================== *)

Section ValueText.
Import Chars JS.

Lemma join_cons sep p q ps :
  join sep (p :: q :: ps) = p ++ sep ++ join sep (q :: ps).
Proof. simpl. by rewrite <- app_assoc. Qed.

(** More fuel does no harm. *)
Lemma parse_value_more m l v rest :
  parse_value m l = Some (v, rest) →
  ∀ k, (length l ≤ k)%nat → parse_value k l = Some (v, rest).
Proof.
  intros H k Hk. destruct (proj1 (parse_fuel m) l v rest H) as [_ Hm].
  apply Hm. lia.
Qed.

Lemma parse_elements_more m l acc es rest :
  parse_elements m l acc = Some (es, rest) →
  ∀ k, (length l ≤ k)%nat → parse_elements k l acc = Some (es, rest).
Proof.
  intros H k Hk.
  destruct (proj1 (proj2 (parse_fuel m)) l acc es rest H) as [_ Hm].
  apply Hm. lia.
Qed.

Lemma parse_members_more m l acc ps rest :
  parse_members m l acc = Some (ps, rest) →
  ∀ k, (length l ≤ k)%nat → parse_members k l acc = Some (ps, rest).
Proof.
  intros H k Hk.
  destruct (proj2 (proj2 (parse_fuel m)) l acc ps rest H) as [_ Hm].
  apply Hm. lia.
Qed.

(** The text of a value of the class. *)
Lemma is_json_text v : is_json v = true → ∃ t, stringify_chars v = Some t.
Proof. destruct v as [| | [] | [|[]|m e] | | |]; simpl; try done; eauto. Qed.

(** A text starts with a character that is no white space and no closing
    bracket. *)
Lemma text_head v t :
  is_json v = true → stringify_chars v = Some t →
  ∃ c t', t = c :: t' ∧ is_json_space c = false ∧ c ≠ "]"%char ∧ c ≠ "}"%char.
Proof.
  destruct v as [| | [] | [|[]|m e] | s | ps | es ps];
    cbn [stringify_chars is_json]; try done;
    intros Hj Ht; try (injection Ht as <-; by eexists _, _).
  assert (t = number_to_chars (Finite m e)) as -> by congruence. clear Ht.
  destruct (Z.lt_trichotomy m 0) as [Hneg | [-> | Hpos]].
  - rewrite number_to_chars_negative by done. by eexists _, _.
  - by eexists _, _.
  - destruct (number_to_chars_digit m e ltac:(lia)) as (d & l & -> & Hd).
    exists d, l. split; [done|]. by start_cases d Hd.
Qed.

Lemma skip_ws_head c l : is_json_space c = false → skip_ws (c :: l) = c :: l.
Proof. intros H. simpl. by rewrite H. Qed.

Lemma eqb_false c d : c ≠ d → Ascii.eqb c d = false.
Proof. intros H. by apply Ascii.eqb_neq. Qed.

(** *** One value of each kind *)

Lemma parse_value_literal f rest :
  parse_value (S f) (chars "null" ++ rest) = Some (VNull, rest)
  ∧ parse_value (S f) (chars "true" ++ rest) = Some (VBool true, rest)
  ∧ parse_value (S f) (chars "false" ++ rest) = Some (VBool false, rest).
Proof. repeat split; vm_compute; reflexivity. Qed.

Lemma parse_value_string f cs rest :
  parse_value (S f) (quote cs ++ rest) = Some (VStr (str cs), rest).
Proof.
  unfold quote. rewrite <- app_comm_cons, <- app_assoc. simpl app.
  cbn [parse_value]. rewrite skip_ws_head by done.
  change (Ascii.eqb dquote "{") with false. change (Ascii.eqb dquote "[") with false.
  rewrite Ascii.eqb_refl. cbv iota.
  by rewrite parse_string_quote.
Qed.

Lemma parse_value_number f c l n r :
  is_digit c = true ∨ c = "-"%char →
  parse_number (c :: l) = Some (n, r) →
  parse_value (S f) (c :: l) = Some (VNum n, r).
Proof.
  intros Hc Hp. cbn [parse_value].
  assert (is_json_space c = false ∧ Ascii.eqb c "{" = false ∧ Ascii.eqb c "[" = false
          ∧ Ascii.eqb c dquote = false ∧ Ascii.eqb c "t" = false
          ∧ Ascii.eqb c "f" = false ∧ Ascii.eqb c "n" = false)
    as (H0 & H1 & H2 & H3 & H4 & H5 & H6).
  { destruct Hc as [Hc | ->]; [|done]. by start_cases c Hc. }
  rewrite skip_ws_head by done. by rewrite H1, H2, H3, H4, H5, H6, Hp.
Qed.

Lemma parse_value_array f c l es rest :
  is_json_space c = false → c ≠ "]"%char →
  parse_elements f (c :: l) [] = Some (es, rest) →
  parse_value (S f) ("["%char :: c :: l) = Some (VArr es [], rest).
Proof.
  intros Hs Hc Hp. cbn [parse_value]. rewrite skip_ws_head by done.
  change (Ascii.eqb "[" "{") with false. rewrite Ascii.eqb_refl. cbv iota.
  rewrite skip_ws_head by done. by rewrite (eqb_false _ _ Hc), Hp.
Qed.

Lemma parse_value_object f c l ps rest :
  is_json_space c = false → c ≠ "}"%char →
  parse_members f (c :: l) [] = Some (ps, rest) →
  parse_value (S f) ("{"%char :: c :: l) = Some (VObj ps, rest).
Proof.
  intros Hs Hc Hp. cbn [parse_value]. rewrite skip_ws_head by done.
  rewrite Ascii.eqb_refl. cbv iota.
  rewrite skip_ws_head by done. by rewrite (eqb_false _ _ Hc), Hp.
Qed.

Lemma parse_value_empty f rest :
  parse_value (S f) ("["%char :: "]"%char :: rest) = Some (VArr [] [], rest)
  ∧ parse_value (S f) ("{"%char :: "}"%char :: rest) = Some (VObj [], rest).
Proof. done. Qed.

(** *** The elements of an array *)

Lemma parse_elements_step f t x next c r acc :
  parse_value f (t ++ c :: r) = Some (x, c :: r) →
  (c = ","%char ∧ next = parse_elements f r (acc ++ [Some x]))
  ∨ (c = "]"%char ∧ next = Some (acc ++ [Some x], r)) →
  parse_elements (S f) (t ++ c :: r) acc = next.
Proof.
  intros Hv Hc. cbn [parse_elements]. rewrite Hv.
  destruct Hc as [[-> ->] | [-> ->]]; by rewrite skip_ws_head by done.
Qed.

Lemma delimited_comma r : delimited (","%char :: r).
Proof. by left. Qed.

Lemma delimited_bracket r : delimited ("]"%char :: r).
Proof. right. by left. Qed.

Lemma delimited_brace r : delimited ("}"%char :: r).
Proof. right. by right. Qed.

Lemma parse_elements_printed es :
  Forall (fun e => match e with
                   | Some x =>
                       is_json x = true →
                       ∀ t rest, stringify_chars x = Some t → delimited rest →
                                 ∃ m, parse_value m (t ++ rest) = Some (x, rest)
                   | None => True
                   end) es →
  forallb (fun e => match e with Some x => is_json x | None => false end) es = true →
  es ≠ [] →
  ∀ acc rest,
    ∃ m, parse_elements m
           (join [","%char]
              (map (fun e => match e with
                             | Some x => default (chars "null") (stringify_chars x)
                             | None => chars "null"
                             end) es)
            ++ "]"%char :: rest) acc
         = Some (acc ++ es, rest).
Proof.
  induction 1 as [|e es He Hes IH]; [done|]. intros Hj _ acc rest.
  cbn [forallb] in Hj. apply andb_true_iff in Hj as [Hx Hj].
  destruct e as [x|]; [|done].
  destruct (is_json_text x Hx) as [t Ht].
  destruct es as [|e2 es'].
  - cbn [map join flat_map]. rewrite Ht. cbn [default]. rewrite app_nil_r.
    destruct (He Hx t ("]"%char :: rest) Ht (delimited_bracket _)) as [m Hm].
    exists (S (length (t ++ "]"%char :: rest))).
    apply parse_elements_step with (x := x).
    + eapply parse_value_more; [exact Hm | done].
    + right. by split.
  - rewrite !map_cons, join_cons. rewrite Ht. cbn [default].
    rewrite <- !app_assoc. cbn [app].
    set (more := join _ _ ++ "]"%char :: rest).
    destruct (He Hx t (","%char :: more) Ht (delimited_comma _)) as [m Hm].
    destruct (IH Hj ltac:(done) (acc ++ [Some x]) rest) as [m' Hm'].
    rewrite map_cons in Hm'. fold more in Hm'.
    exists (S (length (t ++ ","%char :: more))).
    apply parse_elements_step with (x := x).
    + eapply parse_value_more; [exact Hm | done].
    + left. split; [done|].
      rewrite <- app_assoc in Hm'. symmetry.
      eapply parse_elements_more; [exact Hm'|].
      rewrite length_app. simpl. lia.
Qed.

(** *** The members of an object *)

Lemma prop_assign_fresh k v acc :
  existsb (String.eqb k) (map fst acc) = false → prop_assign k v acc = acc ++ [(k, v)].
Proof.
  induction acc as [|[k' v'] acc IH]; cbn [map fst existsb prop_assign app]; [done|].
  intros H. apply orb_false_iff in H as [Hk H].
  rewrite String.eqb_sym, Hk. by rewrite IH.
Qed.

Lemma distinct_app_cons a k b :
  distinct (a ++ k :: b) = true →
  existsb (String.eqb k) a = false ∧ distinct ((a ++ [k]) ++ b) = true.
Proof.
  intros H. split; [|by rewrite <- app_assoc].
  induction a as [|k' a IH]; [done|]. cbn [app distinct existsb] in *.
  apply andb_true_iff in H as [Hk' H]. apply negb_true_iff in Hk'.
  rewrite (IH H), orb_false_r.
  rewrite existsb_app in Hk'. apply orb_false_iff in Hk' as [_ Hk'].
  cbn [existsb] in Hk'. apply orb_false_iff in Hk' as [Hk' _].
  by rewrite String.eqb_sym.
Qed.

Lemma parse_members_step f k t x next c r acc :
  parse_value f (t ++ c :: r) = Some (x, c :: r) →
  (c = ","%char ∧ next = parse_members f r (prop_assign k x acc))
  ∨ (c = "}"%char ∧ next = Some (prop_assign k x acc, r)) →
  parse_members (S f) (quote (chars k) ++ ":"%char :: t ++ c :: r) acc = next.
Proof.
  intros Hv Hc. unfold quote. rewrite <- app_comm_cons, <- app_assoc. cbn [app].
  cbn [parse_members]. rewrite skip_ws_head by done.
  rewrite Ascii.eqb_refl. cbv iota. rewrite parse_string_quote.
  rewrite skip_ws_head by done. rewrite Ascii.eqb_refl. cbv iota.
  rewrite Hv. cbn [app rev]. rewrite str_chars.
  destruct Hc as [[-> ->] | [-> ->]]; by rewrite skip_ws_head by done.
Qed.

Lemma parse_members_printed ps :
  Forall (fun p =>
            is_json (snd p) = true →
            ∀ t rest, stringify_chars (snd p) = Some t → delimited rest →
                      ∃ m, parse_value m (t ++ rest) = Some (snd p, rest)) ps →
  forallb (fun p => is_json (snd p)) ps = true →
  ps ≠ [] →
  ∀ acc rest,
    distinct (map fst acc ++ map fst ps) = true →
    ∃ m, parse_members m
           (join [","%char]
              (flat_map (fun p => match stringify_chars (snd p) with
                                  | Some t => [quote (chars (fst p)) ++ ":"%char :: t]
                                  | None => []
                                  end) ps)
            ++ "}"%char :: rest) acc
         = Some (acc ++ ps, rest).
Proof.
  induction 1 as [|[k x] ps Hp Hps IH]; [done|]. intros Hj _ acc rest Hd.
  cbn [forallb snd] in Hj. apply andb_true_iff in Hj as [Hx Hj].
  cbn [snd fst] in Hp.
  destruct (is_json_text x Hx) as [t Ht].
  cbn [map fst] in Hd. apply distinct_app_cons in Hd as [Hfresh Hd].
  replace (acc ++ (k, x) :: ps) with (prop_assign k x acc ++ ps)
    by (rewrite prop_assign_fresh by done; by rewrite <- app_assoc).
  destruct ps as [|[k2 x2] ps'].
  - cbn [flat_map snd fst]. rewrite Ht. cbn [app join flat_map].
    rewrite !app_nil_r, <- app_assoc. cbn [app].
    destruct (Hp Hx t ("}"%char :: rest) Ht (delimited_brace _)) as [m Hm].
    exists (S (length (t ++ "}"%char :: rest))).
    apply parse_members_step with (x := x).
    + eapply parse_value_more; [exact Hm | done].
    + right. by split.
  - assert (Hx2 : is_json x2 = true).
    { cbn [forallb snd] in Hj. by apply andb_true_iff in Hj as [Hx2 _]. }
    destruct (is_json_text x2 Hx2) as [t2 Ht2].
    destruct (IH Hj ltac:(done) (prop_assign k x acc) rest) as [m' Hm'].
    { rewrite (prop_assign_fresh k x acc Hfresh), map_app. exact Hd. }
    cbn [flat_map snd fst] in Hm' |- *. rewrite Ht2 in Hm'. rewrite Ht, Ht2.
    cbn [app] in Hm' |- *.
    rewrite join_cons. rewrite <- !app_assoc. cbn [app].
    set (more := join _ _ ++ "}"%char :: rest) in *.
    destruct (Hp Hx t (","%char :: more) Ht (delimited_comma _)) as [m Hm].
    exists (S (length (t ++ ","%char :: more))).
    apply parse_members_step with (x := x).
    + eapply parse_value_more; [exact Hm | done].
    + left. split; [done|]. symmetry.
      eapply parse_members_more; [exact Hm'|].
      rewrite length_app. simpl. lia.
Qed.

(** *** A value *)

Lemma parse_printed : ∀ v,
  is_json v = true →
  ∀ t rest, stringify_chars v = Some t → delimited rest →
            ∃ m, parse_value m (t ++ rest) = Some (v, rest).
Proof.
  induction v as [| | b | n | s | ps Hps | es ps Hes Hps] using value_induction;
    intros Hj t rest Ht Hrest.
  - done.
  - injection Ht as <-. exists 1%nat. apply parse_value_literal.
  - destruct b; injection Ht as <-; exists 1%nat; apply parse_value_literal.
  - destruct n as [|neg|m e]; try done. cbn [is_json stringify_chars] in *.
    assert (t = number_to_chars (Finite m e)) as -> by congruence. clear Ht.
    pose proof (parse_number_printed m e rest Hj Hrest) as Hp.
    assert (Hhead : ∃ c l, number_to_chars (Finite m e) = c :: l
                           ∧ (is_digit c = true ∨ c = "-"%char)).
    { destruct (Z.lt_ge_cases m 0) as [Hneg|Hpos].
      - rewrite number_to_chars_negative by done. eexists _, _. split; [done|]. by right.
      - destruct (number_to_chars_digit m e Hpos) as (d & l & -> & Hd).
        eexists _, _. split; [done|]. by left. }
    destruct Hhead as (c & l & Hcl & Hc). rewrite Hcl in *.
    exists 1%nat. rewrite <- app_comm_cons in *. by apply parse_value_number.
  - injection Ht as <-. exists 1%nat.
    rewrite parse_value_string. by rewrite str_chars.
  - cbn [is_json] in Hj. apply andb_true_iff in Hj as [Hj _].
    apply andb_true_iff in Hj as [Hj Hd].
    cbn [stringify_chars] in Ht. injection Ht as <-.
    destruct ps as [|p ps].
    + exists 1%nat. apply parse_value_empty.
    + destruct (parse_members_printed (p :: ps) Hps Hj ltac:(done) [] rest Hd)
        as [m Hm].
      cbn [app] in Hm.
      rewrite <- app_comm_cons, <- app_assoc. cbn [app].
      set (L := join _ _ ++ "}"%char :: rest) in *.
      assert (HL : ∃ l, L = dquote :: l).
      { subst L. destruct p as [k x].
        assert (Hx : is_json x = true).
        { cbn [forallb snd] in Hj. by apply andb_true_iff in Hj as [Hx _]. }
        destruct (is_json_text x Hx) as [tx Htx].
        cbn [flat_map snd fst]. rewrite Htx. cbn [app join]. unfold quote.
        rewrite <- !app_comm_cons. eauto. }
      destruct HL as [l HL]. rewrite HL in *.
      exists (S m). by apply parse_value_object.
  - cbn [is_json] in Hj. apply andb_true_iff in Hj as [Hj _].
    apply andb_true_iff in Hj as [Hj Hnil].
    destruct ps; [|done].
    cbn [stringify_chars] in Ht. injection Ht as <-.
    destruct es as [|e es].
    + exists 1%nat. apply parse_value_empty.
    + destruct (parse_elements_printed (e :: es) Hes Hj ltac:(done) [] rest)
        as [m Hm].
      cbn [app] in Hm.
      rewrite <- app_comm_cons, <- app_assoc. cbn [app].
      set (L := join _ _ ++ "]"%char :: rest) in *.
      assert (HL : ∃ c l, L = c :: l ∧ is_json_space c = false ∧ c ≠ "]"%char).
      { subst L. destruct e as [x|]; [|done].
        assert (Hx : is_json x = true).
        { cbn [forallb] in Hj. by apply andb_true_iff in Hj as [Hx _]. }
        destruct (is_json_text x Hx) as [tx Htx].
        destruct (text_head x tx Hx Htx) as (c & tx' & -> & Hs & Hc & _).
        cbn [map join]. rewrite Htx. cbn [default app]. eauto 10. }
      destruct HL as (c & l & HL & Hs & Hc). rewrite HL in *.
      exists (S m). by apply parse_value_array.
Qed.

(** Every value of the class is printed by [JSON.stringify] and read
    back from the text by [JSON.parse]. *)
Lemma JSON_round_trip v :
  is_json v = true → ∃ s, JSON_stringify v = Some s ∧ JSON_parse s = Some v.
Proof.
  intros Hj. destruct (is_json_text v Hj) as [t Ht].
  exists (str t). unfold JSON_stringify. rewrite Ht. split; [done|].
  destruct (parse_printed v Hj t [] Ht I) as [m Hm]. rewrite app_nil_r in Hm.
  apply (parse_value_fuel (str t) m v []); [|done]. by rewrite chars_str.
Qed.

End ValueText.

(* ===================================================================== *)
(** * ChangeBuilder and DocumentChangeParser: what is built is what is applied *)
(* ===================================================================== *)

Section BuiltChanges.
Import Chars JS ObjectManipulator DocumentChangeParser PathSyntax.

Lemma valid_plain_path_keys path :
  isValidPropertyPath path = true → isArrayChange path = false →
  parsePath path ≠ [].
Proof.
  intros Hv Hna.
  destruct (valid_path_syntax path Hv)
    as (first & accs & Hf & Ha & _ & _ & [[-> _] | (x & _ & _ & Harr & _)]);
    [|congruence].
  by rewrite parsePath_write by (by apply valid_name_ok || by apply valid_accessors_ok).
Qed.

Lemma applyChange_single obj c now :
  applyChange obj (ChangeBuilder.wrapChanges [c] now) None
  = applyFieldChange obj c default_options.
Proof.
  unfold applyChange, ChangeBuilder.wrapChanges. simpl.
  by destruct (applyFieldChange obj c default_options) as [o [e|]].
Qed.

Lemma applyFieldChange_value obj c v t x :
  isValidPropertyPath (propertyPath c) = true →
  isArrayChange (propertyPath c) = false →
  type c ≠ DELETE → newValue c = Some v → newValueType c = Some t →
  parseValue v t = Returned x →
  applyFieldChange obj c default_options = setPropertyValue obj (propertyPath c) x.
Proof.
  intros Hv Hna Ht Hnv Hnt Hp. unfold applyFieldChange.
  rewrite Hv, Hna, Hnv, Hnt, Hp. simpl.
  by destruct (type c).
Qed.

Lemma read_back obj path x obj' d :
  isValidPropertyPath path = true → isArrayChange path = false →
  setPropertyValue obj path x = (obj', None) →
  last (parsePath path) ≠ Some "length" →
  getPropertyValue obj' path d = Returned (if nullish x then d else x).
Proof.
  intros Hv Hna Hset Hlast.
  assert (Hs : stored_at obj' (parsePath path) x).
  { eapply set_walk_stored; [by apply valid_plain_path_keys | done | exact Hset]. }
  destruct (nullish x) eqn:Hn.
  - by eapply stored_at_nullish_default.
  - by apply getPropertyValue_found.
Qed.







(** X20. What JSON cannot carry is lost: an object change built for
    [undefined] has no [newValue], and applying it throws the error for
    a missing value; an object change built for [NaN] or an infinity
    carries the text [null], and applying it stores [null]. *)
Theorem object_change_of_what_json_cannot_carry :
  ∀ obj path now,
    isValidPropertyPath path = true → isArrayChange path = false →
    applyChange obj (ChangeBuilder.createObjectChange path VUndefined now) None
    = (obj, Some (Error "newValue and newValueType are required for CREATE operations"))
    ∧ ∀ n, n = NaN ∨ (∃ negative, n = Infinity negative) →
           applyChange obj (ChangeBuilder.createObjectChange path (VNum n) now) None
           = setPropertyValue obj path VNull.
Proof.
  intros obj path now Hv Hna. split.
  - unfold ChangeBuilder.createObjectChange. rewrite applyChange_single.
    unfold applyFieldChange. simpl. by rewrite Hv.
  - intros n Hn. unfold ChangeBuilder.createObjectChange. rewrite applyChange_single.
    apply applyFieldChange_value with (v := "null") (t := OBJECT); try done.
    by destruct Hn as [-> | [neg ->]].
Qed.

Lemma object_change_of_what_json_cannot_carry_witness :
  applyChange (VObj []) (ChangeBuilder.createObjectChange "a" VUndefined 0) None
  = (VObj [],
     Some (Error "newValue and newValueType are required for CREATE operations"))
  ∧ applyChange (VObj []) (ChangeBuilder.createObjectChange "a" (VNum NaN) 0) None
    = setPropertyValue (VObj []) "a" VNull.
Proof.
  destruct (object_change_of_what_json_cannot_carry (VObj []) "a" 0 eq_refl eq_refl)
    as [H1 H2].
  split; [exact H1|]. apply H2. left. reflexivity.
Defined.

End BuiltChanges.

Section FluentBuilder.
Import Chars JS DocumentChangeParser.

Lemma applyChange_add obj b d options now now' opts :
  applyChange obj (ChangeBuilder.build options now (ChangeBuilder.add d b)) opts
  = match applyChange obj (ChangeBuilder.build options now b) opts with
    | (obj', None) => applyChange obj' (ChangeBuilder.wrapChanges [d] now') opts
    | (obj', Some e) => (obj', Some e)
    end.
Proof.
  unfold applyChange. cbn [ChangeBuilder.build ChangeBuilder.add ChangeBuilder.pending
                             ChangeBuilder.wrapChanges changes].
  by rewrite for_each_app.
Qed.

(** X26. The fluent builder applies in call order: the document change
    built after one more call of a method applies like the one built
    before the call, followed, if that raises nothing, by the document
    change that the static method of the same kind makes for the same
    arguments.  The [id], the creator and the time of the built change
    play no part, and a builder that has been reset builds a change that
    leaves the object as it is. *)
Theorem builder_applies_in_call_order :
  ∀ obj b options now now' opts,
    let built (method : ChangeBuilder.builder → ChangeBuilder.builder) :=
      applyChange obj (ChangeBuilder.build options now (method b)) opts in
    let after (change : DocumentChange) :=
      match applyChange obj (ChangeBuilder.build options now b) opts with
      | (obj', None) => applyChange obj' change opts
      | (obj', Some e) => (obj', Some e)
      end in
    (∀ path value, built (ChangeBuilder.createString path value)
                   = after (ChangeBuilder.createStringChange path value now'))
    ∧ (∀ path value, built (ChangeBuilder.updateString path value)
                     = after (ChangeBuilder.updateStringChange path value now'))
    ∧ (∀ path value, built (ChangeBuilder.createNumber path value)
                     = after (ChangeBuilder.createNumberChange path value now'))
    ∧ (∀ path value, built (ChangeBuilder.updateNumber path value)
                     = after (ChangeBuilder.updateNumberChange path value now'))
    ∧ (∀ path value, built (ChangeBuilder.createObject path value)
                     = after (ChangeBuilder.createObjectChange path value now'))
    ∧ (∀ path value, built (ChangeBuilder.updateObject path value)
                     = after (ChangeBuilder.updateObjectChange path value now'))
    ∧ (∀ path, built (ChangeBuilder.delete path)
               = after (ChangeBuilder.deleteChange path now'))
    ∧ built ChangeBuilder.reset = (obj, None).
Proof.
  intros obj b options now now' opts built after.
  repeat split; intros; try apply applyChange_add.
Qed.

End FluentBuilder.

(* ===================================================================== *)
(** * DiffIdentifier: what a reconciliation reports *)
(* ===================================================================== *)

Section ChangesResult.
Import Chars JS DiffIdentifier.

Lemma resurrects_named config existingItems it :
  named config it = false → resurrects config existingItems it = false.
Proof. unfold resurrects, named. by intros ->. Qed.

(** One turn of the loop on a record that resurrects nothing. *)
Lemma changes_step_result config existingItems st it :
  resurrects config existingItems it = false →
  changes_step config (existingMap existingItems (nameField config)) st it
  = Returned
      {| st_inserts := st_inserts st
                       ++ (if is_insert config existingItems it then [it] else []);
         st_updates := st_updates st
                       ++ (match update_of config existingItems it with
                           | Some u => [u]
                           | None => []
                           end);
         st_processedIds := (if named config it then {[id_of config it]} else ∅)
                            ∪ st_processedIds st;
         st_warned := st_warned st ++ (if named config it then [] else [it]) |}.
Proof.
  intros Hr. unfold changes_step, is_insert, update_of, existing_of, name_of, named in *.
  unfold resurrects in Hr. rewrite existingMap_lookup.
  destruct (ToBoolean (field it (nameField config))) eqn:Hn;
    cbn [negb andb] in *.
  - destruct (found_by_name _ _ _) as [old|] eqn:Hf.
    + destruct (configured (isDeletedField config)) as [f|].
      * rewrite Hr.
        destruct (deepEqual (VObj old) (VObj it) _); by rewrite !app_nil_r.
      * destruct (deepEqual (VObj old) (VObj it) _); by rewrite !app_nil_r.
    + by rewrite !app_nil_r.
  - rewrite !app_nil_r. do 2 f_equal. by rewrite union_empty_l_L.
Qed.

Lemma changes_loop_result config existingItems newItems : ∀ st,
  find (resurrects config existingItems) newItems = None →
  changes_loop config (existingMap existingItems (nameField config)) st newItems
  = Returned
      {| st_inserts := st_inserts st
                       ++ List.filter (is_insert config existingItems) newItems;
         st_updates := st_updates st ++ omap (update_of config existingItems) newItems;
         st_processedIds :=
           list_to_set (map (id_of config) (List.filter (named config) newItems))
           ∪ st_processedIds st;
         st_warned := st_warned st
                      ++ List.filter (fun it => negb (named config it)) newItems |}.
Proof.
  induction newItems as [|it rest IH]; intros st Hf.
  - simpl. rewrite !app_nil_r, union_empty_l_L. by destruct st.
  - simpl in Hf. destruct (resurrects config existingItems it) eqn:Hr; [done|].
    cbn [changes_loop]. rewrite changes_step_result by done.
    rewrite IH by done. cbn [st_inserts st_updates st_processedIds st_warned].
    cbn [List.filter omap]. f_equal.
    destruct (named config it) eqn:Hn; simpl.
    + f_equal.
      * rewrite <- app_assoc. by destruct (is_insert _ _ it).
      * rewrite <- app_assoc. by destruct (update_of _ _ it).
      * rewrite union_assoc_L. f_equal. apply union_comm_L.
      * by rewrite app_nil_r.
    + assert (is_insert config existingItems it = false) as ->
        by (unfold is_insert; by rewrite Hn).
      assert (update_of config existingItems it = None) as ->
        by (unfold update_of; by rewrite Hn).
      f_equal; rewrite ?app_nil_r; try done.
      * by rewrite union_empty_l_L.
      * by rewrite <- app_assoc.
Qed.

Lemma identifyChanges_result newItems existingItems config :
  find (resurrects config existingItems) newItems = None →
  identifyChanges newItems existingItems config
  = Returned
      {| inserts := List.filter (is_insert config existingItems) newItems;
         updates := omap (update_of config existingItems) newItems;
         processedIds :=
           list_to_set (map (id_of config) (List.filter (named config) newItems)) |}.
Proof.
  intros Hf. unfold identifyChanges, identifyChanges_state.
  rewrite changes_loop_result by done. simpl. f_equal. f_equal.
  by rewrite union_empty_r_L.
Qed.

Lemma identifyChanges_returned newItems existingItems config r :
  identifyChanges newItems existingItems config = Returned r →
  find (resurrects config existingItems) newItems = None.
Proof.
  intros Hr. unfold identifyChanges, identifyChanges_state in Hr.
  pose proof (changes_loop_spec config existingItems newItems
                {| st_inserts := []; st_updates := []; st_processedIds := ∅;
                   st_warned := [] |}) as H.
  destruct (find (resurrects config existingItems) newItems); [|done].
  by rewrite H in Hr.
Qed.

(** The processed ids are the ids of the new records that have a name. *)
Lemma unprocessed_imported config newItems it :
  unprocessed config
    (list_to_set (map (id_of config) (List.filter (named config) newItems))) it
  = negb (imported config newItems it).
Proof.
  unfold unprocessed, imported. f_equal.
  change (ToString (field it (idField config))) with (id_of config it).
  generalize (trim (id_of config it)) as i. intros i.
  induction newItems as [|new rest IH]; [done|].
  cbn [List.filter existsb]. destruct (named config new); cbn [andb orb].
  - cbn [map list_to_set]. rewrite <- IH.
    destruct (String.eqb_spec (id_of config new) i) as [->|Hne].
    + apply bool_decide_eq_true, elem_of_union_l. by apply elem_of_singleton.
    + destruct (bool_decide (i ∈ _)) eqn:E.
      * apply bool_decide_eq_true in E. by apply bool_decide_eq_true, elem_of_union_r.
      * apply bool_decide_eq_false in E. apply bool_decide_eq_false.
        intros [H%elem_of_singleton|H]%elem_of_union; [congruence | done].
  - exact IH.
Qed.

(** X21. What [identifyChanges] returns: the inserts are the new records
    that have a name which no existing record has, in the order of the
    new records; the updates pair each new record that has the name of
    an existing record from which it differs with that record (the last
    one of that name); the processed ids are the ids, as strings, of the
    new records that have a name.  A record without a name is in none
    of them. *)
Theorem identifyChanges_inserts_and_updates :
  ∀ newItems existingItems config r,
    identifyChanges newItems existingItems config = Returned r →
    inserts r = List.filter (is_insert config existingItems) newItems
    ∧ updates r = omap (update_of config existingItems) newItems
    ∧ processedIds r
      = list_to_set (map (id_of config) (List.filter (named config) newItems)).
Proof.
  intros newItems existingItems config r Hr.
  rewrite identifyChanges_result in Hr by (by eapply identifyChanges_returned).
  by injection Hr as <-.
Qed.

Lemma identifyChanges_inserts_and_updates_witness :
  let config := {| idField := "id"; nameField := "name";
                   isDeletedField := None; ignoreFields := Some ["seen"] |} in
  let a := [("id", VStr "1"); ("name", VStr "A"); ("seen", VBool false)] in
  let a' := [("id", VStr "1"); ("name", VStr "A"); ("seen", VBool true)] in
  let b := [("id", VStr "2"); ("name", VStr "B"); ("size", VStr "S")] in
  let b' := [("id", VStr "2"); ("name", VStr "B"); ("size", VStr "L")] in
  let c := [("id", VStr "3"); ("name", VStr "C")] in
  let nameless := [("id", VStr "4")] in
  let r := {| inserts := [c]; updates := [{| oldItem := b; newItem := b' |}];
              processedIds := list_to_set ["1"; "2"; "3"] |} in
  identifyChanges [a'; b'; c; nameless] [a; b] config = Returned r
  ∧ inserts r = List.filter (is_insert config [a; b]) [a'; b'; c; nameless]
  ∧ updates r = omap (update_of config [a; b]) [a'; b'; c; nameless].
Proof.
  intros config a a' b b' c nameless r.
  assert (Hr : identifyChanges [a'; b'; c; nameless] [a; b] config = Returned r)
    by (vm_compute; reflexivity).
  split; [exact Hr|].
  destruct (identifyChanges_inserts_and_updates [a'; b'; c; nameless] [a; b] config r Hr)
    as (H1 & H2 & _).
  split; [exact H1 | exact H2].
Defined.



End ChangesResult.

(* ===================================================================== *)
(** * DiffIdentifier: deepEqual *)
(* ===================================================================== *)

Section DeepEqual.
Import Chars JS DiffIdentifier.

Lemma includes_In l k : In k l → includes l k = true.
Proof.
  intros H. unfold includes. apply existsb_exists. exists k.
  split; [done | apply String.eqb_refl].
Qed.

(** The comparison of an object with a value, key by key. *)
Lemma deepEqual_object ps obj2 ign :
  deepEqual (VObj ps) obj2 ign
  = is_object obj2
    && Nat.eqb (length (List.filter (fun k => negb (includes ign k)) (map fst ps)))
         (length (List.filter (fun k => negb (includes ign k)) (keys obj2)))
    && forallb (fun p => if includes ign p.1 then true
                         else includes (List.filter (fun k => negb (includes ign k))
                                          (keys obj2)) p.1
                              && deepEqual p.2 (default VUndefined (GetOwn obj2 p.1)) ign)
         ps.
Proof.
  cbn [deepEqual strict_equal is_object negb orb keys].
  destruct (is_object obj2); cbn [negb andb]; [|done].
  destruct (Nat.eqb _ _); cbn [negb andb]; [|done].
  induction ps as [|[k v] ps IH]; [done|].
  cbn [forallb fst snd]. by rewrite <- IH.
Qed.

Lemma deepEqual_array_intro es obj2 ign :
  is_object obj2 = true →
  length (List.filter (fun k => negb (includes ign k)) (index_keys es 0))
  = length (List.filter (fun k => negb (includes ign k)) (keys obj2)) →
  (∀ i v, es !! i = Some (Some v) →
          includes ign (number_to_string (of_nat i)) = false →
          includes (List.filter (fun k => negb (includes ign k)) (keys obj2))
            (number_to_string (of_nat i)) = true
          ∧ deepEqual v (default VUndefined (GetOwn obj2 (number_to_string (of_nat i))))
              ign = true) →
  deepEqual (VArr es []) obj2 ign = true.
Proof.
  intros Ho Hl Hes.
  cbn [deepEqual strict_equal is_object negb orb keys].
  rewrite Ho, app_nil_r, Hl, Nat.eqb_refl. cbn [negb orb].
  rewrite andb_true_r.
  assert (Hes' : ∀ j v, es !! j = Some (Some v) →
            includes ign (number_to_string (of_nat (0 + j))) = false →
            includes (List.filter (fun k => negb (includes ign k)) (keys obj2))
              (number_to_string (of_nat (0 + j))) = true
            ∧ deepEqual v (default VUndefined
                             (GetOwn obj2 (number_to_string (of_nat (0 + j))))) ign = true)
    by exact Hes.
  clear Hes Hl. revert Hes'. generalize 0 as i0.
  induction es as [|[x|] es IH]; intros i0 Hes; [done| |]; cbv beta iota fix.
  - destruct (includes ign (number_to_string (of_nat i0))) eqn:Hi.
    + cbn [andb]. apply IH. intros j v Hj.
      replace (S i0 + j) with (i0 + S j) by lia. by apply Hes.
    + pose proof (Hes 0 x eq_refl) as H0. rewrite Nat.add_0_r in H0.
      destruct (H0 Hi) as [-> ->]. cbn [andb]. apply IH. intros j v Hj.
      replace (S i0 + j) with (i0 + S j) by lia. by apply Hes.
  - apply IH. intros j v Hj.
    replace (S i0 + j) with (i0 + S j) by lia. by apply Hes.
Qed.

Lemma index_keys_In es : ∀ i0 j v,
  es !! j = Some (Some v) → In (number_to_string (of_nat (i0 + j))) (index_keys es i0).
Proof.
  induction es as [|e es IH]; intros i0 j v Hj; [done|].
  destruct j as [|j].
  - injection Hj as ->. rewrite Nat.add_0_r. by left.
  - replace (i0 + S j) with (S i0 + j) by lia.
    destruct e; [right|]; by eapply IH.
Qed.

Lemma prop_lookup_distinct k v ps :
  distinct (map fst ps) = true → In (k, v) ps → prop_lookup k ps = Some v.
Proof.
  induction ps as [|[k' v'] ps IH]; [done|].
  cbn [map fst distinct prop_lookup]. intros [Hk Hd]%andb_true_iff [[= -> ->]|Hin].
  - by rewrite String.eqb_refl.
  - destruct (String.eqb_spec k' k) as [->|Hne]; [|by apply IH].
    apply negb_true_iff in Hk.
    assert (existsb (String.eqb k) (map fst ps) = true); [|congruence].
    apply existsb_exists. exists k. split; [|apply String.eqb_refl].
    apply in_map_iff. by exists (k, v).
Qed.

Lemma num_eq_refl m e : num_eq (Finite m e) (Finite m e) = true.
Proof.
  unfold num_eq, num_cmp_finite. by rewrite Z.compare_refl.
Qed.

(** A value that JSON can carry equals itself, whatever is ignored. *)
Lemma deepEqual_refl ign : ∀ v, is_json v = true → deepEqual v v ign = true.
Proof.
  induction v as [| | b | n | s | ps IH | es ps IHe IHp] using value_induction;
    intros Hj; try done.
  - by destruct b.
  - destruct n as [| |m e]; try done. cbn [deepEqual strict_equal].
    by rewrite num_eq_refl.
  - cbn [deepEqual strict_equal]. by rewrite String.eqb_refl.
  - cbn [is_json] in Hj. apply andb_true_iff in Hj as [[Hv Hd]%andb_true_iff Hi].
    rewrite deepEqual_object. cbn [is_object keys andb]. rewrite Nat.eqb_refl.
    cbn [andb]. apply forallb_forall. intros [k v] Hin. cbn [fst snd].
    destruct (includes ign k) eqn:Hk; [done|].
    rewrite includes_In.
    + cbn [andb GetOwn]. rewrite (prop_lookup_distinct k v ps) by done. cbn [default].
      rewrite Forall_forall in IH. apply (IH (k, v)); [by apply list_elem_of_In|].
      rewrite forallb_forall in Hv. by apply (Hv (k, v)).
    + apply filter_In. split; [|by rewrite Hk].
      apply in_map_iff. by exists (k, v).
  - cbn [is_json] in Hj. apply andb_true_iff in Hj as [[Hv Hp]%andb_true_iff Hl].
    destruct ps; [|done]. apply Z.ltb_lt in Hl.
    apply deepEqual_array_intro; [done | by cbn [keys]; rewrite app_nil_r|].
    intros i v Hi Hk. cbn [keys]. rewrite app_nil_r. split.
    + apply includes_In, filter_In. split; [|by rewrite Hk].
      by apply (index_keys_In es 0 i v).
    + pose proof (lookup_lt_Some _ _ _ Hi) as Hlt.
      cbn [GetOwn]. unfold of_nat. rewrite array_index_of_Z by lia.
      rewrite Nat2Z.id, Hi. cbn [elem_value default].
      rewrite Forall_forall in IHe. apply (IHe (Some v)); [by eapply list_elem_of_lookup_2|].
      rewrite forallb_forall in Hv. apply (Hv (Some v)).
      apply list_elem_of_In. by eapply list_elem_of_lookup_2.
Qed.

Lemma kept_keys_assign (f : string → bool) k x ps :
  f k = false →
  List.filter f (map fst (prop_assign k x ps)) = List.filter f (map fst ps).
Proof.
  intros Hk. induction ps as [|[k' v'] ps IH]; cbn [prop_assign map fst List.filter].
  - by rewrite Hk.
  - destruct (String.eqb_spec k' k) as [->|Hne]; cbn [map fst List.filter]; [done|].
    by rewrite IH.
Qed.

Lemma prop_lookup_In k v ps : prop_lookup k ps = Some v → In (k, v) ps.
Proof.
  induction ps as [|[k' v'] ps IH]; [done|]. cbn [prop_lookup].
  destruct (String.eqb_spec k' k) as [->|Hne].
  - intros [= ->]. by left.
  - intros H. right. by apply IH.
Qed.

Lemma deepEqual_NaN v ign : deepEqual (VNum NaN) v ign = false.
Proof. by destruct v as [| | | [] | | |]. Qed.

Lemma deepEqual_NaN_field old v ign k :
  prop_lookup k old = Some (VNum NaN) → includes ign k = false →
  deepEqual (VObj old) v ign = false.
Proof.
  intros Hk Hi. rewrite deepEqual_object.
  apply andb_false_iff. right.
  destruct (forallb _ old) eqn:E; [|done].
  rewrite forallb_forall in E. specialize (E _ (prop_lookup_In _ _ _ Hk)).
  cbn [fst snd] in E. by rewrite Hi, deepEqual_NaN, andb_false_r in E.
Qed.

(** X23. [deepEqual] on what JSON can carry: a value equals itself, and
    a record equals the record that differs from it in one ignored
    field, whether the field is changed or added. *)
Theorem deepEqual_ignored_field :
  ∀ v ps ignoreFields k x,
    is_json v = true → is_json (VObj ps) = true → includes ignoreFields k = true →
    deepEqual v v ignoreFields = true
    ∧ deepEqual (VObj ps) (VObj (prop_assign k x ps)) ignoreFields = true
    ∧ deepEqual (VObj (prop_assign k x ps)) (VObj ps) ignoreFields = true.
Proof.
  intros v ps ign k x Hv Hps Hk.
  split; [by apply deepEqual_refl|].
  cbn [is_json] in Hps. apply andb_true_iff in Hps as [[Hj Hd]%andb_true_iff _].
  assert (Hkeys : List.filter (fun k => negb (includes ign k))
                    (map fst (prop_assign k x ps))
                  = List.filter (fun k => negb (includes ign k)) (map fst ps))
    by (apply kept_keys_assign; by rewrite Hk).
  assert (Hnew : distinct (map fst (prop_assign k x ps)) = true).
  { clear Hj Hkeys. induction ps as [|[k' v'] ps IH]; [done|].
    cbn [map fst distinct] in Hd. apply andb_true_iff in Hd as [Hk' Hd].
    cbn [prop_assign]. destruct (String.eqb_spec k' k) as [->|Hne];
      cbn [map fst distinct]; [by rewrite Hk', Hd|].
    rewrite IH by done. rewrite andb_true_r.
    apply negb_true_iff in Hk'. apply negb_true_iff.
    destruct (existsb _ (map fst (prop_assign k x ps))) eqn:E; [|done].
    apply existsb_exists in E as (k1 & Hin & ->%String.eqb_eq).
    apply in_map_iff in Hin as ([k2 v2] & <- & Hin). cbn [fst] in *.
    assert (Hor : k2 = k ∨ In k2 (map fst ps)).
    { clear -Hin. induction ps as [|[k3 v3] ps IH]; cbn [prop_assign] in Hin.
      - destruct Hin as [[= <- _]|[]]. by left.
      - destruct (String.eqb_spec k3 k) as [->|Hne].
        + destruct Hin as [[= <- _]|Hin]; [by left|].
          right. right. apply in_map_iff. by exists (k2, v2).
        + destruct Hin as [[= <- _]|Hin]; [right; by left|].
          destruct (IH Hin) as [?|?]; [by left | right; by right]. }
    destruct Hor as [->|Hin']; [done|].
    assert (existsb (String.eqb k2) (map fst ps) = true); [|congruence].
    apply existsb_exists. exists k2. split; [done | apply String.eqb_refl]. }
  split.
  - rewrite deepEqual_object. cbn [is_object keys andb]. rewrite Hkeys, Nat.eqb_refl.
    cbn [andb]. apply forallb_forall. intros [k' v'] Hin. cbn [fst snd].
    destruct (includes ign k') eqn:Hk'; [done|].
    rewrite includes_In.
    + cbn [andb GetOwn]. rewrite prop_lookup_assign_ne by congruence.
      rewrite (prop_lookup_distinct k' v' ps) by done. cbn [default].
      apply deepEqual_refl. rewrite forallb_forall in Hj. by apply (Hj (k', v')).
    + apply filter_In. split; [|by rewrite Hk'].
      apply in_map_iff. by exists (k', v').
  - rewrite deepEqual_object. cbn [is_object keys andb]. rewrite Hkeys, Nat.eqb_refl.
    cbn [andb]. apply forallb_forall. intros [k' v'] Hin. cbn [fst snd].
    destruct (includes ign k') eqn:Hk'; [done|].
    assert (Hl : prop_lookup k' ps = Some v').
    { rewrite <- (prop_lookup_assign_ne k k' x ps) by congruence.
      by apply prop_lookup_distinct. }
    apply prop_lookup_In in Hl as Hin'.
    rewrite includes_In.
    + cbn [andb GetOwn]. rewrite Hl. cbn [default].
      apply deepEqual_refl. rewrite forallb_forall in Hj. by apply (Hj (k', v')).
    + apply filter_In. split; [|by rewrite Hk'].
      apply in_map_iff. by exists (k', v').
Qed.

Lemma deepEqual_ignored_field_witness :
  deepEqual (VObj [("name", VStr "A"); ("tags", VArr [Some (VStr "x")] [])])
    (VObj [("name", VStr "A"); ("tags", VArr [Some (VStr "x")] [])]) ["seen"] = true
  ∧ deepEqual (VObj [("name", VStr "A"); ("seen", VBool false)])
      (VObj [("name", VStr "A"); ("seen", VBool true)]) ["seen"] = true.
Proof.
  destruct (deepEqual_ignored_field
              (VObj [("name", VStr "A"); ("tags", VArr [Some (VStr "x")] [])])
              [("name", VStr "A"); ("seen", VBool false)] ["seen"] "seen" (VBool true)
              eq_refl eq_refl eq_refl) as (H1 & H2 & _).
  split; [exact H1 | exact H2].
Defined.

End DeepEqual.

(* ===================================================================== *)
(** * DiffIdentifier: records that are equal, and records that never are *)
(* ===================================================================== *)

Section SameDataset.
Import Chars JS DiffIdentifier.

Lemma filter_none {A} (f : A → bool) l :
  (∀ x, In x l → f x = false) → List.filter f l = [].
Proof.
  induction l as [|x l IH]; intros H; [done|]. cbn [List.filter].
  rewrite (H x) by (by left). apply IH. intros y Hy. apply H. by right.
Qed.

Lemma filter_all {A} (f : A → bool) l :
  (∀ x, In x l → f x = true) → List.filter f l = l.
Proof.
  induction l as [|x l IH]; intros H; [done|]. cbn [List.filter].
  rewrite (H x) by (by left). f_equal. apply IH. intros y Hy. apply H. by right.
Qed.

Lemma omap_none {A B} (f : A → option B) l :
  (∀ x, In x l → f x = None) → omap f l = [].
Proof.
  induction l as [|x l IH]; intros H; [done|]. cbn [omap list_omap].
  rewrite (H x) by (by left). apply IH. intros y Hy. apply H. by right.
Qed.

Lemma omap_In {A B} (f : A → option B) l x y :
  In x l → f x = Some y → In y (omap f l).
Proof.
  induction l as [|x' l IH]; intros Hin Hf; [done|]. cbn [omap list_omap].
  destruct Hin as [->|Hin].
  - rewrite Hf. by left.
  - destruct (f x'); [right|]; by apply IH.
Qed.

Lemma find_none_all {A} (f : A → bool) l :
  (∀ x, In x l → f x = false) → find f l = None.
Proof.
  induction l as [|x l IH]; intros H; [done|]. cbn [find].
  rewrite (H x) by (by left). apply IH. intros y Hy. apply H. by right.
Qed.

(** Among records of distinct names, a record is the one found under
    its name. *)
Lemma found_by_name_self config items it :
  distinct (map (name_of config) items) = true → In it items →
  existing_of config items it = Some it.
Proof.
  unfold existing_of, found_by_name. intros Hd Hin.
  assert (List.filter (fun it' => String.eqb (ToString (field it' (nameField config)))
                                    (name_of config it)) items = [it]) as ->; [|done].
  induction items as [|y items IH]; [done|].
  cbn [map distinct] in Hd. apply andb_true_iff in Hd as [Hy Hd].
  apply negb_true_iff in Hy. cbn [List.filter].
  assert (Hnone : ∀ z, In z items → String.eqb (name_of config y) (name_of config z) = false).
  { intros z Hz. destruct (String.eqb_spec (name_of config y) (name_of config z)) as [E|]; [|done].
    assert (existsb (String.eqb (name_of config y)) (map (name_of config) items) = true);
      [|congruence].
    apply existsb_exists. exists (name_of config z).
    split; [by apply in_map | by apply String.eqb_eq]. }
  destruct Hin as [->|Hin].
  - change (ToString (field it (nameField config))) with (name_of config it).
    rewrite String.eqb_refl. f_equal. apply filter_none. intros z Hz.
    rewrite String.eqb_sym. by apply Hnone.
  - change (ToString (field y (nameField config))) with (name_of config y).
    rewrite (Hnone it Hin). by apply IH.
Qed.



(** X25. [NaN] equals nothing: when the existing record found under the
    name of a new record holds [NaN] in a field that is not ignored, the
    new record, an object other than the existing one, is reported as an
    update, whatever it holds, also when it holds the same as the
    existing record. *)
Theorem identifyChanges_NaN_field :
  ∀ newItems existingItems config r it old k,
    identifyChanges newItems existingItems config = Returned r →
    In it newItems → named config it = true →
    existing_of config existingItems it = Some old →
    prop_lookup k old = Some (VNum NaN) →
    includes (default [] (ignoreFields config)) k = false →
    In {| oldItem := old; newItem := it |} (updates r).
Proof.
  intros newItems existingItems config r it old k Hr Hin Hn Hold Hk Hi.
  rewrite identifyChanges_result in Hr by (by eapply identifyChanges_returned).
  injection Hr as <-. cbn [updates].
  apply (omap_In _ _ it); [done|].
  unfold update_of. by rewrite Hn, Hold, (deepEqual_NaN_field old (VObj it) _ k).
Qed.

Lemma identifyChanges_NaN_field_witness :
  let config := {| idField := "id"; nameField := "name";
                   isDeletedField := None; ignoreFields := None |} in
  let a := [("id", VStr "1"); ("name", VStr "A"); ("ratio", VNum NaN)] in
  let r := {| inserts := []; updates := [{| oldItem := a; newItem := a |}];
              processedIds := list_to_set ["1"] |} in
  identifyChanges [a] [a] config = Returned r
  ∧ In {| oldItem := a; newItem := a |} (updates r).
Proof.
  intros config a r.
  assert (Hr : identifyChanges [a] [a] config = Returned r) by (vm_compute; reflexivity).
  split; [exact Hr|].
  apply (identifyChanges_NaN_field [a] [a] config r a a "ratio" Hr).
  - left. reflexivity.
  - reflexivity.
  - reflexivity.
  - reflexivity.
  - reflexivity.
Defined.

End SameDataset.
